(** * CHColumnToSparkRow: columnar block to Spark UnsafeRow serializer

    A shallow embedding of
    [cpp-ch/local-engine/Parser/CHColumnToSparkRow.cpp] and the proofs of
    its length-prediction, layout and packing properties.

    Conventions of the embedding.
    - Byte counts, cursors and offsets ([int64_t], [size_t]) are integers of
      [Z].  Additions and multiplications of byte counts are not wrapped:
      signed overflow is undefined in C++ and every such quantity is the size
      of data held in memory.  The bit-level operations (shifts, masks, the
      64-bit words of the null bitmaps) are written out on 64 bits.
    - Memory is a [list byte]; an address is an index into it.  A [memcpy]
      that leaves the buffer, an out-of-range [operator[]] and a column cell
      that does not have the column's native representation are outside
      defined behaviour and are reported as [UNDEFINED_BEHAVIOR].
    - C++ exceptions are the [Throw] results of an error monad. *)

From Stdlib Require Import ZArith List Lia Bool.
From Stdlib.Strings Require Import Byte.
Set Warnings "-register-all".
Import ListNotations.
Local Open Scope Z_scope.

(** ** Exceptions *)

(** [DB::ErrorCodes] raised by this file and by the [Field] accessors it
    calls, [std::out_of_range] of [vector::at], and the marker of undefined
    behaviour. *)
Inductive ErrorCode : Type :=
| LOGICAL_ERROR
| UNKNOWN_TYPE
| BAD_GET
| OUT_OF_RANGE
| UNDEFINED_BEHAVIOR.

Inductive Result (A : Type) : Type :=
| Ok (a : A)
| Throw (e : ErrorCode).
Arguments Ok {A} a.
Arguments Throw {A} e.

Definition bind {A B : Type} (m : Result A) (k : A -> Result B) : Result B :=
  match m with
  | Ok a => k a
  | Throw e => Throw e
  end.

Notation "x <- m ;; k" := (bind m (fun x => k))
  (at level 61, m at next level, right associativity).
Notation "' p <- m ;; k" := (bind m (fun p => k))
  (at level 61, p pattern, m at next level, right associativity).

Definition ErrorCode_eqb (a b : ErrorCode) : bool :=
  match a, b with
  | LOGICAL_ERROR, LOGICAL_ERROR => true
  | UNKNOWN_TYPE, UNKNOWN_TYPE => true
  | BAD_GET, BAD_GET => true
  | OUT_OF_RANGE, OUT_OF_RANGE => true
  | UNDEFINED_BEHAVIOR, UNDEFINED_BEHAVIOR => true
  | _, _ => false
  end.

(** ** Machine integers and bytes *)

(** [static_cast] to a signed or an unsigned integer type of [bits] bits
    (two's complement, modulo 2^bits); [to_int64 z] is the value an
    [int64_t] holds after an operation whose mathematical result is [z]. *)
Definition signed_cast (bits : Z) (z : Z) : Z :=
  (z + 2 ^ (bits - 1)) mod 2 ^ bits - 2 ^ (bits - 1).

Definition unsigned_cast (bits : Z) (z : Z) : Z := z mod 2 ^ bits.

Definition to_int64 (z : Z) : Z := signed_cast 64 z.

Definition Z_of_byte (b : byte) : Z := Z.of_N (Byte.to_N b).

Definition byte_of_Z (z : Z) : byte :=
  match Byte.of_N (Z.to_N (z mod 256)) with
  | Some b => b
  | None => x00
  end.

(** The [n] low bytes of [z], least significant first: what [memcpy] of
    [n] bytes reads from an integer object on a little-endian machine. *)
Fixpoint le_bytes (n : nat) (z : Z) : list byte :=
  match n with
  | O => []
  | S n' => byte_of_Z z :: le_bytes n' (Z.shiftr z 8)
  end.

(** The unsigned integer a little-endian byte string denotes. *)
Fixpoint le_value (bs : list byte) : Z :=
  match bs with
  | [] => 0
  | b :: bs' => Z_of_byte b + 256 * le_value bs'
  end.

(** ** Size arithmetic *)

(** The three functions compute on [int64_t].  They are given by the exact
    result of the arithmetic, which is what the code returns as long as no
    addition leaves the range of [int64_t]: for [num_fields] up to
    [INT64_MAX - 63] and [num_bytes] up to [INT64_MAX - 7].  The code
    applies them to numbers of columns and of elements and to sizes of
    data held in memory. *)
Definition calculateBitSetWidthInBytes (num_fields : Z) : Z :=
  Z.quot (num_fields + 63) 64 * 8.

Definition calculatedFixeSizePerRow (num_cols : Z) : Z :=
  calculateBitSetWidthInBytes num_cols + num_cols * 8.

Definition roundNumberOfBytesToNearestWord (num_bytes : Z) : Z :=
  let remainder := Z.land num_bytes 7 in
  num_bytes + Z.land (8 - remainder) 7.

(** ** Memory *)

(** [memcpy(mem + dst, src, |src|)]. *)
Definition memcpy (mem : list byte) (dst : Z) (src : list byte)
  : Result (list byte) :=
  if (0 <=? dst) && (dst + Z.of_nat (length src) <=? Z.of_nat (length mem))
  then Ok (firstn (Z.to_nat dst) mem ++ src
           ++ skipn (Z.to_nat dst + length src) mem)
  else Throw UNDEFINED_BEHAVIOR.

(** The [n] bytes at [mem + src]. *)
Definition load (mem : list byte) (src : Z) (n : nat) : Result (list byte) :=
  if (0 <=? src) && (src + Z.of_nat n <=? Z.of_nat (length mem))
  then Ok (firstn n (skipn (Z.to_nat src) mem))
  else Throw UNDEFINED_BEHAVIOR.

(** [v[i]] and [v[i] = a] on a [std::vector]. *)
Definition vector_at {A : Type} (v : list A) (i : nat) : Result A :=
  match nth_error v i with
  | Some a => Ok a
  | None => Throw UNDEFINED_BEHAVIOR
  end.

Fixpoint vector_set {A : Type} (v : list A) (i : nat) (a : A) : list A :=
  match v, i with
  | [], _ => []
  | _ :: v', O => a :: v'
  | x :: v', S i' => x :: vector_set v' i' a
  end.

(** [for (size_t i = start; i < start + n; ++i) body], on a state that the
    body updates or throws from. *)
Fixpoint for_loop {S : Type} (start : nat) (n : nat)
    (body : nat -> S -> Result S) (s : S) : Result S :=
  match n with
  | O => Ok s
  | Datatypes.S n' => s' <- body start s ;; for_loop (Datatypes.S start) n' body s'
  end.

(** ** Null bitmaps *)

Definition bitSet (mem : list byte) (bitmap : Z) (index : Z)
  : Result (list byte) :=
  let mask := to_int64 (Z.shiftl 1 (Z.land index 63)) in
  let word_offset := Z.shiftr index 6 * 8 in
  bs <- load mem (bitmap + word_offset) 8 ;;
  let word := to_int64 (le_value bs) in
  let value := Z.lor word mask in
  memcpy mem (bitmap + word_offset) (le_bytes 8 value).

Definition isBitSet (mem : list byte) (bitmap : Z) (index : Z) : Result bool :=
  let mask := to_int64 (Z.shiftl 1 (Z.land index 63)) in
  let word_offset := Z.shiftr index 6 * 8 in
  bs <- load mem (bitmap + word_offset) 8 ;;
  let word := to_int64 (le_value bs) in
  Ok (negb (Z.land word mask =? 0)).

(** ** Types of the columnar engine *)

(** The type descriptors the serializer distinguishes, and some it refuses
    ([DateTime], 128-bit integers, [Decimal256], [UUID]). *)
Inductive DataType : Type :=
| DataTypeNothing
| DataTypeUInt8 | DataTypeUInt16 | DataTypeUInt32 | DataTypeUInt64
| DataTypeUInt128
| DataTypeInt8 | DataTypeInt16 | DataTypeInt32 | DataTypeInt64
| DataTypeInt128
| DataTypeFloat32 | DataTypeFloat64
| DataTypeDate | DataTypeDate32 | DataTypeDateTime | DataTypeDateTime64
| DataTypeString | DataTypeFixedString (n : nat)
| DataTypeDecimal32 | DataTypeDecimal64 | DataTypeDecimal128
| DataTypeDecimal256
| DataTypeUUID
| DataTypeArray (nested : DataType)
| DataTypeTuple (elems : list DataType)
| DataTypeMap (key_type value_type : DataType)
| DataTypeNullable (nested : DataType)
| DataTypeLowCardinality (dictionary_type : DataType).

Definition removeNullable (type : DataType) : DataType :=
  match type with
  | DataTypeNullable nested => nested
  | _ => type
  end.

Definition removeLowCardinality (type : DataType) : DataType :=
  match type with
  | DataTypeLowCardinality dictionary_type => dictionary_type
  | _ => type
  end.

Definition removeLowCardinalityAndNullable (type : DataType) : DataType :=
  removeNullable (removeLowCardinality type).

(** The predicates of [WhichDataType]. *)
Module WhichDataType.

Definition isNothing t := match t with DataTypeNothing => true | _ => false end.
Definition isUInt8 t := match t with DataTypeUInt8 => true | _ => false end.
Definition isUInt16 t := match t with DataTypeUInt16 => true | _ => false end.
Definition isUInt32 t := match t with DataTypeUInt32 => true | _ => false end.
Definition isUInt64 t := match t with DataTypeUInt64 => true | _ => false end.
Definition isInt8 t := match t with DataTypeInt8 => true | _ => false end.
Definition isInt16 t := match t with DataTypeInt16 => true | _ => false end.
Definition isInt32 t := match t with DataTypeInt32 => true | _ => false end.
Definition isInt64 t := match t with DataTypeInt64 => true | _ => false end.
Definition isFloat32 t := match t with DataTypeFloat32 => true | _ => false end.
Definition isFloat64 t := match t with DataTypeFloat64 => true | _ => false end.
Definition isDate t := match t with DataTypeDate => true | _ => false end.
Definition isDate32 t := match t with DataTypeDate32 => true | _ => false end.
Definition isDateTime64 t :=
  match t with DataTypeDateTime64 => true | _ => false end.
Definition isDecimal32 t :=
  match t with DataTypeDecimal32 => true | _ => false end.
Definition isDecimal64 t :=
  match t with DataTypeDecimal64 => true | _ => false end.
Definition isDecimal128 t :=
  match t with DataTypeDecimal128 => true | _ => false end.
Definition isStringOrFixedString t :=
  match t with
  | DataTypeString | DataTypeFixedString _ => true
  | _ => false
  end.
Definition isArray t := match t with DataTypeArray _ => true | _ => false end.
Definition isMap t := match t with DataTypeMap _ _ => true | _ => false end.
Definition isTuple t := match t with DataTypeTuple _ => true | _ => false end.

Definition isNativeInt t := isInt8 t || isInt16 t || isInt32 t || isInt64 t.
Definition isNativeUInt t :=
  isUInt8 t || isUInt16 t || isUInt32 t || isUInt64 t.
Definition isFloat t := isFloat32 t || isFloat64 t.
Definition isDateOrDate32 t := isDate t || isDate32 t.

End WhichDataType.
Import WhichDataType.

(** ** Values *)

(** [DB::Field], the tagged value a column yields for one row.  Integers of
    every width are held as [UInt64] or [Int64] and floats as [Float64]
    (given by its binary64 image); a decimal is held by its integer value
    (the scale, which this file never reads, is left out). *)
Inductive Field : Type :=
| FNull
| FUInt64 (v : Z)
| FInt64 (v : Z)
| FFloat64 (bits : Z)
| FString (s : list byte)
| FArray (a : list Field)
| FTuple (t : list Field)
| FMap (m : list Field)
| FDecimal32 (v : Z)
| FDecimal64 (v : Z)
| FDecimal128 (v : Z).

Definition Array : Type := list Field.
Definition Tuple : Type := list Field.
Definition Map : Type := list Field.

Definition isNull (field : Field) : bool :=
  match field with FNull => true | _ => false end.

(** [Field::safeGet<T>]: [BAD_GET] unless the field holds the kind asked
    for; 64-bit signed and unsigned integers convert into each other. *)
Definition safeGet_UInt64 (field : Field) : Result Z :=
  match field with
  | FUInt64 v | FInt64 v => Ok (unsigned_cast 64 v)
  | _ => Throw BAD_GET
  end.

Definition safeGet_Int64 (field : Field) : Result Z :=
  match field with
  | FUInt64 v | FInt64 v => Ok (to_int64 v)
  | _ => Throw BAD_GET
  end.

Definition safeGet_Float64 (field : Field) : Result Z :=
  match field with FFloat64 bits => Ok bits | _ => Throw BAD_GET end.

Definition safeGet_String (field : Field) : Result (list byte) :=
  match field with FString s => Ok s | _ => Throw BAD_GET end.

Definition safeGet_Array (field : Field) : Result Array :=
  match field with FArray a => Ok a | _ => Throw BAD_GET end.

Definition safeGet_Tuple (field : Field) : Result Tuple :=
  match field with FTuple t => Ok t | _ => Throw BAD_GET end.

Definition safeGet_Map (field : Field) : Result Map :=
  match field with FMap m => Ok m | _ => Throw BAD_GET end.

Definition safeGet_Decimal32 (field : Field) : Result Z :=
  match field with FDecimal32 v => Ok v | _ => Throw BAD_GET end.

Definition safeGet_Decimal64 (field : Field) : Result Z :=
  match field with FDecimal64 v => Ok v | _ => Throw BAD_GET end.

Definition safeGet_Decimal128 (field : Field) : Result Z :=
  match field with FDecimal128 v => Ok v | _ => Throw BAD_GET end.

(** [static_cast<Float32>] of a [Float64], on the IEEE 754 images: round to
    nearest, ties to even; overflow gives an infinity, a NaN is quieted. *)
Definition Float32_of_Float64 (bits : Z) : Z :=
  let sign := Z.shiftl (Z.land (Z.shiftr bits 63) 1) 31 in
  let e := Z.land (Z.shiftr bits 52) 2047 in
  let m := Z.land bits (2 ^ 52 - 1) in
  if e =? 2047 then
    if m =? 0 then sign + 2139095040
    else sign + Z.lor 2143289344 (Z.shiftr m 29)
  else
    let M := if e =? 0 then m else m + 2 ^ 52 in
    let E := (if e =? 0 then 1 else e) - 1075 in
    if M =? 0 then sign
    else
      let k := Z.log2 M + 1 in
      let E' := Z.max (E + k - 24) (-149) in
      let s := E' - E in
      let q :=
        if s <=? 0 then Z.shiftl M (- s)
        else
          let q0 := Z.shiftr M s in
          let r := M mod 2 ^ s in
          let half := 2 ^ (s - 1) in
          if (half <? r) || ((r =? half) && Z.odd q0) then q0 + 1 else q0 in
      sign + Z.min ((E' + 149) * 2 ^ 23 + q) 2139095040.

(** Sequencing over the elements of a vector, with their indices: the body
    of [for (size_t i = 0; i < v.size(); ++i) ... v[i] ...]. *)
Fixpoint for_each {A S : Type} (i : nat) (v : list A)
    (body : nat -> A -> S -> Result S) (s : S) : Result S :=
  match v with
  | [] => Ok s
  | a :: v' => s' <- body i a s ;; for_each (Datatypes.S i) v' body s'
  end.

(** The keys and the values of a [Map]: each entry is a [Tuple] whose
    elements 0 and 1 are pushed onto [array_key] and [array_val]. *)
Fixpoint splitMap (map : Map) : Result (Array * Array) :=
  match map with
  | [] => Ok ([], [])
  | entry :: rest =>
      pair <- safeGet_Tuple entry ;;
      k <- vector_at pair 0 ;;
      v <- vector_at pair 1 ;;
      ' (array_key, array_val) <- splitMap rest ;;
      Ok (k :: array_key, v :: array_val)
  end.

(** ** Type classification and the length pass *)

Module BackingDataLengthCalculator.

Definition getArrayElementSize (nested_type : DataType) : Z :=
  let nested_which := removeNullable nested_type in
  if isUInt8 nested_which || isInt8 nested_which then 1
  else if isUInt16 nested_which || isInt16 nested_which
          || isDate nested_which then 2
  else if isUInt32 nested_which || isInt32 nested_which
          || isFloat32 nested_which || isDate32 nested_which then 4
  else if isUInt64 nested_which || isInt64 nested_which
          || isFloat64 nested_which || isDateTime64 nested_which
          || isDecimal32 nested_which || isDecimal64 nested_which then 8
  else 8.

Definition isFixedLengthDataType (type_without_nullable : DataType) : bool :=
  let which := type_without_nullable in
  isUInt8 which || isInt8 which || isUInt16 which || isInt16 which
  || isDate which || isUInt32 which || isInt32 which || isFloat32 which
  || isDate32 which || isDecimal32 which || isUInt64 which || isInt64 which
  || isFloat64 which || isDateTime64 which || isDecimal64 which
  || isNothing which.

Definition isVariableLengthDataType (type_without_nullable : DataType)
  : bool :=
  let which := type_without_nullable in
  isStringOrFixedString which || isDecimal128 which || isArray which
  || isMap which || isTuple which.

Definition isDataTypeSupportRawData (type_without_nullable : DataType)
  : bool :=
  let which := type_without_nullable in
  isFixedLengthDataType type_without_nullable
  || isStringOrFixedString which || isDecimal128 which.

Definition isBigEndianInSparkRow (type_without_nullable : DataType) : bool :=
  isDecimal128 type_without_nullable.

(** [bswap64] of both 64-bit items of the 16-byte decimal, then the swap of
    the two items.  The function asserts [buf.size() == 16]. *)
Definition swapDecimalEndianBytes (buf : list byte) : Result (list byte) :=
  if Nat.eqb (length buf) 16 then
    let item0 := rev (firstn 8 buf) in
    let item1 := rev (skipn 8 buf) in
    Ok (item1 ++ item0)
  else Throw UNDEFINED_BEHAVIOR.

Definition getOffsetAndSize (cursor size : Z) : Z :=
  Z.lor (to_int64 (Z.shiftl cursor 32)) size.

Definition extractOffset (offset_and_size : Z) : Z :=
  Z.shiftr offset_and_size 32.

Definition extractSize (offset_and_size : Z) : Z :=
  Z.land offset_and_size 4294967295.

(** The constructor: it keeps [removeNullable(type_)] and refuses a type
    that is neither fixed-length nor variable-length. *)
Definition ctor (type_ : DataType) : Result DataType :=
  let type_without_nullable := removeNullable type_ in
  if negb (isFixedLengthDataType type_without_nullable)
     && negb (isVariableLengthDataType type_without_nullable)
  then Throw UNKNOWN_TYPE
  else Ok type_without_nullable.

(** The array branch of [calculate]; [calculator] is
    [BackingDataLengthCalculator(nested_type).calculate]. *)
Definition calculateArray (nested_type : DataType)
    (calculator : Field -> Result Z) (array : Array) : Result Z :=
  let num_elems := Z.of_nat (length array) in
  let res := 8 + calculateBitSetWidthInBytes num_elems in
  let res :=
    res + roundNumberOfBytesToNearestWord
            (getArrayElementSize nested_type * num_elems) in
  _ <- ctor nested_type ;;
  for_each 0 array
    (fun _ elem res => n <- calculator elem ;; Ok (res + n)) res.

(** The map branch: the two arrays are measured by calculators built for
    [Array(key_type)] and [Array(value_type)]. *)
Definition calculateMap (key_type val_type : DataType)
    (calculator_key calculator_val : Field -> Result Z) (map : Map)
  : Result Z :=
  let res := 8 in
  ' (array_key, array_val) <- splitMap map ;;
  n_key <- calculateArray key_type calculator_key array_key ;;
  let res := res + n_key in
  n_val <- calculateArray val_type calculator_val array_val ;;
  Ok (res + n_val).

(** The tuple branch; [type_fields] pairs each element type with the
    [calculate] of the calculator built for it inside the loop. *)
Definition calculateTuple
    (type_fields : list (DataType * (Field -> Result Z))) (tuple : Tuple)
  : Result Z :=
  let num_fields := Z.of_nat (length type_fields) in
  let res := calculateBitSetWidthInBytes num_fields + 8 * num_fields in
  for_each 0 type_fields
    (fun i '(field_type, calculator) res =>
       _ <- ctor field_type ;;
       field_value <- vector_at tuple i ;;
       n <- calculator field_value ;;
       Ok (res + n)) res.

(** [calculate] of a calculator whose [type_without_nullable] is
    [type_without_nullable]. *)
Fixpoint calculate (type_without_nullable : DataType) (field : Field)
    {struct type_without_nullable} : Result Z :=
  let which := type_without_nullable in
  if isNull field then Ok 0
  else if isNativeInt which || isNativeUInt which || isFloat which
          || isDateOrDate32 which || isDateTime64 which
          || isDecimal32 which || isDecimal64 which then Ok 0
  else if isStringOrFixedString which then
    str <- safeGet_String field ;;
    Ok (roundNumberOfBytesToNearestWord (Z.of_nat (length str)))
  else if isDecimal128 which then Ok 16
  else
    match type_without_nullable with
    | DataTypeArray nested_type =>
        array <- safeGet_Array field ;;
        calculateArray nested_type
          (calculate (removeNullable nested_type)) array
    | DataTypeMap key_type val_type =>
        map <- safeGet_Map field ;;
        calculateMap key_type val_type
          (calculate (removeNullable key_type))
          (calculate (removeNullable val_type)) map
    | DataTypeTuple type_fields =>
        tuple <- safeGet_Tuple field ;;
        calculateTuple
          (List.map (fun t => (t, calculate (removeNullable t))) type_fields)
          tuple
    | _ => Throw UNKNOWN_TYPE
    end.

End BackingDataLengthCalculator.

(** The descriptor as the specification words it: the size is masked to its
    low 32 bits before it is merged under the shifted offset. *)
Definition getOffsetAndSize_spec (offset size : Z) : Z :=
  Z.lor (to_int64 (Z.shiftl offset 32)) (Z.land size 4294967295).

(** ** The fixed-length writer *)

Module FixedLengthDataWriter.

Import BackingDataLengthCalculator.

Definition ctor (type_ : DataType) : Result DataType :=
  let type_without_nullable := removeNullable type_ in
  if negb (isFixedLengthDataType type_without_nullable)
  then Throw UNKNOWN_TYPE
  else Ok type_without_nullable.

(** [write(field, buffer)]: [mem] is the memory [buffer] points into. *)
Definition write (type_without_nullable : DataType) (field : Field)
    (mem : list byte) (buffer : Z) : Result (list byte) :=
  let which := type_without_nullable in
  if isNull field then Ok mem
  else if isUInt8 which then
    value <- safeGet_UInt64 field ;;
    memcpy mem buffer (le_bytes 1 (unsigned_cast 8 value))
  else if isUInt16 which || isDate which then
    value <- safeGet_UInt64 field ;;
    memcpy mem buffer (le_bytes 2 (unsigned_cast 16 value))
  else if isUInt32 which || isDate32 which then
    value <- safeGet_UInt64 field ;;
    memcpy mem buffer (le_bytes 4 (unsigned_cast 32 value))
  else if isUInt64 which then
    value <- safeGet_UInt64 field ;;
    memcpy mem buffer (le_bytes 8 value)
  else if isInt8 which then
    value <- safeGet_Int64 field ;;
    memcpy mem buffer (le_bytes 1 (signed_cast 8 value))
  else if isInt16 which then
    value <- safeGet_Int64 field ;;
    memcpy mem buffer (le_bytes 2 (signed_cast 16 value))
  else if isInt32 which then
    value <- safeGet_Int64 field ;;
    memcpy mem buffer (le_bytes 4 (signed_cast 32 value))
  else if isInt64 which then
    value <- safeGet_Int64 field ;;
    memcpy mem buffer (le_bytes 8 value)
  else if isFloat32 which then
    value <- safeGet_Float64 field ;;
    memcpy mem buffer (le_bytes 4 (Float32_of_Float64 value))
  else if isFloat64 which then
    value <- safeGet_Float64 field ;;
    memcpy mem buffer (le_bytes 8 value)
  else if isDecimal32 which then
    value <- safeGet_Decimal32 field ;;
    let decimal := to_int64 (signed_cast 32 value) in
    memcpy mem buffer (le_bytes 8 decimal)
  else if isDecimal64 which || isDateTime64 which then
    value <- safeGet_Decimal64 field ;;
    let decimal := value in
    memcpy mem buffer (le_bytes 8 decimal)
  else Throw UNKNOWN_TYPE.

(** [unsafeWrite(const StringRef & str, char * buffer)]. *)
Definition unsafeWrite (str : list byte) (mem : list byte) (buffer : Z)
  : Result (list byte) :=
  memcpy mem buffer str.

End FixedLengthDataWriter.

(** ** The variable-length writer *)

(** What the write pass mutates: the bytes of the allocation at
    [buffer_address], and the vector [buffer_cursor]. *)
Record RowBuffer : Type := mkRowBuffer {
  memory : list byte;
  cursor : list Z
}.

Definition set_memory (st : RowBuffer) (mem : list byte) : RowBuffer :=
  mkRowBuffer mem (cursor st).

(** [buffer_cursor[row_idx] += n]. *)
Definition advance (st : RowBuffer) (row_idx : nat) (n : Z)
  : Result RowBuffer :=
  c <- vector_at (cursor st) row_idx ;;
  Ok (mkRowBuffer (memory st) (vector_set (cursor st) row_idx (c + n))).

Module VariableLengthDataWriter.

Import BackingDataLengthCalculator.

(** [write] of a writer object, as [writeArray], [writeMap] and
    [writeStruct] call it on the writers they build for nested types. *)
Definition Writer : Type :=
  nat -> Field -> Z -> RowBuffer -> Result (RowBuffer * Z).

Definition ctor (type_ : DataType) : Result DataType :=
  let type_without_nullable := removeNullable type_ in
  if negb (isVariableLengthDataType type_without_nullable)
  then Throw UNKNOWN_TYPE
  else Ok type_without_nullable.

Definition writeUnalignedBytes (offsets : list Z) (row_idx : nat)
    (src : list byte) (parent_offset : Z) (st : RowBuffer)
  : Result (RowBuffer * Z) :=
  let size := Z.of_nat (length src) in
  offset <- vector_at offsets row_idx ;;
  c <- vector_at (cursor st) row_idx ;;
  mem <- memcpy (memory st) (offset + c) src ;;
  let res := getOffsetAndSize (c - parent_offset) size in
  st <- advance (set_memory st mem) row_idx
          (roundNumberOfBytesToNearestWord size) ;;
  Ok (st, res).

Definition writeArray (nested_type : DataType) (writer : Writer)
    (offsets : list Z) (row_idx : nat) (array : Array) (parent_offset : Z)
    (st : RowBuffer) : Result (RowBuffer * Z) :=
  offset <- vector_at offsets row_idx ;;
  let num_elems := Z.of_nat (length array) in
  start <- vector_at (cursor st) row_idx ;;
  mem <- memcpy (memory st) (offset + start) (le_bytes 8 num_elems) ;;
  st <- advance (set_memory st mem) row_idx 8 ;;
  if num_elems =? 0 then Ok (st, getOffsetAndSize (start - parent_offset) 8)
  else
    let len_null_bitmap := calculateBitSetWidthInBytes num_elems in
    st <- advance st row_idx len_null_bitmap ;;
    let elem_size := getArrayElementSize nested_type in
    let len_values :=
      roundNumberOfBytesToNearestWord (elem_size * num_elems) in
    st <- advance st row_idx len_values ;;
    st <-
      (if isFixedLengthDataType (removeNullable nested_type) then
         fixed <- FixedLengthDataWriter.ctor nested_type ;;
         for_each 0 array
           (fun i elem st =>
              if isNull elem then
                mem <- bitSet (memory st) (offset + start + 8) (Z.of_nat i) ;;
                Ok (set_memory st mem)
              else
                mem <- FixedLengthDataWriter.write fixed elem (memory st)
                         (offset + start + 8 + len_null_bitmap
                          + Z.of_nat i * elem_size) ;;
                Ok (set_memory st mem)) st
       else
         _ <- ctor nested_type ;;
         for_each 0 array
           (fun i elem st =>
              if isNull elem then
                mem <- bitSet (memory st) (offset + start + 8) (Z.of_nat i) ;;
                Ok (set_memory st mem)
              else
                ' (st, offset_and_size) <- writer row_idx elem start st ;;
                mem <- memcpy (memory st)
                         (offset + start + 8 + len_null_bitmap
                          + Z.of_nat i * elem_size)
                         (le_bytes 8 offset_and_size) ;;
                Ok (set_memory st mem)) st) ;;
    c <- vector_at (cursor st) row_idx ;;
    Ok (st, getOffsetAndSize (start - parent_offset) (c - start)).

(** [key_writer] and [val_writer] are built for [Array(key_type)] and
    [Array(value_type)]; their [write] on an array is [writeArray], which
    in turn writes the elements through [writer_key] and [writer_val]. *)
Definition writeMap (key_type val_type : DataType)
    (writer_key writer_val : Writer)
    (offsets : list Z) (row_idx : nat) (map : Map) (parent_offset : Z)
    (st : RowBuffer) : Result (RowBuffer * Z) :=
  offset <- vector_at offsets row_idx ;;
  start <- vector_at (cursor st) row_idx ;;
  st <- advance st row_idx 8 ;;
  ' (key_array, val_array) <- splitMap map ;;
  ' (st, key_offset_and_size) <-
      writeArray key_type writer_key offsets row_idx key_array (start + 8) st ;;
  let key_array_size := extractSize key_offset_and_size in
  mem <- memcpy (memory st) (offset + start) (le_bytes 8 key_array_size) ;;
  let st := set_memory st mem in
  ' (st, _) <-
      writeArray val_type writer_val offsets row_idx val_array
        (start + 8 + key_array_size) st ;;
  c <- vector_at (cursor st) row_idx ;;
  Ok (st, getOffsetAndSize (start - parent_offset) (c - start)).

Definition writeStruct (field_types : list (DataType * Writer))
    (offsets : list Z) (row_idx : nat) (tuple : Tuple) (parent_offset : Z)
    (st : RowBuffer) : Result (RowBuffer * Z) :=
  offset <- vector_at offsets row_idx ;;
  start <- vector_at (cursor st) row_idx ;;
  let num_fields := Z.of_nat (length field_types) in
  if num_fields =? 0 then Ok (st, getOffsetAndSize (start - parent_offset) 0)
  else
    let len_null_bitmap := calculateBitSetWidthInBytes num_fields in
    st <- advance st row_idx len_null_bitmap ;;
    st <- advance st row_idx (num_fields * 8) ;;
    st <-
      for_each 0 field_types
        (fun i '(field_type, writer) st =>
           field_value <- vector_at tuple i ;;
           if isNull field_value then
             mem <- bitSet (memory st) (offset + start) (Z.of_nat i) ;;
             Ok (set_memory st mem)
           else if isFixedLengthDataType (removeNullable field_type) then
             fixed <- FixedLengthDataWriter.ctor field_type ;;
             mem <- FixedLengthDataWriter.write fixed field_value (memory st)
                      (offset + start + len_null_bitmap + Z.of_nat i * 8) ;;
             Ok (set_memory st mem)
           else
             _ <- ctor field_type ;;
             ' (st, offset_and_size) <- writer row_idx field_value start st ;;
             mem <- memcpy (memory st)
                      (offset + start + len_null_bitmap + 8 * Z.of_nat i)
                      (le_bytes 8 offset_and_size) ;;
             Ok (set_memory st mem)) st ;;
    c <- vector_at (cursor st) row_idx ;;
    Ok (st, getOffsetAndSize (start - parent_offset) (c - start)).

(** [write] of a writer whose [type_without_nullable] is
    [type_without_nullable]. *)
Fixpoint write (type_without_nullable : DataType) (offsets : list Z)
    (row_idx : nat) (field : Field) (parent_offset : Z) (st : RowBuffer)
    {struct type_without_nullable} : Result (RowBuffer * Z) :=
  let which := type_without_nullable in
  if isNull field then Ok (st, 0)
  else if isStringOrFixedString which then
    str <- safeGet_String field ;;
    writeUnalignedBytes offsets row_idx str parent_offset st
  else if isDecimal128 which then
    decimal128 <- safeGet_Decimal128 field ;;
    buf <- swapDecimalEndianBytes (le_bytes 16 decimal128) ;;
    writeUnalignedBytes offsets row_idx buf parent_offset st
  else
    match type_without_nullable with
    | DataTypeArray nested_type =>
        array <- safeGet_Array field ;;
        writeArray nested_type
          (fun r f p s => write (removeNullable nested_type) offsets r f p s)
          offsets row_idx array parent_offset st
    | DataTypeMap key_type val_type =>
        map <- safeGet_Map field ;;
        writeMap key_type val_type
          (fun r f p s => write (removeNullable key_type) offsets r f p s)
          (fun r f p s => write (removeNullable val_type) offsets r f p s)
          offsets row_idx map parent_offset st
    | DataTypeTuple field_types =>
        tuple <- safeGet_Tuple field ;;
        writeStruct
          (List.map
             (fun t =>
                (t, fun r f p s => write (removeNullable t) offsets r f p s))
             field_types)
          offsets row_idx tuple parent_offset st
    | _ => Throw UNKNOWN_TYPE
    end.

End VariableLengthDataWriter.

(** ** Columns and blocks *)

(** A column after [convertToFullIfNeeded]: the cells of a full column, or a
    [ColumnNullable] with its null map and its nested column.  A cell is
    given by the [Field] that [operator[]] yields for it. *)
Inductive IColumn : Type :=
| ColumnFull (cells : list Field)
| ColumnNullable (null_map : list bool) (nested_column : list Field).

Record ColumnWithTypeAndName : Type := mkColumn {
  column : IColumn;
  type : DataType
}.

Definition Block : Type := list ColumnWithTypeAndName.

(** [nullptr] is [None]. *)
Definition MaskVector : Type := option (list nat).

Definition isColumnNullable (col : IColumn) : bool :=
  match col with ColumnNullable _ _ => true | ColumnFull _ => false end.

Definition convertToFullIfNeeded (col : IColumn) : IColumn := col.

Definition column_size (col : IColumn) : nat :=
  match col with
  | ColumnFull cells => length cells
  | ColumnNullable null_map _ => length null_map
  end.

(** [IColumn::operator[]]. *)
Definition column_get (col : IColumn) (n : nat) : Result Field :=
  match col with
  | ColumnFull cells => vector_at cells n
  | ColumnNullable null_map nested_column =>
      is_null <- vector_at null_map n ;;
      if (is_null : bool) then Ok FNull else vector_at nested_column n
  end.

(** The bytes [getDataAt] exposes for a cell of a column whose values have
    type [type_without_nullable]: the value in its native width, least
    significant byte first, or the characters of a string.  A column is
    given by the [Field] of each cell, and the bytes are rebuilt from it.
    For [Float32] they are those of the field narrowed to binary32: the
    stored bytes, except that a signalling NaN, which the field does not
    tell from a quiet one, comes out quiet.  Statements about the
    bytes stored for a cell of fixed length leave [Float32] out. *)
Definition native_bytes (type_without_nullable : DataType) (cell : Field)
  : Result (list byte) :=
  match type_without_nullable, cell with
  | DataTypeNothing, _ => Ok []
  | DataTypeUInt8, FUInt64 v => Ok (le_bytes 1 v)
  | DataTypeUInt16, FUInt64 v => Ok (le_bytes 2 v)
  | DataTypeUInt32, FUInt64 v => Ok (le_bytes 4 v)
  | DataTypeUInt64, FUInt64 v => Ok (le_bytes 8 v)
  | DataTypeInt8, FInt64 v => Ok (le_bytes 1 v)
  | DataTypeInt16, FInt64 v => Ok (le_bytes 2 v)
  | DataTypeInt32, FInt64 v => Ok (le_bytes 4 v)
  | DataTypeInt64, FInt64 v => Ok (le_bytes 8 v)
  | DataTypeFloat32, FFloat64 bits => Ok (le_bytes 4 (Float32_of_Float64 bits))
  | DataTypeFloat64, FFloat64 bits => Ok (le_bytes 8 bits)
  | DataTypeDate, FUInt64 v => Ok (le_bytes 2 v)
  | DataTypeDate32, FInt64 v => Ok (le_bytes 4 v)
  | DataTypeDateTime64, FDecimal64 v => Ok (le_bytes 8 v)
  | DataTypeDecimal32, FDecimal32 v => Ok (le_bytes 4 v)
  | DataTypeDecimal64, FDecimal64 v => Ok (le_bytes 8 v)
  | DataTypeDecimal128, FDecimal128 v => Ok (le_bytes 16 v)
  | DataTypeString, FString s => Ok s
  | DataTypeFixedString n, FString s =>
      if Nat.eqb (length s) n then Ok s else Throw UNDEFINED_BEHAVIOR
  | _, _ => Throw UNDEFINED_BEHAVIOR
  end.

(** [getDataAt] on the cells of a full column. *)
Definition getDataAt (type_without_nullable : DataType) (cells : list Field)
    (n : nat) : Result (list byte) :=
  cell <- vector_at cells n ;;
  native_bytes type_without_nullable cell.

(** [col.column->getDataAt(n)]; a [ColumnNullable] has no data of its own. *)
Definition column_getDataAt (type_without_nullable : DataType)
    (col : IColumn) (n : nat) : Result (list byte) :=
  match col with
  | ColumnFull cells => getDataAt type_without_nullable cells n
  | ColumnNullable _ _ => Throw UNDEFINED_BEHAVIOR
  end.

(** [checkAndGetColumn<ColumnNullable>] on a column reference: a bad cast
    throws. *)
Definition checkAndGetColumn_ColumnNullable (col : IColumn)
  : Result (list bool * list Field) :=
  match col with
  | ColumnNullable null_map nested_column => Ok (null_map, nested_column)
  | ColumnFull _ => Throw LOGICAL_ERROR
  end.

Definition columns (block : Block) : nat := length block.

(** [Block::rows]: the size of the first column. *)
Definition rows (block : Block) : nat :=
  match block with
  | [] => O
  | elem :: _ => column_size (column elem)
  end.

Definition getDataTypes (block : Block) : list DataType := List.map type block.

(** [masks == nullptr ? i : masks->at(i)]. *)
Definition row_index (masks : MaskVector) (i : nat) : Result nat :=
  match masks with
  | None => Ok i
  | Some m =>
      match nth_error m i with
      | Some row_idx => Ok row_idx
      | None => Throw OUT_OF_RANGE
      end
  end.

(** The block made of the rows [M[0], M[1], ...] of [block]. *)
Definition project_cells {A : Type} (cells : list A) (M : list nat) : list A :=
  flat_map (fun r => match nth_error cells r with
                     | Some a => [a]
                     | None => []
                     end) M.

Definition project_column (col : IColumn) (M : list nat) : IColumn :=
  match col with
  | ColumnFull cells => ColumnFull (project_cells cells M)
  | ColumnNullable null_map nested_column =>
      ColumnNullable (project_cells null_map M) (project_cells nested_column M)
  end.

Definition project (block : Block) (M : list nat) : Block :=
  List.map (fun col => mkColumn (project_column (column col) M) (type col))
    block.

(** ** Writing one column into every row (phase 2) *)

Section WriteColumn.

Import BackingDataLengthCalculator.

Variable offsets : list Z.
Variable masks : MaskVector.

(** [memcpy(buffer_address + offsets[i] + field_offset, &offset_and_size, 8)]. *)
Definition store_offset_and_size (field_offset : Z) (i : nat)
    (offset_and_size : Z) (st : RowBuffer) : Result RowBuffer :=
  offset <- vector_at offsets i ;;
  mem <- memcpy (memory st) (offset + field_offset)
           (le_bytes 8 offset_and_size) ;;
  Ok (set_memory st mem).

(** [bitSet(buffer_address + offsets[i], col_index)]. *)
Definition set_null_bit (col_index : Z) (i : nat) (st : RowBuffer)
  : Result RowBuffer :=
  offset <- vector_at offsets i ;;
  mem <- bitSet (memory st) offset col_index ;;
  Ok (set_memory st mem).

Definition writeFixedLengthNonNullableValue (field_offset : Z)
    (col : ColumnWithTypeAndName) (num_rows : nat) (st : RowBuffer)
  : Result RowBuffer :=
  writer <- FixedLengthDataWriter.ctor (type col) ;;
  if isDecimal32 writer then
    for_loop 0 num_rows
      (fun i st =>
         row_idx <- row_index masks i ;;
         field <- column_get (column col) row_idx ;;
         offset <- vector_at offsets i ;;
         mem <- FixedLengthDataWriter.write writer field (memory st)
                  (offset + field_offset) ;;
         Ok (set_memory st mem)) st
  else
    for_loop 0 num_rows
      (fun i st =>
         row_idx <- row_index masks i ;;
         str <- column_getDataAt writer (column col) row_idx ;;
         offset <- vector_at offsets i ;;
         mem <- FixedLengthDataWriter.unsafeWrite str (memory st)
                  (offset + field_offset) ;;
         Ok (set_memory st mem)) st.

Definition writeFixedLengthNullableValue (field_offset : Z)
    (col : ColumnWithTypeAndName) (col_index : Z) (num_rows : nat)
    (st : RowBuffer) : Result RowBuffer :=
  ' (null_map, nested_column) <- checkAndGetColumn_ColumnNullable (column col) ;;
  writer <- FixedLengthDataWriter.ctor (type col) ;;
  if isDecimal32 writer then
    for_loop 0 num_rows
      (fun i st =>
         row_idx <- row_index masks i ;;
         is_null <- vector_at null_map row_idx ;;
         if (is_null : bool) then set_null_bit col_index i st
         else
           field <- column_get (column col) row_idx ;;
           offset <- vector_at offsets i ;;
           mem <- FixedLengthDataWriter.write writer field (memory st)
                    (offset + field_offset) ;;
           Ok (set_memory st mem)) st
  else
    for_loop 0 num_rows
      (fun i st =>
         row_idx <- row_index masks i ;;
         is_null <- vector_at null_map row_idx ;;
         if (is_null : bool) then set_null_bit col_index i st
         else
           str <- getDataAt writer nested_column row_idx ;;
           offset <- vector_at offsets i ;;
           mem <- FixedLengthDataWriter.unsafeWrite str (memory st)
                    (offset + field_offset) ;;
           Ok (set_memory st mem)) st.

Definition writeVariableLengthNonNullableValue (field_offset : Z)
    (col : ColumnWithTypeAndName) (num_rows : nat) (st : RowBuffer)
  : Result RowBuffer :=
  let type_without_nullable := removeNullable (type col) in
  let use_raw_data := isDataTypeSupportRawData type_without_nullable in
  let big_endian := isBigEndianInSparkRow type_without_nullable in
  writer <- VariableLengthDataWriter.ctor (type col) ;;
  if use_raw_data then
    if negb big_endian then
      for_loop 0 num_rows
        (fun i st =>
           row_idx <- row_index masks i ;;
           str <- column_getDataAt type_without_nullable (column col) row_idx ;;
           ' (st, offset_and_size) <-
               VariableLengthDataWriter.writeUnalignedBytes offsets i str 0 st ;;
           store_offset_and_size field_offset i offset_and_size st) st
    else
      for_loop 0 num_rows
        (fun i st =>
           row_idx <- row_index masks i ;;
           str_view <-
             column_getDataAt type_without_nullable (column col) row_idx ;;
           buf <- swapDecimalEndianBytes str_view ;;
           ' (st, offset_and_size) <-
               VariableLengthDataWriter.writeUnalignedBytes offsets i buf 0 st ;;
           store_offset_and_size field_offset i offset_and_size st) st
  else
    for_loop 0 num_rows
      (fun i st =>
         row_idx <- row_index masks i ;;
         field <- column_get (column col) row_idx ;;
         ' (st, offset_and_size) <-
             VariableLengthDataWriter.write writer offsets i field 0 st ;;
         store_offset_and_size field_offset i offset_and_size st) st.

Definition writeVariableLengthNullableValue (field_offset : Z)
    (col : ColumnWithTypeAndName) (col_index : Z) (num_rows : nat)
    (st : RowBuffer) : Result RowBuffer :=
  ' (null_map, nested_column) <- checkAndGetColumn_ColumnNullable (column col) ;;
  let type_without_nullable := removeNullable (type col) in
  let use_raw_data := isDataTypeSupportRawData type_without_nullable in
  let big_endian := isBigEndianInSparkRow type_without_nullable in
  writer <- VariableLengthDataWriter.ctor (type col) ;;
  if use_raw_data then
    for_loop 0 num_rows
      (fun i st =>
         row_idx <- row_index masks i ;;
         is_null <- vector_at null_map row_idx ;;
         if (is_null : bool) then set_null_bit col_index i st
         else if negb big_endian then
           str <- getDataAt type_without_nullable nested_column row_idx ;;
           ' (st, offset_and_size) <-
               VariableLengthDataWriter.writeUnalignedBytes offsets i str 0 st ;;
           store_offset_and_size field_offset i offset_and_size st
         else
           _ <- vector_at nested_column row_idx ;;
           str_view <- getDataAt type_without_nullable nested_column row_idx ;;
           buf <- swapDecimalEndianBytes str_view ;;
           ' (st, offset_and_size) <-
               VariableLengthDataWriter.writeUnalignedBytes offsets i buf 0 st ;;
           store_offset_and_size field_offset i offset_and_size st) st
  else
    for_loop 0 num_rows
      (fun i st =>
         row_idx <- row_index masks i ;;
         is_null <- vector_at null_map row_idx ;;
         if (is_null : bool) then set_null_bit col_index i st
         else
           field <- vector_at nested_column row_idx ;;
           ' (st, offset_and_size) <-
               VariableLengthDataWriter.write writer offsets i field 0 st ;;
           store_offset_and_size field_offset i offset_and_size st) st.

Definition writeValue (field_offset : Z) (col : ColumnWithTypeAndName)
    (col_index : Z) (num_rows : nat) (st : RowBuffer) : Result RowBuffer :=
  let type_without_nullable := removeNullable (type col) in
  let is_nullable := isColumnNullable (column col) in
  if isFixedLengthDataType type_without_nullable then
    if is_nullable then
      writeFixedLengthNullableValue field_offset col col_index num_rows st
    else writeFixedLengthNonNullableValue field_offset col num_rows st
  else if isVariableLengthDataType type_without_nullable then
    if is_nullable then
      writeVariableLengthNullableValue field_offset col col_index num_rows st
    else writeVariableLengthNonNullableValue field_offset col num_rows st
  else Throw UNKNOWN_TYPE.

End WriteColumn.

(** ** The row set and the length pass (phase 1) *)

Record SparkRowInfo : Type := mkSparkRowInfo {
  types : list DataType;
  num_rows : nat;
  num_cols : Z;
  null_bitset_width_in_bytes : Z;
  total_bytes : Z;
  offsets : list Z;
  lengths : list Z;
  buffer_cursor : list Z;
  buffer_address : option (list byte)
}.

(** [lengths[i] += n]. *)
Definition add_length (lengths : list Z) (i : nat) (n : Z) : Result (list Z) :=
  l <- vector_at lengths i ;;
  Ok (vector_set lengths i (l + n)).

(** The body of the loop over the columns in the constructor: the backing
    data of column [col] is added to the length of every row. *)
Definition add_column_lengths (masks : MaskVector) (num_rows : nat)
    (col : ColumnWithTypeAndName) (lengths : list Z) : Result (list Z) :=
  let type_without_nullable := removeLowCardinalityAndNullable (type col) in
  if BackingDataLengthCalculator.isVariableLengthDataType type_without_nullable
  then
    if BackingDataLengthCalculator.isDataTypeSupportRawData
         type_without_nullable
    then
      match convertToFullIfNeeded (column col) with
      | ColumnNullable null_map nested_column =>
          for_loop 0 num_rows
            (fun i lengths =>
               row_idx <- row_index masks i ;;
               is_null <- vector_at null_map row_idx ;;
               if negb is_null then
                 str <- getDataAt type_without_nullable nested_column row_idx ;;
                 add_length lengths i
                   (roundNumberOfBytesToNearestWord (Z.of_nat (length str)))
               else Ok lengths) lengths
      | ColumnFull cells =>
          for_loop 0 num_rows
            (fun i lengths =>
               row_idx <- row_index masks i ;;
               str <- getDataAt type_without_nullable cells row_idx ;;
               add_length lengths i
                 (roundNumberOfBytesToNearestWord (Z.of_nat (length str))))
            lengths
      end
    else
      calculator <- BackingDataLengthCalculator.ctor type_without_nullable ;;
      for_loop 0 num_rows
        (fun i lengths =>
           row_idx <- row_index masks i ;;
           field <- column_get (column col) row_idx ;;
           n <- BackingDataLengthCalculator.calculate calculator field ;;
           add_length lengths i n) lengths
  else Ok lengths.

(** [SparkRowInfo::SparkRowInfo(cols, dataTypes, col_size, row_size, masks)]. *)
Definition SparkRowInfo_ctor (cols : list ColumnWithTypeAndName)
    (dataTypes : list DataType) (col_size row_size : nat) (masks : MaskVector)
  : Result SparkRowInfo :=
  let num_rows :=
    match masks with None => row_size | Some m => length m end in
  let num_cols := Z.of_nat col_size in
  let null_bitset_width_in_bytes := calculateBitSetWidthInBytes num_cols in
  let fixed_size_per_row := calculatedFixeSizePerRow num_cols in
  let lengths := repeat fixed_size_per_row num_rows in
  let buffer_cursor := repeat fixed_size_per_row num_rows in
  lengths <-
    for_loop 0 col_size
      (fun col_idx lengths =>
         col <- vector_at cols col_idx ;;
         add_column_lengths masks num_rows col lengths) lengths ;;
  offsets <-
    for_loop 1 (num_rows - 1)
      (fun i offsets =>
         o <- vector_at offsets (i - 1) ;;
         l <- vector_at lengths (i - 1) ;;
         Ok (vector_set offsets i (o + l))) (repeat 0 num_rows) ;;
  total_bytes <-
    for_loop 0 num_rows
      (fun i total_bytes => l <- vector_at lengths i ;; Ok (total_bytes + l))
      0 ;;
  Ok (mkSparkRowInfo dataTypes num_rows num_cols null_bitset_width_in_bytes
        total_bytes offsets lengths buffer_cursor None).

(** [SparkRowInfo::SparkRowInfo(block, masks)]. *)
Definition SparkRowInfo_of_Block (block : Block) (masks : MaskVector)
  : Result SparkRowInfo :=
  SparkRowInfo_ctor block (getDataTypes block) (columns block) (rows block)
    masks.

Definition getFieldOffset (info : SparkRowInfo) (col_idx : Z) : Z :=
  null_bitset_width_in_bytes info + 8 * col_idx.

Definition setBufferAddress (info : SparkRowInfo)
    (buffer_address_ : option (list byte)) : SparkRowInfo :=
  mkSparkRowInfo (types info) (num_rows info) (num_cols info)
    (null_bitset_width_in_bytes info) (total_bytes info) (offsets info)
    (lengths info) (buffer_cursor info) buffer_address_.

(** ** The row assembler (phase 2) *)

(** [alloc(size, 64)] followed by [memset(..., 0, size)]. *)
Definition alloc_zeroed (size : Z) : list byte := repeat x00 (Z.to_nat size).

(** [Block::getByPosition]. *)
Definition getByPosition (block : Block) (position : nat)
  : Result ColumnWithTypeAndName :=
  match nth_error block position with
  | Some col => Ok col
  | None => Throw OUT_OF_RANGE
  end.

(** The body of the loop over the columns in [convertCHColumnToSparkRow]:
    [writeValue] works on the buffer and on the cursors of the row set. *)
Definition convert_column (block : Block) (masks : MaskVector)
    (col_idx : nat) (spark_row_info : SparkRowInfo) : Result SparkRowInfo :=
  col <- getByPosition block col_idx ;;
  let field_offset := getFieldOffset spark_row_info (Z.of_nat col_idx) in
  let col_full :=
    mkColumn (convertToFullIfNeeded (column col))
      (removeLowCardinality (type col)) in
  mem <-
    match buffer_address spark_row_info with
    | Some mem => Ok mem
    | None => Throw UNDEFINED_BEHAVIOR
    end ;;
  st <- writeValue (offsets spark_row_info) masks field_offset col_full
          (Z.of_nat col_idx) (num_rows spark_row_info)
          (mkRowBuffer mem (buffer_cursor spark_row_info)) ;;
  Ok (mkSparkRowInfo (types spark_row_info) (num_rows spark_row_info)
        (num_cols spark_row_info) (null_bitset_width_in_bytes spark_row_info)
        (total_bytes spark_row_info) (offsets spark_row_info)
        (lengths spark_row_info) (cursor st) (Some (memory st))).

(** The loop over the columns, from column [col_idx], and the [return] that
    follows it. *)
Definition convert_columns (block : Block) (masks : MaskVector)
    (col_idx n : nat) (spark_row_info : SparkRowInfo) : Result SparkRowInfo :=
  for_loop col_idx n (convert_column block masks) spark_row_info.

Definition convertCHColumnToSparkRow (block : Block) (masks : MaskVector)
  : Result SparkRowInfo :=
  if Nat.eqb (columns block) 0 then Throw LOGICAL_ERROR
  else
    spark_row_info <- SparkRowInfo_of_Block block masks ;;
    let spark_row_info :=
      setBufferAddress spark_row_info
        (Some (alloc_zeroed (total_bytes spark_row_info))) in
    convert_columns block masks 0 (Z.to_nat (num_cols spark_row_info))
      spark_row_info.


(** ** Supported types and conforming values *)

Section Conformance.

Import BackingDataLengthCalculator.

(** A type (nullability stripped) that both passes accept at every level
    of nesting. *)
Fixpoint supported (type_without_nullable : DataType) : bool :=
  isFixedLengthDataType type_without_nullable
  || match type_without_nullable with
     | DataTypeString | DataTypeFixedString _ | DataTypeDecimal128 => true
     | DataTypeArray nested_type => supported (removeNullable nested_type)
     | DataTypeMap key_type val_type =>
         supported (removeNullable key_type)
         && supported (removeNullable val_type)
     | DataTypeTuple elems =>
         forallb (fun t => supported (removeNullable t)) elems
     | _ => false
     end.

(** Pairwise check of the fields of a tuple against the element types; the
    tuple holds at least one field per type. *)
Fixpoint conforms_fields (checks : list (Field -> bool)) (tuple : Tuple)
  : bool :=
  match checks, tuple with
  | [], _ => true
  | check :: checks', field :: tuple' =>
      check field && conforms_fields checks' tuple'
  | _ :: _, [] => false
  end.

(** A value that holds, wherever the two passes look, the kind of field the
    accessor used there expects.  [NULL] conforms to every type: both passes
    skip it.  Types that the passes refuse leave the value free. *)
Fixpoint conforms (type_without_nullable : DataType) (field : Field)
    {struct type_without_nullable} : bool :=
  isNull field
  || match type_without_nullable with
     | DataTypeNothing => false
     | DataTypeUInt8 | DataTypeUInt16 | DataTypeUInt32 | DataTypeUInt64
     | DataTypeInt8 | DataTypeInt16 | DataTypeInt32 | DataTypeInt64
     | DataTypeDate | DataTypeDate32 =>
         match field with FUInt64 _ | FInt64 _ => true | _ => false end
     | DataTypeFloat32 | DataTypeFloat64 =>
         match field with FFloat64 _ => true | _ => false end
     | DataTypeDecimal32 =>
         match field with FDecimal32 _ => true | _ => false end
     | DataTypeDecimal64 | DataTypeDateTime64 =>
         match field with FDecimal64 _ => true | _ => false end
     | DataTypeDecimal128 =>
         match field with FDecimal128 _ => true | _ => false end
     | DataTypeString | DataTypeFixedString _ =>
         match field with FString _ => true | _ => false end
     | DataTypeArray nested_type =>
         match field with
         | FArray array => forallb (conforms (removeNullable nested_type)) array
         | _ => false
         end
     | DataTypeMap key_type val_type =>
         match field with
         | FMap map =>
             forallb
               (fun entry =>
                  match entry with
                  | FTuple (k :: v :: _) =>
                      conforms (removeNullable key_type) k
                      && conforms (removeNullable val_type) v
                  | _ => false
                  end) map
         | _ => false
         end
     | DataTypeTuple elems =>
         match field with
         | FTuple tuple =>
             conforms_fields
               (List.map (fun t => conforms (removeNullable t)) elems) tuple
         | _ => false
         end
     | _ => true
     end.

(** A cell of a top-level column of type [type_without_nullable]
    (low cardinality and nullability stripped): a raw-copied column holds
    native values, a composite column holds conforming fields, and a column
    of a refused type is never read. *)
Definition cell_conforms (type_without_nullable : DataType) (cell : Field)
  : bool :=
  if isDataTypeSupportRawData type_without_nullable then
    match native_bytes type_without_nullable cell with
    | Ok str =>
        negb (isDecimal128 type_without_nullable)
        || Nat.eqb (length str) 16
    | Throw _ => false
    end
  else if isVariableLengthDataType type_without_nullable then
    conforms type_without_nullable cell
  else true.

(** Every column has [n] rows and conforming cells; the cell under a set
    null flag is free. *)
Definition column_conforms (n : nat) (col : ColumnWithTypeAndName) : bool :=
  let type_without_nullable := removeLowCardinalityAndNullable (type col) in
  match column col with
  | ColumnFull cells =>
      Nat.eqb (length cells) n
      && forallb (cell_conforms type_without_nullable) cells
  | ColumnNullable null_map nested_column =>
      Nat.eqb (length null_map) n
      && Nat.eqb (length nested_column) n
      && forallb
           (fun '(is_null, cell) =>
              (is_null : bool) || cell_conforms type_without_nullable cell)
           (combine null_map nested_column)
  end.

(** A mask of source-row indices of a block with [n] rows. *)
Definition mask_valid (n : nat) (masks : MaskVector) : bool :=
  match masks with
  | None => true
  | Some m => forallb (fun r => Nat.ltb r n) m
  end.

Definition block_conforms (block : Block) (masks : MaskVector) : bool :=
  forallb (column_conforms (rows block)) block
  && mask_valid (rows block) masks.

(** Every column has a supported type. *)
Definition block_supported (block : Block) : bool :=
  forallb (fun col => supported (removeLowCardinalityAndNullable (type col)))
    block.

(** The shape alone: every column, and the nested column of a nullable one,
    has [n] rows. *)
Definition column_rectangular (n : nat) (col : ColumnWithTypeAndName)
  : bool :=
  match column col with
  | ColumnFull cells => Nat.eqb (length cells) n
  | ColumnNullable null_map nested_column =>
      Nat.eqb (length null_map) n && Nat.eqb (length nested_column) n
  end.

End Conformance.

(** ** Vocabulary of the statements *)

(** The vector [cs] with [n] added at position [row_idx] (unchanged when
    there is no such position). *)
Definition cursor_add (cs : list Z) (row_idx : nat) (n : Z) : list Z :=
  match nth_error cs row_idx with
  | Some c => vector_set cs row_idx (c + n)
  | None => cs
  end.

(** Between the states [st] and [st'] the cursor of row [row_idx] moved by
    [n] bytes, no other cursor moved, and the buffer kept its size. *)
Definition advanced (st st' : RowBuffer) (row_idx : nat) (n : Z) : Prop :=
  cursor st' = cursor_add (cursor st) row_idx n
  /\ length (memory st') = length (memory st).

(** A writer and the calculator built for the same type agree: when both
    succeed on a field, the writer has advanced the cursor by the length. *)
Definition agree (writer : VariableLengthDataWriter.Writer)
    (calculator : Field -> Result Z) : Prop :=
  forall r f p s s' d n,
    writer r f p s = Ok (s', d) -> calculator f = Ok n -> advanced s s' r n.

(** A calculator that measures nothing for [NULL]. *)
Definition null_free (calculator : Field -> Result Z) : Prop :=
  forall f n, isNull f = true -> calculator f = Ok n -> n = 0.

(** A calculator that measures nothing at all. *)
Definition measures_nothing (calculator : Field -> Result Z) : Prop :=
  forall f n, calculator f = Ok n -> n = 0.

(** The outcome of a pass over conforming data: a result, or
    [UNKNOWN_TYPE] for a type that is not supported. *)
Definition measured {A : Type} (sup : bool) (res : Result A) : Prop :=
  (exists n, res = Ok n) \/ (res = Throw UNKNOWN_TYPE /\ sup = false).

(** A writer that succeeds on every conforming field ([ok]) that the
    calculator has measured, when the measured length fits the buffer
    after the cursor of the row. *)
Definition safe (ok : Field -> bool) (offsets : list Z)
    (writer : VariableLengthDataWriter.Writer)
    (calculator : Field -> Result Z) : Prop :=
  forall r f p s n offset c,
    ok f = true -> calculator f = Ok n ->
    vector_at offsets r = Ok offset ->
    vector_at (cursor s) r = Ok c ->
    0 <= offset + c ->
    offset + c + n <= Z.of_nat (length (memory s)) ->
    exists s' d, writer r f p s = Ok (s', d).

(** The sum of a vector of byte counts. *)
Definition sum_Z (v : list Z) : Z := fold_right Z.add 0 v.

(** The backing data that phase 1 adds to the length of output row [i] for
    column [col]: the expression under [lengths[i] +=] in the constructor
    (nothing for a column of fixed length, and for a null cell). *)
Definition backing_size (masks : MaskVector) (col : ColumnWithTypeAndName)
    (i : nat) : Result Z :=
  let type_without_nullable := removeLowCardinalityAndNullable (type col) in
  if BackingDataLengthCalculator.isVariableLengthDataType type_without_nullable
  then
    if BackingDataLengthCalculator.isDataTypeSupportRawData
         type_without_nullable
    then
      match column col with
      | ColumnNullable null_map nested_column =>
          row_idx <- row_index masks i ;;
          is_null <- vector_at null_map row_idx ;;
          if negb is_null then
            str <- getDataAt type_without_nullable nested_column row_idx ;;
            Ok (roundNumberOfBytesToNearestWord (Z.of_nat (length str)))
          else Ok 0
      | ColumnFull cells =>
          row_idx <- row_index masks i ;;
          str <- getDataAt type_without_nullable cells row_idx ;;
          Ok (roundNumberOfBytesToNearestWord (Z.of_nat (length str)))
      end
    else
      row_idx <- row_index masks i ;;
      field <- column_get (column col) row_idx ;;
      BackingDataLengthCalculator.calculate type_without_nullable field
  else Ok 0.

Definition value_or_zero (res : Result Z) : Z :=
  match res with
  | Ok v => v
  | Throw _ => 0
  end.

Definition column_sizes (masks : MaskVector) (col : ColumnWithTypeAndName)
    (i : nat) : Z :=
  value_or_zero (backing_size masks col i).

(** The vector [cs] with [g i] added at every position [i < m]. *)
Fixpoint add_rows (g : nat -> Z) (m : nat) (cs : list Z) : list Z :=
  match m with
  | O => cs
  | S m' => cursor_add (add_rows g m' cs) m' (g m')
  end.

(** The vector [cs] after the backing data of the columns [cols] has been
    added to each of its [n] rows. *)
Definition add_columns (masks : MaskVector) (n : nat)
    (cols : list ColumnWithTypeAndName) (cs : list Z) : list Z :=
  fold_left (fun cs col => add_rows (column_sizes masks col) n cs) cols cs.

(** Every row of every column of [cols] has a backing size. *)
Definition all_measured (masks : MaskVector) (n : nat)
    (cols : list ColumnWithTypeAndName) : Prop :=
  Forall (fun col => forall i, (i < n)%nat ->
                     exists v, backing_size masks col i = Ok v) cols.

(** The cell that output row [i] of column [col] is made from exists and
    conforms to the type of the column (a cell under a set null flag is
    free). *)
Definition row_cells_ok (masks : MaskVector) (col : ColumnWithTypeAndName)
    (i : nat) : Prop :=
  let type_without_nullable := removeLowCardinalityAndNullable (type col) in
  exists row_idx,
    row_index masks i = Ok row_idx
    /\ match column col with
       | ColumnFull cells =>
           exists cell,
             vector_at cells row_idx = Ok cell
             /\ cell_conforms type_without_nullable cell = true
       | ColumnNullable null_map nested_column =>
           exists is_null cell,
             vector_at null_map row_idx = Ok is_null
             /\ vector_at nested_column row_idx = Ok cell
             /\ (is_null = false ->
                 cell_conforms type_without_nullable cell = true)
       end.

(** In a buffer of [L] bytes, output row [i] has room for the slot at
    [field_offset], for the word of null bit [col_index], and for [size]
    bytes of backing data after its cursor in [cs]. *)
Definition row_room (offsets : list Z) (field_offset col_index : Z) (L : nat)
    (cs : list Z) (size : Z) (i : nat) : Prop :=
  exists o c,
    vector_at offsets i = Ok o /\ vector_at cs i = Ok c
    /\ 0 <= o /\ 0 <= field_offset
    /\ o + field_offset + 8 <= Z.of_nat L
    /\ 0 <= col_index
    /\ o + Z.shiftr col_index 6 * 8 + 8 <= Z.of_nat L
    /\ 0 <= c /\ o + c + size <= Z.of_nat L.

(** The backing data of output row [i] in the columns [cols]. *)
Definition row_backing (masks : MaskVector)
    (cols : list ColumnWithTypeAndName) (i : nat) : Z :=
  sum_Z (List.map (fun col => column_sizes masks col i) cols).

(** In a buffer of [L] bytes every one of the [n] rows starts at a
    non-negative offset, has its cursor [cs] past the fixed part, and has
    room after the cursor for its backing data in the columns [cols]. *)
Definition rows_fit (masks : MaskVector) (offsets : list Z) (fixed : Z)
    (L n : nat) (cols : list ColumnWithTypeAndName) (cs : list Z) : Prop :=
  forall i, (i < n)%nat ->
    exists o c,
      vector_at offsets i = Ok o /\ vector_at cs i = Ok c
      /\ 0 <= o /\ fixed <= c
      /\ o + c + row_backing masks cols i <= Z.of_nat L.

(** A column whose type, low cardinality and nullability stripped, is of
    fixed or of variable length. *)
Definition classified (col : ColumnWithTypeAndName) : bool :=
  let type_without_nullable := removeLowCardinalityAndNullable (type col) in
  BackingDataLengthCalculator.isFixedLengthDataType type_without_nullable
  || BackingDataLengthCalculator.isVariableLengthDataType
       type_without_nullable.

(** The number of output rows. *)
Definition output_rows (block : Block) (masks : MaskVector) : nat :=
  match masks with
  | None => rows block
  | Some m => length m
  end.


(** The memories [mem] and [mem'] have the same size, and the same bytes
    outside the addresses [lo] to [hi - 1]. *)
Definition same_outside (mem mem' : list byte) (lo hi : Z) : Prop :=
  length mem' = length mem
  /\ forall k : nat,
       Z.of_nat k < lo \/ hi <= Z.of_nat k ->
       nth_error mem' k = nth_error mem k.

(** A writer that changes no byte outside the region that the calculator
    has measured for the field, which starts at the cursor of the row. *)
Definition confined (offsets : list Z)
    (writer : VariableLengthDataWriter.Writer)
    (calculator : Field -> Result Z) : Prop :=
  forall r f p s s' d n offset c,
    writer r f p s = Ok (s', d) -> calculator f = Ok n ->
    vector_at offsets r = Ok offset ->
    vector_at (cursor s) r = Ok c ->
    same_outside (memory s) (memory s') (offset + c) (offset + c + n).

(** The null flag of row [row_idx] of a column; a full column has none. *)
Definition null_flag (col : IColumn) (row_idx : nat) : Result bool :=
  match col with
  | ColumnFull _ => Ok false
  | ColumnNullable null_map _ => vector_at null_map row_idx
  end.

(** The cells that hold the values of a column. *)
Definition column_cells (col : IColumn) : list Field :=
  match col with
  | ColumnFull cells => cells
  | ColumnNullable _ nested_column => nested_column
  end.

(** What [writeValue] does with the value of row [row_idx] of column [col]
    for output row [i], whose row starts at [o]: a value of fixed length is
    stored in the slot at [field_offset]; a value of variable length is
    written at the cursor of the row, and its descriptor is stored in the
    slot. *)
Definition value_written (offsets : list Z) (col : ColumnWithTypeAndName)
    (field_offset : Z) (i row_idx : nat) (o : Z) (s s' : RowBuffer) : Prop :=
  let type_without_nullable := removeNullable (type col) in
  let cells := column_cells (column col) in
  if BackingDataLengthCalculator.isFixedLengthDataType type_without_nullable
  then
    if WhichDataType.isDecimal32 type_without_nullable then
      exists field mem,
        vector_at cells row_idx = Ok field
        /\ FixedLengthDataWriter.write type_without_nullable field (memory s)
             (o + field_offset) = Ok mem
        /\ s' = set_memory s mem
    else
      exists str mem,
        getDataAt type_without_nullable cells row_idx = Ok str
        /\ memcpy (memory s) (o + field_offset) str = Ok mem
        /\ s' = set_memory s mem
  else
    BackingDataLengthCalculator.isVariableLengthDataType
      type_without_nullable = true
    /\ exists s1 d mem,
      (if BackingDataLengthCalculator.isDataTypeSupportRawData
            type_without_nullable
       then
         exists str buf,
           getDataAt type_without_nullable cells row_idx = Ok str
           /\ (if BackingDataLengthCalculator.isBigEndianInSparkRow
                    type_without_nullable
               then BackingDataLengthCalculator.swapDecimalEndianBytes str
                    = Ok buf
               else buf = str)
           /\ VariableLengthDataWriter.writeUnalignedBytes offsets i buf 0 s
              = Ok (s1, d)
       else
         exists field,
           vector_at cells row_idx = Ok field
           /\ VariableLengthDataWriter.write type_without_nullable offsets i
                field 0 s = Ok (s1, d))
      /\ memcpy (memory s1) (o + field_offset) (le_bytes 8 d) = Ok mem
      /\ s' = set_memory s1 mem.

(** Step [i] of the loop over the rows in [writeValue]: the null bit of the
    column is set in the row of a null cell, and the value of another cell
    is written. *)
Definition cell_written (offsets : list Z) (masks : MaskVector)
    (col : ColumnWithTypeAndName) (field_offset col_index : Z) (i : nat)
    (s s' : RowBuffer) : Prop :=
  exists row_idx o is_null,
    row_index masks i = Ok row_idx
    /\ vector_at offsets i = Ok o
    /\ null_flag (column col) row_idx = Ok is_null
    /\ if (is_null : bool) then
         exists mem,
           bitSet (memory s) o col_index = Ok mem /\ s' = set_memory s mem
       else value_written offsets col field_offset i row_idx o s s'.

(** The conversion writes column after column, and row after row of a
    column: when columns [0] to [j' - 1] and the first [i'] rows of column
    [j'] are written, the cell of row [i] in column [j] is among them. *)
Definition cell_done (j i j' i' : nat) : bool :=
  (j <? j')%nat || ((j =? j')%nat && (i <? i')%nat).

(** The writes of a loop over the elements of an array, from element [i]
    on: a null element sets its bit in the bitmap at [bitmap]; another
    element changes the memory as [W] says. *)
Fixpoint array_steps (bitmap : Z)
    (W : nat -> Field -> list byte -> list byte -> Prop) (i : nat)
    (array : Array) (m m' : list byte) {struct array} : Prop :=
  match array with
  | [] => m' = m
  | e :: rest =>
      exists m1,
        (if isNull e then bitSet m bitmap (Z.of_nat i) = Ok m1
         else W i e m m1)
        /\ array_steps bitmap W (S i) rest m1 m'
  end.

(** * Proofs *)

(** ** Machine integers *)

Lemma signed_cast_small (bits z : Z) :
  0 < bits -> - 2 ^ (bits - 1) <= z < 2 ^ (bits - 1) -> signed_cast bits z = z.
Proof.
  intros Hb Hz. unfold signed_cast.
  assert (E : 2 ^ bits = 2 * 2 ^ (bits - 1)).
  { replace bits with (Z.succ (bits - 1)) at 1 by lia.
    rewrite Z.pow_succ_r by lia. reflexivity. }
  rewrite Z.mod_small by lia. lia.
Qed.

Lemma signed_cast_range (bits z : Z) :
  0 < bits -> - 2 ^ (bits - 1) <= signed_cast bits z < 2 ^ (bits - 1).
Proof.
  intros Hb. unfold signed_cast.
  assert (E : 2 ^ bits = 2 * 2 ^ (bits - 1)).
  { replace bits with (Z.succ (bits - 1)) at 1 by lia.
    rewrite Z.pow_succ_r by lia. reflexivity. }
  assert (0 < 2 ^ (bits - 1)) by (apply Z.pow_pos_nonneg; lia).
  pose proof (Z.mod_pos_bound (z + 2 ^ (bits - 1)) (2 ^ bits)). lia.
Qed.

Lemma signed_cast_testbit (bits z n : Z) :
  0 < bits -> 0 <= n < bits ->
  Z.testbit (signed_cast bits z) n = Z.testbit z n.
Proof.
  intros Hb Hn. unfold signed_cast.
  assert (E : 2 ^ bits = 2 * 2 ^ (bits - 1)).
  { replace bits with (Z.succ (bits - 1)) at 1 by lia.
    rewrite Z.pow_succ_r by lia. reflexivity. }
  assert (P : 0 < 2 ^ bits) by (apply Z.pow_pos_nonneg; lia).
  rewrite <- (Z.mod_pow2_bits_low (_ - _) bits n) by lia.
  rewrite <- (Z.mod_pow2_bits_low z bits n) by lia.
  f_equal.
  rewrite Zminus_mod, Zmod_mod, <- Zminus_mod.
  f_equal. lia.
Qed.

Lemma to_int64_small (z : Z) :
  - 2 ^ 63 <= z < 2 ^ 63 -> to_int64 z = z.
Proof. intros H. apply signed_cast_small; simpl; lia. Qed.

Lemma to_int64_range (z : Z) : - 2 ^ 63 <= to_int64 z < 2 ^ 63.
Proof. apply (signed_cast_range 64 z). lia. Qed.

Lemma to_int64_testbit (z n : Z) :
  0 <= n < 64 -> Z.testbit (to_int64 z) n = Z.testbit z n.
Proof. intros H. apply signed_cast_testbit; lia. Qed.

(** ** Descriptors *)

Import BackingDataLengthCalculator.

Lemma getOffsetAndSize_small (offset size : Z) :
  0 <= offset < 2 ^ 31 ->
  getOffsetAndSize offset size = Z.lor (offset * 2 ^ 32) size.
Proof.
  intros Ho. unfold getOffsetAndSize.
  rewrite Z.shiftl_mul_pow2 by lia.
  rewrite to_int64_small by lia. reflexivity.
Qed.

(** C9. Packing round-trips: an offset below 2^31 and a size below 2^32 are
    recovered from the descriptor by [extractOffset] and [extractSize]. *)
Theorem getOffsetAndSize_roundtrip (offset size : Z) :
  0 <= offset < 2 ^ 31 -> 0 <= size < 2 ^ 32 ->
  extractOffset (getOffsetAndSize offset size) = offset
  /\ extractSize (getOffsetAndSize offset size) = size.
Proof.
  intros Ho Hs. rewrite getOffsetAndSize_small by assumption.
  unfold extractOffset, extractSize. split.
  - rewrite Z.shiftr_lor, !Z.shiftr_div_pow2 by lia.
    rewrite Z.div_mul by lia.
    rewrite (Z.div_small size) by lia. apply Z.lor_0_r.
  - change 4294967295 with (Z.ones 32).
    rewrite Z.land_lor_distr_l, !Z.land_ones by lia.
    rewrite Z.mod_mul by lia.
    rewrite Z.mod_small by lia. reflexivity.
Qed.

Lemma getOffsetAndSize_roundtrip_witness :
  extractOffset (getOffsetAndSize 16 24) = 16
  /\ extractSize (getOffsetAndSize 16 24) = 24.
Proof. apply (getOffsetAndSize_roundtrip 16 24); lia. Defined.

Lemma calculate_String (str : list byte) :
  calculate DataTypeString (FString str)
  = Ok (roundNumberOfBytesToNearestWord (Z.of_nat (length str))).
Proof. reflexivity. Qed.

(** C4 (as stated, refuted). With size 2^32 the code's descriptor is not the
    masked one: the size reaches the offset field, which reads 1 instead of
    0; and the length pass accepts a string of 2^32 bytes. *)
Lemma getOffsetAndSize_unmasked_counterexample :
  getOffsetAndSize 0 4294967296 <> getOffsetAndSize_spec 0 4294967296
  /\ extractOffset (getOffsetAndSize 0 4294967296) = 1
  /\ calculate DataTypeString (FString (repeat x00 (Z.to_nat 4294967296)))
     = Ok 4294967296.
Proof.
  split; [ | split ].
  - vm_compute. discriminate.
  - vm_compute. reflexivity.
  - rewrite calculate_String, repeat_length, Z2Nat.id by lia.
    vm_compute. reflexivity.
Qed.

(** C4 (amended). A size that fits 32 bits is packed as the specification
    says, [(offset << 32) | (size & 0xFFFFFFFF)]; the code merges the size
    unmasked, and the length pass measures a string of any size without
    refusing it. *)
Theorem getOffsetAndSize_masks_sizes_below_2_32 (offset size : Z) :
  0 <= size < 2 ^ 32 ->
  getOffsetAndSize offset size = getOffsetAndSize_spec offset size
  /\ getOffsetAndSize offset size
     = Z.lor (to_int64 (Z.shiftl offset 32)) size
  /\ (forall str : list byte,
        calculate DataTypeString (FString str)
        = Ok (roundNumberOfBytesToNearestWord (Z.of_nat (length str)))).
Proof.
  intros Hs. split; [ | split ].
  - unfold getOffsetAndSize, getOffsetAndSize_spec.
    change 4294967295 with (Z.ones 32).
    rewrite Z.land_ones by lia. rewrite Z.mod_small by lia. reflexivity.
  - reflexivity.
  - exact calculate_String.
Qed.

Lemma getOffsetAndSize_masks_sizes_below_2_32_witness :
  getOffsetAndSize 16 24 = getOffsetAndSize_spec 16 24
  /\ getOffsetAndSize 16 24 = Z.lor (to_int64 (Z.shiftl 16 32)) 24
  /\ (forall str : list byte,
        calculate DataTypeString (FString str)
        = Ok (roundNumberOfBytesToNearestWord (Z.of_nat (length str)))).
Proof. apply (getOffsetAndSize_masks_sizes_below_2_32 16 24); lia. Defined.

(** ** Bytes and memory *)

Lemma Z_of_byte_range (b : byte) : 0 <= Z_of_byte b < 256.
Proof.
  unfold Z_of_byte. pose proof (Byte.to_N_bounded b) as H. lia.
Qed.

Lemma Z_of_byte_of_Z (z : Z) : Z_of_byte (byte_of_Z z) = z mod 256.
Proof.
  unfold Z_of_byte, byte_of_Z.
  pose proof (Z.mod_pos_bound z 256 ltac:(lia)) as Hr.
  destruct (Byte.of_N (Z.to_N (z mod 256))) as [b|] eqn:E.
  - apply Byte.to_of_N in E. rewrite E. lia.
  - apply Byte.of_N_None_iff in E. lia.
Qed.

Lemma length_le_bytes (n : nat) (z : Z) : length (le_bytes n z) = n.
Proof. revert z. induction n; intros z; simpl; [ | rewrite IHn ]; reflexivity. Qed.

Lemma le_value_le_bytes (n : nat) (z : Z) :
  le_value (le_bytes n z) = z mod 2 ^ (8 * Z.of_nat n).
Proof.
  revert z. induction n as [|n IH]; intros z.
  - simpl. rewrite Z.mod_1_r. reflexivity.
  - cbn [le_bytes le_value]. rewrite IH, Z_of_byte_of_Z.
    rewrite Z.shiftr_div_pow2 by lia.
    replace (8 * Z.of_nat (S n)) with (8 + 8 * Z.of_nat n) by lia.
    rewrite Z.pow_add_r by lia.
    change (2 ^ 8) with 256.
    rewrite Z.rem_mul_r by lia. reflexivity.
Qed.

Lemma le_bytes_app (n m : nat) (z : Z) :
  le_bytes (n + m) z
  = le_bytes n z ++ le_bytes m (Z.shiftr z (8 * Z.of_nat n)).
Proof.
  revert z. induction n as [|n IH]; intros z.
  - simpl. rewrite Z.shiftr_0_r. reflexivity.
  - cbn [Nat.add le_bytes app]. rewrite IH. f_equal. f_equal. f_equal.
    rewrite Z.shiftr_shiftr by lia. f_equal. lia.
Qed.

Lemma le_value_range (bs : list byte) :
  0 <= le_value bs < 2 ^ (8 * Z.of_nat (length bs)).
Proof.
  induction bs as [|b bs IH].
  - simpl. lia.
  - cbn [le_value length].
    replace (8 * Z.of_nat (S (length bs)))
      with (8 + 8 * Z.of_nat (length bs)) by lia.
    rewrite Z.pow_add_r by lia. change (2 ^ 8) with 256.
    pose proof (Z_of_byte_range b). nia.
Qed.

Lemma memcpy_Ok (mem : list byte) (dst : Z) (src : list byte) :
  0 <= dst -> dst + Z.of_nat (length src) <= Z.of_nat (length mem) ->
  memcpy mem dst src
  = Ok (firstn (Z.to_nat dst) mem ++ src
        ++ skipn (Z.to_nat dst + length src) mem).
Proof.
  intros H1 H2. unfold memcpy.
  destruct (Z.leb_spec 0 dst); [ | lia ].
  destruct (Z.leb_spec (dst + Z.of_nat (length src)) (Z.of_nat (length mem)));
    [ reflexivity | lia ].
Qed.

Lemma memcpy_inv (mem : list byte) (dst : Z) (src mem' : list byte) :
  memcpy mem dst src = Ok mem' ->
  0 <= dst /\ dst + Z.of_nat (length src) <= Z.of_nat (length mem)
  /\ mem' = firstn (Z.to_nat dst) mem ++ src
            ++ skipn (Z.to_nat dst + length src) mem.
Proof.
  unfold memcpy.
  destruct (Z.leb_spec 0 dst);
    destruct (Z.leb_spec (dst + Z.of_nat (length src)) (Z.of_nat (length mem)));
    simpl; intros E; inversion E; auto.
Qed.

Lemma memcpy_length (mem : list byte) (dst : Z) (src mem' : list byte) :
  memcpy mem dst src = Ok mem' -> length mem' = length mem.
Proof.
  intros E. apply memcpy_inv in E. destruct E as (H1 & H2 & ->).
  rewrite !length_app, length_firstn, length_skipn. lia.
Qed.

Lemma memcpy_not_UB_iff (mem : list byte) (dst : Z) (src : list byte) :
  0 <= dst /\ dst + Z.of_nat (length src) <= Z.of_nat (length mem)
  <-> exists mem', memcpy mem dst src = Ok mem'.
Proof.
  split.
  - intros [H1 H2]. rewrite memcpy_Ok by assumption. eauto.
  - intros [mem' E]. apply memcpy_inv in E. tauto.
Qed.

Lemma load_Ok (mem : list byte) (src : Z) (n : nat) :
  0 <= src -> src + Z.of_nat n <= Z.of_nat (length mem) ->
  load mem src n = Ok (firstn n (skipn (Z.to_nat src) mem)).
Proof.
  intros H1 H2. unfold load.
  destruct (Z.leb_spec 0 src); [ | lia ].
  destruct (Z.leb_spec (src + Z.of_nat n) (Z.of_nat (length mem)));
    [ reflexivity | lia ].
Qed.

Lemma load_length_eq (mem mem' : list byte) (src : Z) (n : nat) :
  length mem' = length mem ->
  (0 <= src -> src + Z.of_nat n <= Z.of_nat (length mem) ->
   firstn n (skipn (Z.to_nat src) mem') = firstn n (skipn (Z.to_nat src) mem)) ->
  load mem' src n = load mem src n.
Proof.
  intros L H. unfold load. rewrite L.
  destruct (Z.leb_spec 0 src); simpl; [ | reflexivity ].
  destruct (Z.leb_spec (src + Z.of_nat n) (Z.of_nat (length mem)));
    [ | reflexivity ].
  rewrite H by assumption. reflexivity.
Qed.

(** A byte outside the copied range keeps its value. *)
Lemma memcpy_nth_error_outside (mem : list byte) (dst : Z) (src mem' : list byte)
    (k : nat) :
  memcpy mem dst src = Ok mem' ->
  Z.of_nat k < dst \/ dst + Z.of_nat (length src) <= Z.of_nat k ->
  nth_error mem' k = nth_error mem k.
Proof.
  intros E Hk. apply memcpy_inv in E. destruct E as (H1 & H2 & ->).
  destruct Hk as [Hk|Hk].
  - rewrite nth_error_app1 by (rewrite length_firstn; lia).
    rewrite nth_error_firstn.
    destruct (Nat.ltb_spec k (Z.to_nat dst)); [ reflexivity | lia ].
  - rewrite nth_error_app2 by (rewrite length_firstn; lia).
    rewrite length_firstn.
    rewrite nth_error_app2 by lia.
    rewrite nth_error_skipn. f_equal. lia.
Qed.

Lemma nth_error_ext_firstn_skipn {A : Type} (l l' : list A) (a n : nat) :
  (forall k, (a <= k < a + n)%nat -> nth_error l' k = nth_error l k) ->
  firstn n (skipn a l') = firstn n (skipn a l).
Proof.
  intros H. apply nth_error_ext. intros i.
  destruct (Nat.lt_ge_cases i n) as [Hi|Hi].
  - rewrite !nth_error_firstn, !nth_error_skipn by lia.
    destruct (Nat.ltb_spec i n); [ | lia ].
    apply H. lia.
  - rewrite !nth_error_firstn.
    destruct (Nat.ltb_spec i n); [ lia | reflexivity ].
Qed.

(** Reading back what was copied. *)
Lemma load_memcpy_same (mem : list byte) (dst : Z) (src mem' : list byte) :
  memcpy mem dst src = Ok mem' -> load mem' dst (length src) = Ok src.
Proof.
  intros E. pose proof (memcpy_length _ _ _ _ E) as L.
  apply memcpy_inv in E. destruct E as (H1 & H2 & ->).
  rewrite load_Ok by lia. f_equal.
  rewrite skipn_app, length_firstn.
  replace (Z.to_nat dst - Nat.min (Z.to_nat dst) (length mem))%nat with O by lia.
  rewrite skipn_all2 by (rewrite length_firstn; lia).
  simpl. rewrite firstn_app, Nat.sub_diag, firstn_all. simpl.
  apply app_nil_r.
Qed.

(** Reading a range disjoint from the copied one. *)
Lemma load_memcpy_disjoint (mem : list byte) (dst : Z) (src mem' : list byte)
    (a : Z) (n : nat) :
  memcpy mem dst src = Ok mem' ->
  a + Z.of_nat n <= dst \/ dst + Z.of_nat (length src) <= a ->
  load mem' a n = load mem a n.
Proof.
  intros E Hd. apply load_length_eq.
  - eapply memcpy_length; eassumption.
  - intros Ha1 Ha2. apply nth_error_ext_firstn_skipn. intros k Hk.
    eapply memcpy_nth_error_outside; [ eassumption | lia ].
Qed.

(** ** Null bitmaps *)

Lemma int64_nonneg_of_bit63 (w : Z) :
  - 2 ^ 63 <= w < 2 ^ 63 -> Z.testbit w 63 = false -> 0 <= w.
Proof.
  intros Hw Hb. destruct (Z.lt_ge_cases w 0) as [Hn|]; [ | assumption ].
  rewrite Z.bits_above_log2_neg in Hb; [ discriminate | assumption | ].
  destruct (Z.eq_dec (Z.pred (- w)) 0) as [E|E].
  - rewrite E. simpl. lia.
  - apply Z.log2_lt_pow2; lia.
Qed.

Lemma mask_testbit (k n : Z) :
  0 <= k < 64 -> 0 <= n < 64 ->
  Z.testbit (to_int64 (Z.shiftl 1 k)) n = (k =? n).
Proof.
  intros Hk Hn. rewrite to_int64_testbit by assumption.
  rewrite Z.shiftl_1_l. rewrite Z.pow2_bits_eqb by lia. reflexivity.
Qed.

Lemma land_mask_is_testbit (w k : Z) :
  - 2 ^ 63 <= w < 2 ^ 63 -> 0 <= k < 64 ->
  (Z.land w (to_int64 (Z.shiftl 1 k)) =? 0) = negb (Z.testbit w k).
Proof.
  intros Hw Hk.
  destruct (Z.testbit w k) eqn:Hb; simpl.
  - apply Z.eqb_neq. intros E.
    assert (T : Z.testbit (Z.land w (to_int64 (Z.shiftl 1 k))) k = false)
      by (rewrite E; apply Z.bits_0).
    rewrite Z.land_spec, Hb, mask_testbit, Z.eqb_refl in T by lia.
    discriminate.
  - apply Z.eqb_eq. apply Z.bits_inj'. intros n Hn.
    rewrite Z.land_spec, Z.bits_0.
    destruct (Z.lt_ge_cases n 64) as [Hlt|Hge].
    + rewrite mask_testbit by lia.
      destruct (Z.eqb_spec k n) as [->|]; [ rewrite Hb | ];
        auto using andb_false_r.
    + destruct (Z.eq_dec k 63) as [->|Hk63].
      * pose proof (int64_nonneg_of_bit63 w Hw Hb) as Hpos.
        destruct (Z.eq_dec w 0) as [->|Hnz]; [ rewrite Z.bits_0; reflexivity | ].
        rewrite (Z.bits_above_log2 w n); [ reflexivity | assumption | ].
        assert (Z.log2 w < 63) by (apply Z.log2_lt_pow2; lia). lia.
      * rewrite to_int64_small.
        2:{ rewrite Z.shiftl_1_l. split.
            - pose proof (Z.pow_pos_nonneg 2 k). lia.
            - apply Z.pow_lt_mono_r; lia. }
        rewrite Z.shiftl_1_l, Z.pow2_bits_eqb by lia.
        destruct (Z.eqb_spec k n); [ lia | apply andb_false_r ].
Qed.

Lemma land_63_range (index : Z) : 0 <= Z.land index 63 < 64.
Proof.
  change 63 with (Z.ones 6). rewrite Z.land_ones by lia.
  apply Z.mod_pos_bound. lia.
Qed.

(** [isBitSet] reads bit [index mod 64] of the 64-bit word number
    [index / 64] of the bitmap. *)
Lemma isBitSet_testbit (mem : list byte) (bitmap index : Z) :
  isBitSet mem bitmap index
  = (bs <- load mem (bitmap + Z.shiftr index 6 * 8) 8 ;;
     Ok (Z.testbit (le_value bs) (Z.land index 63))).
Proof.
  unfold isBitSet.
  destruct (load mem (bitmap + Z.shiftr index 6 * 8) 8) as [bs|e];
    [ | reflexivity ].
  simpl. f_equal.
  rewrite land_mask_is_testbit
    by (auto using to_int64_range, land_63_range).
  rewrite negb_involutive. apply to_int64_testbit. apply land_63_range.
Qed.

Lemma index_split (i j : Z) :
  Z.shiftr i 6 = Z.shiftr j 6 -> Z.land i 63 = Z.land j 63 -> i = j.
Proof.
  change 63 with (Z.ones 6). rewrite !Z.land_ones, !Z.shiftr_div_pow2 by lia.
  intros H1 H2.
  rewrite (Z.div_mod i (2 ^ 6)), (Z.div_mod j (2 ^ 6)) by lia.
  rewrite H1, H2. reflexivity.
Qed.

(** C10. [bitSet] sets bit [index] and nothing else: afterwards [isBitSet]
    holds at [index], answers as before at every other index, and every byte
    outside the 8-byte word that holds the bit is unchanged. *)
Theorem bitSet_touches_exactly_one_bit (mem : list byte) (bitmap index : Z) :
  0 <= index ->
  0 <= bitmap + Z.shiftr index 6 * 8 ->
  bitmap + Z.shiftr index 6 * 8 + 8 <= Z.of_nat (length mem) ->
  exists mem',
    bitSet mem bitmap index = Ok mem'
    /\ length mem' = length mem
    /\ isBitSet mem' bitmap index = Ok true
    /\ (forall j, 0 <= j -> j <> index ->
          isBitSet mem' bitmap j = isBitSet mem bitmap j)
    /\ (forall k : nat,
          Z.of_nat k < bitmap + Z.shiftr index 6 * 8
          \/ bitmap + Z.shiftr index 6 * 8 + 8 <= Z.of_nat k ->
          nth_error mem' k = nth_error mem k).
Proof.
  intros Hi Hlo Hhi. unfold bitSet.
  set (addr := bitmap + Z.shiftr index 6 * 8) in *.
  rewrite load_Ok by (simpl; lia). cbn [bind].
  set (bs := firstn 8 (skipn (Z.to_nat addr) mem)).
  assert (Lbs : load mem addr 8 = Ok bs) by (apply load_Ok; simpl; lia).
  set (value := Z.lor (to_int64 (le_value bs))
                  (to_int64 (Z.shiftl 1 (Z.land index 63)))).
  pose proof (land_63_range index) as Hk.
  rewrite memcpy_Ok by (rewrite ?length_le_bytes; simpl; lia).
  match goal with |- exists m, Ok ?x = Ok m /\ _ => set (mem' := x) end.
  assert (E : memcpy mem addr (le_bytes 8 value) = Ok mem')
    by (apply memcpy_Ok; rewrite ?length_le_bytes; simpl; lia).
  assert (Lnew : load mem' addr 8 = Ok (le_bytes 8 value))
    by (apply (load_memcpy_same _ _ _ _ E)).
  assert (Bit : forall n, 0 <= n < 64 ->
            Z.testbit (le_value (le_bytes 8 value)) n
            = Z.testbit (le_value bs) n || (Z.land index 63 =? n)).
  { intros n Hn. rewrite le_value_le_bytes.
    rewrite Z.mod_pow2_bits_low by (simpl; lia).
    unfold value. rewrite Z.lor_spec, to_int64_testbit, mask_testbit by lia.
    reflexivity. }
  exists mem'. split; [ reflexivity | ].
  split; [ eapply memcpy_length; eassumption | ].
  split; [ | split ].
  - rewrite isBitSet_testbit. fold addr. rewrite Lnew. cbn [bind].
    rewrite Bit by assumption. rewrite Z.eqb_refl, orb_true_r. reflexivity.
  - intros j Hj Hne. rewrite !isBitSet_testbit.
    destruct (Z.eq_dec (Z.shiftr j 6) (Z.shiftr index 6)) as [Ew|Ew].
    + rewrite Ew. fold addr. rewrite Lnew, Lbs. cbn [bind].
      rewrite Bit by apply land_63_range.
      destruct (Z.eqb_spec (Z.land index 63) (Z.land j 63)) as [El|El].
      * exfalso. apply Hne. apply index_split; congruence.
      * rewrite orb_false_r. reflexivity.
    + rewrite (load_memcpy_disjoint _ _ _ _ _ _ E); [ reflexivity | ].
      rewrite length_le_bytes. unfold addr. simpl Z.of_nat. lia.
  - intros k Hk'. eapply memcpy_nth_error_outside; [ exact E | ].
    rewrite length_le_bytes. simpl Z.of_nat. lia.
Qed.

Lemma bitSet_touches_exactly_one_bit_witness :
  exists mem',
    bitSet (repeat x00 16) 8 3 = Ok mem'
    /\ length mem' = length (repeat x00 16)
    /\ isBitSet mem' 8 3 = Ok true
    /\ (forall j, 0 <= j -> j <> 3 ->
          isBitSet mem' 8 j = isBitSet (repeat x00 16) 8 j)
    /\ (forall k : nat,
          Z.of_nat k < 8 + Z.shiftr 3 6 * 8
          \/ 8 + Z.shiftr 3 6 * 8 + 8 <= Z.of_nat k ->
          nth_error mem' k = nth_error (repeat x00 16) k).
Proof.
  apply (bitSet_touches_exactly_one_bit (repeat x00 16) 8 3);
    vm_compute; discriminate.
Defined.

(** ** The fixed-length writer *)

Lemma to_int64_mod (z : Z) : to_int64 (z mod 2 ^ 64) = to_int64 z.
Proof.
  unfold to_int64, signed_cast. change (2 ^ (64 - 1)) with (2 ^ 63).
  rewrite Zplus_mod_idemp_l. reflexivity.
Qed.

Lemma to_int64_le_value_le_bytes (z : Z) :
  - 2 ^ 63 <= z < 2 ^ 63 -> to_int64 (le_value (le_bytes 8 z)) = z.
Proof.
  intros H. rewrite le_value_le_bytes. change (8 * Z.of_nat 8) with 64.
  rewrite to_int64_mod. apply to_int64_small. assumption.
Qed.

Lemma load_split (mem : list byte) (a : Z) (n m : nat) (bs : list byte) :
  load mem a (n + m) = Ok bs ->
  load mem a n = Ok (firstn n bs)
  /\ load mem (a + Z.of_nat n) m = Ok (skipn n bs).
Proof.
  unfold load. intros E.
  destruct (Z.leb_spec 0 a); [ | discriminate ].
  destruct (Z.leb_spec (a + Z.of_nat (n + m)) (Z.of_nat (length mem)));
    [ | discriminate ].
  simpl in E. inversion E; subst bs; clear E.
  destruct (Z.leb_spec 0 (a + Z.of_nat n)); [ | lia ].
  destruct (Z.leb_spec (a + Z.of_nat n) (Z.of_nat (length mem))); [ | lia ].
  destruct (Z.leb_spec (a + Z.of_nat n + Z.of_nat m) (Z.of_nat (length mem)));
    [ | lia ].
  simpl. split; f_equal.
  - rewrite firstn_firstn. f_equal. lia.
  - rewrite skipn_firstn_comm, skipn_skipn. f_equal; [ lia | ].
    f_equal. lia.
Qed.

Lemma le_bytes_high_negative (v : Z) :
  - 2 ^ 31 <= v < 0 -> skipn 4 (le_bytes 8 v) = [xff; xff; xff; xff].
Proof.
  intros H. change 8%nat with (4 + 4)%nat. rewrite le_bytes_app.
  rewrite skipn_app, length_le_bytes, Nat.sub_diag.
  rewrite skipn_all2 by (rewrite length_le_bytes; lia).
  replace (Z.shiftr v (8 * Z.of_nat 4)) with (-1); [ reflexivity | ].
  rewrite Z.shiftr_div_pow2 by lia.
  change (2 ^ (8 * Z.of_nat 4)) with 4294967296.
  apply Z.div_unique with (r := v + 4294967296); lia.
Qed.

(** C8. A non-null decimal-32 is written into its slot as the 64-bit
    little-endian sign extension of its 32-bit value: the 8 bytes of the
    slot decode to the value, and for a negative value the 4 high bytes are
    0xFF. *)
Theorem write_Decimal32_sign_extends (v : Z) (mem : list byte) (buffer : Z) :
  - 2 ^ 31 <= v < 2 ^ 31 ->
  0 <= buffer -> buffer + 8 <= Z.of_nat (length mem) ->
  exists mem',
    FixedLengthDataWriter.write DataTypeDecimal32 (FDecimal32 v) mem buffer
    = Ok mem'
    /\ load mem' buffer 8 = Ok (le_bytes 8 v)
    /\ to_int64 (le_value (le_bytes 8 v)) = v
    /\ (v < 0 -> load mem' (buffer + 4) 4 = Ok [xff; xff; xff; xff]).
Proof.
  intros Hv Hlo Hhi.
  unfold FixedLengthDataWriter.write. cbn [isNull WhichDataType.isUInt8
    WhichDataType.isUInt16 WhichDataType.isDate WhichDataType.isUInt32
    WhichDataType.isDate32 WhichDataType.isUInt64 WhichDataType.isInt8
    WhichDataType.isInt16 WhichDataType.isInt32 WhichDataType.isInt64
    WhichDataType.isFloat32 WhichDataType.isFloat64 WhichDataType.isDecimal32
    orb safeGet_Decimal32 bind].
  rewrite (signed_cast_small 32 v) by (change (32 - 1) with 31; lia).
  rewrite to_int64_small by lia.
  destruct (memcpy mem buffer (le_bytes 8 v)) as [mem'|e] eqn:E.
  2:{ rewrite memcpy_Ok in E by (rewrite ?length_le_bytes; simpl; lia).
      discriminate. }
  exists mem'. split; [ reflexivity | ].
  pose proof (load_memcpy_same _ _ _ _ E) as L.
  rewrite length_le_bytes in L.
  split; [ exact L | ].
  split; [ apply to_int64_le_value_le_bytes; lia | ].
  intros Hneg. apply (load_split mem' buffer 4 4) in L.
  destruct L as [_ L]. change (Z.of_nat 4) with 4 in L. rewrite L. f_equal.
  apply le_bytes_high_negative. lia.
Qed.

Lemma write_Decimal32_sign_extends_witness :
  exists mem',
    FixedLengthDataWriter.write DataTypeDecimal32 (FDecimal32 (-2))
      (repeat x00 16) 8 = Ok mem'
    /\ load mem' 8 8 = Ok (le_bytes 8 (-2))
    /\ to_int64 (le_value (le_bytes 8 (-2))) = -2
    /\ (-2 < 0 -> load mem' (8 + 4) 4 = Ok [xff; xff; xff; xff]).
Proof.
  apply (write_Decimal32_sign_extends (-2) (repeat x00 16) 8);
    vm_compute; try split; first [ discriminate | reflexivity ].
Defined.

Import WhichDataType.
Import BackingDataLengthCalculator.

(** ** The error monad *)

Lemma bind_Ok_inv {A B : Type} (m : Result A) (k : A -> Result B) (b : B) :
  bind m k = Ok b -> exists a, m = Ok a /\ k a = Ok b.
Proof. destruct m as [a|e]; simpl; intros H; [ eauto | discriminate ]. Qed.

(** Splits a successful sequence into its successful steps. *)
Tactic Notation "bind_inv" hyp(H) :=
  let a := fresh "a" in
  let E := fresh "E" in
  apply bind_Ok_inv in H; destruct H as (a & E & H).

Lemma Ok_inj {A : Type} (a b : A) : Ok a = Ok b -> a = b.
Proof. intros H. injection H as H. exact H. Qed.

Lemma Ok_pair_inj {A B : Type} (a a' : A) (b b' : B) :
  Ok (a, b) = Ok (a', b') -> a = a' /\ b = b'.
Proof. intros H. injection H as H1 H2. auto. Qed.

Tactic Notation "bind_inv" hyp(H) "as" ident(a) ident(E) :=
  apply bind_Ok_inv in H; destruct H as (a & E & H).

(** Uses an equation between two results that are values. *)
Ltac inv_Ok H :=
  first [ apply Ok_pair_inj in H; destruct H as [? ?]
        | apply Ok_inj in H ];
  subst.

(** ** Size arithmetic *)

Lemma roundNumberOfBytesToNearestWord_spec (n : Z) :
  roundNumberOfBytesToNearestWord n = n + (8 - n mod 8) mod 8.
Proof.
  unfold roundNumberOfBytesToNearestWord.
  change 7 with (Z.ones 3). rewrite !Z.land_ones by lia. reflexivity.
Qed.

Lemma roundNumberOfBytesToNearestWord_bounds (n : Z) :
  n <= roundNumberOfBytesToNearestWord n < n + 8.
Proof.
  rewrite roundNumberOfBytesToNearestWord_spec.
  pose proof (Z.mod_pos_bound (8 - n mod 8) 8). lia.
Qed.

Lemma roundNumberOfBytesToNearestWord_0 : roundNumberOfBytesToNearestWord 0 = 0.
Proof. reflexivity. Qed.

Lemma roundNumberOfBytesToNearestWord_mul_8 (n : Z) :
  roundNumberOfBytesToNearestWord (8 * n) = 8 * n.
Proof.
  rewrite roundNumberOfBytesToNearestWord_spec.
  rewrite (Z.mul_comm 8 n), Z.mod_mul by lia.
  change ((8 - 0) mod 8) with 0. lia.
Qed.

Lemma calculateBitSetWidthInBytes_spec (n : Z) :
  0 <= n -> calculateBitSetWidthInBytes n = (n + 63) / 64 * 8.
Proof.
  intros H. unfold calculateBitSetWidthInBytes.
  rewrite Z.quot_div_nonneg by lia. reflexivity.
Qed.

Lemma calculateBitSetWidthInBytes_nonneg (n : Z) :
  0 <= n -> 0 <= calculateBitSetWidthInBytes n.
Proof.
  intros H. rewrite calculateBitSetWidthInBytes_spec by assumption.
  pose proof (Z.div_pos (n + 63) 64). lia.
Qed.

Lemma calculateBitSetWidthInBytes_0 : calculateBitSetWidthInBytes 0 = 0.
Proof. reflexivity. Qed.

(** The word that holds bit [i] lies inside a bitmap made for [n > i] bits. *)
Lemma bit_word_in_bitmap (i n : Z) :
  0 <= i < n ->
  0 <= Z.shiftr i 6 * 8
  /\ Z.shiftr i 6 * 8 + 8 <= calculateBitSetWidthInBytes n.
Proof.
  intros H. rewrite calculateBitSetWidthInBytes_spec by lia.
  rewrite Z.shiftr_div_pow2 by lia. change (2 ^ 6) with 64.
  pose proof (Z.div_pos i 64).
  assert (i / 64 + 1 <= (n + 63) / 64).
  { replace (i / 64 + 1) with ((i + 1 * 64) / 64)
      by (rewrite Z.div_add by lia; reflexivity).
    apply Z.div_le_mono; lia. }
  lia.
Qed.

Lemma calculatedFixeSizePerRow_nonneg (n : Z) :
  0 <= n -> 0 <= calculatedFixeSizePerRow n.
Proof.
  intros H. unfold calculatedFixeSizePerRow.
  pose proof (calculateBitSetWidthInBytes_nonneg n H). lia.
Qed.

Lemma getArrayElementSize_range (t : DataType) :
  1 <= getArrayElementSize t <= 8.
Proof.
  unfold getArrayElementSize.
  repeat match goal with
         | |- context [if ?b then _ else _] => destruct b
         end; lia.
Qed.

(** ** Induction on types, through [removeNullable] *)

Lemma DataType_nested_ind (P : DataType -> Prop) :
  (forall n, P n -> P (DataTypeArray n)) ->
  (forall ts, Forall P ts -> P (DataTypeTuple ts)) ->
  (forall k v, P k -> P v -> P (DataTypeMap k v)) ->
  (forall n, P n -> P (DataTypeNullable n)) ->
  (forall n, P n -> P (DataTypeLowCardinality n)) ->
  (forall t, isArray t = false -> isTuple t = false -> isMap t = false ->
             removeNullable t = t -> removeLowCardinality t = t -> P t) ->
  forall t, P t.
Proof.
  intros Harr Htup Hmap Hnull Hlc Hleaf.
  fix IH 1. intros t. destruct t;
    try (apply Hleaf; reflexivity).
  - apply Harr, IH.
  - apply Htup. revert elems. fix IHl 1. intros [|t l].
    + constructor.
    + constructor; [ apply IH | apply IHl ].
  - apply Hmap; apply IH.
  - apply Hnull, IH.
  - apply Hlc, IH.
Qed.

(** The induction the two passes follow: a composite type recurses into
    its element types with their nullability stripped. *)
Lemma DataType_removeNullable_ind (Q : DataType -> Prop) :
  (forall n, Q (removeNullable n) -> Q (DataTypeArray n)) ->
  (forall k v, Q (removeNullable k) -> Q (removeNullable v) ->
               Q (DataTypeMap k v)) ->
  (forall ts, Forall (fun t => Q (removeNullable t)) ts ->
              Q (DataTypeTuple ts)) ->
  (forall t, isArray t = false -> isTuple t = false -> isMap t = false ->
             Q t) ->
  forall t, Q t.
Proof.
  intros Harr Hmap Htup Hleaf t.
  enough (H : Q t /\ Q (removeNullable t)) by apply H.
  induction t using DataType_nested_ind.
  - destruct IHt. split; apply Harr; assumption.
  - assert (F : Forall (fun t => Q (removeNullable t)) ts).
    { eapply Forall_impl; [ | eassumption ]. simpl. tauto. }
    split; apply Htup; assumption.
  - destruct IHt1, IHt2. split; apply Hmap; assumption.
  - destruct IHt. split; [ apply Hleaf; reflexivity | assumption ].
  - split; apply Hleaf; reflexivity.
  - rewrite H2. split; apply Hleaf; assumption.
Qed.

(** ** Vectors *)

Lemma vector_at_Ok {A : Type} (v : list A) (i : nat) (a : A) :
  vector_at v i = Ok a <-> nth_error v i = Some a.
Proof.
  unfold vector_at. destruct (nth_error v i); split; intros H;
    inversion H; reflexivity.
Qed.

Lemma vector_at_lt {A : Type} (v : list A) (i : nat) :
  (i < length v)%nat -> exists a, vector_at v i = Ok a.
Proof.
  intros H. unfold vector_at. destruct (nth_error v i) eqn:E; [ eauto | ].
  apply nth_error_None in E. lia.
Qed.

Lemma vector_at_Ok_lt {A : Type} (v : list A) (i : nat) (a : A) :
  vector_at v i = Ok a -> (i < length v)%nat.
Proof.
  intros H. apply vector_at_Ok in H. apply nth_error_Some. congruence.
Qed.

Lemma length_vector_set {A : Type} (v : list A) (i : nat) (a : A) :
  length (vector_set v i a) = length v.
Proof.
  revert i. induction v as [|x v IH]; intros [|i]; simpl; auto.
Qed.

Lemma nth_error_vector_set_eq {A : Type} (v : list A) (i : nat) (a : A) :
  (i < length v)%nat -> nth_error (vector_set v i a) i = Some a.
Proof.
  revert i. induction v as [|x v IH]; intros [|i] H; simpl in *;
    try lia; auto. apply IH. lia.
Qed.

Lemma nth_error_vector_set_ne {A : Type} (v : list A) (i j : nat) (a : A) :
  i <> j -> nth_error (vector_set v i a) j = nth_error v j.
Proof.
  revert i j. induction v as [|x v IH]; intros [|i] [|j] H; simpl;
    try congruence; auto.
Qed.

Lemma vector_set_vector_set {A : Type} (v : list A) (i : nat) (a b : A) :
  vector_set (vector_set v i a) i b = vector_set v i b.
Proof.
  revert i. induction v as [|x v IH]; intros [|i]; simpl; auto.
  f_equal. apply IH.
Qed.

Lemma vector_set_same {A : Type} (v : list A) (i : nat) (a : A) :
  nth_error v i = Some a -> vector_set v i a = v.
Proof.
  revert i. induction v as [|x v IH]; intros [|i] H; simpl in *;
    try congruence.
  f_equal. apply IH. assumption.
Qed.

Lemma length_cursor_add (cs : list Z) (r : nat) (n : Z) :
  length (cursor_add cs r n) = length cs.
Proof.
  unfold cursor_add. destruct (nth_error cs r); [ | reflexivity ].
  apply length_vector_set.
Qed.

Lemma cursor_add_0 (cs : list Z) (r : nat) : cursor_add cs r 0 = cs.
Proof.
  unfold cursor_add. destruct (nth_error cs r) eqn:E; [ | reflexivity ].
  apply vector_set_same. rewrite E. f_equal. lia.
Qed.

Lemma cursor_add_add (cs : list Z) (r : nat) (n m : Z) :
  cursor_add (cursor_add cs r n) r m = cursor_add cs r (n + m).
Proof.
  unfold cursor_add. destruct (nth_error cs r) as [c|] eqn:E.
  - rewrite nth_error_vector_set_eq
      by (apply nth_error_Some; congruence).
    rewrite vector_set_vector_set. f_equal. lia.
  - rewrite E. reflexivity.
Qed.

Lemma nth_error_cursor_add_eq (cs : list Z) (r : nat) (n c : Z) :
  nth_error cs r = Some c -> nth_error (cursor_add cs r n) r = Some (c + n).
Proof.
  intros E. unfold cursor_add. rewrite E.
  apply nth_error_vector_set_eq. apply nth_error_Some. congruence.
Qed.

Lemma nth_error_cursor_add_ne (cs : list Z) (r j : nat) (n : Z) :
  r <> j -> nth_error (cursor_add cs r n) j = nth_error cs j.
Proof.
  intros H. unfold cursor_add. destruct (nth_error cs r); [ | reflexivity ].
  apply nth_error_vector_set_ne. assumption.
Qed.

Lemma cursor_add_at (cs : list Z) (r : nat) (n c : Z) :
  vector_at cs r = Ok c -> cursor_add cs r n = vector_set cs r (c + n).
Proof.
  intros E. apply vector_at_Ok in E. unfold cursor_add. rewrite E.
  reflexivity.
Qed.

Lemma advance_inv (st st' : RowBuffer) (r : nat) (n : Z) :
  advance st r n = Ok st' ->
  memory st' = memory st /\ cursor st' = cursor_add (cursor st) r n.
Proof.
  unfold advance. intros H. bind_inv H. inv_Ok H. simpl.
  split; [ reflexivity | ]. symmetry. apply cursor_add_at. assumption.
Qed.

Lemma advance_Ok (st : RowBuffer) (r : nat) (n c : Z) :
  vector_at (cursor st) r = Ok c ->
  advance st r n
  = Ok (mkRowBuffer (memory st) (cursor_add (cursor st) r n)).
Proof.
  intros E. unfold advance. rewrite E. simpl.
  rewrite (cursor_add_at _ _ _ _ E). reflexivity.
Qed.

(** ** Equations of [calculate] *)

Lemma calculate_Null (t : DataType) : calculate t FNull = Ok 0.
Proof. destruct t; reflexivity. Qed.

Lemma calculate_isNull (t : DataType) (f : Field) :
  isNull f = true -> calculate t f = Ok 0.
Proof. destruct f; try discriminate. intros _. apply calculate_Null. Qed.

Lemma calculate_Array (nested_type : DataType) (field : Field) :
  isNull field = false ->
  calculate (DataTypeArray nested_type) field
  = (array <- safeGet_Array field ;;
     calculateArray nested_type (calculate (removeNullable nested_type)) array).
Proof. destruct field; intros H; try discriminate; reflexivity. Qed.

Lemma calculate_Map (key_type val_type : DataType) (field : Field) :
  isNull field = false ->
  calculate (DataTypeMap key_type val_type) field
  = (map <- safeGet_Map field ;;
     calculateMap key_type val_type
       (calculate (removeNullable key_type))
       (calculate (removeNullable val_type)) map).
Proof. destruct field; intros H; try discriminate; reflexivity. Qed.

Lemma calculate_Tuple (type_fields : list DataType) (field : Field) :
  isNull field = false ->
  calculate (DataTypeTuple type_fields) field
  = (tuple <- safeGet_Tuple field ;;
     calculateTuple
       (List.map (fun t => (t, calculate (removeNullable t))) type_fields)
       tuple).
Proof. destruct field; intros H; try discriminate; reflexivity. Qed.

(** The calculator built for [Array(nested_type)] measures an array field
    by [calculateArray]: this is how the map branch measures its keys and
    its values. *)
Lemma calculate_Array_FArray (nested_type : DataType) (array : Array) :
  calculate (DataTypeArray nested_type) (FArray array)
  = calculateArray nested_type (calculate (removeNullable nested_type)) array.
Proof. reflexivity. Qed.

(** On a type that is no array, map or tuple. *)
Lemma calculate_leaf (t : DataType) (f : Field) :
  isArray t = false -> isTuple t = false -> isMap t = false ->
  calculate t f =
    if isNull f then Ok 0
    else if isNativeInt t || isNativeUInt t || isFloat t
            || isDateOrDate32 t || isDateTime64 t
            || isDecimal32 t || isDecimal64 t then Ok 0
    else if isStringOrFixedString t then
      str <- safeGet_String f ;;
      Ok (roundNumberOfBytesToNearestWord (Z.of_nat (length str)))
    else if isDecimal128 t then Ok 16
    else Throw UNKNOWN_TYPE.
Proof.
  intros H1 H2 H3. destruct t; try discriminate; destruct f; reflexivity.
Qed.

Lemma calculate_fixed (t : DataType) (f : Field) (n : Z) :
  isFixedLengthDataType t = true -> calculate t f = Ok n -> n = 0.
Proof.
  intros Hf. destruct t; try discriminate Hf; destruct f; simpl;
    intros H; inversion H; reflexivity.
Qed.

(** ** The length pass returns sizes *)

Lemma for_each_sum_nonneg {A : Type} (calc : nat -> A -> Result Z)
    (l : list A) (i : nat) (acc total : Z) :
  (forall j a n, calc j a = Ok n -> 0 <= n) ->
  for_each i l (fun j a res => n <- calc j a ;; Ok (res + n)) acc = Ok total ->
  acc <= total.
Proof.
  intros Hc. revert i acc. induction l as [|a l IH]; intros i acc H.
  - simpl in H. inv_Ok H. lia.
  - simpl in H. bind_inv H. bind_inv E. inv_Ok E.
    apply IH in H. apply Hc in E0. lia.
Qed.

Lemma calculateArray_nonneg (nested_type : DataType)
    (calculator : Field -> Result Z) (array : Array) (n : Z) :
  (forall f m, calculator f = Ok m -> 0 <= m) ->
  calculateArray nested_type calculator array = Ok n ->
  8 + calculateBitSetWidthInBytes (Z.of_nat (length array))
  + roundNumberOfBytesToNearestWord
      (getArrayElementSize nested_type * Z.of_nat (length array)) <= n.
Proof.
  intros Hc H. unfold calculateArray in H. bind_inv H.
  apply (for_each_sum_nonneg (fun _ => calculator)) in H; eauto.
Qed.

Lemma array_header_nonneg (nested_type : DataType) (len : nat) :
  0 <= calculateBitSetWidthInBytes (Z.of_nat len)
  /\ 0 <= roundNumberOfBytesToNearestWord
            (getArrayElementSize nested_type * Z.of_nat len).
Proof.
  split.
  - apply calculateBitSetWidthInBytes_nonneg. lia.
  - pose proof (getArrayElementSize_range nested_type).
    pose proof (roundNumberOfBytesToNearestWord_bounds
                  (getArrayElementSize nested_type * Z.of_nat len)).
    nia.
Qed.

Lemma calculateTuple_loop_nonneg
    (type_fields : list (DataType * (Field -> Result Z))) (tuple : Tuple)
    (i : nat) (acc total : Z) :
  Forall (fun p => forall f m, snd p f = Ok m -> 0 <= m) type_fields ->
  for_each i type_fields
    (fun i '(field_type, calculator) res =>
       _ <- ctor field_type ;;
       field_value <- vector_at tuple i ;;
       n <- calculator field_value ;;
       Ok (res + n)) acc = Ok total ->
  acc <= total.
Proof.
  intros F. revert i acc.
  induction F as [|[ft calc] l Hc F IH]; intros i acc H.
  - simpl in H. inv_Ok H. lia.
  - simpl in H. bind_inv H. bind_inv E. bind_inv E. bind_inv E. inv_Ok E.
    apply IH in H. apply Hc in E2. lia.
Qed.

Lemma calculate_nonneg (t : DataType) :
  forall (f : Field) (n : Z), calculate t f = Ok n -> 0 <= n.
Proof.
  induction t as [n IHn | k v IHk IHv | ts IHts | t Ha Ht Hm]
    using DataType_removeNullable_ind; intros f m H.
  - destruct (isNull f) eqn:N.
    { rewrite calculate_isNull in H by assumption. inv_Ok H. lia. }
    rewrite calculate_Array in H by assumption. bind_inv H.
    apply calculateArray_nonneg in H; [ | assumption ].
    pose proof (array_header_nonneg n (length a)). lia.
  - destruct (isNull f) eqn:N.
    { rewrite calculate_isNull in H by assumption. inv_Ok H. lia. }
    rewrite calculate_Map in H by assumption. bind_inv H.
    unfold calculateMap in H. bind_inv H. destruct a0 as [ks vs].
    bind_inv H. bind_inv H. inv_Ok H.
    apply calculateArray_nonneg in E1; [ | assumption ].
    apply calculateArray_nonneg in E2; [ | assumption ].
    pose proof (array_header_nonneg k (length ks)).
    pose proof (array_header_nonneg v (length vs)). lia.
  - destruct (isNull f) eqn:N.
    { rewrite calculate_isNull in H by assumption. inv_Ok H. lia. }
    rewrite calculate_Tuple in H by assumption. bind_inv H.
    unfold calculateTuple in H.
    apply calculateTuple_loop_nonneg in H.
    + rewrite length_map in H.
      pose proof (calculateBitSetWidthInBytes_nonneg (Z.of_nat (length ts))).
      lia.
    + apply Forall_map. eapply Forall_impl; [ | eassumption ]. simpl. auto.
  - rewrite calculate_leaf in H by assumption.
    repeat match type of H with
           | (if ?b then _ else _) = _ => destruct b
           end; try (inv_Ok H; lia); try discriminate.
    bind_inv H. inv_Ok H.
    pose proof (roundNumberOfBytesToNearestWord_bounds (Z.of_nat (length a))).
    lia.
Qed.

Import WhichDataType.
Import BackingDataLengthCalculator.

(** ** Equations of [write] *)

Import VariableLengthDataWriter.

Lemma write_isNull (t : DataType) (offsets : list Z) (r : nat) (f : Field)
    (p : Z) (st : RowBuffer) :
  isNull f = true -> write t offsets r f p st = Ok (st, 0).
Proof. destruct f; try discriminate. intros _. destruct t; reflexivity. Qed.

Lemma write_Array (nested_type : DataType) (offsets : list Z) (r : nat)
    (f : Field) (p : Z) (st : RowBuffer) :
  isNull f = false ->
  write (DataTypeArray nested_type) offsets r f p st
  = (array <- safeGet_Array f ;;
     writeArray nested_type
       (fun r f p s => write (removeNullable nested_type) offsets r f p s)
       offsets r array p st).
Proof. destruct f; intros H; try discriminate; reflexivity. Qed.

Lemma write_Map (key_type val_type : DataType) (offsets : list Z) (r : nat)
    (f : Field) (p : Z) (st : RowBuffer) :
  isNull f = false ->
  write (DataTypeMap key_type val_type) offsets r f p st
  = (map <- safeGet_Map f ;;
     writeMap key_type val_type
       (fun r f p s => write (removeNullable key_type) offsets r f p s)
       (fun r f p s => write (removeNullable val_type) offsets r f p s)
       offsets r map p st).
Proof. destruct f; intros H; try discriminate; reflexivity. Qed.

Lemma write_Tuple (field_types : list DataType) (offsets : list Z) (r : nat)
    (f : Field) (p : Z) (st : RowBuffer) :
  isNull f = false ->
  write (DataTypeTuple field_types) offsets r f p st
  = (tuple <- safeGet_Tuple f ;;
     writeStruct
       (List.map
          (fun t => (t, fun r f p s => write (removeNullable t) offsets r f p s))
          field_types)
       offsets r tuple p st).
Proof. destruct f; intros H; try discriminate; reflexivity. Qed.

(** The writer built for [Array(nested_type)] writes an array field by
    [writeArray]: this is how [writeMap] writes its keys and its values. *)
Lemma write_Array_FArray (nested_type : DataType) (offsets : list Z)
    (r : nat) (array : Array) (p : Z) (st : RowBuffer) :
  write (DataTypeArray nested_type) offsets r (FArray array) p st
  = writeArray nested_type
      (fun r f p s => write (removeNullable nested_type) offsets r f p s)
      offsets r array p st.
Proof. reflexivity. Qed.

Lemma write_leaf (t : DataType) (offsets : list Z) (r : nat) (f : Field)
    (p : Z) (st : RowBuffer) :
  isArray t = false -> isTuple t = false -> isMap t = false ->
  write t offsets r f p st =
    if isNull f then Ok (st, 0)
    else if isStringOrFixedString t then
      str <- safeGet_String f ;;
      writeUnalignedBytes offsets r str p st
    else if isDecimal128 t then
      decimal128 <- safeGet_Decimal128 f ;;
      buf <- swapDecimalEndianBytes (le_bytes 16 decimal128) ;;
      writeUnalignedBytes offsets r buf p st
    else Throw UNKNOWN_TYPE.
Proof.
  intros H1 H2 H3. destruct t; try discriminate; destruct f; reflexivity.
Qed.

(** ** Steps that leave the cursors alone *)

Lemma advanced_refl (st : RowBuffer) (r : nat) : advanced st st r 0.
Proof. split; [ symmetry; apply cursor_add_0 | reflexivity ]. Qed.

Lemma advanced_trans (st1 st2 st3 : RowBuffer) (r : nat) (n m : Z) :
  advanced st1 st2 r n -> advanced st2 st3 r m -> advanced st1 st3 r (n + m).
Proof.
  intros [C1 L1] [C2 L2]. split.
  - rewrite C2, C1. apply cursor_add_add.
  - congruence.
Qed.

Lemma advanced_eq (st st' : RowBuffer) (r : nat) (n m : Z) :
  advanced st st' r n -> n = m -> advanced st st' r m.
Proof. intros H <-. exact H. Qed.

Lemma advanced_set_memory (st : RowBuffer) (mem : list byte) (r : nat) :
  length mem = length (memory st) -> advanced st (set_memory st mem) r 0.
Proof. intros L. split; [ symmetry; apply cursor_add_0 | exact L ]. Qed.

Lemma advanced_advance (st st' : RowBuffer) (r : nat) (n : Z) :
  advance st r n = Ok st' -> advanced st st' r n.
Proof.
  intros H. apply advance_inv in H. destruct H as [M C].
  split; [ assumption | congruence ].
Qed.

Lemma bitSet_length (mem mem' : list byte) (bitmap index : Z) :
  bitSet mem bitmap index = Ok mem' -> length mem' = length mem.
Proof.
  unfold bitSet. intros H. bind_inv H. eapply memcpy_length; eassumption.
Qed.

Lemma FixedLengthDataWriter_write_length (t : DataType) (f : Field)
    (mem mem' : list byte) (buffer : Z) :
  FixedLengthDataWriter.write t f mem buffer = Ok mem' ->
  length mem' = length mem.
Proof.
  unfold FixedLengthDataWriter.write. intros H.
  repeat match type of H with
         | (if ?b then _ else _) = _ => destruct b
         end;
    try discriminate;
    try (inv_Ok H; reflexivity);
    bind_inv H; eapply memcpy_length; eassumption.
Qed.

Lemma swapDecimalEndianBytes_length (buf buf' : list byte) :
  swapDecimalEndianBytes buf = Ok buf' ->
  length buf = 16%nat /\ length buf' = 16%nat.
Proof.
  unfold swapDecimalEndianBytes.
  destruct (Nat.eqb_spec (length buf) 16) as [L|]; [ | discriminate ].
  intros H. inv_Ok H. split; [ assumption | ].
  rewrite length_app, !length_rev, length_firstn, length_skipn. lia.
Qed.

Lemma writeUnalignedBytes_advanced (offsets : list Z) (r : nat)
    (src : list byte) (p : Z) (st st' : RowBuffer) (d : Z) :
  writeUnalignedBytes offsets r src p st = Ok (st', d) ->
  advanced st st' r (roundNumberOfBytesToNearestWord (Z.of_nat (length src))).
Proof.
  unfold writeUnalignedBytes. intros H.
  bind_inv H. bind_inv H. bind_inv H. bind_inv H. inv_Ok H.
  apply advanced_advance in E2.
  apply memcpy_length in E1.
  apply (advanced_eq st st' r
           (0 + roundNumberOfBytesToNearestWord (Z.of_nat (length src))));
    [ | lia ].
  eapply advanced_trans; [ | eassumption ].
  apply advanced_set_memory. assumption.
Qed.

(** ** What the write pass advances is what the length pass measured *)

Section Agreement.

Lemma for_each_sum_zero {A : Type} (calc : nat -> A -> Result Z)
    (l : list A) (i : nat) (acc total : Z) :
  (forall j a n, calc j a = Ok n -> n = 0) ->
  for_each i l (fun j a res => n <- calc j a ;; Ok (res + n)) acc = Ok total ->
  total = acc.
Proof.
  intros Hc. revert i acc. induction l as [|a l IH]; intros i acc H.
  - simpl in H. inv_Ok H. reflexivity.
  - simpl in H. bind_inv H. bind_inv E. inv_Ok E.
    apply IH in H. apply Hc in E0. lia.
Qed.

(** A loop whose body only touches the memory. *)
Lemma for_each_memory_only {A : Type} (r : nat)
    (body : nat -> A -> RowBuffer -> Result RowBuffer) (l : list A) :
  (forall i a s s', body i a s = Ok s' -> advanced s s' r 0) ->
  forall i st st', for_each i l body st = Ok st' -> advanced st st' r 0.
Proof.
  intros Hb. induction l as [|a l IH]; intros i st st' H.
  - simpl in H. inv_Ok H. apply advanced_refl.
  - simpl in H. bind_inv H.
    apply (advanced_eq _ _ _ (0 + 0)); [ | reflexivity ].
    eapply advanced_trans; [ eapply Hb | eapply IH ]; eassumption.
Qed.

Lemma array_header_empty (nested_type : DataType) :
  8 + calculateBitSetWidthInBytes (Z.of_nat (length (@nil Field)))
  + roundNumberOfBytesToNearestWord
      (getArrayElementSize nested_type * Z.of_nat (length (@nil Field))) = 8.
Proof.
  cbn [length]. change (Z.of_nat 0) with 0. rewrite Z.mul_0_r. reflexivity.
Qed.

(** The loop of [writeArray] over elements of a variable-length type. *)
Lemma writeArray_loop_agree (writer : Writer)
    (calculator : Field -> Result Z) (r : nat) (offset start bitmap slots : Z)
    (elem_size : Z) :
  agree writer calculator ->
  null_free calculator ->
  forall (array : Array) (i : nat) (st st' : RowBuffer) (acc total : Z),
    for_each i array
      (fun i elem st =>
         if isNull elem then
           mem <- bitSet (memory st) bitmap (Z.of_nat i) ;;
           Ok (set_memory st mem)
         else
           ' (st, offset_and_size) <- writer r elem start st ;;
           mem <- memcpy (memory st) (slots + Z.of_nat i * elem_size)
                    (le_bytes 8 offset_and_size) ;;
           Ok (set_memory st mem)) st = Ok st' ->
    for_each i array (fun _ elem res => n <- calculator elem ;; Ok (res + n))
      acc = Ok total ->
    advanced st st' r (total - acc).
Proof.
  intros Hw Hnull. induction array as [|e array IH];
    intros i st st' acc total L C; cbn [for_each] in L, C.
  - inv_Ok L. inv_Ok C.
    apply (advanced_eq _ _ _ 0); [ apply advanced_refl | lia ].
  - bind_inv L as st1 B. bind_inv C as acc1 Ce. bind_inv Ce as n1 Cn.
    inv_Ok Ce.
    apply (advanced_eq _ _ _ (n1 + (total - (acc + n1)))); [ | lia ].
    eapply advanced_trans; [ | eapply IH; eassumption ].
    destruct (isNull e) eqn:Ne.
    + bind_inv B as mem Bm. inv_Ok B.
      rewrite (Hnull e n1 Ne Cn).
      apply advanced_set_memory. eauto using bitSet_length.
    + bind_inv B as sd Bw. destruct sd as [s1 oas].
      bind_inv B as mem Bm. inv_Ok B.
      apply (advanced_eq _ _ _ (n1 + 0)); [ | lia ].
      eapply advanced_trans; [ eapply Hw; eassumption | ].
      apply advanced_set_memory. eauto using memcpy_length.
Qed.

Lemma writeArray_agree (nested_type : DataType) (writer : Writer)
    (calculator : Field -> Result Z) :
  agree writer calculator ->
  null_free calculator ->
  (isFixedLengthDataType (removeNullable nested_type) = true ->
   measures_nothing calculator) ->
  forall offsets r array p st st' d n,
    writeArray nested_type writer offsets r array p st = Ok (st', d) ->
    calculateArray nested_type calculator array = Ok n ->
    advanced st st' r n.
Proof.
  intros Hw Hnull Hfix offsets r array p st st' d n W C.
  unfold writeArray in W.
  bind_inv W as offset Eo. bind_inv W as start Es. bind_inv W as mem Em.
  bind_inv W as st1 A1.
  apply memcpy_length in Em. apply advanced_advance in A1.
  assert (A0 : advanced st st1 r 8).
  { apply (advanced_eq _ _ _ (0 + 8)); [ | reflexivity ].
    eapply advanced_trans; [ | eassumption ].
    apply advanced_set_memory. assumption. }
  unfold calculateArray in C. bind_inv C as tw Ec.
  destruct (Z.eqb_spec (Z.of_nat (length array)) 0) as [Z0|NZ].
  - inv_Ok W. destruct array; [ | simpl in Z0; lia ].
    cbn [for_each] in C. inv_Ok C.
    rewrite array_header_empty. exact A0.
  - bind_inv W as st2 A2. bind_inv W as st3 A3. bind_inv W as st4 L.
    bind_inv W as c Ecur. inv_Ok W.
    apply advanced_advance in A2, A3.
    set (header := 8 + calculateBitSetWidthInBytes (Z.of_nat (length array))
                   + roundNumberOfBytesToNearestWord
                       (getArrayElementSize nested_type
                        * Z.of_nat (length array))) in *.
    apply (advanced_eq _ _ _ (header + (n - header))); [ | lia ].
    eapply advanced_trans.
    { unfold header. eapply advanced_trans; [ | exact A3 ].
      eapply advanced_trans; eassumption. }
    destruct (isFixedLengthDataType (removeNullable nested_type)) eqn:Fx.
    + bind_inv L as fixed Ef.
      apply (for_each_sum_zero (fun _ => calculator)) in C;
        [ | intros; eapply Hfix; eauto ].
      apply (advanced_eq _ _ _ 0); [ | lia ].
      eapply for_each_memory_only; [ | eassumption ].
      intros i e s s' B. cbn beta in B.
      destruct (isNull e); bind_inv B as m Bm; inv_Ok B;
        apply advanced_set_memory;
        eauto using bitSet_length, FixedLengthDataWriter_write_length.
    + bind_inv L as tv Ev.
      eapply writeArray_loop_agree; eassumption.
Qed.

(** The loop of [writeStruct] against the loop of the tuple branch of
    [calculate], over the same element types. *)
Lemma writeStruct_loop_agree (wf : DataType -> Writer)
    (cf : DataType -> Field -> Result Z) (r : nat) (tuple : Tuple)
    (bitmap start slots : Z) :
  forall (ts : list DataType),
    Forall (fun t =>
              agree (wf t) (cf t) /\ null_free (cf t)
              /\ (isFixedLengthDataType (removeNullable t) = true ->
                  measures_nothing (cf t))) ts ->
  forall (i : nat) (st st' : RowBuffer) (acc total : Z),
    for_each i (List.map (fun t => (t, wf t)) ts)
      (fun i '(field_type, writer) st =>
         field_value <- vector_at tuple i ;;
         if isNull field_value then
           mem <- bitSet (memory st) bitmap (Z.of_nat i) ;;
           Ok (set_memory st mem)
         else if isFixedLengthDataType (removeNullable field_type) then
           fixed <- FixedLengthDataWriter.ctor field_type ;;
           mem <- FixedLengthDataWriter.write fixed field_value (memory st)
                    (slots + Z.of_nat i * 8) ;;
           Ok (set_memory st mem)
         else
           _ <- ctor field_type ;;
           ' (st, offset_and_size) <- writer r field_value start st ;;
           mem <- memcpy (memory st) (slots + 8 * Z.of_nat i)
                    (le_bytes 8 offset_and_size) ;;
           Ok (set_memory st mem)) st = Ok st' ->
    for_each i (List.map (fun t => (t, cf t)) ts)
      (fun i '(field_type, calculator) res =>
         _ <- BackingDataLengthCalculator.ctor field_type ;;
         field_value <- vector_at tuple i ;;
         n <- calculator field_value ;;
         Ok (res + n)) acc = Ok total ->
    advanced st st' r (total - acc).
Proof.
  induction 1 as [|t ts (Hw & Hnull & Hfix) F IH];
    intros i st st' acc total L C; cbn [for_each List.map] in L, C.
  - inv_Ok L. inv_Ok C.
    apply (advanced_eq _ _ _ 0); [ apply advanced_refl | lia ].
  - bind_inv L as st1 B. bind_inv C as acc1 Ce.
    bind_inv Ce as tc Ec. bind_inv Ce as fv Ev. bind_inv Ce as n1 Cn.
    inv_Ok Ce.
    apply (advanced_eq _ _ _ (n1 + (total - (acc + n1)))); [ | lia ].
    eapply advanced_trans; [ | eapply IH; eassumption ].
    rewrite Ev in B. cbn [bind] in B.
    destruct (isNull fv) eqn:Ne.
    + bind_inv B as mem Bm. inv_Ok B.
      rewrite (Hnull fv n1 Ne Cn).
      apply advanced_set_memory. eauto using bitSet_length.
    + destruct (isFixedLengthDataType (removeNullable t)) eqn:Fx.
      * bind_inv B as fixed Ef. bind_inv B as mem Bm. inv_Ok B.
        rewrite (Hfix eq_refl fv n1 Cn).
        apply advanced_set_memory.
        eauto using FixedLengthDataWriter_write_length.
      * bind_inv B as tv Etv. bind_inv B as sd Bw. destruct sd as [s1 oas].
        bind_inv B as mem Bm. inv_Ok B.
        apply (advanced_eq _ _ _ (n1 + 0)); [ | lia ].
        eapply advanced_trans; [ eapply Hw; eassumption | ].
        apply advanced_set_memory. eauto using memcpy_length.
Qed.

Lemma writeStruct_agree (wf : DataType -> Writer)
    (cf : DataType -> Field -> Result Z) (ts : list DataType) :
  Forall (fun t =>
            agree (wf t) (cf t) /\ null_free (cf t)
            /\ (isFixedLengthDataType (removeNullable t) = true ->
                measures_nothing (cf t))) ts ->
  forall offsets r tuple p st st' d n,
    writeStruct (List.map (fun t => (t, wf t)) ts) offsets r tuple p st
    = Ok (st', d) ->
    calculateTuple (List.map (fun t => (t, cf t)) ts) tuple = Ok n ->
    advanced st st' r n.
Proof.
  intros F offsets r tuple p st st' d n W C.
  unfold writeStruct in W. unfold calculateTuple in C.
  rewrite length_map in W, C.
  bind_inv W as offset Eo. bind_inv W as start Es.
  destruct (Z.eqb_spec (Z.of_nat (length ts)) 0) as [Z0|NZ].
  - inv_Ok W. destruct ts; [ | simpl in Z0; lia ].
    cbn [for_each List.map] in C. inv_Ok C.
    apply advanced_refl.
  - bind_inv W as st1 A1. bind_inv W as st2 A2. bind_inv W as st3 L.
    bind_inv W as c Ecur. inv_Ok W.
    apply advanced_advance in A1, A2.
    set (header := calculateBitSetWidthInBytes (Z.of_nat (length ts))
                   + 8 * Z.of_nat (length ts)) in *.
    apply (advanced_eq _ _ _ (header + (n - header))); [ | lia ].
    eapply advanced_trans.
    { unfold header. rewrite (Z.mul_comm 8).
      eapply advanced_trans; eassumption. }
    eapply writeStruct_loop_agree; eassumption.
Qed.

Lemma writeMap_agree (key_type val_type : DataType)
    (writer_key writer_val : Writer)
    (calculator_key calculator_val : Field -> Result Z) :
  agree writer_key calculator_key -> null_free calculator_key ->
  (isFixedLengthDataType (removeNullable key_type) = true ->
   measures_nothing calculator_key) ->
  agree writer_val calculator_val -> null_free calculator_val ->
  (isFixedLengthDataType (removeNullable val_type) = true ->
   measures_nothing calculator_val) ->
  forall offsets r map p st st' d n,
    writeMap key_type val_type writer_key writer_val offsets r map p st
    = Ok (st', d) ->
    calculateMap key_type val_type calculator_key calculator_val map = Ok n ->
    advanced st st' r n.
Proof.
  intros Hk Hkn Hkf Hv Hvn Hvf offsets r map p st st' d n W C.
  unfold writeMap in W. unfold calculateMap in C.
  bind_inv W as offset Eo. bind_inv W as start Es. bind_inv W as st1 A1.
  bind_inv W as kv Ekv. destruct kv as [ks vs].
  bind_inv W as sk Wk. destruct sk as [st2 dk].
  bind_inv W as mem Em. bind_inv W as sv Wv. destruct sv as [st3 dv].
  bind_inv W as c Ecur. inv_Ok W.
  bind_inv C as kv' Ekv'. rewrite Ekv in Ekv'. inv_Ok Ekv'.
  bind_inv C as nk Ck. bind_inv C as nv Cv. inv_Ok C.
  apply advanced_advance in A1.
  eapply advanced_trans.
  - eapply advanced_trans; [ exact A1 | ].
    eapply writeArray_agree; [ exact Hk | exact Hkn | exact Hkf | | ];
      eassumption.
  - apply (advanced_eq _ _ _ (0 + nv)); [ | lia ].
    eapply advanced_trans;
      [ | eapply writeArray_agree;
          [ exact Hv | exact Hvn | exact Hvf | exact Wv | exact Cv ] ].
    apply advanced_set_memory. eapply memcpy_length. exact Em.
Qed.

End Agreement.

Lemma calculate_null_free (t : DataType) : null_free (calculate t).
Proof.
  intros f n N H. rewrite calculate_isNull in H by assumption.
  inv_Ok H. reflexivity.
Qed.

Lemma calculate_measures_nothing (nested_type : DataType) :
  isFixedLengthDataType (removeNullable nested_type) = true ->
  measures_nothing (calculate (removeNullable nested_type)).
Proof. intros Fx f n H. eapply calculate_fixed; eassumption. Qed.

(** Whenever both passes succeed on a value, the write pass has advanced
    the cursor of the row by the length that was calculated, has left the
    other cursors alone and has kept the size of the buffer. *)
Lemma write_agrees_with_calculate (offsets : list Z) (t : DataType) :
  agree (fun r f p s => write t offsets r f p s) (calculate t).
Proof.
  induction t as [n IHn | k v IHk IHv | ts IHts | t Ha Ht Hm]
    using DataType_removeNullable_ind;
    intros r f p s s' d m W C.
  - destruct (isNull f) eqn:N.
    { rewrite write_isNull in W by assumption.
      rewrite calculate_isNull in C by assumption.
      inv_Ok W. inv_Ok C. apply advanced_refl. }
    rewrite write_Array in W by assumption.
    rewrite calculate_Array in C by assumption.
    bind_inv W as array Ea. bind_inv C as array' Ea'.
    rewrite Ea in Ea'. inv_Ok Ea'.
    eapply writeArray_agree;
      [ exact IHn | apply calculate_null_free
      | apply calculate_measures_nothing | | ]; eassumption.
  - destruct (isNull f) eqn:N.
    { rewrite write_isNull in W by assumption.
      rewrite calculate_isNull in C by assumption.
      inv_Ok W. inv_Ok C. apply advanced_refl. }
    rewrite write_Map in W by assumption.
    rewrite calculate_Map in C by assumption.
    bind_inv W as map Ea. bind_inv C as map' Ea'.
    rewrite Ea in Ea'. inv_Ok Ea'.
    eapply writeMap_agree;
      [ exact IHk | apply calculate_null_free
      | apply calculate_measures_nothing
      | exact IHv | apply calculate_null_free
      | apply calculate_measures_nothing | | ]; eassumption.
  - destruct (isNull f) eqn:N.
    { rewrite write_isNull in W by assumption.
      rewrite calculate_isNull in C by assumption.
      inv_Ok W. inv_Ok C. apply advanced_refl. }
    rewrite write_Tuple in W by assumption.
    rewrite calculate_Tuple in C by assumption.
    bind_inv W as tuple Ea. bind_inv C as tuple' Ea'.
    rewrite Ea in Ea'. inv_Ok Ea'.
    eapply (writeStruct_agree
              (fun t r f p s => write (removeNullable t) offsets r f p s)
              (fun t => calculate (removeNullable t)));
      [ | eassumption | eassumption ].
    eapply Forall_impl; [ | exact IHts ].
    intros t Ht. cbn beta in Ht.
    split; [ exact Ht | ].
    split; [ apply calculate_null_free | apply calculate_measures_nothing ].
  - rewrite write_leaf in W by assumption.
    rewrite calculate_leaf in C by assumption.
    destruct (isNull f).
    { inv_Ok W. inv_Ok C. apply advanced_refl. }
    destruct (isStringOrFixedString t) eqn:S.
    { assert (Fx : isNativeInt t || isNativeUInt t || isFloat t
                   || isDateOrDate32 t || isDateTime64 t
                   || isDecimal32 t || isDecimal64 t = false)
        by (destruct t; try discriminate S; reflexivity).
      rewrite Fx in C. bind_inv W as str Es. bind_inv C as str' Es'.
      rewrite Es in Es'. inv_Ok Es'. inv_Ok C.
      eapply writeUnalignedBytes_advanced; eassumption. }
    destruct (isDecimal128 t) eqn:D; [ | discriminate ].
    assert (Fx : isNativeInt t || isNativeUInt t || isFloat t
                 || isDateOrDate32 t || isDateTime64 t
                 || isDecimal32 t || isDecimal64 t = false)
      by (destruct t; try discriminate D; reflexivity).
    rewrite Fx in C. inv_Ok C.
    bind_inv W as v Ev. bind_inv W as buf Eb.
    apply swapDecimalEndianBytes_length in Eb. destruct Eb as [_ Lb].
    apply writeUnalignedBytes_advanced in W. rewrite Lb in W. exact W.
Qed.

Import WhichDataType.
Import BackingDataLengthCalculator.

(** ** The length pass on conforming values *)

Lemma supported_classified (t : DataType) :
  supported t = true ->
  isFixedLengthDataType t = true \/ isVariableLengthDataType t = true.
Proof. destruct t; simpl; intros H; auto; discriminate. Qed.

Lemma ctor_measured (t : DataType) :
  (ctor t = Ok (removeNullable t)
   /\ (isFixedLengthDataType (removeNullable t) = true
       \/ isVariableLengthDataType (removeNullable t) = true))
  \/ (ctor t = Throw UNKNOWN_TYPE /\ supported (removeNullable t) = false).
Proof.
  unfold ctor.
  destruct (isFixedLengthDataType (removeNullable t)) eqn:F;
    destruct (isVariableLengthDataType (removeNullable t)) eqn:V; simpl;
    auto.
  right. split; [ reflexivity | ].
  destruct (supported (removeNullable t)) eqn:S; [ | reflexivity ].
  apply supported_classified in S. destruct S; congruence.
Qed.

Lemma ctor_Ok_inv (t twn : DataType) :
  ctor t = Ok twn ->
  twn = removeNullable t
  /\ (isFixedLengthDataType twn = true \/ isVariableLengthDataType twn = true).
Proof.
  intros H. destruct (ctor_measured t) as [[E C]|[E _]]; rewrite E in H.
  - inv_Ok H. auto.
  - discriminate.
Qed.

Lemma calculateArray_loop_measured (ok : Field -> bool)
    (calculator : Field -> Result Z) (sup : bool) :
  (forall f, ok f = true -> measured sup (calculator f)) ->
  forall (array : Array) (i : nat) (acc : Z),
    forallb ok array = true ->
    measured sup
      (for_each i array
         (fun _ elem res => n <- calculator elem ;; Ok (res + n)) acc).
Proof.
  intros Hc. induction array as [|e array IH]; intros i acc F;
    cbn [for_each].
  - left. eauto.
  - cbn [forallb] in F. apply andb_prop in F. destruct F as [Fe F].
    destruct (Hc e Fe) as [[n E]|[E S]]; rewrite E; cbn [bind].
    + apply IH. assumption.
    + right. auto.
Qed.

Lemma calculateArray_measured (nested_type : DataType)
    (calculator : Field -> Result Z) (ok : Field -> bool) :
  (forall f, ok f = true ->
             measured (supported (removeNullable nested_type)) (calculator f)) ->
  forall array,
    forallb ok array = true ->
    measured (supported (removeNullable nested_type))
      (calculateArray nested_type calculator array).
Proof.
  intros Hc array F. unfold calculateArray.
  destruct (ctor_measured nested_type) as [[E _]|[E S]]; rewrite E;
    cbn [bind].
  - eapply calculateArray_loop_measured; eassumption.
  - right. auto.
Qed.

Lemma skipn_cons_nth_error {A : Type} (l : list A) (i : nat) (a : A)
    (rest : list A) :
  skipn i l = a :: rest -> nth_error l i = Some a /\ skipn (S i) l = rest.
Proof.
  revert l. induction i as [|i IH]; intros [|x l] H; simpl in H;
    try discriminate.
  - inversion H. subst. auto.
  - apply IH in H. simpl. exact H.
Qed.

Lemma calculateTuple_loop_measured (cf : DataType -> Field -> Result Z)
    (tuple : Tuple) :
  forall (ts : list DataType),
    Forall (fun t => forall f, conforms (removeNullable t) f = true ->
                     measured (supported (removeNullable t)) (cf t f)) ts ->
  forall (i : nat) (acc : Z),
    conforms_fields (List.map (fun t => conforms (removeNullable t)) ts)
      (skipn i tuple) = true ->
    measured (forallb (fun t => supported (removeNullable t)) ts)
      (for_each i (List.map (fun t => (t, cf t)) ts)
         (fun i '(field_type, calculator) res =>
            _ <- ctor field_type ;;
            field_value <- vector_at tuple i ;;
            n <- calculator field_value ;;
            Ok (res + n)) acc).
Proof.
  induction 1 as [|t ts Ht F IH]; intros i acc C;
    cbn [for_each List.map forallb].
  - left. eauto.
  - cbn [List.map conforms_fields] in C.
    destruct (skipn i tuple) as [|fv rest] eqn:Sk; [ discriminate | ].
    apply andb_prop in C. destruct C as [Cf C].
    apply skipn_cons_nth_error in Sk. destruct Sk as [Nth Sk].
    destruct (ctor_measured t) as [[E _]|[E S]]; rewrite E; cbn [bind].
    2:{ right. rewrite S. auto. }
    unfold vector_at at 1. rewrite Nth. cbn [bind].
    destruct (Ht fv Cf) as [[n En]|[En S]]; rewrite En; cbn [bind].
    2:{ right. rewrite S. auto. }
    rewrite <- Sk in C.
    destruct (IH (S i) (acc + n) C) as [[m Em]|[Em S]].
    + left. eauto.
    + right. rewrite S, andb_false_r. auto.
Qed.

Lemma splitMap_conforms (okk okv : Field -> bool) (map : Map) :
  forallb
    (fun entry =>
       match entry with
       | FTuple (k :: v :: _) => okk k && okv v
       | _ => false
       end) map = true ->
  exists ks vs,
    splitMap map = Ok (ks, vs)
    /\ forallb okk ks = true /\ forallb okv vs = true.
Proof.
  induction map as [|e map IH]; intros F.
  - exists [], []. auto.
  - cbn [forallb] in F. apply andb_prop in F. destruct F as [Fe F].
    destruct (IH F) as (ks & vs & E & Fk & Fv).
    destruct e; try discriminate.
    destruct t as [|k [|v t]]; try discriminate.
    apply andb_prop in Fe. destruct Fe as [Ok' Ov].
    exists (k :: ks), (v :: vs). cbn [splitMap safeGet_Tuple bind].
    unfold vector_at. cbn [nth_error bind]. rewrite E. cbn [bind].
    cbn [forallb]. rewrite Ok', Ov, Fk, Fv. auto.
Qed.

Lemma conforms_isNull (t : DataType) (f : Field) :
  isNull f = true -> conforms t f = true.
Proof. destruct f; try discriminate. destruct t; reflexivity. Qed.

(** On a conforming value the length pass returns a length, unless the
    type is not supported and it throws [UNKNOWN_TYPE]. *)
Lemma calculate_measured (t : DataType) :
  forall f, conforms t f = true -> measured (supported t) (calculate t f).
Proof.
  induction t as [n IHn | k v IHk IHv | ts IHts | t Ha Ht Hm]
    using DataType_removeNullable_ind; intros f C.
  - destruct f; try discriminate C;
      try (left; rewrite calculate_Null; eauto; fail).
    rewrite calculate_Array_FArray. cbn [conforms isNull orb] in C.
    change (supported (DataTypeArray n)) with (supported (removeNullable n)).
    eapply calculateArray_measured; eassumption.
  - destruct f; try discriminate C;
      try (left; rewrite calculate_Null; eauto; fail).
    cbn [conforms isNull orb] in C.
    rewrite calculate_Map by reflexivity. cbn [safeGet_Map bind].
    unfold calculateMap.
    apply splitMap_conforms in C. destruct C as (ks & vs & E & Fk & Fv).
    rewrite E. cbn [bind].
    change (supported (DataTypeMap k v))
      with (supported (removeNullable k) && supported (removeNullable v)).
    destruct (calculateArray_measured k _ _ IHk ks Fk) as [[nk Ek]|[Ek S]];
      rewrite Ek; cbn [bind].
    2:{ right. rewrite S. auto. }
    destruct (calculateArray_measured v _ _ IHv vs Fv) as [[nv Ev]|[Ev S]];
      rewrite Ev; cbn [bind].
    2:{ right. rewrite S, andb_false_r. auto. }
    left. eauto.
  - destruct f; try discriminate C;
      try (left; rewrite calculate_Null; eauto; fail).
    cbn [conforms isNull orb] in C.
    rewrite calculate_Tuple by reflexivity. cbn [safeGet_Tuple bind].
    unfold calculateTuple.
    change (supported (DataTypeTuple ts))
      with (forallb (fun t => supported (removeNullable t)) ts).
    apply (calculateTuple_loop_measured
             (fun t => calculate (removeNullable t))); assumption.
  - rewrite calculate_leaf by assumption.
    destruct t; try discriminate; destruct f; try discriminate C;
      cbn; first [ left; eauto; fail | right; auto ].
Qed.

Lemma calculate_supported (t : DataType) (f : Field) :
  supported t = true -> conforms t f = true -> exists n, calculate t f = Ok n.
Proof.
  intros S C. destruct (calculate_measured t f C) as [H|[_ H]];
    [ exact H | congruence ].
Qed.

Lemma calculate_conforms_error (t : DataType) (f : Field) (e : ErrorCode) :
  conforms t f = true -> calculate t f = Throw e -> e = UNKNOWN_TYPE.
Proof.
  intros C H. destruct (calculate_measured t f C) as [[n E]|[E _]];
    congruence.
Qed.

Import WhichDataType.
Import BackingDataLengthCalculator.
Import VariableLengthDataWriter.

(** ** The write pass stays inside the measured region *)

Lemma advanced_cursor_at (st st' : RowBuffer) (r : nat) (n c : Z) :
  advanced st st' r n -> vector_at (cursor st) r = Ok c ->
  vector_at (cursor st') r = Ok (c + n).
Proof.
  intros [C _] E. apply vector_at_Ok in E. apply vector_at_Ok.
  rewrite C. apply nth_error_cursor_add_eq. assumption.
Qed.

Lemma bitSet_Ok (mem : list byte) (bitmap index : Z) :
  0 <= bitmap + Z.shiftr index 6 * 8 ->
  bitmap + Z.shiftr index 6 * 8 + 8 <= Z.of_nat (length mem) ->
  exists mem', bitSet mem bitmap index = Ok mem'.
Proof.
  intros Hlo Hhi. unfold bitSet.
  rewrite load_Ok by (change (Z.of_nat 8) with 8; lia). cbn [bind].
  rewrite memcpy_Ok
    by (rewrite ?length_le_bytes; change (Z.of_nat 8) with 8; lia).
  eauto.
Qed.

(** Setting the null bit of element [i] of a composite of [n] elements
    whose bitmap starts at [bitmap]. *)
Lemma bitSet_in_bitmap_Ok (mem : list byte) (bitmap : Z) (i : nat) (n : Z) :
  Z.of_nat i < n -> 0 <= bitmap ->
  bitmap + calculateBitSetWidthInBytes n <= Z.of_nat (length mem) ->
  exists mem', bitSet mem bitmap (Z.of_nat i) = Ok mem'.
Proof.
  intros Hi Hlo Hhi.
  pose proof (bit_word_in_bitmap (Z.of_nat i) n ltac:(lia)).
  apply bitSet_Ok; lia.
Qed.

Lemma getArrayElementSize_fixed (nested_type : DataType) :
  isFixedLengthDataType (removeNullable nested_type) = true ->
  getArrayElementSize (removeNullable nested_type)
  = getArrayElementSize nested_type.
Proof.
  destruct nested_type; try reflexivity.
  cbn [removeNullable]. destruct nested_type; try reflexivity; discriminate.
Qed.

Lemma getArrayElementSize_not_fixed (nested_type : DataType) :
  isFixedLengthDataType (removeNullable nested_type) = false ->
  getArrayElementSize nested_type = 8.
Proof.
  unfold getArrayElementSize.
  destruct (removeNullable nested_type); try reflexivity; discriminate.
Qed.

(** The fixed-length writer writes [getArrayElementSize] bytes of a
    conforming value. *)
Lemma FixedLengthDataWriter_write_Ok (t : DataType) (f : Field)
    (mem : list byte) (buffer : Z) :
  isFixedLengthDataType t = true -> conforms t f = true ->
  0 <= buffer ->
  buffer + getArrayElementSize t <= Z.of_nat (length mem) ->
  exists mem', FixedLengthDataWriter.write t f mem buffer = Ok mem'.
Proof.
  intros Fx C Hlo Hhi.
  destruct t; try discriminate Fx; destruct f; try discriminate C;
    try (eexists; reflexivity);
    cbn -[le_bytes memcpy unsigned_cast signed_cast to_int64
          Float32_of_Float64] in Hhi |- *;
    (rewrite memcpy_Ok; [ eauto | assumption | ]);
    rewrite length_le_bytes; cbn; lia.
Qed.

Lemma FixedLengthDataWriter_ctor_Ok (t : DataType) :
  isFixedLengthDataType (removeNullable t) = true ->
  FixedLengthDataWriter.ctor t = Ok (removeNullable t).
Proof. intros H. unfold FixedLengthDataWriter.ctor. rewrite H. reflexivity. Qed.

Lemma VariableLengthDataWriter_ctor_Ok (t : DataType) :
  isVariableLengthDataType (removeNullable t) = true ->
  ctor t = Ok (removeNullable t).
Proof. intros H. unfold ctor. rewrite H. reflexivity. Qed.

(** A loop whose body succeeds and only touches the memory, keeping its
    size, on every index below [bound]. *)
Lemma for_each_memory_only_Ok {A : Type} (ok : A -> bool) (bound : nat)
    (L : nat) (body : nat -> A -> RowBuffer -> Result RowBuffer) :
  (forall i a s, (i < bound)%nat -> ok a = true -> length (memory s) = L ->
     exists mem', body i a s = Ok (set_memory s mem') /\ length mem' = L) ->
  forall (l : list A) (i : nat) (st : RowBuffer),
    forallb ok l = true -> (i + length l <= bound)%nat ->
    length (memory st) = L ->
    exists st', for_each i l body st = Ok st'.
Proof.
  intros Hb. induction l as [|a l IH]; intros i st F B Lm; cbn [for_each].
  - eauto.
  - cbn [forallb] in F. apply andb_prop in F. destruct F as [Fa F].
    cbn [length] in B.
    destruct (Hb i a st ltac:(lia) Fa Lm) as (mem' & E & Lm').
    rewrite E. cbn [bind]. apply IH; [ assumption | lia | exact Lm' ].
Qed.

Section Safety.

Variable offsets : list Z.

(** The loop of [writeArray] over elements of a variable-length type. *)
Lemma writeArray_loop_Ok (ok : Field -> bool) (writer : Writer)
    (calculator : Field -> Result Z) (r : nat)
    (offset start bitmap slots num : Z) (L : nat) :
  safe ok offsets writer calculator ->
  agree writer calculator ->
  null_free calculator ->
  (forall f n, calculator f = Ok n -> 0 <= n) ->
  vector_at offsets r = Ok offset ->
  0 <= bitmap -> bitmap + calculateBitSetWidthInBytes num <= Z.of_nat L ->
  0 <= slots -> slots + num * 8 <= Z.of_nat L ->
  forall (array : Array) (i : nat) (st : RowBuffer) (acc total cur : Z),
    forallb ok array = true ->
    Z.of_nat (i + length array) <= num ->
    for_each i array (fun _ elem res => n <- calculator elem ;; Ok (res + n))
      acc = Ok total ->
    vector_at (cursor st) r = Ok cur ->
    0 <= offset + cur ->
    offset + cur + (total - acc) <= Z.of_nat L ->
    length (memory st) = L ->
    exists st',
      for_each i array
        (fun i elem st =>
           if isNull elem then
             mem <- bitSet (memory st) bitmap (Z.of_nat i) ;;
             Ok (set_memory st mem)
           else
             ' (st, offset_and_size) <- writer r elem start st ;;
             mem <- memcpy (memory st) (slots + Z.of_nat i * 8)
                      (le_bytes 8 offset_and_size) ;;
             Ok (set_memory st mem)) st = Ok st'.
Proof.
  intros Hs Ha Hnull Hpos Eo Hb1 Hb2 Hs1 Hs2.
  induction array as [|e array IH];
    intros i st acc total cur F B C Ec Hlo Hhi Lm; cbn [for_each] in *.
  - eauto.
  - cbn [forallb] in F. apply andb_prop in F. destruct F as [Fe F].
    cbn [length] in B.
    bind_inv C as acc1 Ce. bind_inv Ce as n1 Cn. inv_Ok Ce.
    pose proof (Hpos _ _ Cn) as Pn.
    pose proof (for_each_sum_nonneg (fun _ => calculator) _ _ _ _
                  (fun _ => Hpos) C) as Mono.
    destruct (isNull e) eqn:Ne.
    + destruct (bitSet_in_bitmap_Ok (memory st) bitmap i num)
        as [mem' Em]; [ lia | lia | lia | ].
      rewrite Em. cbn [bind].
      rewrite (Hnull e n1 Ne Cn) in *.
      apply (IH (S i) (set_memory st mem') (acc + 0) total cur);
        try assumption; try lia.
      cbn [set_memory memory]. apply bitSet_length in Em. congruence.
    + destruct (Hs r e start st n1 offset cur Fe Cn Eo Ec Hlo ltac:(lia))
        as (s1 & d & Ew).
      rewrite Ew. cbn [bind].
      pose proof (Ha _ _ _ _ _ _ _ Ew Cn) as Adv.
      pose proof (advanced_cursor_at _ _ _ _ _ Adv Ec) as Ec1.
      destruct Adv as [_ Lm1].
      rewrite memcpy_Ok
        by (rewrite ?length_le_bytes; change (Z.of_nat 8) with 8; lia).
      cbn [bind].
      eapply (IH (S i) _ (acc + n1) total (cur + n1));
        try eassumption; try lia.
      cbn [set_memory memory].
      rewrite !length_app, length_firstn, length_skipn, length_le_bytes.
      lia.
Qed.

Lemma writeArray_safe (nested_type : DataType) (writer : Writer)
    (calculator : Field -> Result Z) :
  (isVariableLengthDataType (removeNullable nested_type) = true ->
   safe (conforms (removeNullable nested_type)) offsets writer calculator) ->
  agree writer calculator ->
  null_free calculator ->
  (forall f n, calculator f = Ok n -> 0 <= n) ->
  forall r array p st n offset c,
    forallb (conforms (removeNullable nested_type)) array = true ->
    calculateArray nested_type calculator array = Ok n ->
    vector_at offsets r = Ok offset ->
    vector_at (cursor st) r = Ok c ->
    0 <= offset + c ->
    offset + c + n <= Z.of_nat (length (memory st)) ->
    exists st' d, writeArray nested_type writer offsets r array p st
                  = Ok (st', d).
Proof.
  intros Hs Ha Hnull Hpos r array p st n offset c F C Eo Ec Hlo Hhi.
  pose proof (calculateArray_nonneg _ _ _ _ Hpos C) as Hdr.
  pose proof (array_header_nonneg nested_type (length array)) as [Pb Pv].
  unfold calculateArray in C. bind_inv C as tw Ect.
  apply ctor_Ok_inv in Ect. destruct Ect as [-> Cls].
  unfold writeArray. rewrite Eo, Ec. cbn [bind].
  rewrite memcpy_Ok
    by (rewrite ?length_le_bytes; change (Z.of_nat 8) with 8; lia).
  cbn [bind].
  set (mem1 := firstn _ _ ++ _ ++ skipn _ _).
  assert (L1 : length mem1 = length (memory st)).
  { unfold mem1.
    rewrite !length_app, length_firstn, length_skipn, length_le_bytes.
    lia. }
  rewrite (advance_Ok _ _ _ c) by exact Ec. cbn [bind set_memory memory cursor].
  destruct (Z.eqb_spec (Z.of_nat (length array)) 0) as [Z0|NZ]; [ eauto | ].
  set (num := Z.of_nat (length array)) in *.
  set (bm := calculateBitSetWidthInBytes num) in *.
  set (es := getArrayElementSize nested_type) in *.
  set (vals := roundNumberOfBytesToNearestWord (es * num)) in *.
  assert (Ec1 : vector_at (cursor_add (cursor st) r 8) r = Ok (c + 8)).
  { apply vector_at_Ok, nth_error_cursor_add_eq, vector_at_Ok, Ec. }
  rewrite (advance_Ok _ _ _ (c + 8)) by exact Ec1.
  cbn [bind set_memory memory cursor].
  rewrite cursor_add_add.
  assert (Ec2 : vector_at (cursor_add (cursor st) r (8 + bm)) r
                = Ok (c + (8 + bm))).
  { apply vector_at_Ok, nth_error_cursor_add_eq, vector_at_Ok, Ec. }
  rewrite (advance_Ok _ _ _ (c + (8 + bm))) by exact Ec2.
  cbn [bind set_memory memory cursor].
  rewrite cursor_add_add.
  assert (Ec3 : vector_at (cursor_add (cursor st) r (8 + bm + vals)) r
                = Ok (c + (8 + bm + vals))).
  { apply vector_at_Ok, nth_error_cursor_add_eq, vector_at_Ok, Ec. }
  set (st3 := mkRowBuffer mem1 (cursor_add (cursor st) r (8 + bm + vals))).
  pose proof (roundNumberOfBytesToNearestWord_bounds (es * num)) as Rv.
  fold vals in Rv.
  assert (Loop : exists st',
             (if isFixedLengthDataType (removeNullable nested_type)
              then
                fixed <- FixedLengthDataWriter.ctor nested_type ;;
                for_each 0 array
                  (fun i elem st =>
                     if isNull elem then
                       mem <- bitSet (memory st) (offset + c + 8)
                                (Z.of_nat i) ;;
                       Ok (set_memory st mem)
                     else
                       mem <- FixedLengthDataWriter.write fixed elem
                                (memory st)
                                (offset + c + 8 + bm + Z.of_nat i * es) ;;
                       Ok (set_memory st mem)) st3
              else
                _ <- ctor nested_type ;;
                for_each 0 array
                  (fun i elem st =>
                     if isNull elem then
                       mem <- bitSet (memory st) (offset + c + 8)
                                (Z.of_nat i) ;;
                       Ok (set_memory st mem)
                     else
                       ' (st, offset_and_size) <- writer r elem c st ;;
                       mem <- memcpy (memory st)
                                (offset + c + 8 + bm + Z.of_nat i * es)
                                (le_bytes 8 offset_and_size) ;;
                       Ok (set_memory st mem)) st3) = Ok st'
             /\ exists k, advanced st3 st' r k).
  { destruct (isFixedLengthDataType (removeNullable nested_type)) eqn:Fx.
    - rewrite FixedLengthDataWriter_ctor_Ok by assumption. cbn [bind].
      match goal with
      | |- exists st', for_each 0 array ?b st3 = Ok st' /\ _ =>
          destruct (for_each_memory_only_Ok
                      (conforms (removeNullable nested_type))
                      (length array) (length (memory st)) b) with
            (l := array) (i := 0%nat) (st := st3) as [st' El]
      end.
      + intros i e s Hi Ce Ls.
        destruct (isNull e) eqn:Ne.
        * destruct (bitSet_in_bitmap_Ok (memory s) (offset + c + 8) i num)
            as [mem' Em]; [ unfold num; lia | lia | fold bm; lia | ].
          rewrite Em. cbn [bind]. exists mem'.
          split; [ reflexivity | ]. apply bitSet_length in Em. congruence.
        * destruct (FixedLengthDataWriter_write_Ok
                      (removeNullable nested_type) e (memory s)
                      (offset + c + 8 + bm + Z.of_nat i * es))
            as [mem' Em]; try assumption.
          -- pose proof (getArrayElementSize_range nested_type) as Hr.
             fold es in Hr. nia.
          -- rewrite getArrayElementSize_fixed by assumption.
             fold es. unfold num in *. nia.
          -- rewrite Em. cbn [bind]. exists mem'.
             split; [ reflexivity | ].
             apply FixedLengthDataWriter_write_length in Em. congruence.
      + assumption.
      + lia.
      + exact L1.
      + exists st'. split; [ exact El | ]. exists 0.
        eapply for_each_memory_only; [ | exact El ].
        intros i e s s' B. cbn beta in B.
        destruct (isNull e); bind_inv B as m Bm; inv_Ok B;
          apply advanced_set_memory;
          eauto using bitSet_length, FixedLengthDataWriter_write_length.
    - assert (V : isVariableLengthDataType (removeNullable nested_type) = true)
        by (destruct Cls; congruence).
      rewrite VariableLengthDataWriter_ctor_Ok by assumption. cbn [bind].
      assert (Es : es = 8) by (apply getArrayElementSize_not_fixed, Fx).
      rewrite Es in *.
      destruct (writeArray_loop_Ok (conforms (removeNullable nested_type))
                  writer calculator r offset c (offset + c + 8)
                  (offset + c + 8 + bm) num (length (memory st))
                  (Hs V) Ha Hnull Hpos Eo)
        with (array := array) (i := 0%nat) (st := st3)
             (acc := 8 + bm + vals) (total := n) (cur := c + (8 + bm + vals))
        as [st' El]; try assumption; try lia.
      exists st'. split; [ exact El | ]. exists (n - (8 + bm + vals)).
      eapply writeArray_loop_agree; eassumption. }
  destruct Loop as (st' & El & k & Adv).
  rewrite El. cbn [bind].
  rewrite (advanced_cursor_at _ _ _ _ _ Adv Ec3). cbn [bind]. eauto.
Qed.

(** The loop of [writeStruct]. *)
Lemma writeStruct_loop_Ok (wf : DataType -> Writer)
    (cf : DataType -> Field -> Result Z) (r : nat) (tuple : Tuple)
    (offset start bitmap slots num : Z) (L : nat) :
  vector_at offsets r = Ok offset ->
  0 <= bitmap -> bitmap + calculateBitSetWidthInBytes num <= Z.of_nat L ->
  0 <= slots -> slots + num * 8 <= Z.of_nat L ->
  forall (ts : list DataType),
    Forall (fun t =>
              (isVariableLengthDataType (removeNullable t) = true ->
               safe (conforms (removeNullable t)) offsets (wf t) (cf t))
              /\ agree (wf t) (cf t)
              /\ (forall f n, cf t f = Ok n -> 0 <= n)) ts ->
  forall (i : nat) (st : RowBuffer) (acc total cur : Z),
    conforms_fields (List.map (fun t => conforms (removeNullable t)) ts)
      (skipn i tuple) = true ->
    Z.of_nat (i + length ts) <= num ->
    for_each i (List.map (fun t => (t, cf t)) ts)
      (fun i '(field_type, calculator) res =>
         _ <- BackingDataLengthCalculator.ctor field_type ;;
         field_value <- vector_at tuple i ;;
         n <- calculator field_value ;;
         Ok (res + n)) acc = Ok total ->
    vector_at (cursor st) r = Ok cur ->
    0 <= offset + cur ->
    offset + cur + (total - acc) <= Z.of_nat L ->
    length (memory st) = L ->
    exists st',
      for_each i (List.map (fun t => (t, wf t)) ts)
        (fun i '(field_type, writer) st =>
           field_value <- vector_at tuple i ;;
           if isNull field_value then
             mem <- bitSet (memory st) bitmap (Z.of_nat i) ;;
             Ok (set_memory st mem)
           else if isFixedLengthDataType (removeNullable field_type) then
             fixed <- FixedLengthDataWriter.ctor field_type ;;
             mem <- FixedLengthDataWriter.write fixed field_value (memory st)
                      (slots + Z.of_nat i * 8) ;;
             Ok (set_memory st mem)
           else
             _ <- ctor field_type ;;
             ' (st, offset_and_size) <- writer r field_value start st ;;
             mem <- memcpy (memory st) (slots + 8 * Z.of_nat i)
                      (le_bytes 8 offset_and_size) ;;
             Ok (set_memory st mem)) st = Ok st'
      /\ exists k, advanced st st' r k.
Proof.
  intros Eo Hb1 Hb2 Hs1 Hs2.
  induction 1 as [|t ts (Hs & Ha & Hpos) F IH];
    intros i st acc total cur Cf B C Ec Hlo Hhi Lm;
    cbn [for_each List.map] in *.
  - exists st. split; [ reflexivity | ]. exists 0. apply advanced_refl.
  - cbn [conforms_fields] in Cf.
    destruct (skipn i tuple) as [|fv rest] eqn:Sk; [ discriminate | ].
    apply andb_prop in Cf. destruct Cf as [Cfv Cf].
    apply skipn_cons_nth_error in Sk. destruct Sk as [Nth Sk].
    rewrite <- Sk in Cf. cbn [length] in B.
    bind_inv C as acc1 Ce. bind_inv Ce as tw Ect. bind_inv Ce as fv' Ev.
    bind_inv Ce as n1 Cn. inv_Ok Ce.
    apply ctor_Ok_inv in Ect. destruct Ect as [-> Cls].
    assert (fv' = fv) as ->.
    { apply vector_at_Ok in Ev. congruence. }
    rewrite Ev. cbn [bind].
    pose proof (Hpos _ _ Cn) as Pn.
    assert (Mono : acc + n1 <= total).
    { eapply (calculateTuple_loop_nonneg
                (List.map (fun t => (t, cf t)) ts) tuple (S i));
        [ | exact C ].
      apply Forall_map. eapply Forall_impl; [ | exact F ].
      cbn. intros t' (_ & _ & Hp). exact Hp. }
    assert (Step : exists st1 k1 cur1,
               (if isNull fv then
                  mem <- bitSet (memory st) bitmap (Z.of_nat i) ;;
                  Ok (set_memory st mem)
                else if isFixedLengthDataType (removeNullable t) then
                  fixed <- FixedLengthDataWriter.ctor t ;;
                  mem <- FixedLengthDataWriter.write fixed fv (memory st)
                           (slots + Z.of_nat i * 8) ;;
                  Ok (set_memory st mem)
                else
                  _ <- ctor t ;;
                  ' (st, offset_and_size) <- wf t r fv start st ;;
                  mem <- memcpy (memory st) (slots + 8 * Z.of_nat i)
                           (le_bytes 8 offset_and_size) ;;
                  Ok (set_memory st mem)) = Ok st1
               /\ advanced st st1 r k1
               /\ vector_at (cursor st1) r = Ok cur1
               /\ cur <= cur1 <= cur + n1).
    { destruct (isNull fv) eqn:Ne.
      - destruct (bitSet_in_bitmap_Ok (memory st) bitmap i num)
          as [mem' Em]; [ lia | lia | lia | ].
        rewrite Em. cbn [bind]. exists (set_memory st mem'), 0, cur.
        split; [ reflexivity | ].
        split; [ apply advanced_set_memory; eauto using bitSet_length | ].
        split; [ exact Ec | lia ].
      - destruct (isFixedLengthDataType (removeNullable t)) eqn:Fx.
        + rewrite FixedLengthDataWriter_ctor_Ok by assumption. cbn [bind].
          destruct (FixedLengthDataWriter_write_Ok (removeNullable t) fv
                      (memory st) (slots + Z.of_nat i * 8))
            as [mem' Em]; try assumption.
          * lia.
          * pose proof (getArrayElementSize_range (removeNullable t)). lia.
          * rewrite Em. cbn [bind]. exists (set_memory st mem'), 0, cur.
            split; [ reflexivity | ].
            split; [ apply advanced_set_memory;
                     eauto using FixedLengthDataWriter_write_length | ].
            split; [ exact Ec | lia ].
        + assert (V : isVariableLengthDataType (removeNullable t) = true)
            by (destruct Cls; congruence).
          rewrite VariableLengthDataWriter_ctor_Ok by assumption.
          cbn [bind].
          destruct (Hs V r fv start st n1 offset cur Cfv Cn Eo Ec Hlo
                      ltac:(lia)) as (s1 & d & Ew).
          rewrite Ew. cbn [bind].
          pose proof (Ha _ _ _ _ _ _ _ Ew Cn) as Adv.
          pose proof (advanced_cursor_at _ _ _ _ _ Adv Ec) as Ec1.
          destruct (memcpy (memory s1) (slots + 8 * Z.of_nat i)
                      (le_bytes 8 d)) as [mem'|e] eqn:Em.
          2:{ rewrite memcpy_Ok in Em; [ discriminate | lia | ].
              rewrite length_le_bytes. destruct Adv as [_ Lm1].
              change (Z.of_nat 8) with 8. lia. }
          cbn [bind]. exists (set_memory s1 mem'), (n1 + 0), (cur + n1).
          split; [ reflexivity | ].
          split.
          { eapply advanced_trans; [ exact Adv | ].
            apply advanced_set_memory. eauto using memcpy_length. }
          split; [ exact Ec1 | lia ]. }
    destruct Step as (st1 & k1 & cur1 & Es & Adv1 & Ec1 & Hc1).
    rewrite Es. cbn [bind].
    destruct (IH (S i) st1 (acc + n1) total cur1) as (st' & El & k & Adv);
      try assumption; try lia.
    { destruct Adv1 as [_ Lm1]. congruence. }
    exists st'. split; [ exact El | ].
    exists (k1 + k). eapply advanced_trans; eassumption.
Qed.

Lemma writeStruct_safe (wf : DataType -> Writer)
    (cf : DataType -> Field -> Result Z) (ts : list DataType) :
  Forall (fun t =>
            (isVariableLengthDataType (removeNullable t) = true ->
             safe (conforms (removeNullable t)) offsets (wf t) (cf t))
            /\ agree (wf t) (cf t)
            /\ (forall f n, cf t f = Ok n -> 0 <= n)) ts ->
  forall r tuple p st n offset c,
    conforms_fields (List.map (fun t => conforms (removeNullable t)) ts)
      tuple = true ->
    calculateTuple (List.map (fun t => (t, cf t)) ts) tuple = Ok n ->
    vector_at offsets r = Ok offset ->
    vector_at (cursor st) r = Ok c ->
    0 <= offset + c ->
    offset + c + n <= Z.of_nat (length (memory st)) ->
    exists st' d,
      writeStruct (List.map (fun t => (t, wf t)) ts) offsets r tuple p st
      = Ok (st', d).
Proof.
  intros F r tuple p st n offset c Cf C Eo Ec Hlo Hhi.
  unfold calculateTuple in C. unfold writeStruct.
  rewrite length_map in *. rewrite Eo, Ec. cbn [bind].
  destruct (Z.eqb_spec (Z.of_nat (length ts)) 0) as [Z0|NZ]; [ eauto | ].
  set (num := Z.of_nat (length ts)) in *.
  set (bm := calculateBitSetWidthInBytes num) in *.
  assert (Pb : 0 <= bm)
    by (apply calculateBitSetWidthInBytes_nonneg; unfold num; lia).
  assert (Mono : bm + 8 * num <= n).
  { eapply (calculateTuple_loop_nonneg
              (List.map (fun t => (t, cf t)) ts) tuple 0%nat);
      [ | exact C ].
    apply Forall_map. eapply Forall_impl; [ | exact F ].
    cbn. intros t' (_ & _ & Hp). exact Hp. }
  rewrite (advance_Ok _ _ _ c) by exact Ec.
  cbn [bind set_memory memory cursor].
  assert (Ec1 : vector_at (cursor_add (cursor st) r bm) r = Ok (c + bm)).
  { apply vector_at_Ok, nth_error_cursor_add_eq, vector_at_Ok, Ec. }
  rewrite (advance_Ok _ _ _ (c + bm)) by exact Ec1.
  cbn [bind set_memory memory cursor].
  rewrite cursor_add_add.
  assert (Ec2 : vector_at (cursor_add (cursor st) r (bm + num * 8)) r
                = Ok (c + (bm + num * 8))).
  { apply vector_at_Ok, nth_error_cursor_add_eq, vector_at_Ok, Ec. }
  destruct (writeStruct_loop_Ok wf cf r tuple offset c (offset + c)
              (offset + c + bm) num (length (memory st)) Eo)
    with (ts := ts) (i := 0%nat)
         (st := mkRowBuffer (memory st)
                  (cursor_add (cursor st) r (bm + num * 8)))
         (acc := bm + 8 * num) (total := n) (cur := c + (bm + num * 8))
    as (st' & El & k & Adv); try assumption; try lia;
    try reflexivity.
  rewrite El. cbn [bind].
  rewrite (advanced_cursor_at _ _ _ _ _ Adv Ec2). cbn [bind]. eauto.
Qed.

Lemma writeMap_safe (key_type val_type : DataType)
    (writer_key writer_val : Writer)
    (calculator_key calculator_val : Field -> Result Z) :
  (isVariableLengthDataType (removeNullable key_type) = true ->
   safe (conforms (removeNullable key_type)) offsets writer_key
     calculator_key) ->
  agree writer_key calculator_key -> null_free calculator_key ->
  (isFixedLengthDataType (removeNullable key_type) = true ->
   measures_nothing calculator_key) ->
  (forall f n, calculator_key f = Ok n -> 0 <= n) ->
  (isVariableLengthDataType (removeNullable val_type) = true ->
   safe (conforms (removeNullable val_type)) offsets writer_val
     calculator_val) ->
  agree writer_val calculator_val -> null_free calculator_val ->
  (isFixedLengthDataType (removeNullable val_type) = true ->
   measures_nothing calculator_val) ->
  (forall f n, calculator_val f = Ok n -> 0 <= n) ->
  forall r map p st n offset c,
    forallb
      (fun entry =>
         match entry with
         | FTuple (k :: v :: _) =>
             conforms (removeNullable key_type) k
             && conforms (removeNullable val_type) v
         | _ => false
         end) map = true ->
    calculateMap key_type val_type calculator_key calculator_val map = Ok n ->
    vector_at offsets r = Ok offset ->
    vector_at (cursor st) r = Ok c ->
    0 <= offset + c ->
    offset + c + n <= Z.of_nat (length (memory st)) ->
    exists st' d,
      writeMap key_type val_type writer_key writer_val offsets r map p st
      = Ok (st', d).
Proof.
  intros Hks Hka Hkn Hkf Hkp Hvs Hva Hvn Hvf Hvp
    r map p st n offset c Cf C Eo Ec Hlo Hhi.
  apply splitMap_conforms in Cf. destruct Cf as (ks & vs & Es & Fk & Fv).
  unfold calculateMap in C. rewrite Es in C. cbn [bind] in C.
  bind_inv C as nk Ck. bind_inv C as nv Cv. inv_Ok C.
  pose proof (calculateArray_nonneg _ _ _ _ Hkp Ck) as Pk.
  pose proof (array_header_nonneg key_type (length ks)) as [Pk1 Pk2].
  pose proof (calculateArray_nonneg _ _ _ _ Hvp Cv) as Pv.
  pose proof (array_header_nonneg val_type (length vs)) as [Pv1 Pv2].
  unfold writeMap. rewrite Eo, Ec. cbn [bind].
  rewrite (advance_Ok _ _ _ c) by exact Ec. cbn [bind].
  rewrite Es. cbn [bind].
  set (st1 := mkRowBuffer (memory st) (cursor_add (cursor st) r 8)).
  assert (Ec1 : vector_at (cursor st1) r = Ok (c + 8)).
  { apply vector_at_Ok, nth_error_cursor_add_eq, vector_at_Ok, Ec. }
  destruct (writeArray_safe key_type writer_key calculator_key
              Hks Hka Hkn Hkp r ks (c + 8) st1 nk offset (c + 8)
              Fk Ck Eo Ec1) as (st2 & dk & Ek);
    [ lia | cbn [st1 memory]; lia | ].
  rewrite Ek. cbn [bind].
  pose proof (writeArray_agree key_type writer_key calculator_key
                Hka Hkn Hkf _ _ _ _ _ _ _ _ Ek Ck) as Adv2.
  pose proof (advanced_cursor_at _ _ _ _ _ Adv2 Ec1) as Ec2.
  destruct Adv2 as [_ Lm2]. cbn [st1 memory] in Lm2.
  rewrite memcpy_Ok
    by (rewrite ?length_le_bytes; change (Z.of_nat 8) with 8; lia).
  cbn [bind].
  set (mem3 := firstn _ _ ++ _ ++ skipn _ _).
  assert (L3 : length mem3 = length (memory st)).
  { unfold mem3.
    rewrite !length_app, length_firstn, length_skipn, length_le_bytes.
    lia. }
  destruct (writeArray_safe val_type writer_val calculator_val
              Hvs Hva Hvn Hvp r vs (c + 8 + extractSize dk)
              (set_memory st2 mem3) nv offset (c + 8 + nk)
              Fv Cv Eo Ec2) as (st4 & dv & Ev);
    [ lia | cbn [set_memory memory]; lia | ].
  rewrite Ev. cbn [bind].
  pose proof (writeArray_agree val_type writer_val calculator_val
                Hva Hvn Hvf _ _ _ _ _ _ _ _ Ev Cv) as Adv4.
  rewrite (advanced_cursor_at _ _ _ _ _ Adv4 Ec2). cbn [bind]. eauto.
Qed.

Lemma writeUnalignedBytes_Ok (r : nat) (src : list byte) (p : Z)
    (st : RowBuffer) (offset c : Z) :
  vector_at offsets r = Ok offset ->
  vector_at (cursor st) r = Ok c ->
  0 <= offset + c ->
  offset + c + Z.of_nat (length src) <= Z.of_nat (length (memory st)) ->
  exists st' d, writeUnalignedBytes offsets r src p st = Ok (st', d).
Proof.
  intros Eo Ec Hlo Hhi. unfold writeUnalignedBytes.
  rewrite Eo, Ec. cbn [bind]. rewrite memcpy_Ok by lia. cbn [bind].
  rewrite (advance_Ok _ _ _ c) by exact Ec. cbn [bind]. eauto.
Qed.

(** On a conforming value that the length pass has measured, the writer of
    a variable-length type succeeds as soon as the measured length fits
    the buffer after the cursor. *)
Lemma write_safe (t : DataType) :
  isVariableLengthDataType t = true ->
  safe (conforms t) offsets (fun r f p s => write t offsets r f p s)
    (calculate t).
Proof.
  induction t as [n IHn | k v IHk IHv | ts IHts | t Ha Ht Hm]
    using DataType_removeNullable_ind;
    intros V r f p s m offset c Cf C Eo Ec Hlo Hhi.
  - destruct (isNull f) eqn:N.
    { rewrite write_isNull by assumption. eauto. }
    destruct f; try discriminate.
    rewrite write_Array_FArray. rewrite calculate_Array_FArray in C.
    cbn [conforms isNull orb] in Cf.
    eapply (writeArray_safe n _ _
              IHn (write_agrees_with_calculate offsets (removeNullable n))
              (calculate_null_free _) (calculate_nonneg _)); eassumption.
  - destruct (isNull f) eqn:N.
    { rewrite write_isNull by assumption. eauto. }
    destruct f; try discriminate.
    rewrite write_Map by reflexivity.
    rewrite calculate_Map in C by reflexivity.
    cbn [safeGet_Map bind] in *. cbn [conforms isNull orb] in Cf.
    eapply (writeMap_safe k v _ _ _ _
              IHk (write_agrees_with_calculate offsets (removeNullable k))
              (calculate_null_free _) (calculate_measures_nothing k)
              (calculate_nonneg _)
              IHv (write_agrees_with_calculate offsets (removeNullable v))
              (calculate_null_free _) (calculate_measures_nothing v)
              (calculate_nonneg _)); eassumption.
  - destruct (isNull f) eqn:N.
    { rewrite write_isNull by assumption. eauto. }
    destruct f; try discriminate.
    rewrite write_Tuple by reflexivity.
    rewrite calculate_Tuple in C by reflexivity.
    cbn [safeGet_Tuple bind] in *. cbn [conforms isNull orb] in Cf.
    eapply (writeStruct_safe
              (fun t r f p s => write (removeNullable t) offsets r f p s)
              (fun t => calculate (removeNullable t))); try eassumption.
    eapply Forall_impl; [ | exact IHts ].
    intros t' Ht'. cbn beta in Ht'.
    split; [ exact Ht' | ].
    split; [ apply write_agrees_with_calculate | apply calculate_nonneg ].
  - rewrite write_leaf by assumption.
    rewrite calculate_leaf in C by assumption.
    destruct (isNull f) eqn:N; [ eauto | ].
    destruct t; try discriminate V; destruct f; try discriminate;
      cbn in C; inv_Ok C; cbn [isStringOrFixedString isDecimal128
        safeGet_String safeGet_Decimal128 bind].
    + pose proof (roundNumberOfBytesToNearestWord_bounds
                    (Z.of_nat (length s0))).
      eapply writeUnalignedBytes_Ok; try eassumption. lia.
    + pose proof (roundNumberOfBytesToNearestWord_bounds
                    (Z.of_nat (length s0))).
      eapply writeUnalignedBytes_Ok; try eassumption. lia.
    + unfold swapDecimalEndianBytes. rewrite length_le_bytes.
      cbn [Nat.eqb bind].
      eapply writeUnalignedBytes_Ok; eassumption.
Qed.

End Safety.

Import WhichDataType.
Import BackingDataLengthCalculator.

(** ** Loops *)

(** An invariant indexed by the loop counter holds when the loop returns. *)
Lemma for_loop_invariant {S : Type} (Inv : nat -> S -> Prop)
    (body : nat -> S -> Result S) :
  forall (m k : nat) (s s' : S),
    Inv k s ->
    (forall i s s', (k <= i < k + m)%nat -> Inv i s -> body i s = Ok s' ->
                    Inv (Datatypes.S i) s') ->
    for_loop k m body s = Ok s' ->
    Inv (k + m)%nat s'.
Proof.
  induction m as [|m IH]; intros k s s' I Step H; cbn [for_loop] in H.
  - inv_Ok H. rewrite Nat.add_0_r. exact I.
  - bind_inv H as s1 B.
    replace (k + Datatypes.S m)%nat with (Datatypes.S k + m)%nat by lia.
    apply (IH (Datatypes.S k) s1 s').
    + apply (Step k s s1); [ lia | assumption | assumption ].
    + intros i t t' Hi. apply Step. lia.
    + exact H.
Qed.

(** A loop returns when its body returns under an invariant it keeps. *)
Lemma for_loop_Ok {S : Type} (Inv : nat -> S -> Prop)
    (body : nat -> S -> Result S) :
  forall (m k : nat) (s : S),
    Inv k s ->
    (forall i s, (k <= i < k + m)%nat -> Inv i s ->
                 exists s', body i s = Ok s' /\ Inv (Datatypes.S i) s') ->
    exists s', for_loop k m body s = Ok s' /\ Inv (k + m)%nat s'.
Proof.
  induction m as [|m IH]; intros k s I Step; cbn [for_loop].
  - exists s. rewrite Nat.add_0_r. auto.
  - destruct (Step k s ltac:(lia) I) as (s1 & B & I1).
    rewrite B. cbn [bind].
    replace (k + Datatypes.S m)%nat with (Datatypes.S k + m)%nat by lia.
    apply IH; [ exact I1 | ].
    intros i t Hi. apply Step. lia.
Qed.

(** Two loops whose bodies agree on the indices they run over. *)
Lemma for_loop_ext {S : Type} (body1 body2 : nat -> S -> Result S) :
  forall (m k : nat) (s : S),
    (forall i s, (k <= i < k + m)%nat -> body1 i s = body2 i s) ->
    for_loop k m body1 s = for_loop k m body2 s.
Proof.
  induction m as [|m IH]; intros k s E; cbn [for_loop]; [ reflexivity | ].
  rewrite (E k s) by lia.
  destruct (body2 k s) as [s1|e]; cbn [bind]; [ | reflexivity ].
  apply IH. intros i t Hi. apply E. lia.
Qed.

Lemma add_length_inv (ls ls' : list Z) (i : nat) (n : Z) :
  add_length ls i n = Ok ls' ->
  exists l, nth_error ls i = Some l /\ ls' = vector_set ls i (l + n).
Proof.
  unfold add_length. intros H. bind_inv H as l E. inv_Ok H.
  apply vector_at_Ok in E. eauto.
Qed.

Lemma Forall_vector_set {A : Type} (P : A -> Prop) (v : list A) (i : nat)
    (a : A) :
  Forall P v -> P a -> Forall P (vector_set v i a).
Proof.
  intros F Pa. revert i. induction F as [|x v Px F IH]; intros [|i];
    simpl; constructor; auto.
Qed.

Lemma Forall_nth_error {A : Type} (P : A -> Prop) (v : list A) (i : nat)
    (a : A) :
  Forall P v -> nth_error v i = Some a -> P a.
Proof.
  intros F E. rewrite Forall_forall in F. apply F.
  eapply nth_error_In. eassumption.
Qed.

(** ** The length pass over a block *)

Lemma add_length_bound (bound : Z) (ls ls' : list Z) (i : nat) (n : Z) :
  0 <= n -> Forall (fun l => bound <= l) ls ->
  add_length ls i n = Ok ls' ->
  Forall (fun l => bound <= l) ls' /\ length ls' = length ls.
Proof.
  intros Pn F H. apply add_length_inv in H. destruct H as (l & E & ->).
  split; [ | apply length_vector_set ].
  apply Forall_vector_set; [ assumption | ].
  pose proof (Forall_nth_error _ _ _ _ F E) as Hl. cbn beta in Hl. lia.
Qed.

Lemma roundNumberOfBytesToNearestWord_length_nonneg (str : list byte) :
  0 <= roundNumberOfBytesToNearestWord (Z.of_nat (length str)).
Proof.
  pose proof (roundNumberOfBytesToNearestWord_bounds (Z.of_nat (length str))).
  lia.
Qed.

(** Measuring a column never shrinks a row. *)
Lemma add_column_lengths_bound (bound : Z) (masks : MaskVector) (n : nat)
    (col : ColumnWithTypeAndName) (ls ls' : list Z) :
  Forall (fun l => bound <= l) ls ->
  add_column_lengths masks n col ls = Ok ls' ->
  Forall (fun l => bound <= l) ls' /\ length ls' = length ls.
Proof.
  intros F H. unfold add_column_lengths in H.
  set (Inv := fun (_ : nat) (x : list Z) =>
                Forall (fun l => bound <= l) x /\ length x = length ls).
  assert (I0 : Inv 0%nat ls) by (split; [ assumption | reflexivity ]).
  destruct (isVariableLengthDataType
              (removeLowCardinalityAndNullable (type col)));
    [ | inv_Ok H; exact I0 ].
  destruct (isDataTypeSupportRawData
              (removeLowCardinalityAndNullable (type col))).
  - unfold convertToFullIfNeeded in H.
    destruct (column col) as [cells|null_map nested].
    + apply (for_loop_invariant Inv) in H; [ exact H | exact I0 | ].
      intros i x x' _ [Fx Lx] B.
      bind_inv B as row_idx Er. bind_inv B as str Es.
      apply add_length_bound with (bound := bound) in B;
        [ | apply roundNumberOfBytesToNearestWord_length_nonneg | exact Fx ].
      destruct B. split; [ assumption | congruence ].
    + apply (for_loop_invariant Inv) in H; [ exact H | exact I0 | ].
      intros i x x' _ [Fx Lx] B.
      bind_inv B as row_idx Er. bind_inv B as is_null En.
      destruct (negb is_null); [ | inv_Ok B; split; assumption ].
      bind_inv B as str Es.
      apply add_length_bound with (bound := bound) in B;
        [ | apply roundNumberOfBytesToNearestWord_length_nonneg | exact Fx ].
      destruct B. split; [ assumption | congruence ].
  - bind_inv H as calculator Ec.
    apply (for_loop_invariant Inv) in H; [ exact H | exact I0 | ].
    intros i x x' _ [Fx Lx] B.
    bind_inv B as row_idx Er. bind_inv B as field Ef. bind_inv B as m Em.
    apply add_length_bound with (bound := bound) in B;
      [ | eapply calculate_nonneg; eassumption | exact Fx ].
    destruct B. split; [ assumption | congruence ].
Qed.

Lemma SparkRowInfo_ctor_inv (cols : list ColumnWithTypeAndName)
    (dataTypes : list DataType) (col_size row_size : nat)
    (masks : MaskVector) (info : SparkRowInfo) :
  SparkRowInfo_ctor cols dataTypes col_size row_size masks = Ok info ->
  let n := match masks with None => row_size | Some m => length m end in
  let fixed := calculatedFixeSizePerRow (Z.of_nat col_size) in
  types info = dataTypes
  /\ num_rows info = n
  /\ num_cols info = Z.of_nat col_size
  /\ null_bitset_width_in_bytes info
     = calculateBitSetWidthInBytes (Z.of_nat col_size)
  /\ buffer_cursor info = repeat fixed n
  /\ buffer_address info = None
  /\ for_loop 0 col_size
       (fun col_idx lengths =>
          col <- vector_at cols col_idx ;;
          add_column_lengths masks n col lengths) (repeat fixed n)
     = Ok (lengths info)
  /\ for_loop 1 (n - 1)
       (fun i offsets =>
          o <- vector_at offsets (i - 1) ;;
          l <- vector_at (lengths info) (i - 1) ;;
          Ok (vector_set offsets i (o + l))) (repeat 0 n)
     = Ok (offsets info)
  /\ for_loop 0 n
       (fun i total_bytes =>
          l <- vector_at (lengths info) i ;; Ok (total_bytes + l)) 0
     = Ok (total_bytes info).
Proof.
  unfold SparkRowInfo_ctor. intros H.
  bind_inv H as ls El. bind_inv H as offs Eo. bind_inv H as total Et.
  inv_Ok H. cbn. repeat split; assumption.
Qed.

(** After phase 1 every row is at least as long as its fixed part. *)
Lemma lengths_bound (cols : list ColumnWithTypeAndName)
    (dataTypes : list DataType) (col_size row_size : nat)
    (masks : MaskVector) (info : SparkRowInfo) :
  SparkRowInfo_ctor cols dataTypes col_size row_size masks = Ok info ->
  Forall (fun l => calculatedFixeSizePerRow (num_cols info) <= l)
    (lengths info)
  /\ length (lengths info) = num_rows info.
Proof.
  intros H. apply SparkRowInfo_ctor_inv in H.
  destruct H as (_ & Hn & Hc & _ & _ & _ & Hl & _). rewrite Hn, Hc.
  set (n := match masks with None => row_size | Some m => length m end) in *.
  set (fixed := calculatedFixeSizePerRow (Z.of_nat col_size)) in *.
  apply (for_loop_invariant
           (fun _ x => Forall (fun l => fixed <= l) x /\ length x = n))
    in Hl.
  - exact Hl.
  - split; [ | apply repeat_length ].
    apply Forall_forall. intros l Hin. apply repeat_spec in Hin. lia.
  - intros i x x' _ [Fx Lx] B. bind_inv B as col Ec.
    apply add_column_lengths_bound with (bound := fixed) in B;
      [ | exact Fx ].
    destruct B. split; [ assumption | congruence ].
Qed.

(** ** Offsets and total size *)

Lemma firstn_S_nth_error {A : Type} (v : list A) (i : nat) (a : A) :
  nth_error v i = Some a -> firstn (S i) v = firstn i v ++ [a].
Proof.
  revert v. induction i as [|i IH]; intros [|x v] H; simpl in H;
    try discriminate.
  - inversion H. reflexivity.
  - change (firstn (S (S i)) (x :: v)) with (x :: firstn (S i) v).
    rewrite (IH v H). reflexivity.
Qed.

Lemma sum_Z_app (v w : list Z) : sum_Z (v ++ w) = sum_Z v + sum_Z w.
Proof.
  unfold sum_Z. induction v as [|x v IH]; cbn [app fold_right]; lia.
Qed.

Lemma sum_Z_firstn_S (v : list Z) (i : nat) (a : Z) :
  nth_error v i = Some a -> sum_Z (firstn (S i) v) = sum_Z (firstn i v) + a.
Proof.
  intros H. rewrite (firstn_S_nth_error v i a H), sum_Z_app.
  assert (E : sum_Z [a] = a) by (unfold sum_Z; cbn [fold_right]; lia).
  rewrite E. reflexivity.
Qed.

Lemma sum_Z_nonneg (v : list Z) :
  Forall (fun l => 0 <= l) v -> 0 <= sum_Z v.
Proof.
  unfold sum_Z. induction 1 as [|x v Hx F IH]; cbn [fold_right]; lia.
Qed.

Lemma Forall_firstn {A : Type} (P : A -> Prop) (v : list A) (i : nat) :
  Forall P v -> Forall P (firstn i v).
Proof.
  intros F. revert i. induction F as [|x v Hx F IH]; intros [|i];
    cbn [firstn]; constructor; auto.
Qed.

Lemma sum_Z_firstn_le (v : list Z) (i : nat) (a : Z) :
  Forall (fun l => 0 <= l) v -> nth_error v i = Some a ->
  sum_Z (firstn i v) + a <= sum_Z v.
Proof.
  intros F E.
  pose proof (f_equal sum_Z (firstn_skipn (S i) v)) as E2.
  rewrite sum_Z_app, (sum_Z_firstn_S v i a E) in E2.
  assert (0 <= sum_Z (skipn (S i) v)); [ | lia ].
  apply sum_Z_nonneg. rewrite <- (firstn_skipn (S i) v) in F.
  apply Forall_app in F. apply F.
Qed.

(** The loop that fills [offsets] leaves the prefix sums of [lengths]. *)
Lemma offsets_loop (lengths : list Z) (n : nat) (offsets : list Z) :
  length lengths = n ->
  for_loop 1 (n - 1)
    (fun i offsets =>
       o <- vector_at offsets (i - 1) ;;
       l <- vector_at lengths (i - 1) ;;
       Ok (vector_set offsets i (o + l))) (repeat 0 n) = Ok offsets ->
  length offsets = n
  /\ forall i, (i < n)%nat ->
       nth_error offsets i = Some (sum_Z (firstn i lengths)).
Proof.
  intros Ln H.
  apply (for_loop_invariant
           (fun k offs =>
              length offs = n
              /\ forall i, (i < k)%nat -> (i < n)%nat ->
                   nth_error offs i = Some (sum_Z (firstn i lengths)))) in H.
  - destruct H as [Lo Ho]. split; [ exact Lo | ].
    intros i Hi. apply Ho; lia.
  - split; [ apply repeat_length | ].
    intros i Hi Hin. assert (i = 0%nat) as -> by lia.
    destruct n; [ lia | reflexivity ].
  - intros i offs offs' Hi [Lo Ho] B.
    bind_inv B as o Eo. bind_inv B as l El. inv_Ok B.
    apply vector_at_Ok in Eo, El.
    split; [ rewrite length_vector_set; exact Lo | ].
    intros j Hj Hjn.
    destruct (Nat.eq_dec j i) as [->|Ne].
    + rewrite nth_error_vector_set_eq by lia.
      rewrite Ho in Eo by lia. inversion Eo; subst o.
      pose proof (sum_Z_firstn_S lengths (i - 1) l El) as E.
      replace (S (i - 1)) with i in E by lia. f_equal. lia.
    + rewrite nth_error_vector_set_ne by lia. apply Ho; lia.
Qed.

Lemma total_bytes_loop (lengths : list Z) (n : nat) (total : Z) :
  length lengths = n ->
  for_loop 0 n
    (fun i total_bytes => l <- vector_at lengths i ;; Ok (total_bytes + l)) 0
  = Ok total ->
  total = sum_Z lengths.
Proof.
  intros Ln H.
  apply (for_loop_invariant
           (fun k t => t = sum_Z (firstn k lengths))) in H.
  - rewrite H. cbn [Nat.add]. rewrite <- Ln, firstn_all. reflexivity.
  - reflexivity.
  - intros i t t' Hi -> B. bind_inv B as l El. inv_Ok B.
    apply vector_at_Ok in El. symmetry. apply sum_Z_firstn_S. exact El.
Qed.

Lemma length_alloc_zeroed (size : Z) :
  0 <= size -> Z.of_nat (length (alloc_zeroed size)) = size.
Proof.
  intros H. unfold alloc_zeroed. rewrite repeat_length. lia.
Qed.

Lemma lengths_nonneg (cols : list ColumnWithTypeAndName)
    (dataTypes : list DataType) (col_size row_size : nat)
    (masks : MaskVector) (info : SparkRowInfo) :
  SparkRowInfo_ctor cols dataTypes col_size row_size masks = Ok info ->
  Forall (fun l => 0 <= l) (lengths info).
Proof.
  intros H. pose proof (lengths_bound _ _ _ _ _ _ H) as [F _].
  apply SparkRowInfo_ctor_inv in H. destruct H as (_ & _ & Hc & _).
  eapply Forall_impl; [ | exact F ]. cbn beta. intros l Hl.
  pose proof (calculatedFixeSizePerRow_nonneg (num_cols info)). lia.
Qed.

(** The row set that phase 1 builds: prefix-sum offsets, total size. *)
Lemma SparkRowInfo_ctor_layout (cols : list ColumnWithTypeAndName)
    (dataTypes : list DataType) (col_size row_size : nat)
    (masks : MaskVector) (info : SparkRowInfo) :
  SparkRowInfo_ctor cols dataTypes col_size row_size masks = Ok info ->
  length (offsets info) = num_rows info
  /\ length (lengths info) = num_rows info
  /\ (forall i, (i < num_rows info)%nat ->
        nth_error (offsets info) i
        = Some (sum_Z (firstn i (lengths info))))
  /\ total_bytes info = sum_Z (lengths info)
  /\ 0 <= total_bytes info.
Proof.
  intros H. pose proof (lengths_bound _ _ _ _ _ _ H) as [_ Ll].
  pose proof (lengths_nonneg _ _ _ _ _ _ H) as Pl.
  apply SparkRowInfo_ctor_inv in H.
  destruct H as (_ & Hn & _ & _ & _ & _ & _ & Ho & Ht).
  rewrite <- Hn in Ho, Ht.
  apply offsets_loop in Ho; [ | exact Ll ]. destruct Ho as [Lo Ho].
  apply total_bytes_loop in Ht; [ | exact Ll ].
  repeat split; try assumption.
  rewrite Ht. apply sum_Z_nonneg. exact Pl.
Qed.

(** C2. After phase 1, [offsets[0] = 0], each later offset is the offset
    before it plus the length before it, and [total_bytes] is the sum of
    the lengths, which is the size of the buffer that is allocated. *)
Theorem offsets_and_total_bytes (block : Block) (masks : MaskVector)
    (info : SparkRowInfo) :
  SparkRowInfo_of_Block block masks = Ok info ->
  length (offsets info) = num_rows info
  /\ length (lengths info) = num_rows info
  /\ ((0 < num_rows info)%nat -> nth_error (offsets info) 0 = Some 0)
  /\ (forall i, (1 <= i < num_rows info)%nat ->
        exists o l,
          nth_error (offsets info) (i - 1) = Some o
          /\ nth_error (lengths info) (i - 1) = Some l
          /\ nth_error (offsets info) i = Some (o + l))
  /\ total_bytes info = sum_Z (lengths info)
  /\ Z.of_nat (length (alloc_zeroed (total_bytes info))) = total_bytes info.
Proof.
  intros H. apply SparkRowInfo_ctor_layout in H.
  destruct H as (Lo & Ll & Ho & Ht & Pt).
  split; [ exact Lo | ]. split; [ exact Ll | ].
  split; [ intros Hn; apply (Ho 0%nat Hn) | ].
  split; [ | split; [ exact Ht | apply length_alloc_zeroed; exact Pt ] ].
  intros i Hi.
  destruct (nth_error (lengths info) (i - 1)) as [l|] eqn:El.
  2:{ apply nth_error_None in El. lia. }
  exists (sum_Z (firstn (i - 1) (lengths info))), l.
  split; [ apply Ho; lia | ]. split; [ reflexivity | ].
  rewrite Ho by lia. f_equal.
  pose proof (sum_Z_firstn_S (lengths info) (i - 1) l El) as E.
  replace (S (i - 1)) with i in E by lia. exact E.
Qed.

Lemma offsets_and_total_bytes_witness :
  let block :=
    [mkColumn (ColumnFull [FString [x68; x69]; FString []; FString [x61]])
       DataTypeString] in
  let info :=
    mkSparkRowInfo [DataTypeString] 3 1 8 64 [0; 24; 40] [24; 16; 24]
      [16; 16; 16] None in
  length (offsets info) = num_rows info
  /\ length (lengths info) = num_rows info
  /\ ((0 < num_rows info)%nat -> nth_error (offsets info) 0 = Some 0)
  /\ (forall i, (1 <= i < num_rows info)%nat ->
        exists o l,
          nth_error (offsets info) (i - 1) = Some o
          /\ nth_error (lengths info) (i - 1) = Some l
          /\ nth_error (offsets info) i = Some (o + l))
  /\ total_bytes info = sum_Z (lengths info)
  /\ Z.of_nat (length (alloc_zeroed (total_bytes info))) = total_bytes info.
Proof.
  intros block info.
  apply (offsets_and_total_bytes block None info). reflexivity.
Defined.

(** C6. After phase 1 every row is at least [fixed_size_per_row] long,
    which is the width of the null bitmap plus 8 bytes per column; and the
    length a calculator returns is never negative. *)
Theorem lengths_at_least_fixed_size (block : Block) (masks : MaskVector)
    (info : SparkRowInfo) :
  SparkRowInfo_of_Block block masks = Ok info ->
  length (lengths info) = num_rows info
  /\ Forall (fun l => calculatedFixeSizePerRow (num_cols info) <= l)
       (lengths info)
  /\ calculatedFixeSizePerRow (num_cols info)
     = null_bitset_width_in_bytes info + 8 * num_cols info
  /\ (forall t field n, calculate t field = Ok n -> 0 <= n).
Proof.
  intros H. pose proof (lengths_bound _ _ _ _ _ _ H) as [F L].
  apply SparkRowInfo_ctor_inv in H.
  destruct H as (_ & _ & Hc & Hw & _).
  split; [ exact L | ]. split; [ exact F | ].
  split; [ | exact calculate_nonneg ].
  rewrite Hw, Hc. unfold calculatedFixeSizePerRow. lia.
Qed.

Lemma lengths_at_least_fixed_size_witness :
  let block :=
    [mkColumn (ColumnFull [FString [x68; x69]; FString []; FString [x61]])
       DataTypeString] in
  let info :=
    mkSparkRowInfo [DataTypeString] 3 1 8 64 [0; 24; 40] [24; 16; 24]
      [16; 16; 16] None in
  length (lengths info) = num_rows info
  /\ Forall (fun l => calculatedFixeSizePerRow (num_cols info) <= l)
       (lengths info)
  /\ calculatedFixeSizePerRow (num_cols info)
     = null_bitset_width_in_bytes info + 8 * num_cols info
  /\ (forall t field n, calculate t field = Ok n -> 0 <= n).
Proof.
  intros block info.
  apply (lengths_at_least_fixed_size block None info). reflexivity.
Defined.

Import WhichDataType.
Import BackingDataLengthCalculator.

(** ** Both passes add the same backing data to every row *)

Lemma length_add_rows (g : nat -> Z) (m : nat) (cs : list Z) :
  length (add_rows g m cs) = length cs.
Proof.
  induction m as [|m IH]; cbn [add_rows]; [ reflexivity | ].
  rewrite length_cursor_add. exact IH.
Qed.

Lemma add_rows_ext (g h : nat -> Z) (m : nat) (cs : list Z) :
  (forall i, (i < m)%nat -> g i = h i) -> add_rows g m cs = add_rows h m cs.
Proof.
  induction m as [|m IH]; intros E; cbn [add_rows]; [ reflexivity | ].
  rewrite IH by (intros; apply E; lia). rewrite (E m) by lia. reflexivity.
Qed.

Lemma add_rows_zero (g : nat -> Z) (m : nat) (cs : list Z) :
  (forall i, (i < m)%nat -> g i = 0) -> add_rows g m cs = cs.
Proof.
  induction m as [|m IH]; intros E; cbn [add_rows]; [ reflexivity | ].
  rewrite IH by (intros; apply E; lia). rewrite (E m) by lia.
  apply cursor_add_0.
Qed.

Lemma nth_error_add_rows (g : nat -> Z) (m : nat) (cs : list Z) (i : nat)
    (c : Z) :
  nth_error cs i = Some c ->
  nth_error (add_rows g m cs) i
  = Some (if (i <? m)%nat then c + g i else c).
Proof.
  intros E. induction m as [|m IH]; cbn [add_rows].
  - exact E.
  - destruct (Nat.eq_dec m i) as [->|Ne].
    + rewrite (nth_error_cursor_add_eq _ _ _ _ IH).
      rewrite Nat.ltb_irrefl.
      destruct (Nat.ltb_spec i (S i)); [ reflexivity | lia ].
    + rewrite nth_error_cursor_add_ne by assumption. rewrite IH.
      destruct (Nat.ltb_spec i m); destruct (Nat.ltb_spec i (S m));
        try reflexivity; lia.
Qed.

Lemma add_length_cursor_add (ls ls' : list Z) (i : nat) (n : Z) :
  add_length ls i n = Ok ls' -> ls' = cursor_add ls i n.
Proof.
  intros H. apply add_length_inv in H. destruct H as (l & E & ->).
  unfold cursor_add. rewrite E. reflexivity.
Qed.

Lemma add_length_Ok (ls : list Z) (i : nat) (n : Z) :
  (i < length ls)%nat -> add_length ls i n = Ok (cursor_add ls i n).
Proof.
  intros H. unfold add_length.
  destruct (vector_at_lt ls i H) as [l E]. rewrite E. cbn [bind].
  rewrite (cursor_add_at _ _ _ _ E). reflexivity.
Qed.

Lemma fixed_not_variable (t : DataType) :
  isFixedLengthDataType t = true -> isVariableLengthDataType t = false.
Proof. destruct t; try discriminate; reflexivity. Qed.

Lemma variable_raw_cases (t : DataType) :
  isVariableLengthDataType t = true ->
  isDataTypeSupportRawData t = isStringOrFixedString t || isDecimal128 t.
Proof. destruct t; try discriminate; reflexivity. Qed.

Lemma column_sizes_Ok (masks : MaskVector) (col : ColumnWithTypeAndName)
    (i : nat) (v : Z) :
  backing_size masks col i = Ok v -> column_sizes masks col i = v.
Proof. intros E. unfold column_sizes. rewrite E. reflexivity. Qed.

(** Phase 1 adds [backing_size] to every row, and succeeds only if every
    row has one. *)
Lemma add_column_lengths_spec (masks : MaskVector) (n : nat)
    (col : ColumnWithTypeAndName) (ls ls' : list Z) :
  add_column_lengths masks n col ls = Ok ls' ->
  ls' = add_rows (column_sizes masks col) n ls
  /\ forall i, (i < n)%nat -> exists v, backing_size masks col i = Ok v.
Proof.
  intros H. unfold add_column_lengths in H.
  set (Inv := fun (j : nat) (x : list Z) =>
                x = add_rows (column_sizes masks col) j ls
                /\ forall i, (i < j)%nat ->
                     exists v, backing_size masks col i = Ok v).
  assert (I0 : Inv 0%nat ls) by (split; [ reflexivity | intros; lia ]).
  assert (Step : forall i x x' v,
             Inv i x -> backing_size masks col i = Ok v ->
             x' = cursor_add x i v -> Inv (S i) x').
  { intros i x x' v [Ex Hx] Ev ->. split.
    - cbn [add_rows]. rewrite (column_sizes_Ok _ _ _ _ Ev), <- Ex.
      reflexivity.
    - intros j Hj. destruct (Nat.eq_dec j i) as [->|]; [ eauto | ].
      apply Hx. lia. }
  destruct (isVariableLengthDataType
              (removeLowCardinalityAndNullable (type col))) eqn:V.
  2:{ inv_Ok H. split.
      - symmetry. apply add_rows_zero. intros i _. unfold column_sizes,
          backing_size. rewrite V. reflexivity.
      - intros i _. unfold backing_size. rewrite V. eauto. }
  destruct (isDataTypeSupportRawData
              (removeLowCardinalityAndNullable (type col))) eqn:R.
  - unfold convertToFullIfNeeded in H.
    destruct (column col) as [cells|null_map nested] eqn:Ecol.
    + apply (for_loop_invariant Inv) in H; [ exact H | exact I0 | ].
      intros i x x' _ I B.
      bind_inv B as row_idx Er. bind_inv B as str Es.
      apply add_length_cursor_add in B.
      eapply Step; [ exact I | | exact B ].
      unfold backing_size. rewrite V, R, Ecol, Er. cbn [bind].
      rewrite Es. reflexivity.
    + apply (for_loop_invariant Inv) in H; [ exact H | exact I0 | ].
      intros i x x' _ I B.
      bind_inv B as row_idx Er. bind_inv B as is_null En.
      destruct (negb is_null) eqn:Neg.
      * bind_inv B as str Es. apply add_length_cursor_add in B.
        eapply Step; [ exact I | | exact B ].
        unfold backing_size. rewrite V, R, Ecol, Er. cbn [bind].
        rewrite En. cbn [bind]. rewrite Neg, Es. reflexivity.
      * inv_Ok B. eapply (Step i x' x' 0); [ exact I | | ].
        -- unfold backing_size. rewrite V, R, Ecol, Er. cbn [bind].
           rewrite En. cbn [bind]. rewrite Neg. reflexivity.
        -- symmetry. apply cursor_add_0.
  - bind_inv H as calculator Ec.
    apply ctor_Ok_inv in Ec. destruct Ec as [-> _].
    assert (Rn : removeNullable (removeLowCardinalityAndNullable (type col))
                 = removeLowCardinalityAndNullable (type col)).
    { destruct (removeLowCardinalityAndNullable (type col));
        try reflexivity; discriminate. }
    rewrite Rn in H.
    apply (for_loop_invariant Inv) in H; [ exact H | exact I0 | ].
    intros i x x' _ I B.
    bind_inv B as row_idx Er. bind_inv B as field Ef. bind_inv B as m Em.
    apply add_length_cursor_add in B.
    eapply Step; [ exact I | | exact B ].
    unfold backing_size. rewrite V, R, Er. cbn [bind].
    rewrite Ef. cbn [bind]. exact Em.
Qed.

(** A loop over the rows in which step [i] advances the cursor of row [i]
    by [g i]. *)
Lemma rows_loop_agree (g : nat -> Z)
    (body : nat -> RowBuffer -> Result RowBuffer) (n : nat)
    (st st' : RowBuffer) :
  (forall i s s', (i < n)%nat -> body i s = Ok s' -> advanced s s' i (g i)) ->
  for_loop 0 n body st = Ok st' ->
  cursor st' = add_rows g n (cursor st)
  /\ length (memory st') = length (memory st).
Proof.
  intros Hb H.
  apply (for_loop_invariant
           (fun j s => cursor s = add_rows g j (cursor st)
                       /\ length (memory s) = length (memory st))) in H.
  - exact H.
  - split; reflexivity.
  - intros i s s' Hi [Cs Ms] B. apply Hb in B; [ | lia ].
    destruct B as [Cs' Ms']. split; [ | congruence ].
    cbn [add_rows]. rewrite Cs', Cs. reflexivity.
Qed.

Lemma store_offset_and_size_advanced (offsets : list Z) (field_offset : Z)
    (i : nat) (d : Z) (st st' : RowBuffer) (r : nat) :
  store_offset_and_size offsets field_offset i d st = Ok st' ->
  advanced st st' r 0.
Proof.
  unfold store_offset_and_size. intros H.
  bind_inv H as offset Eo. bind_inv H as mem Em. inv_Ok H.
  apply advanced_set_memory. eapply memcpy_length. exact Em.
Qed.

Lemma set_null_bit_advanced (offsets : list Z) (col_index : Z) (i : nat)
    (st st' : RowBuffer) (r : nat) :
  set_null_bit offsets col_index i st = Ok st' -> advanced st st' r 0.
Proof.
  unfold set_null_bit. intros H.
  bind_inv H as offset Eo. bind_inv H as mem Em. inv_Ok H.
  apply advanced_set_memory. eapply bitSet_length. exact Em.
Qed.

Lemma advanced_then_stored (offsets : list Z) (field_offset : Z) (i : nat)
    (d : Z) (st st1 st' : RowBuffer) (n : Z) :
  advanced st st1 i n ->
  store_offset_and_size offsets field_offset i d st1 = Ok st' ->
  advanced st st' i n.
Proof.
  intros A H. apply (advanced_eq _ _ _ (n + 0)); [ | lia ].
  eapply advanced_trans; [ exact A | ].
  eapply store_offset_and_size_advanced. exact H.
Qed.

Lemma removeNullable_variable (t : DataType) :
  isVariableLengthDataType t = true -> removeNullable t = t.
Proof. destruct t; try discriminate; reflexivity. Qed.

(** A loop over the rows returns when each step returns on a state whose
    buffer has kept its size and in which the cursor of the row has not
    moved yet. *)
Lemma rows_loop_Ok (g : nat -> Z)
    (body : nat -> RowBuffer -> Result RowBuffer) (n : nat) (st : RowBuffer) :
  (forall i s s', (i < n)%nat -> body i s = Ok s' -> advanced s s' i (g i)) ->
  (forall i s, (i < n)%nat ->
     length (memory s) = length (memory st) ->
     nth_error (cursor s) i = nth_error (cursor st) i ->
     exists s', body i s = Ok s') ->
  exists st', for_loop 0 n body st = Ok st'.
Proof.
  intros Ha Hs.
  destruct (for_loop_Ok
              (fun j s =>
                 length (memory s) = length (memory st)
                 /\ forall i, (j <= i)%nat ->
                      nth_error (cursor s) i = nth_error (cursor st) i)
              body n 0 st) as (st' & E & _).
  - split; reflexivity.
  - intros i s Hi [Lm Hc].
    destruct (Hs i s ltac:(lia) Lm (Hc i ltac:(lia))) as [s' B].
    exists s'. split; [ exact B | ].
    apply Ha in B; [ | lia ]. destruct B as [Cs Ms].
    split; [ congruence | ].
    intros j Hj. rewrite Cs, nth_error_cursor_add_ne by lia.
    apply Hc. lia.
  - eauto.
Qed.

(** Both facts about a loop over the rows, from the two facts about its
    body. *)
Lemma rows_case (g : nat -> Z) (body : nat -> RowBuffer -> Result RowBuffer)
    (n : nat) (st : RowBuffer) (Safe : Prop) :
  (forall i s s', (i < n)%nat -> body i s = Ok s' -> advanced s s' i (g i)) ->
  (Safe ->
   forall i s, (i < n)%nat ->
     length (memory s) = length (memory st) ->
     nth_error (cursor s) i = nth_error (cursor st) i ->
     exists s', body i s = Ok s') ->
  (forall st', for_loop 0 n body st = Ok st' ->
     cursor st' = add_rows g n (cursor st)
     /\ length (memory st') = length (memory st))
  /\ (Safe -> exists st', for_loop 0 n body st = Ok st').
Proof.
  intros Ha Hs. split.
  - intros st' H. eapply rows_loop_agree; eassumption.
  - intros S. eapply rows_loop_Ok; eauto.
Qed.

Lemma set_null_bit_Ok (offsets : list Z) (col_index : Z) (i : nat)
    (st : RowBuffer) (o : Z) :
  vector_at offsets i = Ok o ->
  0 <= o + Z.shiftr col_index 6 * 8 ->
  o + Z.shiftr col_index 6 * 8 + 8 <= Z.of_nat (length (memory st)) ->
  exists st', set_null_bit offsets col_index i st = Ok st'.
Proof.
  intros Eo Hlo Hhi. unfold set_null_bit. rewrite Eo. cbn [bind].
  destruct (bitSet_Ok (memory st) o col_index Hlo Hhi) as [mem' Em].
  rewrite Em. cbn [bind]. eauto.
Qed.

Lemma store_offset_and_size_Ok (offsets : list Z) (field_offset : Z)
    (i : nat) (d : Z) (st : RowBuffer) (o : Z) :
  vector_at offsets i = Ok o ->
  0 <= o + field_offset ->
  o + field_offset + 8 <= Z.of_nat (length (memory st)) ->
  exists st', store_offset_and_size offsets field_offset i d st = Ok st'.
Proof.
  intros Eo Hlo Hhi. unfold store_offset_and_size. rewrite Eo. cbn [bind].
  rewrite memcpy_Ok
    by (rewrite ?length_le_bytes; change (Z.of_nat 8) with 8; lia).
  cbn [bind]. eauto.
Qed.

Lemma native_bytes_fixed_length (t : DataType) (cell : Field)
    (str : list byte) :
  isFixedLengthDataType t = true -> native_bytes t cell = Ok str ->
  (length str <= 8)%nat.
Proof.
  intros Fx H. destruct t; try discriminate Fx; destruct cell;
    cbn [native_bytes] in H; try discriminate H; inv_Ok H;
    rewrite ?length_le_bytes; cbn [length]; lia.
Qed.

Lemma native_bytes_Decimal32_conforms (t : DataType) (cell : Field)
    (str : list byte) :
  isDecimal32 t = true -> native_bytes t cell = Ok str ->
  conforms t cell = true.
Proof.
  intros D H. destruct t; try discriminate D; destruct cell;
    try discriminate H; reflexivity.
Qed.

Lemma fixed_supports_raw (t : DataType) :
  isFixedLengthDataType t = true -> isDataTypeSupportRawData t = true.
Proof. intros H. unfold isDataTypeSupportRawData. rewrite H. reflexivity. Qed.

Lemma cell_conforms_raw (t : DataType) (cell : Field) :
  isDataTypeSupportRawData t = true -> cell_conforms t cell = true ->
  exists str,
    native_bytes t cell = Ok str
    /\ (isDecimal128 t = true -> length str = 16%nat).
Proof.
  intros R C. unfold cell_conforms in C. rewrite R in C.
  destruct (native_bytes t cell) as [str|]; [ | discriminate ].
  exists str. split; [ reflexivity | ]. intros D. rewrite D in C.
  cbn [negb orb] in C. apply Nat.eqb_eq. exact C.
Qed.

Lemma cell_conforms_composite (t : DataType) (cell : Field) :
  isDataTypeSupportRawData t = false ->
  isVariableLengthDataType t = true ->
  cell_conforms t cell = true -> conforms t cell = true.
Proof.
  intros R V C. unfold cell_conforms in C. rewrite R, V in C. exact C.
Qed.

Lemma swapDecimalEndianBytes_Ok (buf : list byte) :
  length buf = 16%nat ->
  exists buf', swapDecimalEndianBytes buf = Ok buf'
               /\ length buf' = 16%nat.
Proof.
  intros L. unfold swapDecimalEndianBytes. rewrite L. cbn [Nat.eqb].
  eexists. split; [ reflexivity | ].
  rewrite length_app, !length_rev, length_firstn, length_skipn. lia.
Qed.

Section WriteValue.

Variable offsets : list Z.
Variable masks : MaskVector.
Variable col : ColumnWithTypeAndName.

Local Abbreviation col_full :=
  (mkColumn (convertToFullIfNeeded (column col))
     (removeLowCardinality (type col))).

Local Abbreviation twn := (removeLowCardinalityAndNullable (type col)).

Lemma backing_size_fixed (i : nat) :
  isFixedLengthDataType twn = true -> backing_size masks col i = Ok 0.
Proof.
  intros Fx. unfold backing_size.
  rewrite (fixed_not_variable _ Fx). reflexivity.
Qed.

Lemma backing_size_variable (i : nat) :
  isVariableLengthDataType twn = true ->
  backing_size masks col i =
    if isDataTypeSupportRawData twn then
      match column col with
      | ColumnNullable null_map nested_column =>
          row_idx <- row_index masks i ;;
          is_null <- vector_at null_map row_idx ;;
          if negb is_null then
            str <- getDataAt twn nested_column row_idx ;;
            Ok (roundNumberOfBytesToNearestWord (Z.of_nat (length str)))
          else Ok 0
      | ColumnFull cells =>
          row_idx <- row_index masks i ;;
          str <- getDataAt twn cells row_idx ;;
          Ok (roundNumberOfBytesToNearestWord (Z.of_nat (length str)))
      end
    else
      row_idx <- row_index masks i ;;
      field <- column_get (column col) row_idx ;;
      calculate twn field.
Proof. intros V. unfold backing_size. rewrite V. reflexivity. Qed.

(** What the rows of the column need for [writeValue] to stay in the
    buffer. *)
Local Abbreviation rows_ready field_offset col_index n st :=
  (forall i, (i < n)%nat ->
     row_cells_ok masks col i
     /\ row_room offsets field_offset col_index (length (memory st))
          (cursor st) (column_sizes masks col i) i).

(** Writing one column advances every cursor by the backing data that
    phase 1 has added for the row; and it succeeds when the cells conform
    and every row has the room that phase 1 has measured. *)
Lemma writeValue_spec (field_offset col_index : Z) (n : nat)
    (st : RowBuffer) :
  isFixedLengthDataType twn = true \/ isVariableLengthDataType twn = true ->
  (forall i, (i < n)%nat -> exists v, backing_size masks col i = Ok v) ->
  (forall st',
     writeValue offsets masks field_offset col_full col_index n st = Ok st' ->
     cursor st' = add_rows (column_sizes masks col) n (cursor st)
     /\ length (memory st') = length (memory st))
  /\ (rows_ready field_offset col_index n st ->
      exists st',
        writeValue offsets masks field_offset col_full col_index n st
        = Ok st').
Proof.
  intros Cls Hb. unfold writeValue.
  cbn [type column]. unfold convertToFullIfNeeded.
  change (removeNullable (removeLowCardinality (type col))) with twn.
  assert (FC : FixedLengthDataWriter.ctor (removeLowCardinality (type col))
               = if isFixedLengthDataType twn then Ok twn
                 else Throw UNKNOWN_TYPE).
  { unfold FixedLengthDataWriter.ctor.
    change (removeNullable (removeLowCardinality (type col))) with twn.
    destruct (isFixedLengthDataType twn); reflexivity. }
  assert (VC : VariableLengthDataWriter.ctor
                 (removeLowCardinality (type col))
               = if isVariableLengthDataType twn then Ok twn
                 else Throw UNKNOWN_TYPE).
  { unfold VariableLengthDataWriter.ctor.
    change (removeNullable (removeLowCardinality (type col))) with twn.
    destruct (isVariableLengthDataType twn); reflexivity. }
  unfold row_cells_ok.
  destruct (isFixedLengthDataType twn) eqn:Fx.
  - (* fixed-length column: the cursors stay *)
    assert (G : forall i, column_sizes masks col i = 0).
    { intros i. apply column_sizes_Ok, backing_size_fixed, Fx. }
    pose proof (fixed_supports_raw _ Fx) as R.
    pose proof (getArrayElementSize_range twn) as Hes.
    destruct (column col) as [cells|null_map nested] eqn:Ecol;
      cbn [isColumnNullable].
    + unfold writeFixedLengthNonNullableValue. cbn [type column].
      rewrite FC. cbn [bind].
      destruct (isDecimal32 twn) eqn:D32; apply rows_case.
      * intros i s s' Hi B. rewrite G.
        bind_inv B as row_idx Er. bind_inv B as field Ef.
        bind_inv B as offset Eo. bind_inv B as mem Em. inv_Ok B.
        apply advanced_set_memory.
        eapply FixedLengthDataWriter_write_length. exact Em.
      * intros Safe i s Hi Lm Hc.
        destruct (Safe i Hi)
          as [(r & Er & cell & Ecell & Cc)
              (o & c & Eo & Ec & Po & Pf & Hf & Pi & Hw & Pc & Hr)].
        rewrite Er. cbn [bind column_get]. rewrite Ecell. cbn [bind].
        rewrite Eo. cbn [bind].
        destruct (cell_conforms_raw _ _ R Cc) as (str & En & _).
        destruct (FixedLengthDataWriter_write_Ok twn cell (memory s)
                    (o + field_offset)) as [mem' Em];
          [ exact Fx
          | eapply native_bytes_Decimal32_conforms; eassumption
          | lia | lia | ].
        rewrite Em. cbn [bind]. eauto.
      * intros i s s' Hi B. rewrite G.
        bind_inv B as row_idx Er. bind_inv B as str Es.
        bind_inv B as offset Eo. bind_inv B as mem Em. inv_Ok B.
        apply advanced_set_memory. eapply memcpy_length. exact Em.
      * intros Safe i s Hi Lm Hc.
        destruct (Safe i Hi)
          as [(r & Er & cell & Ecell & Cc)
              (o & c & Eo & Ec & Po & Pf & Hf & Pi & Hw & Pc & Hr)].
        rewrite Er. cbn [bind column_getDataAt]. unfold getDataAt.
        rewrite Ecell. cbn [bind].
        destruct (cell_conforms_raw _ _ R Cc) as (str & En & _).
        rewrite En. cbn [bind]. rewrite Eo. cbn [bind].
        pose proof (native_bytes_fixed_length _ _ _ Fx En) as Ls.
        unfold FixedLengthDataWriter.unsafeWrite.
        rewrite memcpy_Ok by lia. cbn [bind]. eauto.
    + unfold writeFixedLengthNullableValue. cbn [type column].
      cbn [checkAndGetColumn_ColumnNullable bind].
      rewrite FC. cbn [bind].
      destruct (isDecimal32 twn) eqn:D32; apply rows_case.
      * intros i s s' Hi B. rewrite G.
        bind_inv B as row_idx Er. bind_inv B as is_null Ei.
        destruct is_null; [ eapply set_null_bit_advanced; exact B | ].
        bind_inv B as field Ef. bind_inv B as offset Eo.
        bind_inv B as mem Em. inv_Ok B. apply advanced_set_memory.
        eapply FixedLengthDataWriter_write_length. exact Em.
      * intros Safe i s Hi Lm Hc.
        destruct (Safe i Hi)
          as [(r & Er & is_null & cell & Enull & Ecell & Cc)
              (o & c & Eo & Ec & Po & Pf & Hf & Pi & Hw & Pc & Hr)].
        rewrite Er. cbn [bind]. rewrite Enull. cbn [bind].
        destruct is_null.
        { apply (set_null_bit_Ok offsets col_index i s o Eo);
            pose proof (Z.shiftr_nonneg col_index 6); lia. }
        cbn [column_get]. rewrite Enull. cbn [bind]. rewrite Ecell.
        cbn [bind]. rewrite Eo. cbn [bind].
        destruct (cell_conforms_raw _ _ R (Cc eq_refl)) as (str & En & _).
        destruct (FixedLengthDataWriter_write_Ok twn cell (memory s)
                    (o + field_offset)) as [mem' Em];
          [ exact Fx
          | eapply native_bytes_Decimal32_conforms; eassumption
          | lia | lia | ].
        rewrite Em. cbn [bind]. eauto.
      * intros i s s' Hi B. rewrite G.
        bind_inv B as row_idx Er. bind_inv B as is_null Ei.
        destruct is_null; [ eapply set_null_bit_advanced; exact B | ].
        bind_inv B as str Es. bind_inv B as offset Eo.
        bind_inv B as mem Em. inv_Ok B. apply advanced_set_memory.
        eapply memcpy_length. exact Em.
      * intros Safe i s Hi Lm Hc.
        destruct (Safe i Hi)
          as [(r & Er & is_null & cell & Enull & Ecell & Cc)
              (o & c & Eo & Ec & Po & Pf & Hf & Pi & Hw & Pc & Hr)].
        rewrite Er. cbn [bind]. rewrite Enull. cbn [bind].
        destruct is_null.
        { apply (set_null_bit_Ok offsets col_index i s o Eo);
            pose proof (Z.shiftr_nonneg col_index 6); lia. }
        unfold getDataAt. rewrite Ecell. cbn [bind].
        destruct (cell_conforms_raw _ _ R (Cc eq_refl)) as (str & En & _).
        rewrite En. cbn [bind]. rewrite Eo. cbn [bind].
        pose proof (native_bytes_fixed_length _ _ _ Fx En) as Ls.
        unfold FixedLengthDataWriter.unsafeWrite.
        rewrite memcpy_Ok by lia. cbn [bind]. eauto.
  - destruct Cls as [Cls|V]; [ discriminate | ]. rewrite V.
    pose proof (fun i => backing_size_variable i V) as Bs.
    destruct (column col) as [cells|null_map nested] eqn:Ecol;
      cbn [isColumnNullable].
    + (* variable-length, not nullable *)
      unfold writeVariableLengthNonNullableValue. cbn [type column].
      change (removeNullable (removeLowCardinality (type col))) with twn.
      rewrite VC, V. cbn [bind].
      destruct (isDataTypeSupportRawData twn) eqn:R.
      * destruct (isBigEndianInSparkRow twn) eqn:BE; cbn [negb];
          apply rows_case.
        -- intros i s s' Hi B.
           bind_inv B as row_idx Er. bind_inv B as str Es.
           bind_inv B as buf Eb. bind_inv B as sd Ewr.
           destruct sd as [s1 d].
           eapply advanced_then_stored; [ | exact B ].
           apply writeUnalignedBytes_advanced in Ewr.
           apply swapDecimalEndianBytes_length in Eb.
           destruct Eb as [Ls Lb]. rewrite Lb in Ewr.
           rewrite (column_sizes_Ok masks col i
                      (roundNumberOfBytesToNearestWord
                         (Z.of_nat (length str))));
             [ rewrite Ls; exact Ewr | ].
           rewrite Bs, Er. cbn [bind]. cbn [column_getDataAt] in Es.
           rewrite Es. reflexivity.
        -- intros Safe i s Hi Lm Hc.
           destruct (Safe i Hi)
             as [(r & Er & cell & Ecell & Cc)
                 (o & c & Eo & Ec & Po & Pf & Hf & Pi & Hw & Pc & Hr)].
           destruct (cell_conforms_raw _ _ R Cc) as (str & En & L16).
           specialize (L16 BE).
           rewrite (column_sizes_Ok masks col i
                      (roundNumberOfBytesToNearestWord
                         (Z.of_nat (length str)))) in Hr.
           2:{ rewrite Bs, Er. cbn [bind]. unfold getDataAt.
               rewrite Ecell. cbn [bind]. rewrite En. reflexivity. }
           rewrite Er. cbn [bind column_getDataAt]. unfold getDataAt.
           rewrite Ecell. cbn [bind]. rewrite En. cbn [bind].
           destruct (swapDecimalEndianBytes_Ok str L16) as (buf & Eb & Lb).
           rewrite Eb. cbn [bind].
           apply vector_at_Ok in Ec. rewrite <- Hc in Ec.
           apply vector_at_Ok in Ec.
           pose proof (roundNumberOfBytesToNearestWord_bounds
                         (Z.of_nat (length str))) as Hround.
           destruct (writeUnalignedBytes_Ok offsets i buf 0 s o c Eo Ec)
             as (s1 & d & Ew); [ lia | lia | ].
           rewrite Ew. cbn [bind].
           apply writeUnalignedBytes_advanced in Ew. destruct Ew as [_ L1].
           apply (store_offset_and_size_Ok offsets field_offset i d s1 o Eo);
             lia.
        -- intros i s s' Hi B.
           bind_inv B as row_idx Er. bind_inv B as str Es.
           bind_inv B as sd Ewr. destruct sd as [s1 d].
           eapply advanced_then_stored; [ | exact B ].
           apply writeUnalignedBytes_advanced in Ewr.
           rewrite (column_sizes_Ok masks col i
                      (roundNumberOfBytesToNearestWord
                         (Z.of_nat (length str)))); [ exact Ewr | ].
           rewrite Bs, Er. cbn [bind]. cbn [column_getDataAt] in Es.
           rewrite Es. reflexivity.
        -- intros Safe i s Hi Lm Hc.
           destruct (Safe i Hi)
             as [(r & Er & cell & Ecell & Cc)
                 (o & c & Eo & Ec & Po & Pf & Hf & Pi & Hw & Pc & Hr)].
           destruct (cell_conforms_raw _ _ R Cc) as (str & En & _).
           rewrite (column_sizes_Ok masks col i
                      (roundNumberOfBytesToNearestWord
                         (Z.of_nat (length str)))) in Hr.
           2:{ rewrite Bs, Er. cbn [bind]. unfold getDataAt.
               rewrite Ecell. cbn [bind]. rewrite En. reflexivity. }
           rewrite Er. cbn [bind column_getDataAt]. unfold getDataAt.
           rewrite Ecell. cbn [bind]. rewrite En. cbn [bind].
           apply vector_at_Ok in Ec. rewrite <- Hc in Ec.
           apply vector_at_Ok in Ec.
           pose proof (roundNumberOfBytesToNearestWord_bounds
                         (Z.of_nat (length str))) as Hround.
           destruct (writeUnalignedBytes_Ok offsets i str 0 s o c Eo Ec)
             as (s1 & d & Ew); [ lia | lia | ].
           rewrite Ew. cbn [bind].
           apply writeUnalignedBytes_advanced in Ew. destruct Ew as [_ L1].
           apply (store_offset_and_size_Ok offsets field_offset i d s1 o Eo);
             lia.
      * apply rows_case.
        -- intros i s s' Hi B.
           bind_inv B as row_idx Er. bind_inv B as field Ef.
           bind_inv B as sd Ewr. destruct sd as [s1 d].
           eapply advanced_then_stored; [ | exact B ].
           destruct (Hb i Hi) as [v Ev].
           rewrite (column_sizes_Ok _ _ _ _ Ev).
           rewrite Bs, Er in Ev. cbn [bind] in Ev. rewrite Ef in Ev.
           cbn [bind] in Ev.
           eapply (write_agrees_with_calculate offsets twn); eassumption.
        -- intros Safe i s Hi Lm Hc.
           destruct (Safe i Hi)
             as [(r & Er & cell & Ecell & Cc)
                 (o & c & Eo & Ec & Po & Pf & Hf & Pi & Hw & Pc & Hr)].
           destruct (Hb i Hi) as [v Ev].
           rewrite (column_sizes_Ok _ _ _ _ Ev) in Hr.
           rewrite Bs, Er in Ev. cbn [bind column_get] in Ev.
           rewrite Ecell in Ev. cbn [bind] in Ev.
           rewrite Er. cbn [bind column_get]. rewrite Ecell. cbn [bind].
           apply vector_at_Ok in Ec. rewrite <- Hc in Ec.
           apply vector_at_Ok in Ec.
           destruct (write_safe offsets twn V i cell 0 s v o c
                       (cell_conforms_composite _ _ R V Cc) Ev Eo Ec)
             as (s1 & d & Ew); [ lia | lia | ].
           rewrite Ew. cbn [bind].
           destruct (write_agrees_with_calculate offsets twn _ _ _ _ _ _ _ Ew Ev)
             as [_ L1].
           apply (store_offset_and_size_Ok offsets field_offset i d s1 o Eo);
             lia.
    + (* variable-length, nullable *)
      unfold writeVariableLengthNullableValue. cbn [type column].
      change (removeNullable (removeLowCardinality (type col))) with twn.
      cbn [checkAndGetColumn_ColumnNullable bind].
      rewrite VC, V. cbn [bind].
      destruct (isDataTypeSupportRawData twn) eqn:R; apply rows_case.
      * intros i s s' Hi B.
        bind_inv B as row_idx Er. bind_inv B as is_null Ei.
        destruct is_null.
        { rewrite (column_sizes_Ok masks col i 0);
            [ eapply set_null_bit_advanced; exact B | ].
          rewrite Bs, Er. cbn [bind]. rewrite Ei. reflexivity. }
        destruct (negb (isBigEndianInSparkRow twn)).
        -- bind_inv B as str Es. bind_inv B as sd Ewr.
           destruct sd as [s1 d].
           eapply advanced_then_stored; [ | exact B ].
           apply writeUnalignedBytes_advanced in Ewr.
           rewrite (column_sizes_Ok masks col i
                      (roundNumberOfBytesToNearestWord
                         (Z.of_nat (length str)))); [ exact Ewr | ].
           rewrite Bs, Er. cbn [bind]. rewrite Ei. cbn [bind negb].
           rewrite Es. reflexivity.
        -- bind_inv B as cell Ecell. bind_inv B as str Es.
           bind_inv B as buf Eb. bind_inv B as sd Ewr.
           destruct sd as [s1 d].
           eapply advanced_then_stored; [ | exact B ].
           apply writeUnalignedBytes_advanced in Ewr.
           apply swapDecimalEndianBytes_length in Eb.
           destruct Eb as [Ls Lb]. rewrite Lb in Ewr.
           rewrite (column_sizes_Ok masks col i
                      (roundNumberOfBytesToNearestWord
                         (Z.of_nat (length str))));
             [ rewrite Ls; exact Ewr | ].
           rewrite Bs, Er. cbn [bind]. rewrite Ei. cbn [bind negb].
           rewrite Es. reflexivity.
      * intros Safe i s Hi Lm Hc.
        destruct (Safe i Hi)
          as [(r & Er & is_null & cell & Enull & Ecell & Cc)
              (o & c & Eo & Ec & Po & Pf & Hf & Pi & Hw & Pc & Hr)].
        rewrite Er. cbn [bind]. rewrite Enull. cbn [bind].
        destruct is_null.
        { apply (set_null_bit_Ok offsets col_index i s o Eo);
            pose proof (Z.shiftr_nonneg col_index 6); lia. }
        destruct (cell_conforms_raw _ _ R (Cc eq_refl)) as (str & En & L16).
        rewrite (column_sizes_Ok masks col i
                   (roundNumberOfBytesToNearestWord
                      (Z.of_nat (length str)))) in Hr.
        2:{ rewrite Bs, Er. cbn [bind]. rewrite Enull. cbn [bind negb].
            unfold getDataAt. rewrite Ecell. cbn [bind]. rewrite En.
            reflexivity. }
        apply vector_at_Ok in Ec. rewrite <- Hc in Ec.
        apply vector_at_Ok in Ec.
        pose proof (roundNumberOfBytesToNearestWord_bounds
                      (Z.of_nat (length str))) as Hround.
        destruct (isBigEndianInSparkRow twn) eqn:BE; cbn [negb].
        -- rewrite Ecell. cbn [bind]. unfold getDataAt. rewrite Ecell.
           cbn [bind]. rewrite En. cbn [bind].
           destruct (swapDecimalEndianBytes_Ok str (L16 BE))
             as (buf & Eb & Lb).
           rewrite Eb. cbn [bind].
           destruct (writeUnalignedBytes_Ok offsets i buf 0 s o c Eo Ec)
             as (s1 & d & Ew); [ lia | specialize (L16 BE); lia | ].
           rewrite Ew. cbn [bind].
           apply writeUnalignedBytes_advanced in Ew. destruct Ew as [_ L1].
           apply (store_offset_and_size_Ok offsets field_offset i d s1 o Eo);
             lia.
        -- unfold getDataAt. rewrite Ecell. cbn [bind]. rewrite En.
           cbn [bind].
           destruct (writeUnalignedBytes_Ok offsets i str 0 s o c Eo Ec)
             as (s1 & d & Ew); [ lia | lia | ].
           rewrite Ew. cbn [bind].
           apply writeUnalignedBytes_advanced in Ew. destruct Ew as [_ L1].
           apply (store_offset_and_size_Ok offsets field_offset i d s1 o Eo);
             lia.
      * intros i s s' Hi B.
        bind_inv B as row_idx Er. bind_inv B as is_null Ei.
        destruct (Hb i Hi) as [v Ev].
        rewrite (column_sizes_Ok _ _ _ _ Ev).
        rewrite Bs, Er in Ev. cbn [bind column_get] in Ev.
        rewrite Ei in Ev. cbn [bind] in Ev.
        destruct is_null.
        { cbn [bind] in Ev. rewrite calculate_Null in Ev. inv_Ok Ev.
          eapply set_null_bit_advanced; exact B. }
        bind_inv B as field Ef. bind_inv B as sd Ewr.
        destruct sd as [s1 d].
        eapply advanced_then_stored; [ | exact B ].
        rewrite Ef in Ev. cbn [bind] in Ev.
        eapply (write_agrees_with_calculate offsets twn); eassumption.
      * intros Safe i s Hi Lm Hc.
        destruct (Safe i Hi)
          as [(r & Er & is_null & cell & Enull & Ecell & Cc)
              (o & c & Eo & Ec & Po & Pf & Hf & Pi & Hw & Pc & Hr)].
        rewrite Er. cbn [bind]. rewrite Enull. cbn [bind].
        destruct is_null.
        { apply (set_null_bit_Ok offsets col_index i s o Eo);
            pose proof (Z.shiftr_nonneg col_index 6); lia. }
        destruct (Hb i Hi) as [v Ev].
        rewrite (column_sizes_Ok _ _ _ _ Ev) in Hr.
        rewrite Bs, Er in Ev. cbn [bind column_get] in Ev.
        rewrite Enull in Ev. cbn [bind] in Ev. rewrite Ecell in Ev.
        cbn [bind] in Ev.
        rewrite Ecell. cbn [bind].
        apply vector_at_Ok in Ec. rewrite <- Hc in Ec.
        apply vector_at_Ok in Ec.
        destruct (write_safe offsets twn V i cell 0 s v o c
                    (cell_conforms_composite _ _ R V (Cc eq_refl))
                    Ev Eo Ec)
          as (s1 & d & Ew); [ lia | lia | ].
        rewrite Ew. cbn [bind].
        destruct (write_agrees_with_calculate offsets twn _ _ _ _ _ _ _ Ew Ev)
          as [_ L1].
        apply (store_offset_and_size_Ok offsets field_offset i d s1 o Eo);
          lia.
Qed.

(** Writing one column advances every cursor by the backing data that
    phase 1 has added for the row. *)
Lemma writeValue_agrees (field_offset col_index : Z) (n : nat)
    (st st' : RowBuffer) :
  (forall i, (i < n)%nat -> exists v, backing_size masks col i = Ok v) ->
  writeValue offsets masks field_offset col_full col_index n st = Ok st' ->
  cursor st' = add_rows (column_sizes masks col) n (cursor st)
  /\ length (memory st') = length (memory st).
Proof.
  intros Hb H.
  destruct (isFixedLengthDataType twn) eqn:Fx.
  - apply (writeValue_spec field_offset col_index n st); auto.
  - destruct (isVariableLengthDataType twn) eqn:V.
    + apply (writeValue_spec field_offset col_index n st); auto.
    + unfold writeValue in H. cbn [type column] in H.
      change (removeNullable (removeLowCardinality (type col)))
        with twn in H.
      rewrite Fx, V in H. discriminate.
Qed.

End WriteValue.

Import WhichDataType.
Import BackingDataLengthCalculator.

(** ** The two passes over all the columns *)

Lemma vector_at_middle {A : Type} (pre suf : list A) (a : A) :
  vector_at (pre ++ a :: suf) (length pre) = Ok a.
Proof.
  apply vector_at_Ok. rewrite nth_error_app2 by lia.
  rewrite Nat.sub_diag. reflexivity.
Qed.

Lemma app_cons_assoc {A : Type} (pre suf : list A) (a : A) :
  pre ++ a :: suf = (pre ++ [a]) ++ suf.
Proof. rewrite <- app_assoc. reflexivity. Qed.

Lemma length_snoc {A : Type} (pre : list A) (a : A) :
  length (pre ++ [a]) = S (length pre).
Proof. rewrite length_app. cbn [length]. lia. Qed.

Lemma phase1_columns (masks : MaskVector) (n : nat) :
  forall (suf pre : list ColumnWithTypeAndName) (ls ls' : list Z),
    for_loop (length pre) (length suf)
      (fun col_idx lengths =>
         col <- vector_at (pre ++ suf) col_idx ;;
         add_column_lengths masks n col lengths) ls = Ok ls' ->
    ls' = add_columns masks n suf ls /\ all_measured masks n suf.
Proof.
  induction suf as [|c suf IH]; intros pre ls ls' H;
    cbn [length for_loop] in H.
  - inv_Ok H. split; [ reflexivity | constructor ].
  - rewrite vector_at_middle in H. cbn [bind] in H.
    bind_inv H as ls1 Ec.
    apply add_column_lengths_spec in Ec. destruct Ec as [-> Hc].
    rewrite app_cons_assoc, <- length_snoc with (a := c) in H.
    apply IH in H. destruct H as [-> F].
    split; [ reflexivity | constructor; assumption ].
Qed.

Lemma convert_column_inv (block : Block) (masks : MaskVector) (col_idx : nat)
    (info info' : SparkRowInfo) :
  convert_column block masks col_idx info = Ok info' ->
  exists col mem st,
    nth_error block col_idx = Some col
    /\ buffer_address info = Some mem
    /\ writeValue (offsets info) masks
         (getFieldOffset info (Z.of_nat col_idx))
         (mkColumn (convertToFullIfNeeded (column col))
            (removeLowCardinality (type col)))
         (Z.of_nat col_idx) (num_rows info)
         (mkRowBuffer mem (buffer_cursor info)) = Ok st
    /\ info' = mkSparkRowInfo (types info) (num_rows info) (num_cols info)
                 (null_bitset_width_in_bytes info) (total_bytes info)
                 (offsets info) (lengths info) (cursor st)
                 (Some (memory st)).
Proof.
  unfold convert_column, getByPosition. intros H.
  bind_inv H as col Ec. bind_inv H as mem Em. bind_inv H as st Ew.
  inv_Ok H. exists col, mem, st.
  destruct (nth_error block col_idx); [ inv_Ok Ec | discriminate ].
  destruct (buffer_address info); [ inv_Ok Em | discriminate ].
  auto.
Qed.

(** What the loop over the columns keeps, and what it does to the
    cursors. *)
Lemma phase2_columns (masks : MaskVector) :
  forall (suf pre : list ColumnWithTypeAndName) (info info' : SparkRowInfo),
    all_measured masks (num_rows info) suf ->
    convert_columns (pre ++ suf) masks (length pre) (length suf) info
    = Ok info' ->
    buffer_cursor info'
    = add_columns masks (num_rows info) suf (buffer_cursor info)
    /\ lengths info' = lengths info
    /\ offsets info' = offsets info
    /\ num_rows info' = num_rows info
    /\ num_cols info' = num_cols info
    /\ total_bytes info' = total_bytes info
    /\ types info' = types info
    /\ null_bitset_width_in_bytes info' = null_bitset_width_in_bytes info.
Proof.
  unfold convert_columns.
  induction suf as [|c suf IH]; intros pre info info' F H;
    cbn [length for_loop] in H.
  - inv_Ok H. repeat split; reflexivity.
  - bind_inv H as info1 Ec. apply convert_column_inv in Ec.
    destruct Ec as (col & mem & st & Nth & Em & Ew & ->).
    rewrite nth_error_app2, Nat.sub_diag in Nth by lia.
    cbn [nth_error] in Nth. inversion Nth; subst col; clear Nth.
    inversion F as [|c' suf' Hc F']; subst.
    apply writeValue_agrees in Ew; [ | exact Hc ]. destruct Ew as [Cs _].
    rewrite app_cons_assoc, <- length_snoc with (a := c) in H.
    apply IH in H; [ | exact F' ]. cbn in H.
    destruct H as (Hcur & Hl & Ho & Hn & Hnc & Ht & Hty & Hw).
    repeat split; try assumption.
    rewrite Hcur. cbn [add_columns fold_left]. rewrite Cs. reflexivity.
Qed.

Lemma setBufferAddress_fields (info : SparkRowInfo)
    (address : option (list byte)) :
  buffer_cursor (setBufferAddress info address) = buffer_cursor info
  /\ lengths (setBufferAddress info address) = lengths info
  /\ num_rows (setBufferAddress info address) = num_rows info
  /\ offsets (setBufferAddress info address) = offsets info.
Proof. repeat split. Qed.

(** Whenever the conversion returns, every cursor is at the length of its
    row. *)
Lemma convert_cursors_at_lengths (block : Block) (masks : MaskVector)
    (info : SparkRowInfo) :
  convertCHColumnToSparkRow block masks = Ok info ->
  buffer_cursor info = lengths info.
Proof.
  unfold convertCHColumnToSparkRow. intros H.
  destruct (Nat.eqb (columns block) 0); [ discriminate | ].
  bind_inv H as info0 E0.
  unfold SparkRowInfo_of_Block in E0.
  apply SparkRowInfo_ctor_inv in E0.
  destruct E0 as (_ & Hn & Hc & _ & Hcur & _ & Hl & _).
  apply (phase1_columns masks _ block []) in Hl. destruct Hl as [Hl F].
  cbv zeta in H. unfold setBufferAddress in H. cbn [num_cols] in H.
  rewrite Hc, Nat2Z.id in H.
  apply (phase2_columns masks block []) in H.
  - destruct H as (Hcur' & Hl' & _).
    rewrite Hcur', Hl'. cbn [buffer_cursor num_rows lengths].
    rewrite Hcur, Hl, Hn. reflexivity.
  - cbn [num_rows]. rewrite Hn. exact F.
Qed.

Import WhichDataType.
Import BackingDataLengthCalculator.

(** ** The conversion returns on a conforming block of supported types *)

(** A loop whose body, under an invariant, returns or refuses a type. *)
Lemma for_loop_measured {S : Type} (Inv : nat -> S -> Prop) (sup : bool)
    (body : nat -> S -> Result S) :
  forall (m k : nat) (s : S),
    Inv k s ->
    (forall i s, (k <= i < k + m)%nat -> Inv i s ->
       (exists s', body i s = Ok s' /\ Inv (Datatypes.S i) s')
       \/ (body i s = Throw UNKNOWN_TYPE /\ sup = false)) ->
    (exists s', for_loop k m body s = Ok s' /\ Inv (k + m)%nat s')
    \/ (for_loop k m body s = Throw UNKNOWN_TYPE /\ sup = false).
Proof.
  induction m as [|m IH]; intros k s I Step; cbn [for_loop].
  - left. exists s. rewrite Nat.add_0_r. auto.
  - destruct (Step k s ltac:(lia) I) as [(s1 & B & I1)|[B F]];
      rewrite B; cbn [bind]; [ | right; auto ].
    replace (k + Datatypes.S m)%nat with (Datatypes.S k + m)%nat by lia.
    apply IH; [ exact I1 | ].
    intros i t Hi. apply Step. lia.
Qed.

Lemma row_index_Ok (masks : MaskVector) (n i : nat) :
  mask_valid n masks = true ->
  (i < match masks with None => n | Some m => length m end)%nat ->
  exists r, row_index masks i = Ok r /\ (r < n)%nat.
Proof.
  intros M Hi. unfold row_index. destruct masks as [m|].
  - destruct (nth_error m i) as [r|] eqn:E.
    + exists r. split; [ reflexivity | ].
      cbn [mask_valid] in M. rewrite forallb_forall in M.
      apply Nat.ltb_lt, M. eapply nth_error_In. exact E.
    + apply nth_error_None in E. lia.
  - eauto.
Qed.

Lemma nth_error_combine {A B : Type} (l : list A) (l' : list B) (i : nat)
    (a : A) (b : B) :
  nth_error l i = Some a -> nth_error l' i = Some b ->
  nth_error (combine l l') i = Some (a, b).
Proof.
  revert l l'. induction i as [|i IH]; intros [|x l] [|y l'] Ha Hb;
    try discriminate; cbn [nth_error combine] in *.
  - congruence.
  - apply IH; assumption.
Qed.

Lemma nth_error_lt {A : Type} (v : list A) (i : nat) :
  (i < length v)%nat -> exists a, nth_error v i = Some a.
Proof.
  intros H. destruct (nth_error v i) as [a|] eqn:E; [ eauto | ].
  apply nth_error_None in E. lia.
Qed.

(** The cells of a conforming column, as the two passes reach them. *)
Lemma column_rows_ok (masks : MaskVector) (n : nat)
    (col : ColumnWithTypeAndName) (i : nat) :
  column_conforms n col = true -> mask_valid n masks = true ->
  (i < match masks with None => n | Some m => length m end)%nat ->
  row_cells_ok masks col i.
Proof.
  intros C M Hi. destruct (row_index_Ok masks n i M Hi) as (r & Er & Hr).
  unfold row_cells_ok. exists r. split; [ exact Er | ].
  unfold column_conforms in C.
  destruct (column col) as [cells|null_map nested].
  - apply andb_prop in C. destruct C as [L F]. apply Nat.eqb_eq in L.
    destruct (nth_error_lt cells r ltac:(lia)) as [cell E].
    exists cell. split; [ apply vector_at_Ok; exact E | ].
    rewrite forallb_forall in F. apply F. eapply nth_error_In. exact E.
  - apply andb_prop in C. destruct C as [L F].
    apply andb_prop in L. destruct L as [L1 L2].
    apply Nat.eqb_eq in L1, L2.
    destruct (nth_error_lt null_map r ltac:(lia)) as [is_null E1].
    destruct (nth_error_lt nested r ltac:(lia)) as [cell E2].
    exists is_null, cell.
    split; [ apply vector_at_Ok; exact E1 | ].
    split; [ apply vector_at_Ok; exact E2 | ].
    intros ->. rewrite forallb_forall in F.
    apply (F (false, cell)). eapply nth_error_In.
    apply nth_error_combine; eassumption.
Qed.

Lemma backing_size_nonneg (masks : MaskVector) (col : ColumnWithTypeAndName)
    (i : nat) (v : Z) :
  backing_size masks col i = Ok v -> 0 <= v.
Proof.
  unfold backing_size. intros H.
  destruct (isVariableLengthDataType _); [ | inv_Ok H; lia ].
  destruct (isDataTypeSupportRawData _).
  - destruct (column col) as [cells|null_map nested].
    + bind_inv H as r Er. bind_inv H as str Es. inv_Ok H.
      apply roundNumberOfBytesToNearestWord_length_nonneg.
    + bind_inv H as r Er. bind_inv H as is_null En.
      destruct (negb is_null); [ | inv_Ok H; lia ].
      bind_inv H as str Es. inv_Ok H.
      apply roundNumberOfBytesToNearestWord_length_nonneg.
  - bind_inv H as r Er. bind_inv H as field Ef.
    eapply calculate_nonneg. exact H.
Qed.

Lemma column_sizes_nonneg (masks : MaskVector) (col : ColumnWithTypeAndName)
    (i : nat) :
  0 <= column_sizes masks col i.
Proof.
  unfold column_sizes.
  destruct (backing_size masks col i) as [v|e] eqn:E; cbn [value_or_zero];
    [ eapply backing_size_nonneg; exact E | lia ].
Qed.

Lemma row_backing_nonneg (masks : MaskVector)
    (cols : list ColumnWithTypeAndName) (i : nat) :
  0 <= row_backing masks cols i.
Proof.
  unfold row_backing. apply sum_Z_nonneg. apply Forall_forall.
  intros x Hin. apply in_map_iff in Hin. destruct Hin as (col & <- & _).
  apply column_sizes_nonneg.
Qed.

(** Phase 1 on one conforming column. *)
Lemma add_column_lengths_measured (masks : MaskVector) (n : nat)
    (col : ColumnWithTypeAndName) (ls : list Z) :
  length ls = n ->
  (forall i, (i < n)%nat -> row_cells_ok masks col i) ->
  measured (supported (removeLowCardinalityAndNullable (type col)))
    (add_column_lengths masks n col ls).
Proof.
  intros Ln Cells. unfold add_column_lengths, row_cells_ok in *.
  set (twn := removeLowCardinalityAndNullable (type col)) in *.
  cbv zeta in Cells.
  destruct (isVariableLengthDataType twn) eqn:V; [ | left; eauto ].
  destruct (isDataTypeSupportRawData twn) eqn:R.
  - unfold convertToFullIfNeeded. left.
    destruct (column col) as [cells|null_map nested].
    + destruct (for_loop_Ok (fun _ x => length x = n)
                  (fun i lengths =>
                     row_idx <- row_index masks i ;;
                     str <- getDataAt twn cells row_idx ;;
                     add_length lengths i
                       (roundNumberOfBytesToNearestWord
                          (Z.of_nat (length str)))) n 0 ls Ln)
        as (ls' & E & _); [ | eauto ].
      intros i x Hi Lx.
      destruct (Cells i ltac:(lia)) as (r & Er & cell & Ecell & Cc).
      destruct (cell_conforms_raw _ _ R Cc) as (str & En & _).
      rewrite Er. cbn [bind]. unfold getDataAt. rewrite Ecell. cbn [bind].
      rewrite En. cbn [bind]. rewrite add_length_Ok by lia.
      eexists. split; [ reflexivity | ]. rewrite length_cursor_add. exact Lx.
    + destruct (for_loop_Ok (fun _ x => length x = n)
                  (fun i lengths =>
                     row_idx <- row_index masks i ;;
                     is_null <- vector_at null_map row_idx ;;
                     if negb is_null then
                       str <- getDataAt twn nested row_idx ;;
                       add_length lengths i
                         (roundNumberOfBytesToNearestWord
                            (Z.of_nat (length str)))
                     else Ok lengths) n 0 ls Ln)
        as (ls' & E & _); [ | eauto ].
      intros i x Hi Lx.
      destruct (Cells i ltac:(lia))
        as (r & Er & is_null & cell & Enull & Ecell & Cc).
      rewrite Er. cbn [bind]. rewrite Enull. cbn [bind].
      destruct is_null; cbn [negb]; [ eauto | ].
      destruct (cell_conforms_raw _ _ R (Cc eq_refl)) as (str & En & _).
      unfold getDataAt. rewrite Ecell. cbn [bind].
      rewrite En. cbn [bind]. rewrite add_length_Ok by lia.
      eexists. split; [ reflexivity | ]. rewrite length_cursor_add. exact Lx.
  - assert (Rn : removeNullable twn = twn).
    { destruct twn; try reflexivity; discriminate. }
    unfold ctor. rewrite Rn, V, andb_false_r. cbn [bind].
    destruct (for_loop_measured (fun _ x => length x = n) (supported twn)
                (fun i lengths =>
                   row_idx <- row_index masks i ;;
                   field <- column_get (column col) row_idx ;;
                   m <- calculate twn field ;;
                   add_length lengths i m) n 0 ls Ln)
      as [(ls' & E & _)|[E F]]; [ | left; eauto | right; auto ].
    intros i x Hi Lx.
    destruct (Cells i ltac:(lia)) as (r & Er & Hcell).
    rewrite Er. cbn [bind].
    assert (Hf : exists field,
               column_get (column col) r = Ok field
               /\ conforms twn field = true).
    { destruct (column col) as [cells|null_map nested].
      - destruct Hcell as (cell & Ecell & Cc). exists cell.
        split; [ exact Ecell | ].
        apply cell_conforms_composite; assumption.
      - destruct Hcell as (is_null & cell & Enull & Ecell & Cc).
        cbn [column_get]. rewrite Enull. cbn [bind]. destruct is_null.
        + exists FNull. split; [ reflexivity | ].
          apply conforms_isNull. reflexivity.
        + exists cell. split; [ exact Ecell | ].
          apply cell_conforms_composite; auto. }
    destruct Hf as (field & Ef & Cf). rewrite Ef. cbn [bind].
    destruct (calculate_measured twn field Cf) as [[m Em]|[Em F]];
      rewrite Em; cbn [bind]; [ left | right; auto ].
    rewrite add_length_Ok by lia.
    eexists. split; [ reflexivity | ]. rewrite length_cursor_add. exact Lx.
Qed.

Lemma length_add_columns (masks : MaskVector) (n : nat)
    (cols : list ColumnWithTypeAndName) (cs : list Z) :
  length (add_columns masks n cols cs) = length cs.
Proof.
  unfold add_columns. revert cs.
  induction cols as [|c cols IH]; intros cs; cbn [fold_left].
  - reflexivity.
  - rewrite IH. apply length_add_rows.
Qed.

(** Phase 1 on the columns of a conforming block. *)
Lemma phase1_measured (masks : MaskVector) (n : nat) :
  forall (suf pre : list ColumnWithTypeAndName) (ls : list Z),
    length ls = n ->
    (forall col, In col suf ->
       forall i, (i < n)%nat -> row_cells_ok masks col i) ->
    measured (block_supported suf)
      (for_loop (length pre) (length suf)
         (fun col_idx lengths =>
            col <- vector_at (pre ++ suf) col_idx ;;
            add_column_lengths masks n col lengths) ls).
Proof.
  induction suf as [|c suf IH]; intros pre ls Ln Cells;
    cbn [length for_loop].
  - left. eauto.
  - rewrite vector_at_middle. cbn [bind].
    unfold block_supported. cbn [forallb]. fold (block_supported suf).
    destruct (add_column_lengths_measured masks n c ls Ln
                (Cells c (or_introl eq_refl))) as [[ls1 E]|[E F]];
      rewrite E; cbn [bind].
    + apply add_column_lengths_spec in E. destruct E as [-> _].
      rewrite app_cons_assoc, <- length_snoc with (a := c).
      destruct (IH (pre ++ [c]) (add_rows (column_sizes masks c) n ls))
        as [H|[H F]].
      * rewrite length_add_rows. exact Ln.
      * intros col Hin. apply Cells. right. exact Hin.
      * left. exact H.
      * right. split; [ exact H | ]. rewrite F. apply andb_false_r.
    + right. split; [ reflexivity | ]. rewrite F. reflexivity.
Qed.

Lemma offsets_loop_Ok (lengths : list Z) (n : nat) :
  length lengths = n ->
  exists offsets,
    for_loop 1 (n - 1)
      (fun i offsets =>
         o <- vector_at offsets (i - 1) ;;
         l <- vector_at lengths (i - 1) ;;
         Ok (vector_set offsets i (o + l))) (repeat 0 n) = Ok offsets.
Proof.
  intros Ln.
  destruct (for_loop_Ok (fun _ x => length x = n)
              (fun i offsets =>
                 o <- vector_at offsets (i - 1) ;;
                 l <- vector_at lengths (i - 1) ;;
                 Ok (vector_set offsets i (o + l))) (n - 1) 1 (repeat 0 n))
    as (offs & E & _); [ apply repeat_length | | eauto ].
  intros i x Hi Lx.
  destruct (vector_at_lt x (i - 1) ltac:(lia)) as [o Eo].
  destruct (vector_at_lt lengths (i - 1) ltac:(lia)) as [l El].
  rewrite Eo. cbn [bind]. rewrite El. cbn [bind].
  eexists. split; [ reflexivity | ]. rewrite length_vector_set. exact Lx.
Qed.

Lemma total_bytes_loop_Ok (lengths : list Z) (n : nat) :
  length lengths = n ->
  exists total,
    for_loop 0 n
      (fun i total_bytes => l <- vector_at lengths i ;; Ok (total_bytes + l))
      0 = Ok total.
Proof.
  intros Ln.
  destruct (for_loop_Ok (fun _ _ => True)
              (fun i total_bytes =>
                 l <- vector_at lengths i ;; Ok (total_bytes + l)) n 0 0 I)
    as (total & E & _); [ | eauto ].
  intros i x Hi _.
  destruct (vector_at_lt lengths i ltac:(lia)) as [l El].
  rewrite El. cbn [bind]. eauto.
Qed.

Lemma block_rows_ok (block : Block) (masks : MaskVector) :
  block_conforms block masks = true ->
  forall col, In col block ->
    forall i, (i < output_rows block masks)%nat -> row_cells_ok masks col i.
Proof.
  unfold block_conforms. intros C col Hin i Hi.
  apply andb_prop in C. destruct C as [F M].
  rewrite forallb_forall in F.
  apply (column_rows_ok masks (rows block)); auto.
Qed.

(** Phase 1 on a conforming block: a row set, or a refused type. *)
Lemma SparkRowInfo_of_Block_measured (block : Block) (masks : MaskVector) :
  block_conforms block masks = true ->
  measured (block_supported block) (SparkRowInfo_of_Block block masks).
Proof.
  intros C. unfold SparkRowInfo_of_Block, SparkRowInfo_ctor.
  fold (output_rows block masks).
  set (n := output_rows block masks).
  set (fixed := calculatedFixeSizePerRow (Z.of_nat (columns block))).
  destruct (phase1_measured masks n block [] (repeat fixed n)
              (repeat_length _ _) (block_rows_ok block masks C))
    as [[ls E]|[E F]]; cbn [length app] in E; unfold columns; rewrite E;
    cbn [bind]; [ | right; auto ].
  assert (Ll : length ls = n).
  { apply (phase1_columns masks n block []) in E. destruct E as [-> _].
    rewrite length_add_columns. apply repeat_length. }
  destruct (offsets_loop_Ok ls n Ll) as [offs Eo]. rewrite Eo. cbn [bind].
  destruct (total_bytes_loop_Ok ls n Ll) as [total Et]. rewrite Et.
  cbn [bind]. left. eauto.
Qed.

(** ** Phase 2 stays in the buffer *)

Lemma nth_error_add_columns (masks : MaskVector) (n : nat) (i : nat) :
  (i < n)%nat ->
  forall (cols : list ColumnWithTypeAndName) (cs : list Z) (c : Z),
    nth_error cs i = Some c ->
    nth_error (add_columns masks n cols cs) i
    = Some (c + row_backing masks cols i).
Proof.
  intros Hi. unfold add_columns, row_backing.
  induction cols as [|col cols IH]; intros cs c E;
    cbn [fold_left List.map sum_Z fold_right].
  - rewrite E. f_equal. lia.
  - rewrite (IH _ (c + column_sizes masks col i)).
    + f_equal. unfold sum_Z. lia.
    + rewrite (nth_error_add_rows _ _ _ _ _ E).
      destruct (Nat.ltb_spec i n); [ reflexivity | lia ].
Qed.

(** The buffer that is allocated after phase 1 has room for every row. *)
Lemma rows_fit_initial (block : Block) (masks : MaskVector)
    (info : SparkRowInfo) :
  SparkRowInfo_of_Block block masks = Ok info ->
  rows_fit masks (offsets info) (calculatedFixeSizePerRow (num_cols info))
    (length (alloc_zeroed (total_bytes info))) (num_rows info) block
    (buffer_cursor info).
Proof.
  unfold SparkRowInfo_of_Block. intros H.
  pose proof (SparkRowInfo_ctor_layout _ _ _ _ _ _ H)
    as (Lo & Ll & Ho & Ht & Pt).
  pose proof (lengths_nonneg _ _ _ _ _ _ H) as Pl.
  apply SparkRowInfo_ctor_inv in H.
  destruct H as (_ & Hn & Hc & _ & Hcur & _ & Hl & _).
  apply (phase1_columns masks _ block []) in Hl. destruct Hl as [Hl _].
  rewrite <- Hn, <- Hc in Hcur, Hl.
  intros i Hi.
  exists (sum_Z (firstn i (lengths info))),
         (calculatedFixeSizePerRow (num_cols info)).
  assert (Ec : nth_error (buffer_cursor info) i
               = Some (calculatedFixeSizePerRow (num_cols info))).
  { rewrite Hcur. apply nth_error_repeat. exact Hi. }
  assert (El : nth_error (lengths info) i
               = Some (calculatedFixeSizePerRow (num_cols info)
                       + row_backing masks block i)).
  { rewrite Hl at 1. apply nth_error_add_columns; [ exact Hi | ].
    apply nth_error_repeat. exact Hi. }
  split; [ apply vector_at_Ok, Ho, Hi | ].
  split; [ apply vector_at_Ok, Ec | ].
  split; [ apply sum_Z_nonneg, Forall_firstn, Pl | ].
  split; [ lia | ].
  rewrite length_alloc_zeroed by exact Pt. rewrite Ht.
  pose proof (sum_Z_firstn_le _ _ _ Pl El). lia.
Qed.

Lemma convert_column_eq (block : Block) (masks : MaskVector) (col_idx : nat)
    (info : SparkRowInfo) (col : ColumnWithTypeAndName) (mem : list byte) :
  nth_error block col_idx = Some col ->
  buffer_address info = Some mem ->
  convert_column block masks col_idx info
  = (st <- writeValue (offsets info) masks
             (getFieldOffset info (Z.of_nat col_idx))
             (mkColumn (convertToFullIfNeeded (column col))
                (removeLowCardinality (type col)))
             (Z.of_nat col_idx) (num_rows info)
             (mkRowBuffer mem (buffer_cursor info)) ;;
     Ok (mkSparkRowInfo (types info) (num_rows info) (num_cols info)
           (null_bitset_width_in_bytes info) (total_bytes info)
           (offsets info) (lengths info) (cursor st) (Some (memory st)))).
Proof.
  intros Nth Em. unfold convert_column, getByPosition.
  rewrite Nth, Em. reflexivity.
Qed.

Lemma writeValue_Ok_classified (offsets : list Z) (masks : MaskVector)
    (field_offset : Z) (col : ColumnWithTypeAndName) (col_index : Z)
    (n : nat) (st st' : RowBuffer) :
  writeValue offsets masks field_offset
    (mkColumn (convertToFullIfNeeded (column col))
       (removeLowCardinality (type col))) col_index n st = Ok st' ->
  classified col = true.
Proof.
  unfold writeValue, classified. cbn [type column].
  change (removeNullable (removeLowCardinality (type col)))
    with (removeLowCardinalityAndNullable (type col)).
  destruct (isFixedLengthDataType _); [ reflexivity | ].
  destruct (isVariableLengthDataType _); [ reflexivity | discriminate ].
Qed.

Lemma writeValue_unclassified (offsets : list Z) (masks : MaskVector)
    (field_offset : Z) (col : ColumnWithTypeAndName) (col_index : Z)
    (n : nat) (st : RowBuffer) :
  classified col = false ->
  writeValue offsets masks field_offset
    (mkColumn (convertToFullIfNeeded (column col))
       (removeLowCardinality (type col))) col_index n st
  = Throw UNKNOWN_TYPE.
Proof.
  unfold writeValue, classified. cbn [type column].
  change (removeNullable (removeLowCardinality (type col)))
    with (removeLowCardinalityAndNullable (type col)).
  destruct (isFixedLengthDataType _); [ discriminate | ].
  destruct (isVariableLengthDataType _); [ discriminate | reflexivity ].
Qed.

Lemma unclassified_unsupported (col : ColumnWithTypeAndName) :
  classified col = false ->
  supported (removeLowCardinalityAndNullable (type col)) = false.
Proof.
  unfold classified. intros H.
  destruct (supported _) eqn:S; [ | reflexivity ].
  apply supported_classified in S. destruct S as [S|S]; rewrite S in H;
    [ discriminate | rewrite orb_true_r in H; discriminate ].
Qed.

(** A column index has its slot and its null bit in the fixed part. *)
Lemma slot_in_fixed_part (num_cols col_idx : Z) :
  0 <= col_idx < num_cols ->
  0 <= calculateBitSetWidthInBytes num_cols + 8 * col_idx
  /\ calculateBitSetWidthInBytes num_cols + 8 * col_idx + 8
     <= calculatedFixeSizePerRow num_cols
  /\ 0 <= Z.shiftr col_idx 6 * 8
  /\ Z.shiftr col_idx 6 * 8 + 8 <= calculatedFixeSizePerRow num_cols.
Proof.
  intros H. unfold calculatedFixeSizePerRow.
  pose proof (calculateBitSetWidthInBytes_nonneg num_cols ltac:(lia)).
  pose proof (bit_word_in_bitmap col_idx num_cols H). lia.
Qed.

(** Phase 2 over the columns: every column is written inside the buffer,
    or has a type that is refused. *)
Lemma phase2_measured (masks : MaskVector) :
  forall (suf pre : list ColumnWithTypeAndName) (info : SparkRowInfo)
         (mem : list byte),
    buffer_address info = Some mem ->
    num_cols info = Z.of_nat (length (pre ++ suf)) ->
    null_bitset_width_in_bytes info
    = calculateBitSetWidthInBytes (num_cols info) ->
    all_measured masks (num_rows info) suf ->
    (forall col, In col suf ->
       forall i, (i < num_rows info)%nat -> row_cells_ok masks col i) ->
    rows_fit masks (offsets info) (calculatedFixeSizePerRow (num_cols info))
      (length mem) (num_rows info) suf (buffer_cursor info) ->
    measured (block_supported suf)
      (convert_columns (pre ++ suf) masks (length pre) (length suf) info).
Proof.
  unfold convert_columns.
  induction suf as [|c suf IH]; intros pre info mem Em Hc Hw F Cells Fit;
    cbn [length for_loop].
  - left. eauto.
  - unfold block_supported. cbn [forallb]. fold (block_supported suf).
    rewrite (convert_column_eq _ _ _ _ c mem)
      by (rewrite ?nth_error_app2, ?Nat.sub_diag by lia;
          reflexivity || exact Em).
    inversion F as [|c' suf' Mc F']; subst c' suf'.
    destruct (classified c) eqn:Cl.
    + assert (Hidx : 0 <= Z.of_nat (length pre) < num_cols info).
      { rewrite Hc, length_app. cbn [length]. lia. }
      pose proof (slot_in_fixed_part _ _ Hidx) as (S1 & S2 & S3 & S4).
      pose proof (calculatedFixeSizePerRow_nonneg (num_cols info)
                    ltac:(lia)) as Pf.
      destruct (writeValue_spec (offsets info) masks c
                  (getFieldOffset info (Z.of_nat (length pre)))
                  (Z.of_nat (length pre)) (num_rows info)
                  (mkRowBuffer mem (buffer_cursor info)))
        as [Agree Safe].
      { unfold classified in Cl. apply orb_prop in Cl. exact Cl. }
      { exact Mc. }
      destruct Safe as [st' Ew].
      { intros i Hi. split; [ apply Cells; [ left; reflexivity | exact Hi ] | ].
        destruct (Fit i Hi) as (o & ci & Eo & Ec & Po & Pc & Hr).
        unfold row_backing in Hr.
        cbn [List.map sum_Z fold_right] in Hr.
        fold (sum_Z (List.map (fun col => column_sizes masks col i) suf))
          in Hr.
        fold (row_backing masks suf i) in Hr.
        pose proof (row_backing_nonneg masks suf i).
        pose proof (column_sizes_nonneg masks c i).
        unfold row_room, getFieldOffset. rewrite Hw.
        cbn [memory cursor]. exists o, ci.
        repeat split; try assumption; lia. }
      rewrite Ew. cbn [bind].
      destruct (Agree st' Ew) as [Cs Ls]. cbn [memory cursor] in Cs, Ls.
      rewrite app_cons_assoc, <- length_snoc with (a := c).
      destruct (IH (pre ++ [c])
                  (mkSparkRowInfo (types info) (num_rows info)
                     (num_cols info) (null_bitset_width_in_bytes info)
                     (total_bytes info) (offsets info) (lengths info)
                     (cursor st') (Some (memory st')))
                  (memory st')) as [H|[H Fs]];
        cbn [buffer_address num_cols null_bitset_width_in_bytes num_rows
             offsets buffer_cursor].
      * reflexivity.
      * rewrite <- app_cons_assoc. exact Hc.
      * exact Hw.
      * exact F'.
      * intros col Hin. apply Cells. right. exact Hin.
      * intros i Hi.
        destruct (Fit i Hi) as (o & ci & Eo & Ec & Po & Pc & Hr).
        unfold row_backing in Hr.
        cbn [List.map sum_Z fold_right] in Hr.
        fold (sum_Z (List.map (fun col => column_sizes masks col i) suf))
          in Hr.
        fold (row_backing masks suf i) in Hr.
        pose proof (column_sizes_nonneg masks c i).
        exists o, (ci + column_sizes masks c i).
        split; [ exact Eo | ].
        split.
        { apply vector_at_Ok. rewrite Cs.
          apply vector_at_Ok in Ec.
          rewrite (nth_error_add_rows _ _ _ _ _ Ec).
          destruct (Nat.ltb_spec i (num_rows info)); [ reflexivity | lia ]. }
        rewrite Ls. repeat split; lia.
      * left. exact H.
      * right. split; [ exact H | ]. rewrite Fs. apply andb_false_r.
    + rewrite writeValue_unclassified by exact Cl. cbn [bind].
      right. split; [ reflexivity | ].
      rewrite (unclassified_unsupported c Cl). reflexivity.
Qed.

(** The conversion of a conforming block returns a row set, or refuses a
    type. *)
Lemma convert_measured (block : Block) (masks : MaskVector) :
  columns block <> 0%nat ->
  block_conforms block masks = true ->
  measured (block_supported block) (convertCHColumnToSparkRow block masks).
Proof.
  intros Hcols C. unfold convertCHColumnToSparkRow.
  destruct (Nat.eqb_spec (columns block) 0) as [E|_]; [ contradiction | ].
  destruct (SparkRowInfo_of_Block_measured block masks C)
    as [[info0 E0]|[E0 F]]; rewrite E0; cbn [bind]; [ | right; auto ].
  pose proof (rows_fit_initial _ _ _ E0) as Fit.
  unfold SparkRowInfo_of_Block in E0.
  pose proof (SparkRowInfo_ctor_inv _ _ _ _ _ _ E0) as Inv.
  cbv zeta in Inv.
  destruct Inv as (_ & Hn & Hc & Hw & _ & _ & Hl & _).
  apply (phase1_columns masks _ block []) in Hl. destruct Hl as [_ F].
  cbn [setBufferAddress num_cols]. rewrite Hc, Nat2Z.id.
  apply (phase2_measured masks block []
           (setBufferAddress info0 (Some (alloc_zeroed (total_bytes info0))))
           (alloc_zeroed (total_bytes info0)));
    cbn [setBufferAddress buffer_address num_cols null_bitset_width_in_bytes
         num_rows offsets buffer_cursor app].
  - reflexivity.
  - exact Hc.
  - rewrite Hw, Hc. reflexivity.
  - rewrite Hn. exact F.
  - rewrite Hn. apply block_rows_ok. exact C.
  - exact Fit.
Qed.

(** On a conforming block of supported types the conversion returns. *)
Lemma convert_Ok (block : Block) (masks : MaskVector) :
  columns block <> 0%nat ->
  block_supported block = true ->
  block_conforms block masks = true ->
  exists info, convertCHColumnToSparkRow block masks = Ok info.
Proof.
  intros Hcols S C.
  destruct (convert_measured block masks Hcols C) as [H|[_ F]];
    [ exact H | congruence ].
Qed.

(** A conversion that returns has classified every column. *)
Lemma phase2_classified (masks : MaskVector) :
  forall (suf pre : list ColumnWithTypeAndName) (info info' : SparkRowInfo),
    convert_columns (pre ++ suf) masks (length pre) (length suf) info
    = Ok info' ->
    forallb classified suf = true.
Proof.
  unfold convert_columns.
  induction suf as [|c suf IH]; intros pre info info' H;
    cbn [length for_loop] in H; cbn [forallb]; [ reflexivity | ].
  bind_inv H as info1 Ec. apply convert_column_inv in Ec.
  destruct Ec as (col & mem & st & Nth & Em & Ew & ->).
  rewrite nth_error_app2, Nat.sub_diag in Nth by lia.
  cbn [nth_error] in Nth. inversion Nth; subst col; clear Nth.
  apply writeValue_Ok_classified in Ew. rewrite Ew. cbn [andb].
  rewrite app_cons_assoc, <- length_snoc with (a := c) in H.
  eapply IH. exact H.
Qed.

Lemma convert_Ok_classified (block : Block) (masks : MaskVector)
    (info : SparkRowInfo) :
  convertCHColumnToSparkRow block masks = Ok info ->
  forallb classified block = true.
Proof.
  unfold convertCHColumnToSparkRow. intros H.
  destruct (Nat.eqb (columns block) 0); [ discriminate | ].
  bind_inv H as info0 E0.
  unfold SparkRowInfo_of_Block in E0.
  apply SparkRowInfo_ctor_inv in E0.
  destruct E0 as (_ & _ & Hc & _).
  cbv zeta in H. cbn [setBufferAddress num_cols] in H.
  rewrite Hc, Nat2Z.id in H.
  apply (phase2_classified masks block []) in H. exact H.
Qed.

Import WhichDataType.
Import BackingDataLengthCalculator.

(** ** The length pass and the write pass *)

(** C1. For a supported type [t] and a conforming value [f], the length
    pass returns a length [n] (0 for a type of fixed length); whenever
    [VariableLengthDataWriter::write] returns on [f], nesting included, it
    has advanced the cursor of the row by exactly [n] and no other cursor;
    and it does return, with the cursor [n] further, when [t] is of
    variable length and [n] bytes fit the buffer after the cursor.
    Consequently the conversion of a conforming block of supported types
    returns a row set in which the cursor of every row equals the length
    of the row. *)
Theorem write_pass_advances_by_calculated_length
    (t : DataType) (f : Field) (offsets : list Z) (r : nat) (p : Z)
    (st : RowBuffer) (block : Block) (masks : MaskVector) :
  supported t = true -> conforms t f = true ->
  columns block <> 0%nat ->
  block_supported block = true -> block_conforms block masks = true ->
  (exists n,
     calculate t f = Ok n
     /\ (isFixedLengthDataType t = true -> n = 0)
     /\ (forall st' d,
           VariableLengthDataWriter.write t offsets r f p st = Ok (st', d) ->
           advanced st st' r n)
     /\ (isVariableLengthDataType t = true ->
         forall o c,
           vector_at offsets r = Ok o -> vector_at (cursor st) r = Ok c ->
           0 <= o + c -> o + c + n <= Z.of_nat (length (memory st)) ->
           exists st' d,
             VariableLengthDataWriter.write t offsets r f p st = Ok (st', d)
             /\ vector_at (cursor st') r = Ok (c + n)))
  /\ (exists info,
        convertCHColumnToSparkRow block masks = Ok info
        /\ buffer_cursor info = lengths info).
Proof.
  intros St Cf Hcols Sb Cb. split.
  - destruct (calculate_supported t f St Cf) as [n En]. exists n.
    split; [ exact En | ].
    split; [ intros Fx; eapply calculate_fixed; eassumption | ].
    split.
    + intros st' d Hw.
      eapply (write_agrees_with_calculate offsets t); eassumption.
    + intros V o c Eo Ec Hlo Hhi.
      destruct (write_safe offsets t V r f p st n o c Cf En Eo Ec Hlo Hhi)
        as (st' & d & Hw).
      exists st', d. split; [ exact Hw | ].
      destruct (write_agrees_with_calculate offsets t _ _ _ _ _ _ _ Hw En)
        as [Cs _].
      apply vector_at_Ok. rewrite Cs.
      apply nth_error_cursor_add_eq, vector_at_Ok, Ec.
  - destruct (convert_Ok block masks Hcols Sb Cb) as [info E].
    exists info. split; [ exact E | ].
    eapply convert_cursors_at_lengths. exact E.
Qed.

Lemma write_pass_advances_by_calculated_length_witness :
  let t := DataTypeArray DataTypeInt32 in
  let f := FArray [FInt64 1; FInt64 2] in
  let st := mkRowBuffer (repeat x00 40) [16] in
  let block :=
    [mkColumn (ColumnFull [FString [x68; x69]]) DataTypeString] in
  (exists n,
     calculate t f = Ok n
     /\ (isFixedLengthDataType t = true -> n = 0)
     /\ (forall st' d,
           VariableLengthDataWriter.write t [0] 0 f 0 st = Ok (st', d) ->
           advanced st st' 0 n)
     /\ (isVariableLengthDataType t = true ->
         forall o c,
           vector_at [0] 0 = Ok o -> vector_at (cursor st) 0 = Ok c ->
           0 <= o + c -> o + c + n <= Z.of_nat (length (memory st)) ->
           exists st' d,
             VariableLengthDataWriter.write t [0] 0 f 0 st = Ok (st', d)
             /\ vector_at (cursor st') 0 = Ok (c + n)))
  /\ (exists info,
        convertCHColumnToSparkRow block None = Ok info
        /\ buffer_cursor info = lengths info).
Proof.
  intros t f st block.
  apply (write_pass_advances_by_calculated_length t f [0] 0%nat 0 st block
           None);
    first [ reflexivity | discriminate ].
Defined.

(** ** The errors of the conversion *)

(** C7 (as stated, refuted). A column of low-cardinality strings: with
    nullability alone stripped, its type is of neither class; the conversion
    strips low cardinality as well and returns the row set. *)
Lemma low_cardinality_column_counterexample :
  let col :=
    mkColumn (ColumnFull [FString [x68; x69]])
      (DataTypeLowCardinality DataTypeString) in
  isFixedLengthDataType (removeNullable (type col)) = false
  /\ isVariableLengthDataType (removeNullable (type col)) = false
  /\ convertCHColumnToSparkRow [col] None
     = Ok (mkSparkRowInfo [DataTypeLowCardinality DataTypeString] 1 1 8 24
             [0] [24] [24]
             (Some [x00; x00; x00; x00; x00; x00; x00; x00;
                    x02; x00; x00; x00; x10; x00; x00; x00;
                    x68; x69; x00; x00; x00; x00; x00; x00])).
Proof. intros col. repeat split. Qed.

(** C7 (amended). On a block whose cells conform to the types of their
    columns, the conversion fails with [LOGICAL_ERROR] if and only if the
    block has zero columns; it fails with [UNKNOWN_TYPE] when the type of a
    column, low cardinality and nullability stripped, is of neither fixed
    nor variable length; these are its only errors, and a failure returns
    no row set. *)
Theorem conversion_errors (block : Block) (masks : MaskVector) :
  (columns block <> 0%nat -> block_conforms block masks = true) ->
  (convertCHColumnToSparkRow block masks = Throw LOGICAL_ERROR
   <-> columns block = 0%nat)
  /\ (forallb classified block = false ->
      convertCHColumnToSparkRow block masks = Throw UNKNOWN_TYPE)
  /\ (forall e,
        convertCHColumnToSparkRow block masks = Throw e ->
        (e = LOGICAL_ERROR \/ e = UNKNOWN_TYPE)
        /\ forall info, convertCHColumnToSparkRow block masks <> Ok info).
Proof.
  intros C.
  assert (Z0 : columns block = 0%nat ->
               convertCHColumnToSparkRow block masks = Throw LOGICAL_ERROR).
  { intros E. unfold convertCHColumnToSparkRow. rewrite E. reflexivity. }
  destruct (Nat.eq_dec (columns block) 0) as [E|Ne].
  - split; [ split; auto | ].
    split.
    + intros F. destruct block; [ discriminate F | discriminate E ].
    + intros e H. rewrite (Z0 E) in *. split; [ left; congruence | ].
      discriminate.
  - pose proof (convert_measured block masks Ne (C Ne)) as M.
    split; [ split; [ | contradiction ] | split ].
    + intros H. destruct M as [[info E]|[E _]]; congruence.
    + intros F. destruct M as [[info E]|[E _]]; [ | exact E ].
      apply convert_Ok_classified in E. congruence.
    + intros e H. destruct M as [[info E]|[E _]]; [ congruence | ].
      split; [ right; congruence | ]. intros info. congruence.
Qed.

Lemma conversion_errors_witness :
  let block :=
    [mkColumn (ColumnFull [FString [x68; x69]]) DataTypeString;
     mkColumn (ColumnFull [FUInt64 7]) DataTypeUUID] in
  (convertCHColumnToSparkRow block None = Throw LOGICAL_ERROR
   <-> columns block = 0%nat)
  /\ (forallb classified block = false ->
      convertCHColumnToSparkRow block None = Throw UNKNOWN_TYPE)
  /\ (forall e,
        convertCHColumnToSparkRow block None = Throw e ->
        (e = LOGICAL_ERROR \/ e = UNKNOWN_TYPE)
        /\ forall info, convertCHColumnToSparkRow block None <> Ok info).
Proof.
  intros block. apply (conversion_errors block None).
  intros _. reflexivity.
Defined.

Import WhichDataType.
Import BackingDataLengthCalculator.

(** ** Masks *)

(** Two loops whose bodies agree on the states that an invariant of the
    first admits. *)
Lemma for_loop_ext_inv {S : Type} (Inv : nat -> S -> Prop)
    (body1 body2 : nat -> S -> Result S) :
  forall (m k : nat) (s : S),
    Inv k s ->
    (forall i s, (k <= i < k + m)%nat -> Inv i s -> body1 i s = body2 i s) ->
    (forall i s s', (k <= i < k + m)%nat -> Inv i s -> body1 i s = Ok s' ->
                    Inv (Datatypes.S i) s') ->
    for_loop k m body1 s = for_loop k m body2 s.
Proof.
  induction m as [|m IH]; intros k s I E P; cbn [for_loop];
    [ reflexivity | ].
  rewrite <- (E k s) by (lia || exact I).
  destruct (body1 k s) as [s1|e] eqn:B; cbn [bind]; [ | reflexivity ].
  apply IH.
  - apply (P k s s1); [ lia | exact I | exact B ].
  - intros i t Hi. apply E. lia.
  - intros i t t' Hi. apply P. lia.
Qed.

Lemma length_project_cells {A : Type} (cells : list A) (M : list nat) :
  Forall (fun r => (r < length cells)%nat) M ->
  length (project_cells cells M) = length M.
Proof.
  unfold project_cells. induction 1 as [|r M Hr _ IH]; cbn [flat_map].
  - reflexivity.
  - destruct (nth_error_lt cells r Hr) as [a E]. rewrite E.
    cbn [app length]. rewrite IH. reflexivity.
Qed.

(** Row [i] of the projection is the source row [M[i]]. *)
Lemma nth_error_project_cells {A : Type} (cells : list A) (M : list nat) :
  Forall (fun r => (r < length cells)%nat) M ->
  forall i r, nth_error M i = Some r ->
    nth_error (project_cells cells M) i = nth_error cells r.
Proof.
  unfold project_cells. induction 1 as [|r0 M Hr _ IH]; intros i r E.
  - destruct i; discriminate E.
  - cbn [flat_map]. destruct (nth_error_lt cells r0 Hr) as [a Ea].
    rewrite Ea. destruct i as [|i]; cbn [nth_error app] in *.
    + inversion E; subst r0. symmetry. exact Ea.
    + apply IH. exact E.
Qed.

Lemma vector_at_project_cells {A : Type} (n0 : nat) (M : list nat)
    (cells : list A) (i r : nat) :
  Forall (fun r => (r < n0)%nat) M -> length cells = n0 ->
  nth_error M i = Some r ->
  vector_at (project_cells cells M) i = vector_at cells r.
Proof.
  intros HM L E. unfold vector_at.
  rewrite (nth_error_project_cells cells M) with (r := r);
    [ reflexivity | rewrite L; exact HM | exact E ].
Qed.

Lemma column_get_project (n0 : nat) (M : list nat) (col : IColumn)
    (i r : nat) :
  Forall (fun r => (r < n0)%nat) M ->
  column_rectangular n0 (mkColumn col DataTypeNothing) = true ->
  nth_error M i = Some r ->
  column_get (project_column col M) i = column_get col r.
Proof.
  unfold column_rectangular. cbn [column]. intros HM Rc E.
  destruct col as [cells|null_map nested]; cbn [project_column column_get].
  - apply Nat.eqb_eq in Rc.
    apply (vector_at_project_cells n0); assumption.
  - apply andb_prop in Rc. destruct Rc as [L1 L2].
    apply Nat.eqb_eq in L1, L2.
    rewrite (vector_at_project_cells n0 M null_map i r) by assumption.
    rewrite (vector_at_project_cells n0 M nested i r) by assumption.
    reflexivity.
Qed.

Section MaskFidelity.

Variable n0 : nat.
Variable M : list nat.
Hypothesis HM : Forall (fun r => (r < n0)%nat) M.

Ltac project_reads r :=
  repeat match goal with
         | |- context [vector_at (project_cells ?c M) ?i] =>
             rewrite (vector_at_project_cells n0 M c i r HM) by assumption
         end.

Ltac rows_ext :=
  apply for_loop_ext;
  let i := fresh "i" in
  let s := fresh "s" in
  let Hi := fresh "Hi" in
  let r := fresh "r" in
  let Er := fresh "Er" in
  intros i s Hi;
  destruct (nth_error_lt M i ltac:(lia)) as [r Er];
  unfold row_index, column_getDataAt, column_get, getDataAt;
  rewrite Er; cbn [bind]; project_reads r; reflexivity.

(** Phase 1 on a column under the mask, and on the projected column. *)
Lemma add_column_lengths_project (col : ColumnWithTypeAndName)
    (ls : list Z) :
  column_rectangular n0 col = true ->
  add_column_lengths (Some M) (length M) col ls
  = add_column_lengths None (length M)
      (mkColumn (project_column (column col) M) (type col)) ls.
Proof.
  unfold column_rectangular, add_column_lengths. cbn [type column].
  unfold convertToFullIfNeeded. intros Rc.
  destruct (isVariableLengthDataType _); [ | reflexivity ].
  destruct (column col) as [cells|null_map nested]; cbn [project_column].
  - apply Nat.eqb_eq in Rc.
    destruct (isDataTypeSupportRawData _).
    + rows_ext.
    + destruct (ctor _); cbn [bind]; [ | reflexivity ]. rows_ext.
  - apply andb_prop in Rc. destruct Rc as [L1 L2].
    apply Nat.eqb_eq in L1, L2.
    destruct (isDataTypeSupportRawData _).
    + rows_ext.
    + destruct (ctor _); cbn [bind]; [ | reflexivity ]. rows_ext.
Qed.

(** Phase 2 on a column under the mask, and on the projected column. *)
Lemma writeValue_project (offsets : list Z) (field_offset : Z)
    (col : ColumnWithTypeAndName) (col_index : Z) (st : RowBuffer) :
  column_rectangular n0 col = true ->
  writeValue offsets (Some M) field_offset
    (mkColumn (convertToFullIfNeeded (column col))
       (removeLowCardinality (type col))) col_index (length M) st
  = writeValue offsets None field_offset
      (mkColumn (convertToFullIfNeeded (project_column (column col) M))
         (removeLowCardinality (type col))) col_index (length M) st.
Proof.
  unfold column_rectangular, writeValue. cbn [type column].
  unfold convertToFullIfNeeded. intros Rc.
  destruct (column col) as [cells|null_map nested];
    cbn [project_column isColumnNullable].
  - apply Nat.eqb_eq in Rc.
    destruct (isFixedLengthDataType _).
    + unfold writeFixedLengthNonNullableValue. cbn [type column].
      destruct (FixedLengthDataWriter.ctor _) as [writer|];
        cbn [bind]; [ | reflexivity ].
      destruct (isDecimal32 writer); rows_ext.
    + destruct (isVariableLengthDataType _); [ | reflexivity ].
      unfold writeVariableLengthNonNullableValue. cbn [type column].
      destruct (VariableLengthDataWriter.ctor _) as [writer|];
        cbn [bind]; [ | reflexivity ].
      destruct (isDataTypeSupportRawData _);
        [ destruct (negb _) | ]; rows_ext.
  - apply andb_prop in Rc. destruct Rc as [L1 L2].
    apply Nat.eqb_eq in L1, L2.
    destruct (isFixedLengthDataType _).
    + unfold writeFixedLengthNullableValue. cbn [type column].
      cbn [checkAndGetColumn_ColumnNullable bind].
      destruct (FixedLengthDataWriter.ctor _) as [writer|];
        cbn [bind]; [ | reflexivity ].
      destruct (isDecimal32 writer); rows_ext.
    + destruct (isVariableLengthDataType _); [ | reflexivity ].
      unfold writeVariableLengthNullableValue. cbn [type column].
      cbn [checkAndGetColumn_ColumnNullable bind].
      destruct (VariableLengthDataWriter.ctor _) as [writer|];
        cbn [bind]; [ | reflexivity ].
      destruct (isDataTypeSupportRawData _); rows_ext.
Qed.

Variable block : Block.
Hypothesis Hrect : forallb (column_rectangular n0) block = true.

Lemma nth_error_project (col_idx : nat) :
  nth_error (project block M) col_idx
  = option_map
      (fun col => mkColumn (project_column (column col) M) (type col))
      (nth_error block col_idx).
Proof. unfold project. apply nth_error_map. Qed.

Lemma nth_error_rectangular (col_idx : nat) (col : ColumnWithTypeAndName) :
  nth_error block col_idx = Some col -> column_rectangular n0 col = true.
Proof.
  intros E. rewrite forallb_forall in Hrect. apply Hrect.
  eapply nth_error_In. exact E.
Qed.

Lemma phase1_project (ls : list Z) :
  for_loop 0 (columns block)
    (fun col_idx lengths =>
       col <- vector_at block col_idx ;;
       add_column_lengths (Some M) (length M) col lengths) ls
  = for_loop 0 (columns block)
      (fun col_idx lengths =>
         col <- vector_at (project block M) col_idx ;;
         add_column_lengths None (length M) col lengths) ls.
Proof.
  apply for_loop_ext. intros i s Hi. unfold vector_at.
  rewrite nth_error_project.
  destruct (nth_error block i) as [col|] eqn:E; cbn [option_map bind];
    [ | reflexivity ].
  apply add_column_lengths_project. eapply nth_error_rectangular. exact E.
Qed.

Lemma columns_project : columns (project block M) = columns block.
Proof. unfold columns, project. apply length_map. Qed.

Lemma getDataTypes_project : getDataTypes (project block M) = getDataTypes block.
Proof.
  unfold getDataTypes, project. rewrite map_map. reflexivity.
Qed.

Lemma rows_project :
  columns block <> 0%nat -> rows (project block M) = length M.
Proof.
  intros Hc. destruct block as [|c cols]; [ contradiction | ].
  cbn [project List.map rows column forallb] in *.
  apply andb_prop in Hrect. destruct Hrect as [Rc _].
  unfold column_rectangular in Rc.
  destruct (column c) as [cells|null_map nested];
    cbn [project_column column_size].
  - apply Nat.eqb_eq in Rc. apply length_project_cells.
    rewrite Rc. exact HM.
  - apply andb_prop in Rc. destruct Rc as [L1 _]. apply Nat.eqb_eq in L1.
    apply length_project_cells. rewrite L1. exact HM.
Qed.

Lemma SparkRowInfo_of_Block_project :
  columns block <> 0%nat ->
  SparkRowInfo_of_Block block (Some M)
  = SparkRowInfo_of_Block (project block M) None.
Proof.
  intros Hc. unfold SparkRowInfo_of_Block, SparkRowInfo_ctor.
  rewrite columns_project, getDataTypes_project, (rows_project Hc).
  rewrite phase1_project. reflexivity.
Qed.

Lemma convert_column_project (col_idx : nat) (info : SparkRowInfo) :
  num_rows info = length M ->
  convert_column block (Some M) col_idx info
  = convert_column (project block M) None col_idx info.
Proof.
  intros Hn. unfold convert_column, getByPosition.
  rewrite nth_error_project.
  destruct (nth_error block col_idx) as [col|] eqn:E;
    cbn [option_map bind]; [ | reflexivity ].
  destruct (buffer_address info); cbn [bind type column];
    [ | reflexivity ].
  rewrite Hn, writeValue_project
    by (eapply nth_error_rectangular; exact E).
  reflexivity.
Qed.

(** The conversion under the mask is the conversion of the projected
    block. *)
Lemma convert_project :
  convertCHColumnToSparkRow block (Some M)
  = convertCHColumnToSparkRow (project block M) None.
Proof.
  unfold convertCHColumnToSparkRow. rewrite columns_project.
  destruct (Nat.eqb_spec (columns block) 0) as [E|Ne]; [ reflexivity | ].
  rewrite <- (SparkRowInfo_of_Block_project Ne).
  destruct (SparkRowInfo_of_Block block (Some M)) as [info0|e] eqn:E0;
    cbn [bind]; [ | reflexivity ].
  unfold SparkRowInfo_of_Block in E0. apply SparkRowInfo_ctor_inv in E0.
  cbv zeta in E0. destruct E0 as (_ & Hn & _).
  unfold convert_columns.
  apply (for_loop_ext_inv (fun _ s => num_rows s = length M)).
  - exact Hn.
  - intros i s _ Hs. apply convert_column_project. exact Hs.
  - intros i s s' _ Hs B. apply convert_column_inv in B.
    destruct B as (col & mem & st & _ & _ & _ & ->). exact Hs.
Qed.

End MaskFidelity.

(** The shape of the row set that the conversion returns. *)
Lemma convert_shape (block : Block) (masks : MaskVector)
    (info : SparkRowInfo) :
  convertCHColumnToSparkRow block masks = Ok info ->
  num_rows info = output_rows block masks
  /\ length (offsets info) = num_rows info
  /\ length (lengths info) = num_rows info.
Proof.
  unfold convertCHColumnToSparkRow. intros H.
  destruct (Nat.eqb (columns block) 0); [ discriminate | ].
  bind_inv H as info0 E0.
  unfold SparkRowInfo_of_Block in E0.
  pose proof (SparkRowInfo_ctor_layout _ _ _ _ _ _ E0) as (Lo & Ll & _).
  apply SparkRowInfo_ctor_inv in E0.
  destruct E0 as (_ & Hn & Hc & _ & _ & _ & Hl & _).
  apply (phase1_columns masks _ block []) in Hl. destruct Hl as [_ F].
  cbv zeta in H. unfold setBufferAddress in H. cbn [num_cols] in H.
  rewrite Hc, Nat2Z.id in H.
  apply (phase2_columns masks block []) in H.
  - cbn [num_rows lengths offsets] in H.
    destruct H as (_ & Hl' & Ho' & Hn' & _).
    rewrite Hl', Ho', Hn'. repeat split; assumption.
  - cbn [num_rows]. rewrite Hn. exact F.
Qed.

Import WhichDataType.
Import BackingDataLengthCalculator.

(** * Further properties of the code *)

(** ** Word arithmetic *)

(** X1. On an [int64_t] that is at most [INT64_MAX - 7], where the
    addition does not overflow, [roundNumberOfBytesToNearestWord] returns
    the least multiple of 8 that is not below its argument: the result is
    again an [int64_t], it adds fewer than 8 bytes, it is a multiple of 8,
    and a multiple of 8 is returned as it is. *)
Theorem roundNumberOfBytesToNearestWord_least_multiple (num_bytes : Z) :
  - 2 ^ 63 <= num_bytes <= 2 ^ 63 - 1 - 7 ->
  to_int64 (roundNumberOfBytesToNearestWord num_bytes)
  = roundNumberOfBytesToNearestWord num_bytes
  /\ num_bytes <= roundNumberOfBytesToNearestWord num_bytes < num_bytes + 8
  /\ roundNumberOfBytesToNearestWord num_bytes mod 8 = 0
  /\ (num_bytes mod 8 = 0 ->
      roundNumberOfBytesToNearestWord num_bytes = num_bytes)
  /\ roundNumberOfBytesToNearestWord
       (roundNumberOfBytesToNearestWord num_bytes)
     = roundNumberOfBytesToNearestWord num_bytes.
Proof.
  intros Range.
  assert (M : forall n, roundNumberOfBytesToNearestWord n mod 8 = 0).
  { intros n. rewrite roundNumberOfBytesToNearestWord_spec.
    pose proof (Z.mod_pos_bound n 8 ltac:(lia)) as Hn.
    destruct (Z.eq_dec (n mod 8) 0) as [E|Ne].
    - rewrite E. change ((8 - 0) mod 8) with 0. rewrite Z.add_0_r. exact E.
    - rewrite (Z.mod_small (8 - n mod 8) 8) by lia.
      replace (n + (8 - n mod 8)) with (8 + (n - n mod 8)) by lia.
      rewrite (Z.div_mod n 8) at 1 by lia.
      replace (8 + (8 * (n / 8) + n mod 8 - n mod 8))
        with ((1 + n / 8) * 8) by lia.
      apply Z.mod_mul. lia. }
  assert (F : forall n, n mod 8 = 0 -> roundNumberOfBytesToNearestWord n = n).
  { intros n E. rewrite roundNumberOfBytesToNearestWord_spec, E.
    change ((8 - 0) mod 8) with 0. lia. }
  pose proof (roundNumberOfBytesToNearestWord_bounds num_bytes) as B.
  split; [ apply to_int64_small; lia | ].
  split; [ exact B | ].
  split; [ apply M | ]. split; [ apply F | ]. apply F, M.
Qed.

Lemma roundNumberOfBytesToNearestWord_least_multiple_witness :
  to_int64 (roundNumberOfBytesToNearestWord 13)
  = roundNumberOfBytesToNearestWord 13
  /\ 13 <= roundNumberOfBytesToNearestWord 13 < 13 + 8
  /\ roundNumberOfBytesToNearestWord 13 mod 8 = 0
  /\ (13 mod 8 = 0 -> roundNumberOfBytesToNearestWord 13 = 13)
  /\ roundNumberOfBytesToNearestWord (roundNumberOfBytesToNearestWord 13)
     = roundNumberOfBytesToNearestWord 13.
Proof.
  apply (roundNumberOfBytesToNearestWord_least_multiple 13). lia.
Defined.

Lemma calculateBitSetWidthInBytes_mod_8 (n : Z) :
  calculateBitSetWidthInBytes n mod 8 = 0.
Proof. unfold calculateBitSetWidthInBytes. apply Z.mod_mul. lia. Qed.

(** X2. For a number of fields from 0 to [INT64_MAX - 63], where the
    addition does not overflow, [calculateBitSetWidthInBytes] is the size
    of the fewest 64-bit words that hold one bit per field: an [int64_t],
    a multiple of 8 bytes with at least [num_fields] bits and fewer than 64
    bits to spare, in which the word of every field index lies. *)
Theorem calculateBitSetWidthInBytes_covers (num_fields : Z) :
  0 <= num_fields <= 2 ^ 63 - 1 - 63 ->
  to_int64 (calculateBitSetWidthInBytes num_fields)
  = calculateBitSetWidthInBytes num_fields
  /\ calculateBitSetWidthInBytes num_fields mod 8 = 0
  /\ num_fields <= 8 * calculateBitSetWidthInBytes num_fields
     < num_fields + 64
  /\ (forall index,
        0 <= index < num_fields ->
        0 <= Z.shiftr index 6 * 8
        /\ Z.shiftr index 6 * 8 + 8
           <= calculateBitSetWidthInBytes num_fields).
Proof.
  intros H.
  assert (B : num_fields <= 8 * calculateBitSetWidthInBytes num_fields
              < num_fields + 64).
  { rewrite calculateBitSetWidthInBytes_spec by lia.
    pose proof (Z.div_mod (num_fields + 63) 64 ltac:(lia)).
    pose proof (Z.mod_pos_bound (num_fields + 63) 64 ltac:(lia)). lia. }
  split; [ apply to_int64_small; lia | ].
  split; [ apply calculateBitSetWidthInBytes_mod_8 | ].
  split; [ exact B | ].
  intros index Hi. apply bit_word_in_bitmap. exact Hi.
Qed.

Lemma calculateBitSetWidthInBytes_covers_witness :
  to_int64 (calculateBitSetWidthInBytes 65) = calculateBitSetWidthInBytes 65
  /\ calculateBitSetWidthInBytes 65 mod 8 = 0
  /\ 65 <= 8 * calculateBitSetWidthInBytes 65 < 65 + 64
  /\ (forall index,
        0 <= index < 65 ->
        0 <= Z.shiftr index 6 * 8
        /\ Z.shiftr index 6 * 8 + 8 <= calculateBitSetWidthInBytes 65).
Proof. apply (calculateBitSetWidthInBytes_covers 65). lia. Defined.

(** ** Decimal128 *)

(** X3. On a buffer of 16 bytes [swapDecimalEndianBytes] reverses the order
    of the bytes (little-endian to big-endian), and swapping twice gives
    the buffer back. *)
Theorem swapDecimalEndianBytes_reverses (buf : list byte) :
  length buf = 16%nat ->
  swapDecimalEndianBytes buf = Ok (rev buf)
  /\ (forall buf',
        swapDecimalEndianBytes buf = Ok buf' ->
        swapDecimalEndianBytes buf' = Ok buf).
Proof.
  intros L.
  assert (R : forall b, length b = 16%nat ->
                        swapDecimalEndianBytes b = Ok (rev b)).
  { intros b Lb. unfold swapDecimalEndianBytes. rewrite Lb. cbn [Nat.eqb].
    rewrite <- rev_app_distr, firstn_skipn. reflexivity. }
  split; [ apply R, L | ].
  intros buf' H. rewrite (R buf L) in H. inv_Ok H.
  rewrite R by (rewrite length_rev; exact L).
  rewrite rev_involutive. reflexivity.
Qed.

Lemma swapDecimalEndianBytes_reverses_witness :
  swapDecimalEndianBytes (le_bytes 16 1) = Ok (rev (le_bytes 16 1))
  /\ (forall buf',
        swapDecimalEndianBytes (le_bytes 16 1) = Ok buf' ->
        swapDecimalEndianBytes buf' = Ok (le_bytes 16 1)).
Proof. apply (swapDecimalEndianBytes_reverses (le_bytes 16 1)). reflexivity. Defined.

(** ** The two classes of types *)

(** X4. No type is of fixed and of variable length at once; a nullable or
    low-cardinality wrapper is of neither class until it is stripped; and
    the variable-length types copied as raw bytes are the strings and
    Decimal128, of which Decimal128 alone is byte-swapped. *)
Theorem type_classes_exclusive (t : DataType) :
  (isFixedLengthDataType t = true -> isVariableLengthDataType t = false)
  /\ isFixedLengthDataType (DataTypeNullable t) = false
  /\ isVariableLengthDataType (DataTypeNullable t) = false
  /\ isFixedLengthDataType (DataTypeLowCardinality t) = false
  /\ isVariableLengthDataType (DataTypeLowCardinality t) = false
  /\ (isVariableLengthDataType t && isDataTypeSupportRawData t
      = isStringOrFixedString t || isDecimal128 t)
  /\ (isBigEndianInSparkRow t = true ->
      isVariableLengthDataType t = true
      /\ isDataTypeSupportRawData t = true
      /\ isStringOrFixedString t = false).
Proof.
  split; [ apply fixed_not_variable | ].
  repeat (split; [ reflexivity | ]).
  split; [ destruct t; reflexivity | ].
  destruct t; try discriminate. repeat split.
Qed.

(** ** The fixed-length writer *)

Lemma same_outside_refl (mem : list byte) (lo hi : Z) :
  same_outside mem mem lo hi.
Proof. split; reflexivity. Qed.

Lemma same_outside_trans (m1 m2 m3 : list byte) (lo1 hi1 lo2 hi2 lo hi : Z) :
  same_outside m1 m2 lo1 hi1 -> same_outside m2 m3 lo2 hi2 ->
  (lo1 < hi1 -> lo <= lo1 /\ hi1 <= hi) ->
  (lo2 < hi2 -> lo <= lo2 /\ hi2 <= hi) ->
  same_outside m1 m3 lo hi.
Proof.
  intros [L1 H1] [L2 H2] B1 B2. split; [ congruence | ].
  intros k Hk. rewrite H2, H1 by lia. reflexivity.
Qed.

Lemma same_outside_weaken (m1 m2 : list byte) (lo1 hi1 lo hi : Z) :
  same_outside m1 m2 lo1 hi1 ->
  (lo1 < hi1 -> lo <= lo1 /\ hi1 <= hi) ->
  same_outside m1 m2 lo hi.
Proof.
  intros [L1 H1] B1. split; [ exact L1 | ].
  intros k Hk. apply H1. lia.
Qed.

Lemma memcpy_same_outside (mem : list byte) (dst : Z) (src mem' : list byte) :
  memcpy mem dst src = Ok mem' ->
  same_outside mem mem' dst (dst + Z.of_nat (length src)).
Proof.
  intros H. split; [ eapply memcpy_length; exact H | ].
  intros k Hk. eapply memcpy_nth_error_outside; eassumption.
Qed.

Lemma bitSet_same_outside (mem mem' : list byte) (bitmap index : Z) :
  bitSet mem bitmap index = Ok mem' ->
  same_outside mem mem' (bitmap + Z.shiftr index 6 * 8)
    (bitmap + Z.shiftr index 6 * 8 + 8).
Proof.
  unfold bitSet. intros H. bind_inv H as bs Eb.
  apply memcpy_same_outside in H. rewrite length_le_bytes in H. exact H.
Qed.

(** The bytes that the fixed-length writer leaves alone. *)
Lemma FixedLengthDataWriter_write_same_outside (t : DataType) (f : Field)
    (mem mem' : list byte) (buffer : Z) :
  FixedLengthDataWriter.write t f mem buffer = Ok mem' ->
  same_outside mem mem' buffer (buffer + getArrayElementSize t)
  /\ (isNull f = true -> mem' = mem)
  /\ (isNull f = false ->
      0 <= buffer
      /\ buffer + getArrayElementSize t <= Z.of_nat (length mem)).
Proof.
  intros H. unfold FixedLengthDataWriter.write in H.
  destruct (isNull f) eqn:N.
  { inv_Ok H. split; [ apply same_outside_refl | ].
    split; [ reflexivity | discriminate ]. }
  destruct t; cbn [isUInt8 isUInt16 isUInt32 isUInt64 isInt8 isInt16 isInt32
                   isInt64 isFloat32 isFloat64 isDate isDate32 isDateTime64
                   isDecimal32 isDecimal64 orb] in H;
    try discriminate H;
    bind_inv H as value Ev;
    (split;
     [ apply memcpy_same_outside in H; rewrite length_le_bytes in H; exact H
     | split;
       [ discriminate
       | intros _; apply memcpy_inv in H; rewrite length_le_bytes in H;
         destruct H as (Hlo & Hhi & _); split; [ exact Hlo | exact Hhi ] ] ]).
Qed.

(** X5. [FixedLengthDataWriter::write] keeps the size of the memory, writes
    nothing for [NULL], and for another field stays inside the
    [getArrayElementSize] bytes at [buffer]: every byte before or after them
    is left as it was.  So elements written at this stride do not overlap. *)
Theorem FixedLengthDataWriter_write_stays_in_slot (t : DataType) (f : Field)
    (mem mem' : list byte) (buffer : Z) :
  FixedLengthDataWriter.write t f mem buffer = Ok mem' ->
  length mem' = length mem
  /\ (isNull f = true -> mem' = mem)
  /\ (isNull f = false ->
      0 <= buffer
      /\ buffer + getArrayElementSize t <= Z.of_nat (length mem))
  /\ (forall k : nat,
        Z.of_nat k < buffer \/ buffer + getArrayElementSize t <= Z.of_nat k ->
        nth_error mem' k = nth_error mem k).
Proof.
  intros H. apply FixedLengthDataWriter_write_same_outside in H.
  destruct H as ([L F] & N & B). auto.
Qed.

Lemma FixedLengthDataWriter_write_stays_in_slot_witness :
  let mem := repeat x00 16 in
  let mem' := repeat x00 8 ++ [xfe; xff; xff; xff] ++ repeat x00 4 in
  length mem' = length mem
  /\ (isNull (FInt64 (-2)) = true -> mem' = mem)
  /\ (isNull (FInt64 (-2)) = false ->
      0 <= 8
      /\ 8 + getArrayElementSize DataTypeInt32 <= Z.of_nat (length mem))
  /\ (forall k : nat,
        Z.of_nat k < 8 \/ 8 + getArrayElementSize DataTypeInt32 <= Z.of_nat k ->
        nth_error mem' k = nth_error mem k).
Proof.
  intros mem mem'.
  apply (FixedLengthDataWriter_write_stays_in_slot DataTypeInt32
           (FInt64 (-2)) mem mem' 8).
  reflexivity.
Defined.

(** ** Descriptors and unaligned bytes *)

Lemma to_int64_shiftl_32_low (offset : Z) :
  to_int64 (Z.shiftl offset 32) mod 2 ^ 32 = 0.
Proof.
  unfold to_int64, signed_cast. rewrite Z.shiftl_mul_pow2 by lia.
  change (64 - 1) with 63.
  pose proof (Z.div_mod (offset * 2 ^ 32 + 2 ^ 63) (2 ^ 64) ltac:(lia)) as E.
  replace ((offset * 2 ^ 32 + 2 ^ 63) mod 2 ^ 64 - 2 ^ 63)
    with ((offset - 2 ^ 32 * ((offset * 2 ^ 32 + 2 ^ 63) / 2 ^ 64))
          * 2 ^ 32).
  - apply Z.mod_mul. lia.
  - change (2 ^ 64) with (2 ^ 32 * 2 ^ 32) in *. lia.
Qed.

(** The size field of a descriptor, whatever the offset. *)
Lemma extractSize_getOffsetAndSize (offset size : Z) :
  0 <= size < 2 ^ 32 -> extractSize (getOffsetAndSize offset size) = size.
Proof.
  intros Hs. unfold extractSize, getOffsetAndSize.
  change 4294967295 with (Z.ones 32).
  rewrite Z.land_lor_distr_l, !Z.land_ones by lia.
  rewrite to_int64_shiftl_32_low, Z.mod_small by lia. reflexivity.
Qed.

Lemma extractOffset_getOffsetAndSize (offset size : Z) :
  0 <= offset < 2 ^ 31 -> 0 <= size < 2 ^ 32 ->
  extractOffset (getOffsetAndSize offset size) = offset.
Proof.
  intros Ho Hs. rewrite getOffsetAndSize_small by assumption.
  unfold extractOffset.
  rewrite Z.shiftr_lor, !Z.shiftr_div_pow2 by lia.
  rewrite Z.div_mul by lia.
  rewrite (Z.div_small size) by lia. apply Z.lor_0_r.
Qed.

Lemma writeUnalignedBytes_inv (offsets : list Z) (r : nat)
    (src : list byte) (p : Z) (st st' : RowBuffer) (d : Z) :
  VariableLengthDataWriter.writeUnalignedBytes offsets r src p st
  = Ok (st', d) ->
  exists offset c mem,
    vector_at offsets r = Ok offset
    /\ vector_at (cursor st) r = Ok c
    /\ memcpy (memory st) (offset + c) src = Ok mem
    /\ memory st' = mem
    /\ cursor st'
       = cursor_add (cursor st) r
           (roundNumberOfBytesToNearestWord (Z.of_nat (length src)))
    /\ d = getOffsetAndSize (c - p) (Z.of_nat (length src)).
Proof.
  unfold VariableLengthDataWriter.writeUnalignedBytes. intros H.
  bind_inv H as offset Eo. bind_inv H as c Ec. bind_inv H as mem Em.
  bind_inv H as st1 Ea. inv_Ok H.
  apply advance_inv in Ea. cbn [set_memory memory cursor] in Ea.
  destruct Ea as [M C]. exists offset, c, mem. auto 10.
Qed.

(** X6. [writeUnalignedBytes] round-trips: the bytes can be read back
    where the cursor of the row stood, the descriptor carries that position
    (relative to [parent_offset]) and the exact size, both recovered by
    [extractOffset] and [extractSize] while they fit their fields; the
    cursor moves by the size rounded up to a word, and no byte outside the
    copied range changes (the padding is left as it was). *)
Theorem writeUnalignedBytes_roundtrip (offsets : list Z) (row_idx : nat)
    (src : list byte) (parent_offset : Z) (st st' : RowBuffer) (d : Z) :
  VariableLengthDataWriter.writeUnalignedBytes offsets row_idx src
    parent_offset st = Ok (st', d) ->
  exists offset c,
    vector_at offsets row_idx = Ok offset
    /\ vector_at (cursor st) row_idx = Ok c
    /\ load (memory st') (offset + c) (length src) = Ok src
    /\ vector_at (cursor st') row_idx
       = Ok (c + roundNumberOfBytesToNearestWord (Z.of_nat (length src)))
    /\ (forall j, j <> row_idx ->
          nth_error (cursor st') j = nth_error (cursor st) j)
    /\ (forall k : nat,
          Z.of_nat k < offset + c
          \/ offset + c + Z.of_nat (length src) <= Z.of_nat k ->
          nth_error (memory st') k = nth_error (memory st) k)
    /\ (Z.of_nat (length src) < 2 ^ 32 ->
        extractSize d = Z.of_nat (length src)
        /\ (0 <= c - parent_offset < 2 ^ 31 ->
            extractOffset d = c - parent_offset)).
Proof.
  intros H. apply writeUnalignedBytes_inv in H.
  destruct H as (offset & c & mem & Eo & Ec & Em & M & C & ->).
  exists offset, c. rewrite M, C.
  split; [ exact Eo | ]. split; [ exact Ec | ].
  split; [ eapply load_memcpy_same; exact Em | ].
  split.
  { apply vector_at_Ok, nth_error_cursor_add_eq, vector_at_Ok, Ec. }
  split.
  { intros j Hj. apply nth_error_cursor_add_ne. congruence. }
  split.
  { intros k Hk. eapply memcpy_nth_error_outside; eassumption. }
  intros Hs. split.
  - apply extractSize_getOffsetAndSize. lia.
  - intros Ho. apply extractOffset_getOffsetAndSize; lia.
Qed.

Lemma writeUnalignedBytes_roundtrip_witness :
  let st := mkRowBuffer (repeat x00 24) [16] in
  let st' :=
    mkRowBuffer (repeat x00 16 ++ [x68; x69] ++ repeat x00 6) [24] in
  let d := 68719476738 in
  exists offset c,
    vector_at [0] 0 = Ok offset
    /\ vector_at (cursor st) 0 = Ok c
    /\ load (memory st') (offset + c) (length [x68; x69]) = Ok [x68; x69]
    /\ vector_at (cursor st') 0
       = Ok (c + roundNumberOfBytesToNearestWord
                   (Z.of_nat (length [x68; x69])))
    /\ (forall j, j <> 0%nat ->
          nth_error (cursor st') j = nth_error (cursor st) j)
    /\ (forall k : nat,
          Z.of_nat k < offset + c
          \/ offset + c + Z.of_nat (length [x68; x69]) <= Z.of_nat k ->
          nth_error (memory st') k = nth_error (memory st) k)
    /\ (Z.of_nat (length [x68; x69]) < 2 ^ 32 ->
        extractSize d = Z.of_nat (length [x68; x69])
        /\ (0 <= c - 0 < 2 ^ 31 -> extractOffset d = c - 0)).
Proof.
  intros st st' d.
  apply (writeUnalignedBytes_roundtrip [0] 0%nat [x68; x69] 0 st st' d).
  reflexivity.
Defined.

(** X7. A non-null Decimal128 is written by [VariableLengthDataWriter::write]
    as 16 bytes, most significant first, at the cursor of the row; the
    cursor moves by 16 and the descriptor carries the size 16. *)
Theorem write_Decimal128_big_endian (offsets : list Z) (row_idx : nat)
    (v parent_offset : Z) (st st' : RowBuffer) (d : Z) :
  VariableLengthDataWriter.write DataTypeDecimal128 offsets row_idx
    (FDecimal128 v) parent_offset st = Ok (st', d) ->
  exists offset c,
    vector_at offsets row_idx = Ok offset
    /\ vector_at (cursor st) row_idx = Ok c
    /\ load (memory st') (offset + c) 16 = Ok (rev (le_bytes 16 v))
    /\ vector_at (cursor st') row_idx = Ok (c + 16)
    /\ extractSize d = 16.
Proof.
  intros H. cbn [VariableLengthDataWriter.write isNull isStringOrFixedString
                 isDecimal128 safeGet_Decimal128 bind] in H.
  unfold swapDecimalEndianBytes in H. rewrite length_le_bytes in H.
  cbn [Nat.eqb bind] in H.
  rewrite <- rev_app_distr, firstn_skipn in H.
  apply writeUnalignedBytes_inv in H.
  destruct H as (offset & c & mem & Eo & Ec & Em & M & C & ->).
  rewrite length_rev, length_le_bytes in *.
  exists offset, c. rewrite M, C.
  split; [ exact Eo | ]. split; [ exact Ec | ].
  split.
  { apply load_memcpy_same in Em.
    rewrite length_rev, length_le_bytes in Em. exact Em. }
  split.
  { apply vector_at_Ok.
    change (roundNumberOfBytesToNearestWord (Z.of_nat 16)) with 16.
    apply nth_error_cursor_add_eq, vector_at_Ok, Ec. }
  apply extractSize_getOffsetAndSize. change (Z.of_nat 16) with 16. lia.
Qed.

Lemma write_Decimal128_big_endian_witness :
  let st := mkRowBuffer (repeat x00 32) [16] in
  let st' := mkRowBuffer (repeat x00 30 ++ [x01; x02]) [32] in
  exists offset c,
    vector_at [0] 0 = Ok offset
    /\ vector_at (cursor st) 0 = Ok c
    /\ load (memory st') (offset + c) 16 = Ok (rev (le_bytes 16 258))
    /\ vector_at (cursor st') 0 = Ok (c + 16)
    /\ extractSize 68719476752 = 16.
Proof.
  intros st st'.
  apply (write_Decimal128_big_endian [0] 0%nat 258 0 st st' 68719476752).
  reflexivity.
Defined.

Import WhichDataType.
Import BackingDataLengthCalculator.

(** ** Word alignment *)

Lemma roundNumberOfBytesToNearestWord_divide (n : Z) :
  (8 | roundNumberOfBytesToNearestWord n).
Proof.
  apply Z.mod_divide; [ lia | ].
  rewrite roundNumberOfBytesToNearestWord_spec.
  pose proof (Z.mod_pos_bound n 8 ltac:(lia)) as Hn.
  destruct (Z.eq_dec (n mod 8) 0) as [E|Ne].
  - rewrite E. change ((8 - 0) mod 8) with 0. rewrite Z.add_0_r. exact E.
  - rewrite (Z.mod_small (8 - n mod 8) 8) by lia.
    rewrite (Z.div_mod n 8) at 1 by lia.
    replace (8 * (n / 8) + n mod 8 + (8 - n mod 8))
      with ((1 + n / 8) * 8) by lia.
    apply Z.mod_mul. lia.
Qed.

Lemma calculateBitSetWidthInBytes_divide (n : Z) :
  (8 | calculateBitSetWidthInBytes n).
Proof. unfold calculateBitSetWidthInBytes. apply Z.divide_factor_r. Qed.

Lemma for_each_sum_divide {A : Type} (calc : nat -> A -> Result Z)
    (l : list A) (i : nat) (acc total : Z) :
  (forall j a n, calc j a = Ok n -> (8 | n)) ->
  for_each i l (fun j a res => n <- calc j a ;; Ok (res + n)) acc = Ok total ->
  (8 | acc) -> (8 | total).
Proof.
  intros Hc. revert i acc. induction l as [|a l IH]; intros i acc H D;
    cbn [for_each] in H.
  - inv_Ok H. exact D.
  - bind_inv H as s1 B. bind_inv B as n En. inv_Ok B.
    eapply IH; [ exact H | ].
    apply Z.divide_add_r; [ exact D | eapply Hc; exact En ].
Qed.

Lemma calculateArray_divide (nested_type : DataType)
    (calculator : Field -> Result Z) (array : Array) (n : Z) :
  (forall f m, calculator f = Ok m -> (8 | m)) ->
  calculateArray nested_type calculator array = Ok n -> (8 | n).
Proof.
  intros Hc H. unfold calculateArray in H. bind_inv H as twn Et.
  apply (for_each_sum_divide (fun _ => calculator)) in H; [ exact H | eauto | ].
  apply Z.divide_add_r; [ apply Z.divide_add_r | ].
  - exists 1. reflexivity.
  - apply calculateBitSetWidthInBytes_divide.
  - apply roundNumberOfBytesToNearestWord_divide.
Qed.

Lemma calculateTuple_loop_divide
    (type_fields : list (DataType * (Field -> Result Z))) (tuple : Tuple)
    (i : nat) (acc total : Z) :
  Forall (fun p => forall f m, snd p f = Ok m -> (8 | m)) type_fields ->
  for_each i type_fields
    (fun i '(field_type, calculator) res =>
       _ <- ctor field_type ;;
       field_value <- vector_at tuple i ;;
       n <- calculator field_value ;;
       Ok (res + n)) acc = Ok total ->
  (8 | acc) -> (8 | total).
Proof.
  intros F. revert i acc.
  induction F as [|[ft calc] l Hc F IH]; intros i acc H D;
    cbn [for_each] in H.
  - inv_Ok H. exact D.
  - bind_inv H as s1 B. bind_inv B as twn Et. bind_inv B as fv Ev.
    bind_inv B as n En. inv_Ok B.
    eapply IH; [ exact H | ].
    apply Z.divide_add_r; [ exact D | eapply Hc; exact En ].
Qed.

Lemma calculate_divide (t : DataType) :
  forall (f : Field) (n : Z), calculate t f = Ok n -> (8 | n).
Proof.
  induction t as [n IHn | k v IHk IHv | ts IHts | t Ha Ht Hm]
    using DataType_removeNullable_ind; intros f m H.
  - destruct (isNull f) eqn:N.
    { rewrite calculate_isNull in H by assumption. inv_Ok H.
      apply Z.divide_0_r. }
    rewrite calculate_Array in H by assumption. bind_inv H as a Ea.
    eapply calculateArray_divide; eassumption.
  - destruct (isNull f) eqn:N.
    { rewrite calculate_isNull in H by assumption. inv_Ok H.
      apply Z.divide_0_r. }
    rewrite calculate_Map in H by assumption. bind_inv H as mp Em.
    unfold calculateMap in H. bind_inv H as kv Es. destruct kv as [ks vs].
    bind_inv H as nk Ek. bind_inv H as nv Ev. inv_Ok H.
    apply calculateArray_divide in Ek; [ | assumption ].
    apply calculateArray_divide in Ev; [ | assumption ].
    apply Z.divide_add_r; [ apply Z.divide_add_r | ]; try assumption.
    exists 1. reflexivity.
  - destruct (isNull f) eqn:N.
    { rewrite calculate_isNull in H by assumption. inv_Ok H.
      apply Z.divide_0_r. }
    rewrite calculate_Tuple in H by assumption. bind_inv H as tp Et.
    unfold calculateTuple in H.
    apply calculateTuple_loop_divide in H; [ exact H | | ].
    + apply Forall_map. eapply Forall_impl; [ | eassumption ].
      cbn [snd]. auto.
    + apply Z.divide_add_r.
      * apply calculateBitSetWidthInBytes_divide.
      * apply Z.divide_factor_l.
  - rewrite calculate_leaf in H by assumption.
    repeat match type of H with
           | (if ?b then _ else _) = _ => destruct b
           end; try (inv_Ok H; apply Z.divide_0_r); try discriminate.
    + bind_inv H as s Es. inv_Ok H.
      apply roundNumberOfBytesToNearestWord_divide.
    + inv_Ok H. exists 2. reflexivity.
Qed.

(** X8. Every length that [BackingDataLengthCalculator::calculate] returns
    is a whole number of 8-byte words. *)
Theorem calculate_multiple_of_8 (t : DataType) (f : Field) (n : Z) :
  calculate t f = Ok n -> n mod 8 = 0.
Proof.
  intros H. apply Z.mod_divide; [ lia | ].
  eapply calculate_divide. exact H.
Qed.

Lemma calculate_multiple_of_8_witness :
  calculate (DataTypeArray DataTypeString)
    (FArray [FString [x68; x69]; FNull; FString []]) = Ok 48
  /\ 48 mod 8 = 0.
Proof.
  split; [ reflexivity | ].
  apply (calculate_multiple_of_8 (DataTypeArray DataTypeString)
           (FArray [FString [x68; x69]; FNull; FString []]) 48).
  reflexivity.
Defined.

Lemma backing_size_divide (masks : MaskVector) (col : ColumnWithTypeAndName)
    (i : nat) (v : Z) :
  backing_size masks col i = Ok v -> (8 | v).
Proof.
  unfold backing_size. intros H.
  destruct (isVariableLengthDataType _); [ | inv_Ok H; apply Z.divide_0_r ].
  destruct (isDataTypeSupportRawData _).
  - destruct (column col) as [cells|null_map nested].
    + bind_inv H as r Er. bind_inv H as str Es. inv_Ok H.
      apply roundNumberOfBytesToNearestWord_divide.
    + bind_inv H as r Er. bind_inv H as is_null En.
      destruct (negb is_null); [ | inv_Ok H; apply Z.divide_0_r ].
      bind_inv H as str Es. inv_Ok H.
      apply roundNumberOfBytesToNearestWord_divide.
  - bind_inv H as r Er. bind_inv H as field Ef.
    eapply calculate_divide. exact H.
Qed.

Lemma row_backing_divide (masks : MaskVector)
    (cols : list ColumnWithTypeAndName) (i : nat) :
  (8 | row_backing masks cols i).
Proof.
  unfold row_backing. induction cols as [|c cols IH];
    cbn [List.map sum_Z fold_right].
  - apply Z.divide_0_r.
  - apply Z.divide_add_r; [ | exact IH ].
    unfold column_sizes.
    destruct (backing_size masks c i) as [v|e] eqn:E; cbn [value_or_zero];
      [ eapply backing_size_divide; exact E | apply Z.divide_0_r ].
Qed.

Lemma calculatedFixeSizePerRow_divide (n : Z) :
  (8 | calculatedFixeSizePerRow n).
Proof.
  unfold calculatedFixeSizePerRow. apply Z.divide_add_r.
  - apply calculateBitSetWidthInBytes_divide.
  - apply Z.divide_factor_r.
Qed.

Lemma sum_Z_divide (v : list Z) :
  Forall (fun l => (8 | l)) v -> (8 | sum_Z v).
Proof.
  induction 1 as [|x v Hx _ IH]; cbn [sum_Z fold_right].
  - apply Z.divide_0_r.
  - apply Z.divide_add_r; assumption.
Qed.

(** The lengths that phase 1 leaves: the fixed part and the backing data
    of every column. *)
Lemma lengths_after_phase1 (block : Block) (masks : MaskVector)
    (info : SparkRowInfo) :
  SparkRowInfo_of_Block block masks = Ok info ->
  forall i, (i < num_rows info)%nat ->
    nth_error (lengths info) i
    = Some (calculatedFixeSizePerRow (num_cols info)
            + row_backing masks block i).
Proof.
  unfold SparkRowInfo_of_Block. intros H i Hi.
  apply SparkRowInfo_ctor_inv in H.
  destruct H as (_ & Hn & Hc & _ & _ & _ & Hl & _).
  apply (phase1_columns masks _ block []) in Hl. destruct Hl as [Hl _].
  rewrite <- Hn, <- Hc in Hl. rewrite Hl.
  apply nth_error_add_columns; [ exact Hi | ].
  apply nth_error_repeat. exact Hi.
Qed.

Lemma Forall_nth_error_intro {A : Type} (P : A -> Prop) (v : list A) :
  (forall i a, nth_error v i = Some a -> P a) -> Forall P v.
Proof.
  intros H. apply Forall_forall. intros a Hin.
  apply In_nth_error in Hin. destruct Hin as [i E]. eapply H. exact E.
Qed.

Lemma nth_error_Some_lt {A : Type} (v : list A) (i : nat) (a : A) :
  nth_error v i = Some a -> (i < length v)%nat.
Proof. intros E. apply nth_error_Some. congruence. Qed.

(** X9. After phase 1 every row is word-aligned: the length and the offset
    of every row, and the size of the buffer, are multiples of 8. *)
Theorem rows_word_aligned (block : Block) (masks : MaskVector)
    (info : SparkRowInfo) :
  SparkRowInfo_of_Block block masks = Ok info ->
  Forall (fun l => l mod 8 = 0) (lengths info)
  /\ Forall (fun o => o mod 8 = 0) (offsets info)
  /\ total_bytes info mod 8 = 0.
Proof.
  intros H.
  pose proof (lengths_after_phase1 _ _ _ H) as Hl.
  unfold SparkRowInfo_of_Block in H.
  pose proof (SparkRowInfo_ctor_layout _ _ _ _ _ _ H)
    as (Lo & Ll & Ho & Ht & _).
  assert (D : Forall (fun l => (8 | l)) (lengths info)).
  { apply Forall_nth_error_intro. intros i l E.
    rewrite Hl in E by (apply nth_error_Some_lt in E; lia).
    inversion E; subst l. apply Z.divide_add_r.
    - apply calculatedFixeSizePerRow_divide.
    - apply row_backing_divide. }
  split; [ | split ].
  - eapply Forall_impl; [ | exact D ]. cbn beta. intros l Hd.
    apply Z.mod_divide; [ lia | exact Hd ].
  - apply Forall_nth_error_intro. intros i o E.
    rewrite Ho in E by (apply nth_error_Some_lt in E; lia).
    inversion E; subst o. apply Z.mod_divide; [ lia | ].
    apply sum_Z_divide, Forall_firstn, D.
  - rewrite Ht. apply Z.mod_divide; [ lia | ]. apply sum_Z_divide, D.
Qed.

Lemma rows_word_aligned_witness :
  let info :=
    mkSparkRowInfo [DataTypeString] 3 1 8 64 [0; 24; 40] [24; 16; 24]
      [16; 16; 16] None in
  Forall (fun l => l mod 8 = 0) (lengths info)
  /\ Forall (fun o => o mod 8 = 0) (offsets info)
  /\ total_bytes info mod 8 = 0.
Proof.
  intros info.
  apply (rows_word_aligned
           [mkColumn
              (ColumnFull [FString [x68; x69]; FString []; FString [x61]])
              DataTypeString] None info).
  reflexivity.
Defined.

(** ** Rows in the buffer *)

Lemma sum_Z_firstn_mono (v : list Z) (i j : nat) :
  Forall (fun l => 0 <= l) v -> (i <= j)%nat ->
  sum_Z (firstn i v) <= sum_Z (firstn j v).
Proof.
  intros F Hij.
  pose proof (f_equal sum_Z (firstn_skipn i (firstn j v))) as E.
  rewrite sum_Z_app, firstn_firstn, Nat.min_l in E by exact Hij.
  assert (0 <= sum_Z (skipn i (firstn j v))); [ | lia ].
  apply sum_Z_nonneg.
  pose proof (Forall_firstn _ v j F) as Fj.
  rewrite <- (firstn_skipn i (firstn j v)) in Fj.
  apply Forall_app in Fj. apply Fj.
Qed.

(** X10. The rows that phase 1 lays out follow one another in the buffer
    without overlap: every row, the last one and the only one included,
    starts at a non-negative offset and ends at or before [total_bytes];
    it ends at or before the start of every later row, exactly at the
    start of the next one, and the last row ends exactly at
    [total_bytes]. *)
Theorem rows_do_not_overlap (block : Block) (masks : MaskVector)
    (info : SparkRowInfo) (i : nat) (oi li : Z) :
  SparkRowInfo_of_Block block masks = Ok info ->
  nth_error (offsets info) i = Some oi ->
  nth_error (lengths info) i = Some li ->
  0 <= oi /\ 0 <= li
  /\ oi + li <= total_bytes info
  /\ (S i = num_rows info -> oi + li = total_bytes info)
  /\ forall j oj,
       nth_error (offsets info) j = Some oj -> (i < j)%nat ->
       oi + li <= oj /\ (j = S i -> oi + li = oj).
Proof.
  intros H Eoi Eli. unfold SparkRowInfo_of_Block in H.
  pose proof (SparkRowInfo_ctor_layout _ _ _ _ _ _ H)
    as (Lo & Ll & Ho & Ht & _).
  pose proof (lengths_nonneg _ _ _ _ _ _ H) as Pl.
  pose proof (nth_error_Some_lt _ _ _ Eoi) as Hi.
  rewrite Ho in Eoi by lia. inversion Eoi; subst oi.
  pose proof (sum_Z_firstn_S _ _ _ Eli) as ES.
  pose proof (sum_Z_firstn_le _ _ _ Pl Eli) as Hle.
  split; [ apply sum_Z_nonneg, Forall_firstn, Pl | ].
  split; [ eapply Forall_nth_error; eassumption | ].
  split; [ lia | ]. split.
  - intros Last. rewrite Ht, <- ES, Last, <- Ll. rewrite firstn_all.
    reflexivity.
  - intros j oj Eoj Hij.
    pose proof (nth_error_Some_lt _ _ _ Eoj) as Hj.
    rewrite Ho in Eoj by lia. inversion Eoj; subst oj.
    pose proof (sum_Z_firstn_mono (lengths info) (S i) j Pl ltac:(lia)).
    split; [ lia | intros ->; lia ].
Qed.

Lemma rows_do_not_overlap_witness :
  let info :=
    mkSparkRowInfo [DataTypeString] 1 1 8 24 [0] [24] [16] None in
  0 <= 0 /\ 0 <= 24
  /\ 0 + 24 <= total_bytes info
  /\ (1%nat = num_rows info -> 0 + 24 = total_bytes info)
  /\ forall j oj,
       nth_error (offsets info) j = Some oj -> (0 < j)%nat ->
       0 + 24 <= oj /\ (j = 1%nat -> 0 + 24 = oj).
Proof.
  intros info.
  apply (rows_do_not_overlap
           [mkColumn (ColumnFull [FString [x68; x69]]) DataTypeString]
           None info 0 0 24);
    reflexivity.
Defined.

Import WhichDataType.
Import BackingDataLengthCalculator.

(** ** Blocks without variable-length columns *)

Lemma firstn_repeat_le {A : Type} (a : A) (i n : nat) :
  (i <= n)%nat -> firstn i (repeat a n) = repeat a i.
Proof.
  revert n. induction i as [|i IH]; intros [|n] H; cbn [firstn repeat];
    try reflexivity; try lia.
  f_equal. apply IH. lia.
Qed.

Lemma sum_Z_repeat (x : Z) (k : nat) : sum_Z (repeat x k) = Z.of_nat k * x.
Proof.
  induction k as [|k IH]; cbn [repeat sum_Z fold_right]; [ lia | ].
  fold (sum_Z (repeat x k)). rewrite IH. lia.
Qed.

Lemma add_column_lengths_not_variable (masks : MaskVector) (n : nat)
    (col : ColumnWithTypeAndName) (ls : list Z) :
  isVariableLengthDataType (removeLowCardinalityAndNullable (type col))
  = false ->
  add_column_lengths masks n col ls = Ok ls.
Proof. intros V. unfold add_column_lengths. rewrite V. reflexivity. Qed.

(** X11. Phase 1 does not look at a column that is not of variable length,
    whatever its cells and even if its type is of neither class: on a block
    without variable-length columns the constructor of [SparkRowInfo]
    always returns, every row has the fixed size, row [i] starts at [i]
    times that size, and the buffer has the size of all rows. *)
Theorem phase1_without_variable_columns (block : Block)
    (masks : MaskVector) :
  forallb
    (fun col =>
       negb (isVariableLengthDataType
               (removeLowCardinalityAndNullable (type col)))) block = true ->
  exists info,
    SparkRowInfo_of_Block block masks = Ok info
    /\ num_rows info = output_rows block masks
    /\ lengths info
       = repeat (calculatedFixeSizePerRow (Z.of_nat (columns block)))
           (num_rows info)
    /\ (forall i, (i < num_rows info)%nat ->
          nth_error (offsets info) i
          = Some (Z.of_nat i
                  * calculatedFixeSizePerRow (Z.of_nat (columns block))))
    /\ total_bytes info
       = Z.of_nat (num_rows info)
         * calculatedFixeSizePerRow (Z.of_nat (columns block)).
Proof.
  intros F. rewrite forallb_forall in F.
  unfold SparkRowInfo_of_Block, SparkRowInfo_ctor.
  fold (output_rows block masks).
  set (n := output_rows block masks).
  set (fixed := calculatedFixeSizePerRow (Z.of_nat (columns block))).
  destruct (for_loop_Ok (fun _ x => x = repeat fixed n)
              (fun col_idx lengths =>
                 col <- vector_at block col_idx ;;
                 add_column_lengths masks n col lengths)
              (columns block) 0 (repeat fixed n) eq_refl)
    as (ls & El & ->).
  { intros i x Hi ->. unfold columns in Hi.
    destruct (nth_error_lt block i ltac:(lia)) as [col E].
    unfold vector_at. rewrite E. cbn [bind].
    rewrite add_column_lengths_not_variable; [ eauto | ].
    apply negb_true_iff, F. eapply nth_error_In. exact E. }
  rewrite El. cbn [bind].
  destruct (offsets_loop_Ok (repeat fixed n) n (repeat_length _ _))
    as [offs Eo].
  destruct (total_bytes_loop_Ok (repeat fixed n) n (repeat_length _ _))
    as [total Et].
  rewrite Eo. cbn [bind]. rewrite Et. cbn [bind].
  eexists. split; [ reflexivity | ].
  cbn [num_rows lengths offsets total_bytes].
  apply offsets_loop in Eo; [ | apply repeat_length ].
  apply total_bytes_loop in Et; [ | apply repeat_length ].
  split; [ reflexivity | ]. split; [ reflexivity | ]. split.
  - intros i Hi. destruct Eo as [_ Eo]. rewrite Eo by exact Hi.
    rewrite firstn_repeat_le, sum_Z_repeat by lia. reflexivity.
  - rewrite Et. apply sum_Z_repeat.
Qed.

Lemma phase1_without_variable_columns_witness :
  let block :=
    [mkColumn (ColumnFull [FInt64 1; FInt64 2; FInt64 3]) DataTypeInt32;
     mkColumn (ColumnFull [FNull; FNull; FNull]) DataTypeUUID] in
  exists info,
    SparkRowInfo_of_Block block None = Ok info
    /\ num_rows info = output_rows block None
    /\ lengths info
       = repeat (calculatedFixeSizePerRow (Z.of_nat (columns block)))
           (num_rows info)
    /\ (forall i, (i < num_rows info)%nat ->
          nth_error (offsets info) i
          = Some (Z.of_nat i
                  * calculatedFixeSizePerRow (Z.of_nat (columns block))))
    /\ total_bytes info
       = Z.of_nat (num_rows info)
         * calculatedFixeSizePerRow (Z.of_nat (columns block)).
Proof.
  intros block.
  apply (phase1_without_variable_columns block None). reflexivity.
Defined.

(** ** The row set that the conversion returns *)

(** The loop over the columns keeps the buffer and its size. *)
Lemma phase2_buffer (masks : MaskVector) :
  forall (suf pre : list ColumnWithTypeAndName) (info info' : SparkRowInfo)
         (mem : list byte),
    all_measured masks (num_rows info) suf ->
    buffer_address info = Some mem ->
    convert_columns (pre ++ suf) masks (length pre) (length suf) info
    = Ok info' ->
    exists mem',
      buffer_address info' = Some mem' /\ length mem' = length mem.
Proof.
  unfold convert_columns.
  induction suf as [|c suf IH]; intros pre info info' mem F Em H;
    cbn [length for_loop] in H.
  - inv_Ok H. eauto.
  - bind_inv H as info1 Ec. apply convert_column_inv in Ec.
    destruct Ec as (col & mem0 & st & Nth & Em0 & Ew & ->).
    rewrite nth_error_app2, Nat.sub_diag in Nth by lia.
    cbn [nth_error] in Nth. inversion Nth; subst col; clear Nth.
    rewrite Em in Em0. inversion Em0; subst mem0; clear Em0.
    inversion F as [|c' suf' Hc F']; subst.
    apply writeValue_agrees in Ew; [ | exact Hc ].
    destruct Ew as [_ Ls]. cbn [memory] in Ls.
    rewrite app_cons_assoc, <- length_snoc with (a := c) in H.
    apply (IH _ _ _ (memory st)) in H; [ | exact F' | reflexivity ].
    destruct H as (mem' & E' & L'). exists mem'.
    split; [ exact E' | congruence ].
Qed.

(** X12. The row set that [convertCHColumnToSparkRow] returns carries the
    types and the number of columns of the block and one row per output
    row (the rows of the block, or the entries of the mask); its three
    vectors have that many entries, its bitmap width is that of its
    columns, and its buffer has exactly [total_bytes] bytes. *)
Theorem conversion_result_shape (block : Block) (masks : MaskVector)
    (info : SparkRowInfo) :
  convertCHColumnToSparkRow block masks = Ok info ->
  columns block <> 0%nat
  /\ types info = getDataTypes block
  /\ num_cols info = Z.of_nat (columns block)
  /\ num_rows info = output_rows block masks
  /\ null_bitset_width_in_bytes info
     = calculateBitSetWidthInBytes (num_cols info)
  /\ length (offsets info) = num_rows info
  /\ length (lengths info) = num_rows info
  /\ length (buffer_cursor info) = num_rows info
  /\ exists mem,
       buffer_address info = Some mem
       /\ Z.of_nat (length mem) = total_bytes info.
Proof.
  intros H. pose proof (convert_cursors_at_lengths _ _ _ H) as Hcur.
  unfold convertCHColumnToSparkRow in H.
  destruct (Nat.eqb_spec (columns block) 0) as [|Ne]; [ discriminate | ].
  split; [ exact Ne | ].
  bind_inv H as info0 E0.
  unfold SparkRowInfo_of_Block in E0.
  pose proof (SparkRowInfo_ctor_layout _ _ _ _ _ _ E0)
    as (Lo & Ll & _ & _ & Pt).
  apply SparkRowInfo_ctor_inv in E0.
  destruct E0 as (Hty & Hn & Hc & Hw & _ & _ & Hl & _).
  apply (phase1_columns masks _ block []) in Hl. destruct Hl as [_ F].
  cbv zeta in H. unfold setBufferAddress in H. cbn [num_cols] in H.
  rewrite Hc, Nat2Z.id in H.
  pose proof H as H2.
  apply (phase2_columns masks block []) in H;
    [ | cbn [num_rows]; rewrite Hn; exact F ].
  cbn [num_rows lengths offsets num_cols total_bytes types
       null_bitset_width_in_bytes buffer_cursor] in H.
  destruct H as (_ & Hl' & Ho' & Hn' & Hc' & Ht' & Hty' & Hw').
  apply (phase2_buffer masks block [] _ _
           (alloc_zeroed (total_bytes info0))) in H2;
    [ | cbn [num_rows]; rewrite Hn; exact F | reflexivity ].
  destruct H2 as (mem' & Em' & Lm').
  rewrite Hcur, Hl', Ho', Hn', Hc', Ht', Hty', Hw'.
  repeat (split; [ first [ assumption | congruence ] | ]).
  exists mem'. split; [ exact Em' | ].
  rewrite Lm'. apply length_alloc_zeroed. exact Pt.
Qed.

Lemma conversion_result_shape_witness :
  let block :=
    [mkColumn (ColumnFull [FString [x68; x69]]) DataTypeString] in
  let info :=
    mkSparkRowInfo [DataTypeString] 1 1 8 24 [0] [24] [24]
      (Some [x00; x00; x00; x00; x00; x00; x00; x00;
             x02; x00; x00; x00; x10; x00; x00; x00;
             x68; x69; x00; x00; x00; x00; x00; x00]) in
  columns block <> 0%nat
  /\ types info = getDataTypes block
  /\ num_cols info = Z.of_nat (columns block)
  /\ num_rows info = output_rows block None
  /\ null_bitset_width_in_bytes info
     = calculateBitSetWidthInBytes (num_cols info)
  /\ length (offsets info) = num_rows info
  /\ length (lengths info) = num_rows info
  /\ length (buffer_cursor info) = num_rows info
  /\ exists mem,
       buffer_address info = Some mem
       /\ Z.of_nat (length mem) = total_bytes info.
Proof.
  intros block info.
  apply (conversion_result_shape block None info). reflexivity.
Defined.

(** X13. In the row set that phase 1 builds, the 8-byte slot of every
    column, of an only column too, lies after the null bitmap and inside
    the fixed part of the row: the first slot starts where the bitmap
    ends, the last slot ends where the fixed part ends, a slot ends at or
    before the start of every later slot, and the bitmap word of the column
    lies inside the bitmap. *)
Theorem field_slots_in_fixed_part (block : Block) (masks : MaskVector)
    (info : SparkRowInfo) (j : Z) :
  SparkRowInfo_of_Block block masks = Ok info ->
  0 <= j < num_cols info ->
  null_bitset_width_in_bytes info <= getFieldOffset info j
  /\ getFieldOffset info j + 8
     <= calculatedFixeSizePerRow (num_cols info)
  /\ getFieldOffset info 0 = null_bitset_width_in_bytes info
  /\ getFieldOffset info (num_cols info - 1) + 8
     = calculatedFixeSizePerRow (num_cols info)
  /\ (forall i, 0 <= i < j ->
        getFieldOffset info i + 8 <= getFieldOffset info j)
  /\ 0 <= Z.shiftr j 6 * 8
  /\ Z.shiftr j 6 * 8 + 8 <= null_bitset_width_in_bytes info.
Proof.
  unfold SparkRowInfo_of_Block. intros H Hj.
  apply SparkRowInfo_ctor_inv in H.
  destruct H as (_ & _ & Hc & Hw & _).
  rewrite <- Hc in Hw.
  unfold getFieldOffset, calculatedFixeSizePerRow. rewrite Hw.
  pose proof (bit_word_in_bitmap j (num_cols info) ltac:(lia)).
  repeat split; try lia.
Qed.

Lemma field_slots_in_fixed_part_witness :
  let info :=
    mkSparkRowInfo [DataTypeInt32] 3 1 8 48 [0; 16; 32] [16; 16; 16]
      [16; 16; 16] None in
  null_bitset_width_in_bytes info <= getFieldOffset info 0
  /\ getFieldOffset info 0 + 8
     <= calculatedFixeSizePerRow (num_cols info)
  /\ getFieldOffset info 0 = null_bitset_width_in_bytes info
  /\ getFieldOffset info (num_cols info - 1) + 8
     = calculatedFixeSizePerRow (num_cols info)
  /\ (forall i, 0 <= i < 0 ->
        getFieldOffset info i + 8 <= getFieldOffset info 0)
  /\ 0 <= Z.shiftr 0 6 * 8
  /\ Z.shiftr 0 6 * 8 + 8 <= null_bitset_width_in_bytes info.
Proof.
  intros info.
  apply (field_slots_in_fixed_part
           [mkColumn (ColumnFull [FInt64 1; FInt64 2; FInt64 3])
              DataTypeInt32]
           None info 0);
    first [ reflexivity | cbn; lia ].
Defined.

Import WhichDataType.
Import BackingDataLengthCalculator.

(** ** The descriptor that the write pass returns *)

Lemma advance_cursor_at (st st' : RowBuffer) (r : nat) (n c : Z) :
  advance st r n = Ok st' -> vector_at (cursor st) r = Ok c ->
  vector_at (cursor st') r = Ok (c + n).
Proof.
  intros H Ec. apply advance_inv in H. destruct H as [_ ->].
  apply vector_at_Ok, nth_error_cursor_add_eq, vector_at_Ok, Ec.
Qed.

Lemma writeArray_descriptor (nested_type : DataType)
    (writer : VariableLengthDataWriter.Writer) (offsets : list Z) (r : nat)
    (array : Array) (p : Z) (st st' : RowBuffer) (d : Z) :
  VariableLengthDataWriter.writeArray nested_type writer offsets r array p st
  = Ok (st', d) ->
  exists start c',
    vector_at (cursor st) r = Ok start
    /\ vector_at (cursor st') r = Ok c'
    /\ d = getOffsetAndSize (start - p) (c' - start).
Proof.
  unfold VariableLengthDataWriter.writeArray. intros H.
  bind_inv H as offset Eo. bind_inv H as start Es. bind_inv H as mem Em.
  bind_inv H as st1 E1. exists start.
  destruct (Z.of_nat (length array) =? 0).
  - inv_Ok H. exists (start + 8). split; [ exact Es | ].
    split; [ | f_equal; lia ].
    eapply advance_cursor_at; [ exact E1 | exact Es ].
  - bind_inv H as st2 E2. bind_inv H as st3 E3. bind_inv H as st4 E4.
    bind_inv H as c' Ec. inv_Ok H. exists c'. auto.
Qed.

Lemma writeMap_descriptor (key_type val_type : DataType)
    (writer_key writer_val : VariableLengthDataWriter.Writer)
    (offsets : list Z) (r : nat) (map : Map) (p : Z) (st st' : RowBuffer)
    (d : Z) :
  VariableLengthDataWriter.writeMap key_type val_type writer_key writer_val
    offsets r map p st = Ok (st', d) ->
  exists start c',
    vector_at (cursor st) r = Ok start
    /\ vector_at (cursor st') r = Ok c'
    /\ d = getOffsetAndSize (start - p) (c' - start).
Proof.
  unfold VariableLengthDataWriter.writeMap. intros H.
  bind_inv H as offset Eo. bind_inv H as start Es. bind_inv H as st1 E1.
  bind_inv H as kv Ekv. destruct kv as [ks vs].
  bind_inv H as sk Ek. destruct sk as [st2 dk].
  bind_inv H as mem Em. bind_inv H as sv Ev. destruct sv as [st3 dv].
  bind_inv H as c' Ec. inv_Ok H. exists start, c'. auto.
Qed.

Lemma writeStruct_descriptor
    (field_types : list (DataType * VariableLengthDataWriter.Writer))
    (offsets : list Z) (r : nat) (tuple : Tuple) (p : Z)
    (st st' : RowBuffer) (d : Z) :
  VariableLengthDataWriter.writeStruct field_types offsets r tuple p st
  = Ok (st', d) ->
  exists start c',
    vector_at (cursor st) r = Ok start
    /\ vector_at (cursor st') r = Ok c'
    /\ d = getOffsetAndSize (start - p) (c' - start).
Proof.
  unfold VariableLengthDataWriter.writeStruct. intros H.
  bind_inv H as offset Eo. bind_inv H as start Es. exists start.
  destruct (Z.of_nat (length field_types) =? 0).
  - inv_Ok H. exists start. split; [ exact Es | ]. split; [ exact Es | ].
    f_equal. lia.
  - bind_inv H as st1 E1. bind_inv H as st2 E2. bind_inv H as st3 E3.
    bind_inv H as c' Ec. inv_Ok H. exists c'. auto.
Qed.

(** X14. The descriptor that [VariableLengthDataWriter::write] returns for
    a value that is not [NULL] carries the position of the cursor before
    the write, relative to [parent_offset]; its size is the length that
    [calculate] returns for the value, except for a string, whose size is
    its length in bytes before padding. *)
Theorem write_descriptor (t : DataType) (offsets : list Z) (row_idx : nat)
    (f : Field) (parent_offset : Z) (st st' : RowBuffer) (d n c : Z) :
  VariableLengthDataWriter.write t offsets row_idx f parent_offset st
  = Ok (st', d) ->
  calculate t f = Ok n ->
  vector_at (cursor st) row_idx = Ok c ->
  isNull f = false ->
  (isStringOrFixedString t = false ->
   d = getOffsetAndSize (c - parent_offset) n)
  /\ (isStringOrFixedString t = true ->
      exists str,
        f = FString str
        /\ d = getOffsetAndSize (c - parent_offset)
                 (Z.of_nat (length str))
        /\ n = roundNumberOfBytesToNearestWord (Z.of_nat (length str))).
Proof.
  intros Hw Hc Ec N.
  pose proof (write_agrees_with_calculate offsets t _ _ _ _ _ _ _ Hw Hc)
    as [Cs _].
  assert (Ec' : vector_at (cursor st') row_idx = Ok (c + n)).
  { rewrite Cs. apply vector_at_Ok, nth_error_cursor_add_eq, vector_at_Ok.
    exact Ec. }
  assert (Composite :
            forall start c',
              vector_at (cursor st) row_idx = Ok start ->
              vector_at (cursor st') row_idx = Ok c' ->
              d = getOffsetAndSize (start - parent_offset) (c' - start) ->
              d = getOffsetAndSize (c - parent_offset) n).
  { intros start c' Es Ec2 ->. rewrite Es in Ec. rewrite Ec2 in Ec'.
    inv_Ok Ec. inv_Ok Ec'. f_equal. lia. }
  destruct t;
    try (rewrite write_leaf in Hw by reflexivity;
         rewrite calculate_leaf in Hc by reflexivity;
         rewrite N in Hw, Hc;
         cbn [isStringOrFixedString isDecimal128 isNativeInt isNativeUInt
              isFloat isDateOrDate32 isDateTime64 isDecimal32 isDecimal64
              orb] in Hw, Hc |- *;
         try discriminate Hw).
  - (* String *)
    split; [ discriminate | intros _ ].
    bind_inv Hw as str Es. bind_inv Hc as str' Es'.
    rewrite Es in Es'. inv_Ok Es'. inv_Ok Hc.
    destruct f; try discriminate Es. cbn [safeGet_String] in Es. inv_Ok Es.
    apply writeUnalignedBytes_inv in Hw.
    destruct Hw as (o & c0 & mem & _ & Ec0 & _ & _ & _ & ->).
    rewrite Ec0 in Ec. inv_Ok Ec. eauto.
  - (* FixedString *)
    split; [ discriminate | intros _ ].
    bind_inv Hw as str Es. bind_inv Hc as str' Es'.
    rewrite Es in Es'. inv_Ok Es'. inv_Ok Hc.
    destruct f; try discriminate Es. cbn [safeGet_String] in Es. inv_Ok Es.
    apply writeUnalignedBytes_inv in Hw.
    destruct Hw as (o & c0 & mem & _ & Ec0 & _ & _ & _ & ->).
    rewrite Ec0 in Ec. inv_Ok Ec. eauto.
  - (* Decimal128 *)
    split; [ intros _ | discriminate ].
    bind_inv Hw as v Ev. bind_inv Hw as buf Eb. inv_Ok Hc.
    apply swapDecimalEndianBytes_length in Eb. destruct Eb as [_ Lb].
    apply writeUnalignedBytes_inv in Hw.
    destruct Hw as (o & c0 & mem & _ & Ec0 & _ & _ & _ & ->).
    rewrite Ec0 in Ec. inv_Ok Ec. rewrite Lb. reflexivity.
  - (* Array *)
    split; [ intros _ | discriminate ].
    rewrite write_Array in Hw by exact N. bind_inv Hw as a Ea.
    apply writeArray_descriptor in Hw.
    destruct Hw as (start & c' & Es & Ec2 & E).
    exact (Composite start c' Es Ec2 E).
  - (* Tuple *)
    split; [ intros _ | discriminate ].
    rewrite write_Tuple in Hw by exact N. bind_inv Hw as a Ea.
    apply writeStruct_descriptor in Hw.
    destruct Hw as (start & c' & Es & Ec2 & E).
    exact (Composite start c' Es Ec2 E).
  - (* Map *)
    split; [ intros _ | discriminate ].
    rewrite write_Map in Hw by exact N. bind_inv Hw as a Ea.
    apply writeMap_descriptor in Hw.
    destruct Hw as (start & c' & Es & Ec2 & E).
    exact (Composite start c' Es Ec2 E).
Qed.

Lemma write_descriptor_witness :
  let t := DataTypeArray DataTypeInt32 in
  let f := FArray [FInt64 1; FInt64 2] in
  let st := mkRowBuffer (repeat x00 40) [16] in
  (isStringOrFixedString t = false ->
   68719476760 = getOffsetAndSize (16 - 0) 24)
  /\ (isStringOrFixedString t = true ->
      exists str,
        f = FString str
        /\ 68719476760 = getOffsetAndSize (16 - 0) (Z.of_nat (length str))
        /\ 24 = roundNumberOfBytesToNearestWord (Z.of_nat (length str))).
Proof.
  intros t f st.
  apply (write_descriptor t [0] 0%nat f 0 st
           (mkRowBuffer
              (repeat x00 16 ++ [x02] ++ repeat x00 15
               ++ [x01; x00; x00; x00; x02; x00; x00; x00]) [40])
           68719476760 24 16);
    reflexivity.
Defined.

(** ** Empty composites *)

(** X15. A struct type without fields writes nothing at all and returns
    a descriptor of size 0, wherever the cursor stands, at the end of the
    buffer too.  An empty array is written as its 8-byte count alone, for
    every element type (no writer for the elements is built): where 8
    bytes are left at the cursor, eight zero bytes are stored there, the
    cursor moves 8 bytes further, the descriptor has the size 8, and no
    other byte is changed. *)
Theorem write_empty_array_and_struct (nested_type : DataType)
    (offsets : list Z) (row_idx : nat) (parent_offset : Z) (st : RowBuffer)
    (tuple : Tuple) (o c : Z) :
  vector_at offsets row_idx = Ok o ->
  vector_at (cursor st) row_idx = Ok c ->
  VariableLengthDataWriter.write (DataTypeTuple []) offsets row_idx
    (FTuple tuple) parent_offset st
  = Ok (st, getOffsetAndSize (c - parent_offset) 0)
  /\ (0 <= o + c -> o + c + 8 <= Z.of_nat (length (memory st)) ->
      exists mem',
        VariableLengthDataWriter.write (DataTypeArray nested_type) offsets
          row_idx (FArray []) parent_offset st
        = Ok (mkRowBuffer mem' (cursor_add (cursor st) row_idx 8),
              getOffsetAndSize (c - parent_offset) 8)
        /\ load mem' (o + c) 8 = Ok (repeat x00 8)
        /\ (forall k : nat,
              Z.of_nat k < o + c \/ o + c + 8 <= Z.of_nat k ->
              nth_error mem' k = nth_error (memory st) k)).
Proof.
  intros Eo Ec. split.
  - cbn [VariableLengthDataWriter.write isNull isStringOrFixedString
         isDecimal128 safeGet_Tuple bind List.map].
    unfold VariableLengthDataWriter.writeStruct.
    rewrite Eo. cbn [bind]. rewrite Ec. reflexivity.
  - intros Hlo Hhi. rewrite write_Array_FArray.
    unfold VariableLengthDataWriter.writeArray.
    rewrite Eo. cbn [bind]. rewrite Ec. cbn [bind length].
    destruct (memcpy (memory st) (o + c) (le_bytes 8 (Z.of_nat 0)))
      as [mem'|e] eqn:Em.
    2:{ rewrite memcpy_Ok in Em
          by (rewrite ?length_le_bytes; change (Z.of_nat 8) with 8; lia).
        discriminate. }
    cbn [bind]. rewrite (advance_Ok _ _ _ c) by exact Ec.
    cbn [bind set_memory memory cursor Z.of_nat Z.eqb].
    exists mem'. split; [ reflexivity | ]. split.
    + apply load_memcpy_same in Em. exact Em.
    + intros k Hk. eapply memcpy_nth_error_outside; [ exact Em | exact Hk ].
Qed.

Lemma write_empty_array_and_struct_witness :
  let st := mkRowBuffer (repeat xff 24) [16] in
  VariableLengthDataWriter.write (DataTypeTuple []) [0] 0
    (FTuple [FNull]) 0 st
  = Ok (st, getOffsetAndSize (16 - 0) 0)
  /\ exists mem',
       VariableLengthDataWriter.write (DataTypeArray DataTypeUUID) [0]
         0 (FArray []) 0 st
       = Ok (mkRowBuffer mem' (cursor_add (cursor st) 0 8),
             getOffsetAndSize (16 - 0) 8)
       /\ load mem' (0 + 16) 8 = Ok (repeat x00 8)
       /\ (forall k : nat,
             Z.of_nat k < 0 + 16 \/ 0 + 16 + 8 <= Z.of_nat k ->
             nth_error mem' k = nth_error (memory st) k).
Proof.
  intros st.
  destruct (write_empty_array_and_struct DataTypeUUID [0] 0%nat 0 st
              [FNull] 0 16 eq_refl eq_refl) as [S A].
  split; [ exact S | apply A; cbn; lia ].
Defined.

(** X16. An empty map is still written in full: 8 bytes holding the size
    of the key array, which is 8, then the count 0 of the key array and the
    count 0 of the value array; the cursor moves by 24 and the descriptor
    has the size 24. *)
Theorem write_empty_map (key_type val_type : DataType) (offsets : list Z)
    (row_idx : nat) (parent_offset : Z) (st : RowBuffer) (o c : Z) :
  vector_at offsets row_idx = Ok o ->
  vector_at (cursor st) row_idx = Ok c ->
  0 <= o + c -> o + c + 24 <= Z.of_nat (length (memory st)) ->
  exists mem',
    VariableLengthDataWriter.write (DataTypeMap key_type val_type) offsets
      row_idx (FMap []) parent_offset st
    = Ok (mkRowBuffer mem' (cursor_add (cursor st) row_idx 24),
          getOffsetAndSize (c - parent_offset) 24)
    /\ load mem' (o + c) 8 = Ok (le_bytes 8 8)
    /\ load mem' (o + c + 8) 8 = Ok (repeat x00 8)
    /\ load mem' (o + c + 16) 8 = Ok (repeat x00 8)
    /\ (forall k : nat,
          Z.of_nat k < o + c \/ o + c + 24 <= Z.of_nat k ->
          nth_error mem' k = nth_error (memory st) k).
Proof.
  intros Eo Ec Hlo Hhi.
  cbn [VariableLengthDataWriter.write isNull isStringOrFixedString
       isDecimal128 safeGet_Map bind].
  unfold VariableLengthDataWriter.writeMap.
  rewrite Eo. cbn [bind]. rewrite Ec. cbn [bind].
  rewrite (advance_Ok _ _ _ c) by exact Ec. cbn [bind splitMap].
  unfold VariableLengthDataWriter.writeArray.
  rewrite Eo. cbn [bind cursor memory length].
  assert (E1 : vector_at (cursor_add (cursor st) row_idx 8) row_idx
               = Ok (c + 8)).
  { apply vector_at_Ok, nth_error_cursor_add_eq, vector_at_Ok, Ec. }
  rewrite E1. cbn [bind].
  destruct (memcpy (memory st) (o + (c + 8)) (le_bytes 8 (Z.of_nat 0)))
    as [mem1|e] eqn:Em1.
  2:{ rewrite memcpy_Ok in Em1
        by (rewrite ?length_le_bytes; change (Z.of_nat 8) with 8; lia).
      discriminate. }
  pose proof (memcpy_length _ _ _ _ Em1) as L1.
  cbn [bind]. rewrite (advance_Ok _ _ _ (c + 8)) by exact E1.
  cbn [bind set_memory memory cursor Z.of_nat Z.eqb].
  rewrite cursor_add_add.
  replace (c + 8 - (c + 8)) with 0 by lia.
  change (extractSize (getOffsetAndSize 0 8)) with 8.
  destruct (memcpy mem1 (o + c) (le_bytes 8 8)) as [mem2|e] eqn:Em2.
  2:{ rewrite memcpy_Ok in Em2
        by (rewrite ?length_le_bytes; change (Z.of_nat 8) with 8; lia).
      discriminate. }
  pose proof (memcpy_length _ _ _ _ Em2) as L2.
  cbn [bind set_memory memory cursor].
  assert (E2 : vector_at (cursor_add (cursor st) row_idx (8 + 8)) row_idx
               = Ok (c + (8 + 8))).
  { apply vector_at_Ok, nth_error_cursor_add_eq, vector_at_Ok, Ec. }
  rewrite E2. cbn [bind].
  destruct (memcpy mem2 (o + (c + (8 + 8))) (le_bytes 8 0))
    as [mem3|e] eqn:Em3.
  2:{ rewrite memcpy_Ok in Em3
        by (rewrite ?length_le_bytes; change (Z.of_nat 8) with 8; lia).
      discriminate. }
  cbn [bind set_memory memory cursor].
  rewrite (advance_Ok _ _ _ (c + (8 + 8))) by exact E2.
  cbn [bind set_memory memory cursor Z.of_nat Z.eqb].
  rewrite cursor_add_add.
  assert (E3 : vector_at (cursor_add (cursor st) row_idx (8 + 8 + 8)) row_idx
               = Ok (c + (8 + 8 + 8))).
  { apply vector_at_Ok, nth_error_cursor_add_eq, vector_at_Ok, Ec. }
  rewrite E3. cbn [bind].
  exists mem3. split.
  { f_equal. f_equal. f_equal. lia. }
  split.
  { rewrite (load_memcpy_disjoint _ _ _ _ (o + c) 8 Em3)
      by (rewrite ?length_le_bytes; change (Z.of_nat 8) with 8; lia).
    apply load_memcpy_same in Em2. exact Em2. }
  split.
  { rewrite (load_memcpy_disjoint _ _ _ _ (o + c + 8) 8 Em3)
      by (rewrite ?length_le_bytes; change (Z.of_nat 8) with 8; lia).
    rewrite (load_memcpy_disjoint _ _ _ _ (o + c + 8) 8 Em2)
      by (rewrite ?length_le_bytes; change (Z.of_nat 8) with 8; lia).
    apply load_memcpy_same in Em1.
    replace (o + c + 8) with (o + (c + 8)) by lia. exact Em1. }
  split.
  { apply load_memcpy_same in Em3.
    replace (o + c + 16) with (o + (c + (8 + 8))) by lia. exact Em3. }
  intros k Hk.
  rewrite (memcpy_nth_error_outside _ _ _ _ k Em3)
    by (rewrite ?length_le_bytes; change (Z.of_nat 8) with 8; lia).
  rewrite (memcpy_nth_error_outside _ _ _ _ k Em2)
    by (rewrite ?length_le_bytes; change (Z.of_nat 8) with 8; lia).
  apply (memcpy_nth_error_outside _ _ _ _ k Em1).
  rewrite ?length_le_bytes. change (Z.of_nat 8) with 8. lia.
Qed.

Lemma write_empty_map_witness :
  let st := mkRowBuffer (repeat xff 40) [16] in
  exists mem',
    VariableLengthDataWriter.write (DataTypeMap DataTypeString DataTypeInt32)
      [0] 0 (FMap []) 0 st
    = Ok (mkRowBuffer mem' (cursor_add (cursor st) 0 24),
          getOffsetAndSize (16 - 0) 24)
    /\ load mem' (0 + 16) 8 = Ok (le_bytes 8 8)
    /\ load mem' (0 + 16 + 8) 8 = Ok (repeat x00 8)
    /\ load mem' (0 + 16 + 16) 8 = Ok (repeat x00 8)
    /\ (forall k : nat,
          Z.of_nat k < 0 + 16 \/ 0 + 16 + 24 <= Z.of_nat k ->
          nth_error mem' k = nth_error (memory st) k).
Proof.
  intros st.
  apply (write_empty_map DataTypeString DataTypeInt32 [0] 0%nat 0 st 0 16);
    first [ reflexivity | cbn; lia ].
Defined.

Import WhichDataType.
Import BackingDataLengthCalculator.

(** ** Maps as two arrays *)

(** X17. The key array and the value array that both passes build from a
    map: they are built if and only if every entry is a tuple of at least
    two fields, and then hold, in the order of the entries, element 0 and
    element 1 of every entry. *)
Theorem splitMap_keys_and_values (map : Map) :
  ((exists ks vs, splitMap map = Ok (ks, vs))
   <-> Forall (fun entry => exists k v rest, entry = FTuple (k :: v :: rest))
         map)
  /\ (forall ks vs,
        splitMap map = Ok (ks, vs) ->
        length ks = length map /\ length vs = length map
        /\ forall i entry,
             nth_error map i = Some entry ->
             exists k v rest,
               entry = FTuple (k :: v :: rest)
               /\ nth_error ks i = Some k /\ nth_error vs i = Some v).
Proof.
  induction map as [|entry map [IH1 IH2]].
  - split; [ split | ].
    + intros _. constructor.
    + intros _. exists [], []. reflexivity.
    + intros ks vs H. cbn [splitMap] in H. inv_Ok H.
      repeat split. intros [|i] e E; discriminate E.
  - assert (Inv : forall ks vs,
              splitMap (entry :: map) = Ok (ks, vs) ->
              exists k v rest ks' vs',
                entry = FTuple (k :: v :: rest)
                /\ splitMap map = Ok (ks', vs')
                /\ ks = k :: ks' /\ vs = v :: vs').
    { intros ks vs H. cbn [splitMap] in H.
      bind_inv H as pair Ep. bind_inv H as k Ek. bind_inv H as v Ev.
      bind_inv H as kv Er. destruct kv as [ks' vs']. inv_Ok H.
      destruct entry; try discriminate Ep. cbn [safeGet_Tuple] in Ep.
      inv_Ok Ep. destruct pair as [|k0 [|v0 rest]]; try discriminate.
      cbn in Ek, Ev. inv_Ok Ek. inv_Ok Ev.
      exists k, v, rest, ks', vs'. auto. }
    split; [ split | ].
    + intros (ks & vs & H). apply Inv in H.
      destruct H as (k & v & rest & ks' & vs' & -> & Er & _).
      constructor; [ eauto | ]. apply IH1. eauto.
    + intros F. inversion F as [|e m (k & v & rest & ->) F']; subst.
      apply IH1 in F'. destruct F' as (ks & vs & Er).
      exists (k :: ks), (v :: vs). cbn [splitMap safeGet_Tuple bind].
      cbn. rewrite Er. reflexivity.
    + intros ks vs H. apply Inv in H.
      destruct H as (k & v & rest & ks' & vs' & -> & Er & -> & ->).
      destruct (IH2 _ _ Er) as (Lk & Lv & Hi).
      cbn [length]. split; [ congruence | ]. split; [ congruence | ].
      intros [|i] e E; cbn [nth_error] in *.
      * inversion E; subst e. eauto 6.
      * apply Hi. exact E.
Qed.

(** ** Null bits of a fresh buffer *)

Lemma skipn_repeat_eq {A : Type} (a : A) (i n : nat) :
  skipn i (repeat a n) = repeat a (n - i).
Proof.
  revert n. induction i as [|i IH]; intros [|n]; cbn [skipn repeat Nat.sub];
    try reflexivity.
  apply IH.
Qed.

Lemma le_value_zeros (n : nat) : le_value (repeat x00 n) = 0.
Proof.
  induction n as [|n IH]; cbn [repeat le_value]; [ reflexivity | ].
  rewrite IH. reflexivity.
Qed.

(** X18. In the buffer that the conversion allocates and zeroes no null
    bit is set: [isBitSet] is false for every bitmap and every index whose
    word lies in the buffer. *)
Theorem isBitSet_zeroed (size bitmap index : Z) :
  0 <= bitmap + Z.shiftr index 6 * 8 ->
  bitmap + Z.shiftr index 6 * 8 + 8 <= size ->
  isBitSet (alloc_zeroed size) bitmap index = Ok false.
Proof.
  intros Hlo Hhi. unfold isBitSet, alloc_zeroed.
  rewrite load_Ok
    by (rewrite ?repeat_length; change (Z.of_nat 8) with 8; lia).
  cbn [bind]. rewrite skipn_repeat_eq, firstn_repeat_le by lia.
  rewrite le_value_zeros. change (to_int64 0) with 0.
  rewrite Z.land_0_l. reflexivity.
Qed.

Lemma isBitSet_zeroed_witness : isBitSet (alloc_zeroed 24) 0 70 = Ok false.
Proof. apply (isBitSet_zeroed 24 0 70); cbn; lia. Defined.

(** ** Integers in their slots *)

Lemma le_bytes_congr (n : nat) :
  forall x y,
    x mod 2 ^ (8 * Z.of_nat n) = y mod 2 ^ (8 * Z.of_nat n) ->
    le_bytes n x = le_bytes n y.
Proof.
  induction n as [|n IH]; intros x y H; cbn [le_bytes]; [ reflexivity | ].
  replace (8 * Z.of_nat (S n)) with (8 + 8 * Z.of_nat n) in H by lia.
  rewrite Z.pow_add_r in H by lia. change (2 ^ 8) with 256 in H.
  assert (0 < 2 ^ (8 * Z.of_nat n)) by (apply Z.pow_pos_nonneg; lia).
  rewrite !(Z.rem_mul_r _ 256) in H by lia.
  pose proof (Z.mod_pos_bound x 256 ltac:(lia)).
  pose proof (Z.mod_pos_bound y 256 ltac:(lia)).
  assert (x mod 256 = y mod 256 /\
          (x / 256) mod 2 ^ (8 * Z.of_nat n)
          = (y / 256) mod 2 ^ (8 * Z.of_nat n)) as [E0 E1] by lia.
  f_equal.
  - unfold byte_of_Z. rewrite E0. reflexivity.
  - apply IH. rewrite !Z.shiftr_div_pow2 by lia. exact E1.
Qed.

Lemma mod_mod_pow2 (z : Z) (a b : Z) :
  0 <= a <= b -> (z mod 2 ^ b) mod 2 ^ a = z mod 2 ^ a.
Proof.
  intros H. replace b with (a + (b - a)) by lia.
  rewrite Z.pow_add_r by lia.
  assert (0 < 2 ^ a) by (apply Z.pow_pos_nonneg; lia).
  assert (0 < 2 ^ (b - a)) by (apply Z.pow_pos_nonneg; lia).
  rewrite Z.rem_mul_r by lia.
  rewrite Z.mul_comm, Z.mod_add by lia. apply Z.mod_mod. lia.
Qed.

Lemma unsigned_cast_mod (bits a z : Z) :
  0 <= a <= bits -> unsigned_cast bits z mod 2 ^ a = z mod 2 ^ a.
Proof. intros H. unfold unsigned_cast. apply mod_mod_pow2. exact H. Qed.

Lemma signed_cast_mod (bits a z : Z) :
  0 <= a <= bits -> 0 < bits -> signed_cast bits z mod 2 ^ a = z mod 2 ^ a.
Proof.
  intros H Hb. unfold signed_cast.
  assert (0 < 2 ^ a) by (apply Z.pow_pos_nonneg; lia).
  destruct (Z.eq_dec a bits) as [->|Ne].
  - replace (2 ^ bits) with (2 * 2 ^ (bits - 1))
      by (rewrite <- Z.pow_succ_r by lia; f_equal; lia).
    assert (0 < 2 ^ (bits - 1)) by (apply Z.pow_pos_nonneg; lia).
    pose proof (Z.div_mod (z + 2 ^ (bits - 1)) (2 * 2 ^ (bits - 1))
                  ltac:(lia)) as E.
    replace ((z + 2 ^ (bits - 1)) mod (2 * 2 ^ (bits - 1))
             - 2 ^ (bits - 1))
      with (z + (- ((z + 2 ^ (bits - 1)) / (2 * 2 ^ (bits - 1))))
                * (2 * 2 ^ (bits - 1))) by lia.
    apply Z.mod_add. lia.
  - rewrite <- Zminus_mod_idemp_l, mod_mod_pow2 by lia.
    rewrite Zminus_mod_idemp_l.
    replace (z + 2 ^ (bits - 1) - 2 ^ (bits - 1)) with z by lia.
    reflexivity.
Qed.

(** X19. For the integer and date types [FixedLengthDataWriter::write]
    stores the value in two's complement, least significant byte first, in
    the [getArrayElementSize] bytes at [buffer], truncated to that width:
    the bytes read back denote the value modulo 2^(8 * width). *)
Theorem FixedLengthDataWriter_write_integer (t : DataType) (f : Field)
    (v : Z) (mem mem' : list byte) (buffer : Z) :
  FixedLengthDataWriter.write t f mem buffer = Ok mem' ->
  f = FInt64 v \/ f = FUInt64 v ->
  isNativeInt t || isNativeUInt t || isDateOrDate32 t = true ->
  exists bs,
    load mem' buffer (Z.to_nat (getArrayElementSize t)) = Ok bs
    /\ bs = le_bytes (Z.to_nat (getArrayElementSize t)) v
    /\ le_value bs = v mod 2 ^ (8 * getArrayElementSize t).
Proof.
  intros H Hf Ht.
  assert (W : 8 * getArrayElementSize t
              = 8 * Z.of_nat (Z.to_nat (getArrayElementSize t))).
  { pose proof (getArrayElementSize_range t). lia. }
  eexists. split; [ | split; [ reflexivity | ] ].
  2:{ rewrite le_value_le_bytes, W. reflexivity. }
  unfold FixedLengthDataWriter.write in H.
  destruct t; try discriminate Ht;
    destruct Hf as [-> | ->];
    cbn [isNull isUInt8 isUInt16 isUInt32 isUInt64 isInt8 isInt16 isInt32
         isInt64 isFloat32 isFloat64 isDate isDate32 isDateTime64
         isDecimal32 isDecimal64 orb safeGet_UInt64 safeGet_Int64 bind] in H;
    apply load_memcpy_same in H; rewrite length_le_bytes in H;
    (erewrite le_bytes_congr in H; [ exact H | ]);
    unfold to_int64;
    repeat first [ rewrite unsigned_cast_mod by (cbn; lia)
                 | rewrite signed_cast_mod by (cbn; lia) ];
    reflexivity.
Qed.

Lemma FixedLengthDataWriter_write_integer_witness :
  let mem := repeat x00 16 in
  let mem' := repeat x00 8 ++ [xfe; xff; xff; xff] ++ repeat x00 4 in
  exists bs,
    load mem' 8 (Z.to_nat (getArrayElementSize DataTypeInt32)) = Ok bs
    /\ bs = le_bytes (Z.to_nat (getArrayElementSize DataTypeInt32)) (-2)
    /\ le_value bs = (-2) mod 2 ^ (8 * getArrayElementSize DataTypeInt32).
Proof.
  intros mem mem'.
  apply (FixedLengthDataWriter_write_integer DataTypeInt32 (FInt64 (-2))
           (-2) mem mem' 8);
    first [ reflexivity | left; reflexivity ].
Defined.

Import WhichDataType.
Import BackingDataLengthCalculator.

(** ** The write pass stays in the region it was measured *)

Section Frame.

Variable offsets : list Z.

(** The loop of [writeArray] over elements of a fixed-length type. *)
Lemma writeArray_fixed_loop_confined (fixed : DataType)
    (bitmap slots elem_size LO HI : Z) :
  forall (array : Array) (i : nat) (st st' : RowBuffer),
    for_each i array
      (fun i elem st =>
         if isNull elem then
           mem <- bitSet (memory st) bitmap (Z.of_nat i) ;;
           Ok (set_memory st mem)
         else
           mem <- FixedLengthDataWriter.write fixed elem (memory st)
                    (slots + Z.of_nat i * elem_size) ;;
           Ok (set_memory st mem)) st = Ok st' ->
    (forall j, (i <= j < i + length array)%nat ->
       LO <= bitmap + Z.shiftr (Z.of_nat j) 6 * 8
       /\ bitmap + Z.shiftr (Z.of_nat j) 6 * 8 + 8 <= HI
       /\ LO <= slots + Z.of_nat j * elem_size
       /\ slots + Z.of_nat j * elem_size + getArrayElementSize fixed
          <= HI) ->
    same_outside (memory st) (memory st') LO HI.
Proof.
  induction array as [|e array IH]; intros i st st' L B;
    cbn [for_each] in L.
  - inv_Ok L. apply same_outside_refl.
  - bind_inv L as st1 S1.
    destruct (B i ltac:(cbn [length]; lia)) as (B1 & B2 & B3 & B4).
    assert (F1 : same_outside (memory st) (memory st1) LO HI).
    { destruct (isNull e); bind_inv S1 as mem Em; inv_Ok S1;
        cbn [set_memory memory].
      - apply bitSet_same_outside in Em.
        eapply same_outside_weaken; [ exact Em | lia ].
      - apply FixedLengthDataWriter_write_same_outside in Em.
        destruct Em as [Em _].
        eapply same_outside_weaken; [ exact Em | lia ]. }
    eapply same_outside_trans with (lo2 := LO) (hi2 := HI);
      [ exact F1
      | eapply IH; [ exact L | intros j Hj; apply B; cbn [length]; lia ]
      | lia | lia ].
Qed.

(** The loop of [writeArray] over elements of a variable-length type. *)
Lemma writeArray_loop_confined (writer : VariableLengthDataWriter.Writer)
    (calculator : Field -> Result Z) (r : nat)
    (o start bitmap slots elem_size LO HI : Z) :
  agree writer calculator ->
  null_free calculator ->
  confined offsets writer calculator ->
  (forall f m, calculator f = Ok m -> 0 <= m) ->
  vector_at offsets r = Ok o ->
  forall (array : Array) (i : nat) (st st' : RowBuffer) (acc total cst : Z),
    for_each i array
      (fun i elem st =>
         if isNull elem then
           mem <- bitSet (memory st) bitmap (Z.of_nat i) ;;
           Ok (set_memory st mem)
         else
           ' (st, offset_and_size) <- writer r elem start st ;;
           mem <- memcpy (memory st) (slots + Z.of_nat i * elem_size)
                    (le_bytes 8 offset_and_size) ;;
           Ok (set_memory st mem)) st = Ok st' ->
    for_each i array (fun _ elem res => n <- calculator elem ;; Ok (res + n))
      acc = Ok total ->
    vector_at (cursor st) r = Ok cst ->
    (forall j, (i <= j < i + length array)%nat ->
       LO <= bitmap + Z.shiftr (Z.of_nat j) 6 * 8
       /\ bitmap + Z.shiftr (Z.of_nat j) 6 * 8 + 8 <= HI
       /\ LO <= slots + Z.of_nat j * elem_size
       /\ slots + Z.of_nat j * elem_size + 8 <= HI) ->
    LO <= o + cst -> o + cst + (total - acc) <= HI ->
    same_outside (memory st) (memory st') LO HI.
Proof.
  intros Ha Hnull Hc Hpos Eo.
  induction array as [|e array IH];
    intros i st st' acc total cst L C Ec B Hlo Hhi; cbn [for_each] in L, C.
  - inv_Ok L. apply same_outside_refl.
  - bind_inv L as st1 S1. bind_inv C as acc1 Ce. bind_inv Ce as n1 Cn.
    inv_Ok Ce.
    pose proof (Hpos _ _ Cn) as Pn.
    pose proof (for_each_sum_nonneg (fun _ => calculator) _ _ _ _
                  (fun _ => Hpos) C) as Mono.
    destruct (B i ltac:(cbn [length]; lia)) as (B1 & B2 & B3 & B4).
    assert (B' : forall j, (S i <= j < S i + length array)%nat ->
                   LO <= bitmap + Z.shiftr (Z.of_nat j) 6 * 8
                   /\ bitmap + Z.shiftr (Z.of_nat j) 6 * 8 + 8 <= HI
                   /\ LO <= slots + Z.of_nat j * elem_size
                   /\ slots + Z.of_nat j * elem_size + 8 <= HI).
    { intros j Hj. apply B. cbn [length]. lia. }
    destruct (isNull e) eqn:Ne.
    + bind_inv S1 as mem Em. inv_Ok S1.
      rewrite (Hnull e n1 Ne Cn) in *.
      apply bitSet_same_outside in Em.
      eapply same_outside_trans
        with (m2 := memory (set_memory st mem)) (lo2 := LO) (hi2 := HI);
        [ exact Em
        | eapply (IH (S i) (set_memory st mem) st' (acc + 0) total cst);
          [ exact L | exact C | exact Ec | exact B' | lia | lia ]
        | lia | lia ].
    + bind_inv S1 as sd Ew. destruct sd as [s1 d].
      bind_inv S1 as mem Em. inv_Ok S1.
      pose proof (Hc _ _ _ _ _ _ _ _ _ Ew Cn Eo Ec) as F1.
      pose proof (Ha _ _ _ _ _ _ _ Ew Cn) as Adv.
      pose proof (advanced_cursor_at _ _ _ _ _ Adv Ec) as Ec1.
      apply memcpy_same_outside in Em. rewrite length_le_bytes in Em.
      change (Z.of_nat 8) with 8 in Em.
      eapply same_outside_trans
        with (m2 := memory (set_memory s1 mem)) (lo2 := LO) (hi2 := HI);
        [ eapply same_outside_trans with (lo := LO) (hi := HI);
          [ exact F1 | exact Em | lia | lia ]
        | eapply (IH (S i) (set_memory s1 mem) st' (acc + n1) total
                    (cst + n1));
          [ exact L | exact C | exact Ec1 | exact B' | lia | lia ]
        | lia | lia ].
Qed.

Lemma writeArray_confined (nested_type : DataType)
    (writer : VariableLengthDataWriter.Writer)
    (calculator : Field -> Result Z) :
  agree writer calculator ->
  null_free calculator ->
  confined offsets writer calculator ->
  (forall f m, calculator f = Ok m -> 0 <= m) ->
  forall r array p st st' d n o c,
    VariableLengthDataWriter.writeArray nested_type writer offsets r array p
      st = Ok (st', d) ->
    calculateArray nested_type calculator array = Ok n ->
    vector_at offsets r = Ok o ->
    vector_at (cursor st) r = Ok c ->
    same_outside (memory st) (memory st') (o + c) (o + c + n).
Proof.
  intros Ha Hnull Hc Hpos r array p st st' d n o c W C Eo Ec.
  pose proof (calculateArray_nonneg _ _ _ _ Hpos C) as Hdr.
  pose proof (array_header_nonneg nested_type (length array)) as [Pb Pv].
  unfold VariableLengthDataWriter.writeArray in W.
  rewrite Eo, Ec in W. cbn [bind] in W.
  bind_inv W as mem Em. bind_inv W as st1 A1.
  apply memcpy_same_outside in Em. rewrite length_le_bytes in Em.
  change (Z.of_nat 8) with 8 in Em.
  pose proof (advance_cursor_at _ _ _ _ c A1 Ec) as Ec1.
  apply advance_inv in A1. destruct A1 as [M1 _].
  cbn [set_memory memory] in M1. subst mem.
  destruct (Z.eqb_spec (Z.of_nat (length array)) 0) as [Z0|NZ].
  - inv_Ok W. eapply same_outside_weaken; [ exact Em | lia ].
  - bind_inv W as st2 A2. bind_inv W as st3 A3. bind_inv W as st4 L.
    bind_inv W as c' Ec'. inv_Ok W.
    pose proof (advance_cursor_at _ _ _ _ _ A2 Ec1) as Ec2.
    pose proof (advance_cursor_at _ _ _ _ _ A3 Ec2) as Ec3.
    apply advance_inv in A2, A3. destruct A2 as [M2 _], A3 as [M3 _].
    assert (M : memory st3 = memory st1) by congruence.
    set (num := Z.of_nat (length array)) in *.
    set (bm := calculateBitSetWidthInBytes num) in *.
    set (es := getArrayElementSize nested_type) in *.
    set (lv := roundNumberOfBytesToNearestWord (es * num)) in *.
    pose proof (roundNumberOfBytesToNearestWord_bounds (es * num)) as Hr.
    fold lv in Hr.
    pose proof (getArrayElementSize_range nested_type) as Hes. fold es in Hes.
    assert (Bits : forall j, (0 <= j < 0 + length array)%nat ->
              o + c + 8 <= o + c + 8 + Z.shiftr (Z.of_nat j) 6 * 8
              /\ o + c + 8 + Z.shiftr (Z.of_nat j) 6 * 8 + 8
                 <= o + c + 8 + bm).
    { intros j Hj.
      pose proof (bit_word_in_bitmap (Z.of_nat j) num ltac:(unfold num; lia)).
      fold bm in H. lia. }
    eapply same_outside_trans
      with (m2 := memory st1) (lo2 := o + c) (hi2 := o + c + n);
      [ exact Em | | lia | lia ].
    rewrite <- M.
    destruct (isFixedLengthDataType (removeNullable nested_type)) eqn:Fx.
    + bind_inv L as fixed Ef.
      unfold FixedLengthDataWriter.ctor in Ef. rewrite Fx in Ef.
      cbn [negb] in Ef. inv_Ok Ef.
      eapply (writeArray_fixed_loop_confined (removeNullable nested_type)
                (o + c + 8) (o + c + 8 + bm) es);
        [ exact L | ].
      rewrite (getArrayElementSize_fixed _ Fx). fold es.
      intros j Hj. destruct (Bits j Hj) as [Q1 Q2].
      assert (Z.of_nat j + 1 <= num) by (unfold num; lia).
      assert ((Z.of_nat j + 1) * es <= num * es)
        by (apply Z.mul_le_mono_nonneg_r; lia).
      assert (0 <= Z.of_nat j * es) by (apply Z.mul_nonneg_nonneg; lia).
      lia.
    + bind_inv L as tv Ev.
      unfold calculateArray in C. bind_inv C as tw Ect.
      eapply (writeArray_loop_confined writer calculator r o c
                (o + c + 8) (o + c + 8 + bm) es);
        [ exact Ha | exact Hnull | exact Hc | exact Hpos | exact Eo
        | exact L | exact C | exact Ec3 |
        | lia | unfold lv, bm, es, num in *; lia ].
      intros j Hj. destruct (Bits j Hj) as [Q1 Q2].
      pose proof (getArrayElementSize_not_fixed _ Fx) as E8. fold es in E8.
      assert (Z.of_nat j + 1 <= num) by (unfold num; lia).
      assert ((Z.of_nat j + 1) * es <= num * es)
        by (apply Z.mul_le_mono_nonneg_r; lia).
      assert (0 <= Z.of_nat j * es) by (apply Z.mul_nonneg_nonneg; lia).
      lia.
Qed.

(** The loop of [writeStruct]. *)
Lemma writeStruct_loop_confined (wf : DataType -> VariableLengthDataWriter.Writer)
    (cf : DataType -> Field -> Result Z) (r : nat) (tuple : Tuple)
    (o bitmap start slots LO HI : Z) :
  vector_at offsets r = Ok o ->
  forall (ts : list DataType),
    Forall (fun t =>
              agree (wf t) (cf t) /\ null_free (cf t)
              /\ confined offsets (wf t) (cf t)
              /\ (forall f m, cf t f = Ok m -> 0 <= m)
              /\ (isFixedLengthDataType (removeNullable t) = true ->
                  measures_nothing (cf t))) ts ->
  forall (i : nat) (st st' : RowBuffer) (acc total cst : Z),
    for_each i (List.map (fun t => (t, wf t)) ts)
      (fun i '(field_type, writer) st =>
         field_value <- vector_at tuple i ;;
         if isNull field_value then
           mem <- bitSet (memory st) bitmap (Z.of_nat i) ;;
           Ok (set_memory st mem)
         else if isFixedLengthDataType (removeNullable field_type) then
           fixed <- FixedLengthDataWriter.ctor field_type ;;
           mem <- FixedLengthDataWriter.write fixed field_value (memory st)
                    (slots + Z.of_nat i * 8) ;;
           Ok (set_memory st mem)
         else
           _ <- VariableLengthDataWriter.ctor field_type ;;
           ' (st, offset_and_size) <- writer r field_value start st ;;
           mem <- memcpy (memory st) (slots + 8 * Z.of_nat i)
                    (le_bytes 8 offset_and_size) ;;
           Ok (set_memory st mem)) st = Ok st' ->
    for_each i (List.map (fun t => (t, cf t)) ts)
      (fun i '(field_type, calculator) res =>
         _ <- BackingDataLengthCalculator.ctor field_type ;;
         field_value <- vector_at tuple i ;;
         n <- calculator field_value ;;
         Ok (res + n)) acc = Ok total ->
    vector_at (cursor st) r = Ok cst ->
    (forall j, (i <= j < i + length ts)%nat ->
       LO <= bitmap + Z.shiftr (Z.of_nat j) 6 * 8
       /\ bitmap + Z.shiftr (Z.of_nat j) 6 * 8 + 8 <= HI
       /\ LO <= slots + Z.of_nat j * 8
       /\ slots + Z.of_nat j * 8 + 8 <= HI) ->
    LO <= o + cst -> o + cst + (total - acc) <= HI ->
    same_outside (memory st) (memory st') LO HI.
Proof.
  intros Eo.
  induction 1 as [|t ts (Ha & Hnull & Hc & Hpos & Hfix) F IH];
    intros i st st' acc total cst L C Ec B Hlo Hhi;
    cbn [for_each List.map] in L, C.
  - inv_Ok L. apply same_outside_refl.
  - bind_inv L as st1 S1. bind_inv C as acc1 Ce.
    bind_inv Ce as tc Etc. bind_inv Ce as fv Ev. bind_inv Ce as n1 Cn.
    inv_Ok Ce.
    pose proof (Hpos _ _ Cn) as Pn.
    assert (Mono : acc + n1 <= total).
    { eapply (calculateTuple_loop_nonneg
                (List.map (fun t => (t, cf t)) ts)); [ | exact C ].
      apply Forall_map. eapply Forall_impl; [ | exact F ].
      cbn [snd]. intros t' (_ & _ & _ & P & _). exact P. }
    destruct (B i ltac:(cbn [length]; lia)) as (B1 & B2 & B3 & B4).
    assert (B' : forall j, (S i <= j < S i + length ts)%nat ->
                   LO <= bitmap + Z.shiftr (Z.of_nat j) 6 * 8
                   /\ bitmap + Z.shiftr (Z.of_nat j) 6 * 8 + 8 <= HI
                   /\ LO <= slots + Z.of_nat j * 8
                   /\ slots + Z.of_nat j * 8 + 8 <= HI).
    { intros j Hj. apply B. cbn [length]. lia. }
    rewrite Ev in S1. cbn [bind] in S1.
    destruct (isNull fv) eqn:Ne.
    + bind_inv S1 as mem Em. inv_Ok S1.
      rewrite (Hnull fv n1 Ne Cn) in *.
      apply bitSet_same_outside in Em.
      eapply same_outside_trans
        with (m2 := memory (set_memory st mem)) (lo2 := LO) (hi2 := HI);
        [ exact Em
        | eapply (IH (S i) (set_memory st mem) st' (acc + 0) total cst);
          [ exact L | exact C | exact Ec | exact B' | lia | lia ]
        | lia | lia ].
    + destruct (isFixedLengthDataType (removeNullable t)) eqn:Fx.
      * bind_inv S1 as fixed Ef. bind_inv S1 as mem Em. inv_Ok S1.
        rewrite (Hfix eq_refl fv n1 Cn) in *.
        unfold FixedLengthDataWriter.ctor in Ef. rewrite Fx in Ef.
        cbn [negb] in Ef. inv_Ok Ef.
        apply FixedLengthDataWriter_write_same_outside in Em.
        destruct Em as [Em _].
        pose proof (getArrayElementSize_range (removeNullable t)).
        eapply same_outside_trans
          with (m2 := memory (set_memory st mem)) (lo2 := LO) (hi2 := HI);
          [ exact Em
          | eapply (IH (S i) (set_memory st mem) st' (acc + 0) total cst);
            [ exact L | exact C | exact Ec | exact B' | lia | lia ]
          | lia | lia ].
      * bind_inv S1 as tv Etv. bind_inv S1 as sd Ew. destruct sd as [s1 d].
        bind_inv S1 as mem Em. inv_Ok S1.
        pose proof (Hc _ _ _ _ _ _ _ _ _ Ew Cn Eo Ec) as F1.
        pose proof (Ha _ _ _ _ _ _ _ Ew Cn) as Adv.
        pose proof (advanced_cursor_at _ _ _ _ _ Adv Ec) as Ec1.
        apply memcpy_same_outside in Em. rewrite length_le_bytes in Em.
        change (Z.of_nat 8) with 8 in Em.
        eapply same_outside_trans
          with (m2 := memory (set_memory s1 mem)) (lo2 := LO) (hi2 := HI);
          [ eapply same_outside_trans with (lo := LO) (hi := HI);
            [ exact F1 | exact Em | lia | lia ]
          | eapply (IH (S i) (set_memory s1 mem) st' (acc + n1) total
                      (cst + n1));
            [ exact L | exact C | exact Ec1 | exact B' | lia | lia ]
          | lia | lia ].
Qed.

Lemma writeStruct_confined (wf : DataType -> VariableLengthDataWriter.Writer)
    (cf : DataType -> Field -> Result Z) (ts : list DataType) :
  Forall (fun t =>
            agree (wf t) (cf t) /\ null_free (cf t)
            /\ confined offsets (wf t) (cf t)
            /\ (forall f m, cf t f = Ok m -> 0 <= m)
            /\ (isFixedLengthDataType (removeNullable t) = true ->
                measures_nothing (cf t))) ts ->
  forall r tuple p st st' d n o c,
    VariableLengthDataWriter.writeStruct (List.map (fun t => (t, wf t)) ts)
      offsets r tuple p st = Ok (st', d) ->
    calculateTuple (List.map (fun t => (t, cf t)) ts) tuple = Ok n ->
    vector_at offsets r = Ok o ->
    vector_at (cursor st) r = Ok c ->
    same_outside (memory st) (memory st') (o + c) (o + c + n).
Proof.
  intros F r tuple p st st' d n o c W C Eo Ec.
  unfold VariableLengthDataWriter.writeStruct in W.
  unfold calculateTuple in C. rewrite length_map in W, C.
  rewrite Eo, Ec in W. cbn [bind] in W.
  destruct (Z.eqb_spec (Z.of_nat (length ts)) 0) as [Z0|NZ].
  - inv_Ok W. apply same_outside_refl.
  - bind_inv W as st1 A1. bind_inv W as st2 A2. bind_inv W as st3 L.
    bind_inv W as c' Ec'. inv_Ok W.
    pose proof (advance_cursor_at _ _ _ _ _ A1 Ec) as Ec1.
    pose proof (advance_cursor_at _ _ _ _ _ A2 Ec1) as Ec2.
    apply advance_inv in A1, A2. destruct A1 as [M1 _], A2 as [M2 _].
    assert (M : memory st2 = memory st) by congruence.
    pose proof (calculateBitSetWidthInBytes_nonneg (Z.of_nat (length ts))
                  ltac:(lia)) as Pb.
    assert (Mono : calculateBitSetWidthInBytes (Z.of_nat (length ts))
                   + 8 * Z.of_nat (length ts) <= n).
    { eapply (calculateTuple_loop_nonneg
                (List.map (fun t => (t, cf t)) ts)); [ | exact C ].
      apply Forall_map. eapply Forall_impl; [ | exact F ].
      cbn [snd]. intros t' (_ & _ & _ & P & _). exact P. }
    rewrite <- M.
    eapply (writeStruct_loop_confined wf cf r tuple o (o + c) c
              (o + c + calculateBitSetWidthInBytes (Z.of_nat (length ts))));
      [ exact Eo | exact F | exact L | exact C | exact Ec2 | | lia | lia ].
    intros j Hj.
    pose proof (bit_word_in_bitmap (Z.of_nat j) (Z.of_nat (length ts))
                  ltac:(lia)).
    lia.
Qed.

Lemma writeMap_confined (key_type val_type : DataType)
    (writer_key writer_val : VariableLengthDataWriter.Writer)
    (calculator_key calculator_val : Field -> Result Z) :
  agree writer_key calculator_key -> null_free calculator_key ->
  confined offsets writer_key calculator_key ->
  (forall f m, calculator_key f = Ok m -> 0 <= m) ->
  (isFixedLengthDataType (removeNullable key_type) = true ->
   measures_nothing calculator_key) ->
  agree writer_val calculator_val -> null_free calculator_val ->
  confined offsets writer_val calculator_val ->
  (forall f m, calculator_val f = Ok m -> 0 <= m) ->
  (isFixedLengthDataType (removeNullable val_type) = true ->
   measures_nothing calculator_val) ->
  forall r map p st st' d n o c,
    VariableLengthDataWriter.writeMap key_type val_type writer_key writer_val
      offsets r map p st = Ok (st', d) ->
    calculateMap key_type val_type calculator_key calculator_val map = Ok n ->
    vector_at offsets r = Ok o ->
    vector_at (cursor st) r = Ok c ->
    same_outside (memory st) (memory st') (o + c) (o + c + n).
Proof.
  intros Hk Hkn Hkc Hkp Hkf Hv Hvn Hvc Hvp Hvf
         r map p st st' d n o c W C Eo Ec.
  unfold VariableLengthDataWriter.writeMap in W. unfold calculateMap in C.
  rewrite Eo, Ec in W. cbn [bind] in W.
  bind_inv W as st1 A1.
  bind_inv W as kv Ekv. destruct kv as [ks vs].
  bind_inv W as sk Wk. destruct sk as [st2 dk].
  bind_inv W as mem Em. bind_inv W as sv Wv. destruct sv as [st3 dv].
  bind_inv W as c' Ec'. inv_Ok W.
  bind_inv C as kv' Ekv'. rewrite Ekv in Ekv'. inv_Ok Ekv'.
  bind_inv C as nk Ck. bind_inv C as nv Cv. inv_Ok C.
  pose proof (advance_cursor_at _ _ _ _ _ A1 Ec) as Ec1.
  apply advance_inv in A1. destruct A1 as [M1 _].
  pose proof (writeArray_confined key_type writer_key calculator_key
                Hk Hkn Hkc Hkp _ _ _ _ _ _ _ _ _ Wk Ck Eo Ec1) as Fk.
  pose proof (writeArray_agree key_type writer_key calculator_key
                Hk Hkn Hkf _ _ _ _ _ _ _ _ Wk Ck) as Ak.
  pose proof (advanced_cursor_at _ _ _ _ _ Ak Ec1) as Ec2.
  pose proof (calculateArray_nonneg _ _ _ _ Hkp Ck) as Pk.
  pose proof (array_header_nonneg key_type (length ks)) as [Pk1 Pk2].
  pose proof (calculateArray_nonneg _ _ _ _ Hvp Cv) as Pv.
  pose proof (array_header_nonneg val_type (length vs)) as [Pv1 Pv2].
  pose proof (writeArray_confined val_type writer_val calculator_val
                Hv Hvn Hvc Hvp _ _ _ _ _ _ _ _ _ Wv Cv Eo
                (Ec2 : vector_at (cursor (set_memory st2 mem)) r = _)) as Fv.
  cbn [set_memory memory] in Fv.
  apply memcpy_same_outside in Em. rewrite length_le_bytes in Em.
  change (Z.of_nat 8) with 8 in Em.
  rewrite M1 in Fk.
  eapply same_outside_trans with (lo2 := o + c) (hi2 := o + c + (8 + nk + nv));
    [ exact Fk | | lia | lia ].
  eapply same_outside_trans; [ exact Em | exact Fv | lia | lia ].
Qed.

(** The write pass changes no byte outside the region that the length
    pass has measured for the value. *)
Lemma write_confined (t : DataType) :
  confined offsets
    (fun r f p s => VariableLengthDataWriter.write t offsets r f p s)
    (calculate t).
Proof.
  induction t as [n IHn | k v IHk IHv | ts IHts | t Ha Ht Hm]
    using DataType_removeNullable_ind;
    intros r f p s s' d m o c W C Eo Ec.
  - destruct (isNull f) eqn:N.
    { rewrite write_isNull in W by exact N. inv_Ok W.
      apply same_outside_refl. }
    rewrite write_Array in W by exact N.
    rewrite calculate_Array in C by exact N.
    bind_inv W as a Ea. bind_inv C as a' Ea'.
    rewrite Ea in Ea'. inv_Ok Ea'.
    eapply (writeArray_confined n
              (fun r f p s =>
                 VariableLengthDataWriter.write (removeNullable n) offsets
                   r f p s)
              (calculate (removeNullable n))); try eassumption.
    + apply write_agrees_with_calculate.
    + apply calculate_null_free.
    + apply calculate_nonneg.
  - destruct (isNull f) eqn:N.
    { rewrite write_isNull in W by exact N. inv_Ok W.
      apply same_outside_refl. }
    rewrite write_Map in W by exact N.
    rewrite calculate_Map in C by exact N.
    bind_inv W as a Ea. bind_inv C as a' Ea'.
    rewrite Ea in Ea'. inv_Ok Ea'.
    eapply (writeMap_confined k v
              (fun r f p s =>
                 VariableLengthDataWriter.write (removeNullable k) offsets
                   r f p s)
              (fun r f p s =>
                 VariableLengthDataWriter.write (removeNullable v) offsets
                   r f p s)
              (calculate (removeNullable k)) (calculate (removeNullable v)));
      try eassumption;
      first [ apply write_agrees_with_calculate
            | apply calculate_null_free
            | apply calculate_nonneg
            | apply calculate_measures_nothing ].
  - destruct (isNull f) eqn:N.
    { rewrite write_isNull in W by exact N. inv_Ok W.
      apply same_outside_refl. }
    rewrite write_Tuple in W by exact N.
    rewrite calculate_Tuple in C by exact N.
    bind_inv W as a Ea. bind_inv C as a' Ea'.
    rewrite Ea in Ea'. inv_Ok Ea'.
    eapply (writeStruct_confined
              (fun t r f p s =>
                 VariableLengthDataWriter.write (removeNullable t) offsets
                   r f p s)
              (fun t => calculate (removeNullable t)) ts);
      try eassumption.
    eapply Forall_impl; [ | exact IHts ]. cbn beta. intros t Hc.
    split; [ apply write_agrees_with_calculate | ].
    split; [ apply calculate_null_free | ].
    split; [ exact Hc | ].
    split; [ apply calculate_nonneg | apply calculate_measures_nothing ].
  - rewrite write_leaf in W by assumption.
    destruct (isNull f) eqn:N.
    { inv_Ok W. apply same_outside_refl. }
    rewrite calculate_leaf in C by assumption. rewrite N in C.
    destruct (isStringOrFixedString t) eqn:S.
    + assert (NF : isNativeInt t || isNativeUInt t || isFloat t
                   || isDateOrDate32 t || isDateTime64 t
                   || isDecimal32 t || isDecimal64 t = false)
        by (destruct t; try discriminate S; reflexivity).
      rewrite NF in C.
      bind_inv W as str Es.
      bind_inv C as str' Es'. rewrite Es in Es'. inv_Ok Es'. inv_Ok C.
      apply writeUnalignedBytes_inv in W.
      destruct W as (o' & c0 & mem & Eo' & Ec0 & Em & M & _).
      subst mem.
      rewrite Eo in Eo'. rewrite Ec in Ec0. inv_Ok Eo'. inv_Ok Ec0.
      apply memcpy_same_outside in Em.
      match type of Em with
      | same_outside _ _ _ (_ + ?len) =>
          pose proof (roundNumberOfBytesToNearestWord_bounds len)
      end.
      eapply same_outside_weaken; [ exact Em | lia ].
    + destruct (isDecimal128 t) eqn:D; [ | discriminate W ].
      assert (NF : isNativeInt t || isNativeUInt t || isFloat t
                   || isDateOrDate32 t || isDateTime64 t
                   || isDecimal32 t || isDecimal64 t = false)
        by (destruct t; try discriminate D; reflexivity).
      rewrite NF in C. inv_Ok C.
      bind_inv W as v Ev. bind_inv W as buf Eb.
      apply swapDecimalEndianBytes_length in Eb. destruct Eb as [_ Lb].
      apply writeUnalignedBytes_inv in W.
      destruct W as (o' & c0 & mem & Eo' & Ec0 & Em & M & _).
      subst mem.
      rewrite Eo in Eo'. rewrite Ec in Ec0. inv_Ok Eo'. inv_Ok Ec0.
      apply memcpy_same_outside in Em. rewrite Lb in Em.
      change (Z.of_nat 16) with 16 in Em. exact Em.
Qed.

End Frame.

(** X20. [VariableLengthDataWriter::write] never writes outside the
    region that [calculate] has measured for the value: whenever it
    returns, the buffer has kept its size, and every byte before the
    cursor of the row, or at least [calculate(field)] bytes after it, is as
    it was.  (Other rows, and what is already written of this row, are
    left alone.) *)
Theorem write_stays_in_measured_region (t : DataType) (offsets : list Z)
    (row_idx : nat) (f : Field) (parent_offset : Z) (st st' : RowBuffer)
    (d n offset c : Z) :
  VariableLengthDataWriter.write t offsets row_idx f parent_offset st
  = Ok (st', d) ->
  calculate t f = Ok n ->
  vector_at offsets row_idx = Ok offset ->
  vector_at (cursor st) row_idx = Ok c ->
  length (memory st') = length (memory st)
  /\ forall k : nat,
       Z.of_nat k < offset + c \/ offset + c + n <= Z.of_nat k ->
       nth_error (memory st') k = nth_error (memory st) k.
Proof.
  intros W C Eo Ec.
  exact (write_confined offsets t _ _ _ _ _ _ _ _ _ W C Eo Ec).
Qed.

Lemma write_stays_in_measured_region_witness :
  let st := mkRowBuffer (repeat x00 40) [16] in
  let st' :=
    mkRowBuffer
      (repeat x00 16 ++ [x02] ++ repeat x00 15
       ++ [x01; x00; x00; x00; x02; x00; x00; x00]) [40] in
  length (memory st') = length (memory st)
  /\ forall k : nat,
       Z.of_nat k < 0 + 16 \/ 0 + 16 + 24 <= Z.of_nat k ->
       nth_error (memory st') k = nth_error (memory st) k.
Proof.
  intros st st'.
  apply (write_stays_in_measured_region (DataTypeArray DataTypeInt32) [0]
           0%nat (FArray [FInt64 1; FInt64 2]) 0 st st' 68719476760 24 0 16);
    reflexivity.
Defined.

Import WhichDataType.
Import BackingDataLengthCalculator.

(** ** What the conversion leaves in the rows *)

Section Cells.

Variable offsets : list Z.
Variable masks : MaskVector.
Variable col : ColumnWithTypeAndName.

Local Abbreviation col_full :=
  (mkColumn (convertToFullIfNeeded (column col))
     (removeLowCardinality (type col))).

Local Abbreviation twn := (removeLowCardinalityAndNullable (type col)).

Local Ltac cell_goal Ecol :=
  unfold cell_written, value_written; cbn [type column];
  unfold convertToFullIfNeeded;
  change (removeNullable (removeLowCardinality (type col))) with twn;
  rewrite ?Ecol; cbn [null_flag column_cells].

(** Every step of the loop over the rows in [writeValue] writes one cell:
    what holds before the loop and is kept by the writing of a cell holds
    when [writeValue] returns. *)
Lemma writeValue_cells (field_offset col_index : Z) (n : nat)
    (st st' : RowBuffer) (Inv : nat -> RowBuffer -> Prop) :
  writeValue offsets masks field_offset col_full col_index n st = Ok st' ->
  Inv 0%nat st ->
  (forall i s s', (i < n)%nat -> Inv i s ->
     cell_written offsets masks col_full field_offset col_index i s s' ->
     Inv (S i) s') ->
  Inv n st'.
Proof.
  intros H I0 Step.
  assert (Loop : forall body,
             (forall i s s', body i s = Ok s' ->
                cell_written offsets masks col_full field_offset col_index
                  i s s') ->
             for_loop 0 n body st = Ok st' -> Inv n st').
  { intros body Hb L.
    apply (for_loop_invariant Inv) in L; [ exact L | exact I0 | ].
    intros i s s' Hi I B. apply (Step i s s'); [ lia | exact I | ].
    apply Hb. exact B. }
  unfold writeValue in H. cbn [type column] in H.
  unfold convertToFullIfNeeded in H.
  change (removeNullable (removeLowCardinality (type col))) with twn in H.
  assert (FC : FixedLengthDataWriter.ctor (removeLowCardinality (type col))
               = if isFixedLengthDataType twn then Ok twn
                 else Throw UNKNOWN_TYPE).
  { unfold FixedLengthDataWriter.ctor.
    change (removeNullable (removeLowCardinality (type col))) with twn.
    destruct (isFixedLengthDataType twn); reflexivity. }
  assert (VC : VariableLengthDataWriter.ctor
                 (removeLowCardinality (type col))
               = if isVariableLengthDataType twn then Ok twn
                 else Throw UNKNOWN_TYPE).
  { unfold VariableLengthDataWriter.ctor.
    change (removeNullable (removeLowCardinality (type col))) with twn.
    destruct (isVariableLengthDataType twn); reflexivity. }
  destruct (isFixedLengthDataType twn) eqn:Fx.
  - destruct (column col) as [cells|null_map nested] eqn:Ecol;
      cbn [isColumnNullable] in H.
    + unfold writeFixedLengthNonNullableValue in H. cbn [type column] in H.
      rewrite FC in H. cbn [bind] in H.
      destruct (isDecimal32 twn) eqn:D32;
        (eapply Loop; [ | exact H ]); intros i s s' B; cbn beta in B.
      * bind_inv B as row_idx Er. bind_inv B as field Ef.
        bind_inv B as offset Eo. bind_inv B as mem Em. inv_Ok B.
        cell_goal Ecol. rewrite Fx, D32.
        exists row_idx, offset, false. repeat split; try assumption.
        exists field, mem. unfold convertToFullIfNeeded in Ef.
        rewrite ?Ecol in Ef. cbn [column_get] in Ef. auto.
      * bind_inv B as row_idx Er. bind_inv B as str Es.
        bind_inv B as offset Eo. bind_inv B as mem Em. inv_Ok B.
        cell_goal Ecol. rewrite Fx, D32.
        exists row_idx, offset, false. repeat split; try assumption.
        exists str, mem. unfold convertToFullIfNeeded in Es.
        rewrite ?Ecol in Es. cbn [column_getDataAt] in Es. auto.
    + unfold writeFixedLengthNullableValue in H. cbn [type column] in H.
      unfold convertToFullIfNeeded in H. rewrite ?Ecol in H.
      cbn [checkAndGetColumn_ColumnNullable bind] in H.
      rewrite FC in H. cbn [bind] in H.
      destruct (isDecimal32 twn) eqn:D32;
        (eapply Loop; [ | exact H ]); intros i s s' B; cbn beta in B.
      * bind_inv B as row_idx Er. bind_inv B as is_null Ei.
        cell_goal Ecol. rewrite Fx, D32.
        destruct is_null.
        { unfold set_null_bit in B. bind_inv B as offset Eo.
          bind_inv B as mem Em. inv_Ok B.
          exists row_idx, offset, true. repeat split; try assumption.
          exists mem. auto. }
        bind_inv B as field Ef. bind_inv B as offset Eo.
        bind_inv B as mem Em. inv_Ok B.
        exists row_idx, offset, false. repeat split; try assumption.
        exists field, mem. cbn [column_get] in Ef. rewrite Ei in Ef.
        cbn [bind] in Ef. auto.
      * bind_inv B as row_idx Er. bind_inv B as is_null Ei.
        cell_goal Ecol. rewrite Fx, D32.
        destruct is_null.
        { unfold set_null_bit in B. bind_inv B as offset Eo.
          bind_inv B as mem Em. inv_Ok B.
          exists row_idx, offset, true. repeat split; try assumption.
          exists mem. auto. }
        bind_inv B as str Es. bind_inv B as offset Eo.
        bind_inv B as mem Em. inv_Ok B.
        exists row_idx, offset, false. repeat split; try assumption.
        exists str, mem. auto.
  - destruct (isVariableLengthDataType twn) eqn:V; [ | discriminate H ].
    destruct (column col) as [cells|null_map nested] eqn:Ecol;
      cbn [isColumnNullable] in H.
    + unfold writeVariableLengthNonNullableValue in H.
      cbn [type column] in H.
      change (removeNullable (removeLowCardinality (type col)))
        with twn in H.
      rewrite VC in H. rewrite ?V in H. cbn [bind] in H.
      unfold convertToFullIfNeeded in H. rewrite ?Ecol in H.
      destruct (isDataTypeSupportRawData twn) eqn:R.
      * destruct (isBigEndianInSparkRow twn) eqn:BE; cbn [negb] in H;
          (eapply Loop; [ | exact H ]); intros i s s' B; cbn beta in B.
        -- bind_inv B as row_idx Er. bind_inv B as str Es.
           bind_inv B as buf Eb. bind_inv B as sd Ewr.
           destruct sd as [s1 d]. unfold store_offset_and_size in B.
           bind_inv B as offset Eo. bind_inv B as mem Em. inv_Ok B.
           cell_goal Ecol. rewrite Fx, R, BE.
           exists row_idx, offset, false. repeat split; try assumption.
           exists s1, d, mem. repeat split; try assumption.
           exists str, buf. cbn [column_getDataAt] in Es. auto.
        -- bind_inv B as row_idx Er. bind_inv B as str Es.
           bind_inv B as sd Ewr.
           destruct sd as [s1 d]. unfold store_offset_and_size in B.
           bind_inv B as offset Eo. bind_inv B as mem Em. inv_Ok B.
           cell_goal Ecol. rewrite Fx, R, BE.
           exists row_idx, offset, false. repeat split; try assumption.
           exists s1, d, mem. repeat split; try assumption.
           exists str, str. cbn [column_getDataAt] in Es. auto.
      * (eapply Loop; [ | exact H ]); intros i s s' B; cbn beta in B.
        bind_inv B as row_idx Er. bind_inv B as field Ef.
        bind_inv B as sd Ewr.
        destruct sd as [s1 d]. unfold store_offset_and_size in B.
        bind_inv B as offset Eo. bind_inv B as mem Em. inv_Ok B.
        cell_goal Ecol. rewrite Fx, R.
        exists row_idx, offset, false. repeat split; try assumption.
        exists s1, d, mem. repeat split; try assumption.
        exists field. cbn [column_get] in Ef. auto.
    + unfold writeVariableLengthNullableValue in H.
      cbn [type column] in H.
      change (removeNullable (removeLowCardinality (type col)))
        with twn in H.
      unfold convertToFullIfNeeded in H. rewrite ?Ecol in H.
      cbn [checkAndGetColumn_ColumnNullable bind] in H.
      rewrite VC in H. rewrite ?V in H. cbn [bind] in H.
      destruct (isDataTypeSupportRawData twn) eqn:R;
        (eapply Loop; [ | exact H ]); intros i s s' B; cbn beta in B.
      * bind_inv B as row_idx Er. bind_inv B as is_null Ei.
        cell_goal Ecol. rewrite Fx, R.
        destruct is_null.
        { unfold set_null_bit in B. bind_inv B as offset Eo.
          bind_inv B as mem Em. inv_Ok B.
          exists row_idx, offset, true. repeat split; try assumption.
          exists mem. auto. }
        destruct (isBigEndianInSparkRow twn) eqn:BE; cbn [negb] in B.
        -- bind_inv B as cell Ecell. bind_inv B as str Es.
           bind_inv B as buf Eb. bind_inv B as sd Ewr.
           destruct sd as [s1 d]. unfold store_offset_and_size in B.
           bind_inv B as offset Eo. bind_inv B as mem Em. inv_Ok B.
           exists row_idx, offset, false. repeat split; try assumption.
           exists s1, d, mem. repeat split; try assumption.
           exists str, buf. auto.
        -- bind_inv B as str Es. bind_inv B as sd Ewr.
           destruct sd as [s1 d]. unfold store_offset_and_size in B.
           bind_inv B as offset Eo. bind_inv B as mem Em. inv_Ok B.
           exists row_idx, offset, false. repeat split; try assumption.
           exists s1, d, mem. repeat split; try assumption.
           exists str, str. auto.
      * bind_inv B as row_idx Er. bind_inv B as is_null Ei.
        cell_goal Ecol. rewrite Fx, R.
        destruct is_null.
        { unfold set_null_bit in B. bind_inv B as offset Eo.
          bind_inv B as mem Em. inv_Ok B.
          exists row_idx, offset, true. repeat split; try assumption.
          exists mem. auto. }
        bind_inv B as field Ef. bind_inv B as sd Ewr.
        destruct sd as [s1 d]. unfold store_offset_and_size in B.
        bind_inv B as offset Eo. bind_inv B as mem Em. inv_Ok B.
        exists row_idx, offset, false. repeat split; try assumption.
        exists s1, d, mem. repeat split; try assumption.
        exists field. auto.
Qed.

Lemma backing_size_cell (i row_idx : nat) (is_null : bool) :
  row_index masks i = Ok row_idx ->
  null_flag (column col) row_idx = Ok is_null ->
  backing_size masks col i
  = if isVariableLengthDataType twn then
      if is_null then Ok 0
      else if isDataTypeSupportRawData twn then
        str <- getDataAt twn (column_cells (column col)) row_idx ;;
        Ok (roundNumberOfBytesToNearestWord (Z.of_nat (length str)))
      else
        field <- vector_at (column_cells (column col)) row_idx ;;
        calculate twn field
    else Ok 0.
Proof.
  intros Er En. unfold backing_size.
  destruct (isVariableLengthDataType twn); [ | reflexivity ].
  destruct (isDataTypeSupportRawData twn);
    destruct (column col) as [cells|null_map nested];
    cbn [null_flag column_cells column_get] in *;
    rewrite Er; cbn [bind]; try rewrite En; cbn [bind].
  - inv_Ok En. reflexivity.
  - destruct is_null; reflexivity.
  - inv_Ok En. reflexivity.
  - destruct is_null; [ apply calculate_Null | reflexivity ].
Qed.

(** What the writing of a cell changes: the cursor of the row moves by the
    backing data that phase 1 has added for the cell; a null cell sets its
    bit and nothing else; the value of another cell changes no byte
    outside the slot of the cell and the backing data at the cursor. *)
Lemma cell_written_footprint (field_offset col_index : Z) (i : nat)
    (s s' : RowBuffer) (v : Z) :
  cell_written offsets masks col_full field_offset col_index i s s' ->
  backing_size masks col i = Ok v ->
  advanced s s' i v
  /\ exists row_idx o is_null,
       row_index masks i = Ok row_idx
       /\ vector_at offsets i = Ok o
       /\ null_flag (column col) row_idx = Ok is_null
       /\ (is_null = true ->
           bitSet (memory s) o col_index = Ok (memory s') /\ v = 0)
       /\ (is_null = false ->
           forall c, nth_error (cursor s) i = Some c ->
           forall k : nat,
             Z.of_nat k < o + field_offset
             \/ o + field_offset + 8 <= Z.of_nat k ->
             Z.of_nat k < o + c \/ o + c + v <= Z.of_nat k ->
             nth_error (memory s') k = nth_error (memory s) k).
Proof.
  intros (row_idx & o & is_null & Er & Eo & En & W) Ev.
  cbn [column] in En. unfold convertToFullIfNeeded in En.
  rewrite (backing_size_cell i row_idx is_null Er En) in Ev.
  assert (Via : forall P : Prop,
             P -> (advanced s s' i v -> P) -> P) by auto.
  destruct is_null.
  - destruct W as (mem & Em & ->).
    assert (v = 0)
      by (destruct (isVariableLengthDataType twn); inv_Ok Ev; reflexivity).
    subst v. split.
    + apply advanced_set_memory. eapply bitSet_length. exact Em.
    + exists row_idx, o, true. repeat split; try assumption.
      discriminate.
  - unfold value_written in W. cbn [type column] in W.
    unfold convertToFullIfNeeded in W.
    change (removeNullable (removeLowCardinality (type col))) with twn in W.
    destruct (isFixedLengthDataType twn) eqn:Fx.
    + rewrite (fixed_not_variable _ Fx) in Ev. inv_Ok Ev.
      pose proof (getArrayElementSize_range twn) as Hes.
      assert (F : exists mem,
                 s' = set_memory s mem
                 /\ same_outside (memory s) mem (o + field_offset)
                      (o + field_offset + 8)).
      { destruct (isDecimal32 twn).
        - destruct W as (field & mem & Ef & Em & ->).
          exists mem. split; [ reflexivity | ].
          apply FixedLengthDataWriter_write_same_outside in Em.
          destruct Em as [Em _].
          eapply same_outside_weaken; [ exact Em | lia ].
        - destruct W as (str & mem & Es & Em & ->).
          exists mem. split; [ reflexivity | ].
          unfold getDataAt in Es. bind_inv Es as cell Ecell.
          pose proof (native_bytes_fixed_length _ _ _ Fx Es) as Ls.
          apply memcpy_same_outside in Em.
          eapply same_outside_weaken; [ exact Em | lia ]. }
      destruct F as (mem & -> & [Lm Hm]). split.
      * apply advanced_set_memory. exact Lm.
      * exists row_idx, o, false. repeat split; try assumption;
          try discriminate.
        intros _ c Ec k K1 K2. cbn [set_memory memory].
        apply Hm. exact K1.
    + destruct W as (V & s1 & d & mem & W & Em & ->).
      rewrite V in Ev.
      assert (A1 : advanced s s1 i v
                   /\ forall c, nth_error (cursor s) i = Some c ->
                        same_outside (memory s) (memory s1) (o + c)
                          (o + c + v)).
      { destruct (isDataTypeSupportRawData twn) eqn:R.
        - destruct W as (str & buf & Es & Eb & W).
          rewrite Es in Ev. cbn [bind] in Ev. inv_Ok Ev.
          assert (Lb : length buf = length str).
          { destruct (isBigEndianInSparkRow twn); [ | congruence ].
            apply swapDecimalEndianBytes_length in Eb. lia. }
          split.
          + apply writeUnalignedBytes_advanced in W. rewrite Lb in W.
            exact W.
          + intros c Ec.
            apply writeUnalignedBytes_inv in W.
            destruct W as (o' & c' & m1 & Eo' & Ec' & Em1 & M1 & _).
            rewrite Eo in Eo'. inv_Ok Eo'.
            apply vector_at_Ok in Ec'. rewrite Ec in Ec'.
            injection Ec' as <-.
            apply memcpy_same_outside in Em1.
            eapply same_outside_weaken; [ exact Em1 | ]. rewrite Lb.
            pose proof (roundNumberOfBytesToNearestWord_bounds
                          (Z.of_nat (length str))).
            lia.
        - destruct W as (field & Ef & W).
          rewrite Ef in Ev. cbn [bind] in Ev. split.
          + eapply (write_agrees_with_calculate offsets twn); eassumption.
          + intros c Ec. apply vector_at_Ok in Ec.
            eapply (write_confined offsets twn); eassumption. }
      destruct A1 as [A1 F1]. split.
      * apply (advanced_eq _ _ _ (v + 0)); [ | lia ].
        eapply advanced_trans; [ exact A1 | ].
        apply advanced_set_memory. eapply memcpy_length. exact Em.
      * exists row_idx, o, false. repeat split; try assumption;
          try discriminate.
        intros _ c Ec k K1 K2. cbn [set_memory memory].
        apply memcpy_same_outside in Em. rewrite length_le_bytes in Em.
        destruct Em as [_ Hm]. rewrite Hm by (change (Z.of_nat 8) with 8; lia).
        destruct (F1 c Ec) as [_ H1]. apply H1. exact K2.
Qed.

End Cells.

Import WhichDataType.
Import BackingDataLengthCalculator.

(** ** The conversion, cell by cell *)

Lemma add_columns_snoc (masks : MaskVector) (n : nat)
    (cols : list ColumnWithTypeAndName) (col : ColumnWithTypeAndName)
    (cs : list Z) :
  add_columns masks n (cols ++ [col]) cs
  = add_rows (column_sizes masks col) n (add_columns masks n cols cs).
Proof. unfold add_columns. rewrite fold_left_app. reflexivity. Qed.

Lemma row_backing_snoc (masks : MaskVector)
    (cols : list ColumnWithTypeAndName) (col : ColumnWithTypeAndName)
    (i : nat) :
  row_backing masks (cols ++ [col]) i
  = row_backing masks cols i + column_sizes masks col i.
Proof.
  unfold row_backing. rewrite map_app, sum_Z_app.
  unfold sum_Z at 2. cbn [List.map fold_right]. lia.
Qed.

Lemma row_backing_firstn_S (masks : MaskVector) (block : Block) (j : nat)
    (col : ColumnWithTypeAndName) (i : nat) :
  nth_error block j = Some col ->
  row_backing masks (firstn (S j) block) i
  = row_backing masks (firstn j block) i + column_sizes masks col i.
Proof.
  intros E. rewrite (firstn_S_nth_error _ _ _ E). apply row_backing_snoc.
Qed.

Lemma row_backing_firstn_le (masks : MaskVector) (block : Block) (j : nat)
    (i : nat) :
  row_backing masks (firstn j block) i <= row_backing masks block i.
Proof.
  rewrite <- (firstn_skipn j block) at 2.
  unfold row_backing. rewrite map_app, sum_Z_app.
  pose proof (row_backing_nonneg masks (skipn j block) i) as H.
  unfold row_backing in H. lia.
Qed.

(** The two phases of a conversion that returns. *)
Lemma convert_phases (block : Block) (masks : MaskVector)
    (info : SparkRowInfo) :
  convertCHColumnToSparkRow block masks = Ok info ->
  exists info1,
    SparkRowInfo_of_Block block masks = Ok info1
    /\ for_loop 0 (columns block) (convert_column block masks)
         (setBufferAddress info1 (Some (alloc_zeroed (total_bytes info1))))
       = Ok info
    /\ all_measured masks (num_rows info1) block
    /\ num_rows info = num_rows info1
    /\ num_cols info = Z.of_nat (columns block)
    /\ offsets info = offsets info1
    /\ lengths info = lengths info1
    /\ total_bytes info = total_bytes info1
    /\ null_bitset_width_in_bytes info
       = calculateBitSetWidthInBytes (Z.of_nat (columns block))
    /\ null_bitset_width_in_bytes info1
       = calculateBitSetWidthInBytes (Z.of_nat (columns block))
    /\ num_cols info1 = Z.of_nat (columns block)
    /\ buffer_cursor info1
       = repeat (calculatedFixeSizePerRow (Z.of_nat (columns block)))
           (num_rows info1).
Proof.
  intros H. unfold convertCHColumnToSparkRow in H.
  destruct (Nat.eqb_spec (columns block) 0) as [|Ne]; [ discriminate | ].
  bind_inv H as info1 E1. exists info1. split; [ exact E1 | ].
  unfold SparkRowInfo_of_Block in E1.
  apply SparkRowInfo_ctor_inv in E1.
  destruct E1 as (Hty & Hn & Hc & Hw & Hcur & _ & Hl & _).
  apply (phase1_columns masks _ block []) in Hl. destruct Hl as [_ F].
  cbv zeta in H.
  change (num_cols (setBufferAddress info1
                      (Some (alloc_zeroed (total_bytes info1)))))
    with (num_cols info1) in H.
  rewrite Hc, Nat2Z.id in H. unfold convert_columns in H.
  split; [ exact H | ]. rewrite <- Hn in F. split; [ exact F | ].
  apply (phase2_columns masks block []) in H; [ | exact F ].
  unfold setBufferAddress in H.
  cbn [num_rows lengths offsets num_cols total_bytes types
       null_bitset_width_in_bytes buffer_cursor] in H.
  destruct H as (_ & Hl' & Ho' & Hn' & Hc' & Ht' & _ & Hw').
  rewrite Hn at 2. rewrite <- Hn.
  repeat (split; [ congruence | ]). congruence.
Qed.

(** A property of the buffer that holds of the zeroed buffer and is kept
    by the writing of every cell holds of the buffer that the conversion
    returns.  [P j i] is the property after columns [0] to [j - 1] and the
    first [i] rows of column [j]; the cursor of a row stands after the
    fixed part and the backing data of the earlier columns. *)
Lemma convert_invariant (block : Block) (masks : MaskVector)
    (info : SparkRowInfo) (P : nat -> nat -> list byte -> Prop) :
  convertCHColumnToSparkRow block masks = Ok info ->
  P 0%nat 0%nat (alloc_zeroed (total_bytes info)) ->
  (forall j i col s s' v,
     nth_error block j = Some col -> (i < num_rows info)%nat ->
     backing_size masks col i = Ok v ->
     nth_error (cursor s) i
     = Some (calculatedFixeSizePerRow (num_cols info)
             + row_backing masks (firstn j block) i) ->
     Z.of_nat (length (memory s)) = total_bytes info ->
     P j i (memory s) ->
     cell_written (offsets info) masks
       (mkColumn (convertToFullIfNeeded (column col))
          (removeLowCardinality (type col)))
       (getFieldOffset info (Z.of_nat j)) (Z.of_nat j) i s s' ->
     P j (S i) (memory s')) ->
  (forall j m, (j < columns block)%nat ->
     P j (num_rows info) m -> P (S j) 0%nat m) ->
  exists mem, buffer_address info = Some mem /\ P (columns block) 0%nat mem.
Proof.
  intros H P0 Prow Pcol.
  destruct (convert_phases _ _ _ H)
    as (info1 & E1 & H2 & F & Hn & Hc & Ho & Hl & Ht & Hw & Hw1 & Hc1 & Hcur).
  unfold SparkRowInfo_of_Block in E1.
  pose proof (SparkRowInfo_ctor_layout _ _ _ _ _ _ E1)
    as (Lo & Ll & _ & _ & Pt).
  apply (for_loop_invariant
           (fun j x =>
              num_rows x = num_rows info1
              /\ offsets x = offsets info1
              /\ null_bitset_width_in_bytes x
                 = null_bitset_width_in_bytes info1
              /\ buffer_cursor x
                 = add_columns masks (num_rows info1) (firstn j block)
                     (buffer_cursor info1)
              /\ exists mem,
                   buffer_address x = Some mem
                   /\ Z.of_nat (length mem) = total_bytes info1
                   /\ P j 0%nat mem)) in H2.
  - destruct H2 as (_ & _ & _ & _ & mem & Em & _ & PP).
    exists mem. split; [ exact Em | exact PP ].
  - unfold setBufferAddress.
    cbn [num_rows offsets null_bitset_width_in_bytes buffer_cursor
         buffer_address firstn].
    repeat (split; [ reflexivity | ]).
    exists (alloc_zeroed (total_bytes info1)).
    split; [ reflexivity | ].
    split; [ apply length_alloc_zeroed; exact Pt | ].
    rewrite <- Ht. exact P0.
  - intros j x x' Hj (In & Io & Iw & Ic & mem & Em & Lm & PP) B.
    apply convert_column_inv in B.
    destruct B as (col & mem0 & st & Nth & Em0 & Ew & ->).
    rewrite Em in Em0. inversion Em0; subst mem0; clear Em0.
    cbn [num_rows offsets null_bitset_width_in_bytes buffer_cursor
         buffer_address].
    assert (Hcol : forall i, (i < num_rows info1)%nat ->
                     exists v, backing_size masks col i = Ok v).
    { unfold all_measured in F. rewrite Forall_forall in F.
      apply F. eapply nth_error_In. exact Nth. }
    unfold getFieldOffset in Ew. rewrite In, Io, Iw in Ew.
    apply (writeValue_cells (offsets info1) masks col _ _ _ _ _
             (fun i s =>
                cursor s
                = add_rows (column_sizes masks col) i (buffer_cursor x)
                /\ Z.of_nat (length (memory s)) = total_bytes info1
                /\ P j i (memory s))) in Ew.
    + destruct Ew as (Cs & Ls & PP').
      repeat (split; [ first [ assumption | reflexivity ] | ]).
      split.
      * rewrite (firstn_S_nth_error _ _ _ Nth), add_columns_snoc, <- Ic.
        exact Cs.
      * exists (memory st). split; [ reflexivity | ].
        split; [ exact Ls | ].
        apply Pcol; [ lia | ]. rewrite Hn. exact PP'.
    + cbn [cursor memory add_rows]. auto.
    + intros i s s' Hi (Cs & Ls & Pi) CW.
      destruct (Hcol i Hi) as [v Ev].
      destruct (cell_written_footprint _ _ _ _ _ _ _ _ _ CW Ev)
        as [[A1 A2] _].
      split; [ | split ].
      * cbn [add_rows]. rewrite (column_sizes_Ok _ _ _ _ Ev), <- Cs.
        exact A1.
      * congruence.
      * apply (Prow j i col s s' v); try assumption.
        -- lia.
        -- rewrite Cs, Ic.
           assert (E0 : nth_error (buffer_cursor info1) i
                        = Some (calculatedFixeSizePerRow
                                  (Z.of_nat (columns block)))).
           { rewrite Hcur. apply nth_error_repeat. exact Hi. }
           pose proof (nth_error_add_columns masks (num_rows info1) i Hi
                         (firstn j block) _ _ E0) as E1'.
           rewrite (nth_error_add_rows _ _ _ _ _ E1').
           rewrite Nat.ltb_irrefl, Hc. reflexivity.
        -- congruence.
        -- unfold getFieldOffset. rewrite Ho, Hw, <- Hw1. exact CW.
Qed.

Import WhichDataType.
Import BackingDataLengthCalculator.

(** ** One cell of the output *)

Lemma load_unchanged (mem mem' : list byte) (a : Z) (n : nat) :
  length mem' = length mem ->
  (forall k : nat, a <= Z.of_nat k < a + Z.of_nat n ->
     nth_error mem' k = nth_error mem k) ->
  load mem' a n = load mem a n.
Proof.
  intros L H. apply load_length_eq; [ exact L | ].
  intros Ha _. apply nth_error_ext_firstn_skipn.
  intros k Hk. apply H. lia.
Qed.

Lemma isBitSet_unchanged (mem mem' : list byte) (bitmap index : Z) :
  length mem' = length mem ->
  (forall k : nat,
     bitmap + Z.shiftr index 6 * 8 <= Z.of_nat k
     < bitmap + Z.shiftr index 6 * 8 + 8 ->
     nth_error mem' k = nth_error mem k) ->
  isBitSet mem' bitmap index = isBitSet mem bitmap index.
Proof.
  intros L H. rewrite !isBitSet_testbit.
  rewrite (load_unchanged mem mem' _ 8 L); [ reflexivity | ].
  intros k Hk. apply H. change (Z.of_nat 8) with 8 in Hk. lia.
Qed.

(** [bitSet] sets its bit and keeps the other bits of the bitmap. *)
Lemma isBitSet_bitSet (mem mem' : list byte) (bitmap index : Z) :
  bitSet mem bitmap index = Ok mem' ->
  isBitSet mem' bitmap index = Ok true
  /\ forall j, j <> index ->
       isBitSet mem' bitmap j = isBitSet mem bitmap j.
Proof.
  intros H. unfold bitSet in H.
  set (addr := bitmap + Z.shiftr index 6 * 8) in *.
  bind_inv H as bs Lbs.
  set (value := Z.lor (to_int64 (le_value bs))
                  (to_int64 (Z.shiftl 1 (Z.land index 63)))) in *.
  pose proof (land_63_range index) as Hk.
  assert (Lnew : load mem' addr 8 = Ok (le_bytes 8 value))
    by (apply (load_memcpy_same _ _ _ _ H)).
  assert (Bit : forall n, 0 <= n < 64 ->
            Z.testbit (le_value (le_bytes 8 value)) n
            = Z.testbit (le_value bs) n || (Z.land index 63 =? n)).
  { intros n Hn. rewrite le_value_le_bytes.
    rewrite Z.mod_pow2_bits_low by (change (Z.of_nat 8) with 8; lia).
    unfold value. rewrite Z.lor_spec, to_int64_testbit, mask_testbit by lia.
    reflexivity. }
  split.
  - rewrite isBitSet_testbit. fold addr. rewrite Lnew. cbn [bind].
    rewrite Bit by assumption. rewrite Z.eqb_refl, orb_true_r. reflexivity.
  - intros j Hne. rewrite !isBitSet_testbit.
    destruct (Z.eq_dec (Z.shiftr j 6) (Z.shiftr index 6)) as [Ew|Ew].
    + rewrite Ew. fold addr. rewrite Lnew, Lbs. cbn [bind].
      rewrite Bit by apply land_63_range.
      destruct (Z.eqb_spec (Z.land index 63) (Z.land j 63)) as [El|El].
      * exfalso. apply Hne. apply index_split; congruence.
      * rewrite orb_false_r. reflexivity.
    + rewrite (load_memcpy_disjoint _ _ _ _ _ _ H); [ reflexivity | ].
      rewrite length_le_bytes. unfold addr. change (Z.of_nat 8) with 8. lia.
Qed.

Lemma cell_done_step (j i j' i' : nat) :
  cell_done j i j' (S i')
  = cell_done j i j' i' || ((j =? j')%nat && (i =? i')%nat).
Proof.
  unfold cell_done.
  destruct (Nat.ltb_spec j j'), (Nat.eqb_spec j j'), (Nat.ltb_spec i (S i')),
    (Nat.ltb_spec i i'), (Nat.eqb_spec i i'); try reflexivity; lia.
Qed.

Lemma cell_done_next_column (j i j' n : nat) :
  (i < n)%nat -> cell_done j i (S j') 0 = cell_done j i j' n.
Proof.
  intros Hi. unfold cell_done.
  destruct (Nat.ltb_spec j (S j')), (Nat.ltb_spec j j'),
    (Nat.eqb_spec j (S j')), (Nat.eqb_spec j j'), (Nat.ltb_spec i n);
    try reflexivity; lia.
Qed.

Lemma cell_done_0 (j i : nat) : cell_done j i 0 0 = false.
Proof. unfold cell_done. destruct j; reflexivity. Qed.

(** The invariant of the conversion for one cell: [Q0] holds of the buffer
    until the cell of row [i] in column [j] is written, and [Q1] from then
    on. *)
Lemma convert_cell_invariant (block : Block) (masks : MaskVector)
    (info : SparkRowInfo) (i j : nat) (Q0 Q1 : list byte -> Prop) :
  convertCHColumnToSparkRow block masks = Ok info ->
  (i < num_rows info)%nat -> (j < columns block)%nat ->
  Q0 (alloc_zeroed (total_bytes info)) ->
  (forall j' i' col s s' v,
     nth_error block j' = Some col -> (i' < num_rows info)%nat ->
     backing_size masks col i' = Ok v ->
     nth_error (cursor s) i'
     = Some (calculatedFixeSizePerRow (num_cols info)
             + row_backing masks (firstn j' block) i') ->
     Z.of_nat (length (memory s)) = total_bytes info ->
     cell_written (offsets info) masks
       (mkColumn (convertToFullIfNeeded (column col))
          (removeLowCardinality (type col)))
       (getFieldOffset info (Z.of_nat j')) (Z.of_nat j') i' s s' ->
     if ((j =? j')%nat && (i =? i')%nat)%bool
     then Q0 (memory s) -> Q1 (memory s')
     else (Q0 (memory s) -> Q0 (memory s'))
          /\ (Q1 (memory s) -> Q1 (memory s'))) ->
  exists mem, buffer_address info = Some mem /\ Q1 mem.
Proof.
  intros H Hi Hj H0 Hstep.
  destruct (convert_invariant block masks info
              (fun j' i' m => if cell_done j i j' i' then Q1 m else Q0 m) H)
    as (mem & Em & Pm).
  - rewrite cell_done_0. exact H0.
  - intros j' i' col s s' v Nth Hi' Ev Ec Lm Pi CW.
    specialize (Hstep j' i' col s s' v Nth Hi' Ev Ec Lm CW).
    rewrite cell_done_step.
    destruct ((j =? j')%nat && (i =? i')%nat)%bool eqn:Own.
    + rewrite orb_true_r.
      destruct (cell_done j i j' i') eqn:D; [ | auto ].
      exfalso. unfold cell_done in D.
      apply andb_prop in Own. destruct Own as [Oj Oi].
      apply Nat.eqb_eq in Oj, Oi. subst j' i'.
      rewrite Nat.ltb_irrefl, Nat.eqb_refl, Nat.ltb_irrefl in D.
      discriminate.
    + rewrite orb_false_r. destruct Hstep as [K0 K1].
      destruct (cell_done j i j' i'); auto.
  - intros j' m Hj' Pm. rewrite (cell_done_next_column j i j' _ Hi).
    exact Pm.
  - exists mem. split; [ exact Em | ].
    unfold cell_done in Pm.
    destruct (Nat.ltb_spec j (columns block)) as [_|]; [ | lia ].
    exact Pm.
Qed.

(** Where the conversion puts the rows: inside the buffer, one after
    another. *)
Lemma convert_geometry (block : Block) (masks : MaskVector)
    (info : SparkRowInfo) :
  convertCHColumnToSparkRow block masks = Ok info ->
  forall i, (i < num_rows info)%nat ->
    exists o,
      nth_error (offsets info) i = Some o
      /\ 0 <= o
      /\ o + calculatedFixeSizePerRow (num_cols info)
         + row_backing masks block i <= total_bytes info
      /\ forall i' o', (i < i')%nat ->
           nth_error (offsets info) i' = Some o' ->
           o + calculatedFixeSizePerRow (num_cols info)
           + row_backing masks block i <= o'.
Proof.
  intros H i Hi.
  destruct (convert_phases _ _ _ H)
    as (info1 & E1 & _ & _ & Hn & Hc & Ho & Hl & Ht & _ & _ & Hc1 & _).
  pose proof (lengths_after_phase1 _ _ _ E1) as Hlen.
  unfold SparkRowInfo_of_Block in E1.
  pose proof (SparkRowInfo_ctor_layout _ _ _ _ _ _ E1)
    as (Lo & Ll & Hoff & Htot & _).
  pose proof (lengths_nonneg _ _ _ _ _ _ E1) as Pl.
  rewrite Ho, Ht, Hc, <- Hc1. rewrite Hn in Hi.
  specialize (Hlen i Hi).
  exists (sum_Z (firstn i (lengths info1))).
  split; [ apply Hoff; exact Hi | ].
  split; [ apply sum_Z_nonneg, Forall_firstn, Pl | ].
  pose proof (sum_Z_firstn_S _ _ _ Hlen) as ES.
  split.
  - pose proof (sum_Z_firstn_le _ _ _ Pl Hlen). lia.
  - intros i' o' Hii' Eo'.
    pose proof (nth_error_Some_lt _ _ _ Eo') as Hi'.
    rewrite Hoff in Eo' by lia. inversion Eo'; subst o'.
    pose proof (sum_Z_firstn_mono (lengths info1) (S i) i' Pl ltac:(lia)).
    lia.
Qed.

Lemma row_backing_firstn_mono (masks : MaskVector) (block : Block)
    (a b i : nat) :
  (a <= b)%nat ->
  row_backing masks (firstn a block) i <= row_backing masks (firstn b block) i.
Proof.
  intros Hab.
  replace (firstn a block) with (firstn a (firstn b block))
    by (rewrite firstn_firstn; f_equal; lia).
  apply row_backing_firstn_le.
Qed.

(** Where the cell of row [i] in column [j] lies: its bit in the bitmap of
    the row, its slot after the bitmap, and its backing data after the
    fixed part and the backing data of the earlier columns, all inside the
    row, which ends before the next row starts. *)
Lemma cell_layout (block : Block) (masks : MaskVector) (info : SparkRowInfo)
    (i j : nat) :
  convertCHColumnToSparkRow block masks = Ok info ->
  (i < num_rows info)%nat -> (j < columns block)%nat ->
  exists o,
    nth_error (offsets info) i = Some o
    /\ 0 <= o
    /\ calculatedFixeSizePerRow (num_cols info)
       = calculateBitSetWidthInBytes (num_cols info) + 8 * num_cols info
    /\ getFieldOffset info (Z.of_nat j)
       = calculateBitSetWidthInBytes (num_cols info) + 8 * Z.of_nat j
    /\ 0 <= Z.of_nat j < num_cols info
    /\ 0 <= Z.shiftr (Z.of_nat j) 6 * 8
    /\ Z.shiftr (Z.of_nat j) 6 * 8 + 8
       <= calculateBitSetWidthInBytes (num_cols info)
    /\ 0 <= row_backing masks (firstn j block) i
    /\ row_backing masks (firstn j block) i
       <= row_backing masks (firstn (S j) block) i
    /\ row_backing masks (firstn (S j) block) i
       <= row_backing masks block i
    /\ o + calculatedFixeSizePerRow (num_cols info)
       + row_backing masks block i <= total_bytes info
    /\ (forall j2, (j < j2)%nat ->
          row_backing masks (firstn (S j) block) i
          <= row_backing masks (firstn j2 block) i)
    /\ (forall i2 o2, (i < i2)%nat ->
          nth_error (offsets info) i2 = Some o2 ->
          o + calculatedFixeSizePerRow (num_cols info)
          + row_backing masks block i <= o2).
Proof.
  intros H Hi Hj.
  destruct (convert_geometry _ _ _ H i Hi) as (o & Eo & Po & Ht & Hnext).
  destruct (convert_phases _ _ _ H)
    as (info1 & _ & _ & _ & _ & Hc & _ & _ & _ & Hw & _).
  exists o.
  assert (Hjc : 0 <= Z.of_nat j < num_cols info) by (rewrite Hc; lia).
  pose proof (bit_word_in_bitmap _ _ Hjc) as [W1 W2].
  repeat split; try assumption; try lia.
  - unfold calculatedFixeSizePerRow. lia.
  - unfold getFieldOffset. rewrite Hw, Hc. reflexivity.
  - apply row_backing_nonneg.
  - apply row_backing_firstn_mono. lia.
  - apply row_backing_firstn_le.
  - intros j2 Hj2. apply row_backing_firstn_mono. lia.
Qed.

(** What the writing of the cell of row [i'] in column [j'] does to the
    buffer during the conversion. *)
Lemma cell_step_effect (block : Block) (masks : MaskVector)
    (info : SparkRowInfo) (j' i' : nat) (col : ColumnWithTypeAndName)
    (s s' : RowBuffer) (v : Z) :
  nth_error block j' = Some col ->
  backing_size masks col i' = Ok v ->
  nth_error (cursor s) i'
  = Some (calculatedFixeSizePerRow (num_cols info)
          + row_backing masks (firstn j' block) i') ->
  cell_written (offsets info) masks
    (mkColumn (convertToFullIfNeeded (column col))
       (removeLowCardinality (type col)))
    (getFieldOffset info (Z.of_nat j')) (Z.of_nat j') i' s s' ->
  exists row_idx o' is_null,
    row_index masks i' = Ok row_idx
    /\ nth_error (offsets info) i' = Some o'
    /\ null_flag (column col) row_idx = Ok is_null
    /\ length (memory s') = length (memory s)
    /\ row_backing masks (firstn (S j') block) i'
       = row_backing masks (firstn j' block) i' + v
    /\ (is_null = true ->
        bitSet (memory s) o' (Z.of_nat j') = Ok (memory s'))
    /\ (is_null = false ->
        forall k : nat,
          Z.of_nat k < o' + getFieldOffset info (Z.of_nat j')
          \/ o' + getFieldOffset info (Z.of_nat j') + 8 <= Z.of_nat k ->
          Z.of_nat k
          < o' + calculatedFixeSizePerRow (num_cols info)
            + row_backing masks (firstn j' block) i'
          \/ o' + calculatedFixeSizePerRow (num_cols info)
             + row_backing masks (firstn (S j') block) i' <= Z.of_nat k ->
          nth_error (memory s') k = nth_error (memory s) k).
Proof.
  intros Nth Ev Ec CW.
  destruct (cell_written_footprint _ _ _ _ _ _ _ _ _ CW Ev)
    as [[_ Ls] (r & o' & b & Er & Eo & En & Hnull & Hval)].
  pose proof (row_backing_firstn_S masks block j' col i' Nth) as ES.
  rewrite (column_sizes_Ok _ _ _ _ Ev) in ES.
  exists r, o', b. apply vector_at_Ok in Eo.
  repeat split; try assumption.
  - intros Eb. apply Hnull. exact Eb.
  - intros Eb k K1 K2. apply (Hval Eb _ Ec k K1). lia.
Qed.

Lemma isBitSet_zeros (n : nat) (bitmap index : Z) :
  0 <= bitmap + Z.shiftr index 6 * 8 ->
  bitmap + Z.shiftr index 6 * 8 + 8 <= Z.of_nat n ->
  isBitSet (repeat x00 n) bitmap index = Ok false.
Proof.
  intros Hlo Hhi. unfold isBitSet.
  rewrite load_Ok
    by (rewrite ?repeat_length; change (Z.of_nat 8) with 8; lia).
  cbn [bind]. rewrite skipn_repeat_eq, firstn_repeat_le by lia.
  rewrite le_value_zeros. reflexivity.
Qed.

Import WhichDataType.
Import BackingDataLengthCalculator.

(** ** The null bits of the rows *)

(** The null bit of a cell in the rows that the conversion returns. *)
Lemma null_bit_of_cell (block : Block) (masks : MaskVector)
    (info : SparkRowInfo) (i j : nat) (col : ColumnWithTypeAndName)
    (o : Z) :
  convertCHColumnToSparkRow block masks = Ok info ->
  nth_error block j = Some col ->
  nth_error (offsets info) i = Some o ->
  exists mem row_idx is_null,
    buffer_address info = Some mem
    /\ row_index masks i = Ok row_idx
    /\ null_flag (column col) row_idx = Ok is_null
    /\ isBitSet mem o (Z.of_nat j) = Ok is_null.
Proof.
  intros H Nth Eo.
  pose proof (nth_error_Some_lt _ _ _ Nth) as Hj. fold (columns block) in Hj.
  pose proof (nth_error_Some_lt _ _ _ Eo) as Hi.
  destruct (convert_shape _ _ _ H) as (_ & Lo & _). rewrite Lo in Hi.
  destruct (cell_layout _ _ _ i j H Hi Hj)
    as (o_ & Eo_ & Po & Hfix & Hfo & Hjc & W1 & W2 & B0 & B1 & B2 & Ht
        & Bnext & Rnext).
  rewrite Eo in Eo_. inversion Eo_; subst o_; clear Eo_.
  pose proof (row_backing_nonneg masks block i) as RB.
  destruct (convert_phases _ _ _ H)
    as (info1 & E1 & _ & _ & _ & _ & _ & _ & Ht1 & _).
  unfold SparkRowInfo_of_Block in E1.
  pose proof (SparkRowInfo_ctor_layout _ _ _ _ _ _ E1)
    as (_ & _ & _ & _ & Pt).
  rewrite <- Ht1 in Pt.
  destruct (convert_cell_invariant block masks info i j
              (fun m => isBitSet m o (Z.of_nat j) = Ok false)
              (fun m => exists row_idx is_null,
                          row_index masks i = Ok row_idx
                          /\ null_flag (column col) row_idx = Ok is_null
                          /\ isBitSet m o (Z.of_nat j) = Ok is_null)
              H Hi Hj)
    as (mem & Em & r & b & Er & En & Q).
  - unfold alloc_zeroed. apply isBitSet_zeros; lia.
  - intros j' i' col' s s' v Nth' Hi' Ev Ec Lm CW.
    destruct (cell_step_effect _ _ _ _ _ _ _ _ _ Nth' Ev Ec CW)
      as (r' & o' & b' & Er' & Eo' & En' & Ls & ES & Hnull & Hval).
    pose proof (nth_error_Some_lt _ _ _ Nth') as Hj'.
    fold (columns block) in Hj'.
    destruct (cell_layout _ _ _ i' j' H Hi' Hj')
      as (o_ & Eo_ & Po' & _ & Hfo' & Hjc' & W1' & W2' & B0' & B1' & B2'
          & Ht' & _ & Rnext').
    rewrite Eo' in Eo_. inversion Eo_; subst o_; clear Eo_.
    assert (Rows : i <> i' ->
              o + calculatedFixeSizePerRow (num_cols info)
              + row_backing masks block i <= o'
              \/ o' + calculatedFixeSizePerRow (num_cols info)
                 + row_backing masks block i' <= o).
    { intros Ni. destruct (Nat.lt_ge_cases i i') as [Lt|Ge].
      - left. apply (Rnext i' o' Lt Eo').
      - right. apply (Rnext' i o ltac:(lia) Eo). }
    pose proof (row_backing_nonneg masks block i') as RB'.
    assert (Keep : ((j =? j')%nat && (i =? i')%nat)%bool = false
                   \/ b' = false ->
              isBitSet (memory s') o (Z.of_nat j)
              = isBitSet (memory s) o (Z.of_nat j)).
    { intros C. destruct b'.
      - destruct C as [C|C]; [ | discriminate C ].
        specialize (Hnull eq_refl).
        destruct (Nat.eq_dec i i') as [<-|Ni].
        + rewrite Eo in Eo'. inversion Eo'; subst o'.
          apply isBitSet_bitSet in Hnull. destruct Hnull as [_ K].
          apply K. rewrite Nat.eqb_refl, andb_true_r in C.
          apply Nat.eqb_neq in C. lia.
        + apply bitSet_same_outside in Hnull. destruct Hnull as [L K].
          apply isBitSet_unchanged; [ exact L | ].
          intros k Hk. apply K. specialize (Rows Ni). lia.
      - apply isBitSet_unchanged; [ exact Ls | ].
        intros k Hk.
        destruct (Nat.eq_dec i i') as [<-|Ni].
        + rewrite Eo in Eo'. inversion Eo'; subst o'.
          apply Hval; [ reflexivity | lia | lia ].
        + specialize (Rows Ni).
          apply Hval; [ reflexivity | lia | lia ]. }
    destruct ((j =? j')%nat && (i =? i')%nat)%bool eqn:Own.
    + apply andb_prop in Own. destruct Own as [Oj Oi].
      apply Nat.eqb_eq in Oj, Oi. subst j' i'.
      rewrite Nth in Nth'. inversion Nth'; subst col'.
      rewrite Eo in Eo'. inversion Eo'; subst o'.
      intros Q0. exists r', b'. split; [ exact Er' | ].
      split; [ exact En' | ].
      destruct b'.
      * apply isBitSet_bitSet in Hnull; [ | reflexivity ]. apply Hnull.
      * rewrite Keep by auto. exact Q0.
    + split.
      * intros Q0. rewrite Keep by auto. exact Q0.
      * intros (r0 & b0 & Er0 & En0 & Q1). exists r0, b0.
        rewrite Keep by auto. auto.
  - exists mem, r, b. auto.
Qed.

(** X21. In the rows that [convertCHColumnToSparkRow] returns, the null
    bit of column [j] in output row [i] tells whether the cell is null:
    it is the flag of the source row in the null map of a nullable column,
    and it is clear for a column that is not nullable.  No other write of
    the conversion disturbs it. *)
Theorem conversion_sets_null_bits (block : Block) (masks : MaskVector)
    (info : SparkRowInfo) (i j : nat) (col : ColumnWithTypeAndName)
    (o : Z) :
  convertCHColumnToSparkRow block masks = Ok info ->
  nth_error block j = Some col ->
  nth_error (offsets info) i = Some o ->
  exists mem row_idx is_null,
    buffer_address info = Some mem
    /\ row_index masks i = Ok row_idx
    /\ null_flag (column col) row_idx = Ok is_null
    /\ isBitSet mem o (Z.of_nat j) = Ok is_null.
Proof.
  intros H Nth Eo.
  exact (null_bit_of_cell block masks info i j col o H Nth Eo).
Qed.

Lemma conversion_sets_null_bits_witness :
  let col :=
    mkColumn (ColumnNullable [false; true] [FInt64 5; FInt64 0])
      (DataTypeNullable DataTypeInt32) in
  let block :=
    [col; mkColumn (ColumnFull [FString [x68; x69]; FString []])
            DataTypeString] in
  let info :=
    mkSparkRowInfo [DataTypeNullable DataTypeInt32; DataTypeString] 2 2 8 56
      [0; 32] [32; 24] [32; 24]
      (Some [x00; x00; x00; x00; x00; x00; x00; x00;
             x05; x00; x00; x00; x00; x00; x00; x00;
             x02; x00; x00; x00; x18; x00; x00; x00;
             x68; x69; x00; x00; x00; x00; x00; x00;
             x01; x00; x00; x00; x00; x00; x00; x00;
             x00; x00; x00; x00; x00; x00; x00; x00;
             x00; x00; x00; x00; x18; x00; x00; x00]) in
  exists mem row_idx is_null,
    buffer_address info = Some mem
    /\ row_index None 1 = Ok row_idx
    /\ null_flag (column col) row_idx = Ok is_null
    /\ isBitSet mem 32 (Z.of_nat 0) = Ok is_null.
Proof.
  intros col block info.
  apply (conversion_sets_null_bits block None info 1 0 col 32);
    reflexivity.
Defined.

Import WhichDataType.
Import BackingDataLengthCalculator.

(** ** The slots of the rows *)

Lemma load_zeros (N : nat) (a : Z) (n : nat) :
  0 <= a -> a + Z.of_nat n <= Z.of_nat N ->
  load (repeat x00 N) a n = Ok (repeat x00 n).
Proof.
  intros Ha Hn. rewrite load_Ok by (rewrite ?repeat_length; lia).
  rewrite skipn_repeat_eq, firstn_repeat_le by lia. reflexivity.
Qed.

(** Bytes copied to the start of a region replace the first bytes of the
    region. *)
Lemma load_memcpy_prefix (mem : list byte) (a : Z) (src mem' : list byte)
    (n : nat) (old : list byte) :
  memcpy mem a src = Ok mem' -> load mem a n = Ok old ->
  (length src <= n)%nat ->
  load mem' a n = Ok (src ++ skipn (length src) old).
Proof.
  intros E L Hn. pose proof (memcpy_length _ _ _ _ E) as Lm.
  apply memcpy_inv in E. destruct E as (H1 & H2 & E).
  unfold load in *. rewrite Lm.
  destruct ((0 <=? a) && (a + Z.of_nat n <=? Z.of_nat (length mem)))%bool
    eqn:C; [ | discriminate ].
  inv_Ok L. f_equal.
  apply andb_prop in C. destruct C as [_ C]. apply Z.leb_le in C.
  rewrite skipn_app, length_firstn, Nat.min_l by lia.
  rewrite skipn_all2 by (rewrite length_firstn; lia).
  rewrite Nat.sub_diag. cbn [app skipn].
  rewrite firstn_app, firstn_all2 by lia. f_equal.
  rewrite skipn_firstn_comm, skipn_skipn. f_equal. f_equal. lia.
Qed.

(** The slot of a cell of fixed length in the rows that the conversion
    returns. *)
Lemma fixed_slot_of_cell (block : Block) (masks : MaskVector)
    (info : SparkRowInfo) (i j : nat) (col : ColumnWithTypeAndName)
    (o : Z) :
  convertCHColumnToSparkRow block masks = Ok info ->
  nth_error block j = Some col ->
  nth_error (offsets info) i = Some o ->
  isFixedLengthDataType (removeLowCardinalityAndNullable (type col))
  = true ->
  exists mem row_idx is_null slot,
    buffer_address info = Some mem
    /\ row_index masks i = Ok row_idx
    /\ null_flag (column col) row_idx = Ok is_null
    /\ load mem (o + getFieldOffset info (Z.of_nat j)) 8 = Ok slot
    /\ if (is_null : bool) then slot = repeat x00 8
       else if isDecimal32 (removeLowCardinalityAndNullable (type col))
       then
         exists field,
           vector_at (column_cells (column col)) row_idx = Ok field
           /\ ((field = FNull /\ slot = repeat x00 8)
               \/ exists v,
                    field = FDecimal32 v
                    /\ slot = le_bytes 8 (to_int64 (signed_cast 32 v)))
       else
         isFloat32 (removeLowCardinalityAndNullable (type col)) = false ->
         exists str,
           getDataAt (removeLowCardinalityAndNullable (type col))
             (column_cells (column col)) row_idx = Ok str
           /\ (length str <= 8)%nat
           /\ slot = str ++ repeat x00 (8 - length str).
Proof.
  intros H Nth Eo Fx.
  pose proof (nth_error_Some_lt _ _ _ Nth) as Hj. fold (columns block) in Hj.
  pose proof (nth_error_Some_lt _ _ _ Eo) as Hi.
  destruct (convert_shape _ _ _ H) as (_ & Lo & _). rewrite Lo in Hi.
  destruct (cell_layout _ _ _ i j H Hi Hj)
    as (o_ & Eo_ & Po & Hfix & Hfo & Hjc & W1 & W2 & B0 & B1 & B2 & Ht
        & Bnext & Rnext).
  rewrite Eo in Eo_. inversion Eo_; subst o_; clear Eo_.
  pose proof (row_backing_nonneg masks block i) as RB.
  destruct (convert_phases _ _ _ H)
    as (info1 & E1 & _ & _ & _ & _ & _ & _ & Ht1 & _).
  unfold SparkRowInfo_of_Block in E1.
  pose proof (SparkRowInfo_ctor_layout _ _ _ _ _ _ E1)
    as (_ & _ & _ & _ & Pt).
  rewrite <- Ht1 in Pt.
  set (twn := removeLowCardinalityAndNullable (type col)) in *.
  set (a := o + getFieldOffset info (Z.of_nat j)) in *.
  destruct (convert_cell_invariant block masks info i j
              (fun m => load m a 8 = Ok (repeat x00 8))
              (fun m =>
                 exists row_idx is_null slot,
                   row_index masks i = Ok row_idx
                   /\ null_flag (column col) row_idx = Ok is_null
                   /\ load m a 8 = Ok slot
                   /\ if (is_null : bool) then slot = repeat x00 8
                      else if isDecimal32 twn then
                        exists field,
                          vector_at (column_cells (column col)) row_idx
                          = Ok field
                          /\ ((field = FNull /\ slot = repeat x00 8)
                              \/ exists v,
                                   field = FDecimal32 v
                                   /\ slot
                                      = le_bytes 8
                                          (to_int64 (signed_cast 32 v)))
                      else
                        isFloat32 twn = false ->
                        exists str,
                          getDataAt twn (column_cells (column col)) row_idx
                          = Ok str
                          /\ (length str <= 8)%nat
                          /\ slot = str ++ repeat x00 (8 - length str))
              H Hi Hj)
    as (mem & Em & r & b & slot & Er & En & L & Q).
  - unfold alloc_zeroed. apply load_zeros; unfold a;
      change (Z.of_nat 8) with 8; lia.
  - intros j' i' col' s s' v Nth' Hi' Ev Ec Lm CW.
    destruct (cell_step_effect _ _ _ _ _ _ _ _ _ Nth' Ev Ec CW)
      as (r' & o' & b' & Er' & Eo' & En' & Ls & ES & Hnull & Hval).
    pose proof (nth_error_Some_lt _ _ _ Nth') as Hj'.
    fold (columns block) in Hj'.
    destruct (cell_layout _ _ _ i' j' H Hi' Hj')
      as (o_ & Eo_ & Po' & _ & Hfo' & Hjc' & W1' & W2' & B0' & B1' & B2'
          & Ht' & _ & Rnext').
    rewrite Eo' in Eo_. inversion Eo_; subst o_; clear Eo_.
    assert (Rows : i <> i' ->
              o + calculatedFixeSizePerRow (num_cols info)
              + row_backing masks block i <= o'
              \/ o' + calculatedFixeSizePerRow (num_cols info)
                 + row_backing masks block i' <= o).
    { intros Ni. destruct (Nat.lt_ge_cases i i') as [Lt|Ge].
      - left. apply (Rnext i' o' Lt Eo').
      - right. apply (Rnext' i o ltac:(lia) Eo). }
    pose proof (row_backing_nonneg masks block i') as RB'.
    assert (Keep : ((j =? j')%nat && (i =? i')%nat)%bool = false
                   \/ b' = true ->
              load (memory s') a 8 = load (memory s) a 8).
    { intros C. destruct b'.
      - specialize (Hnull eq_refl).
        apply bitSet_same_outside in Hnull. destruct Hnull as [L K].
        apply load_unchanged; [ exact L | ].
        intros k Hk. apply K. unfold a in Hk.
        change (Z.of_nat 8) with 8 in Hk.
        destruct (Nat.eq_dec i i') as [<-|Ni].
        + rewrite Eo in Eo'. inversion Eo'; subst o'. lia.
        + specialize (Rows Ni). lia.
      - destruct C as [C|C]; [ | discriminate C ].
        apply load_unchanged; [ exact Ls | ].
        intros k Hk. unfold a in Hk. change (Z.of_nat 8) with 8 in Hk.
        destruct (Nat.eq_dec i i') as [<-|Ni].
        + rewrite Eo in Eo'. inversion Eo'; subst o'.
          rewrite Nat.eqb_refl, andb_true_r in C.
          apply Nat.eqb_neq in C.
          apply Hval; [ reflexivity | lia | lia ].
        + specialize (Rows Ni).
          apply Hval; [ reflexivity | lia | lia ]. }
    destruct ((j =? j')%nat && (i =? i')%nat)%bool eqn:Own.
    + apply andb_prop in Own. destruct Own as [Oj Oi].
      apply Nat.eqb_eq in Oj, Oi. subst j' i'.
      rewrite Nth in Nth'. inversion Nth'; subst col'.
      rewrite Eo in Eo'. inversion Eo'; subst o'.
      intros Q0. exists r', b'.
      destruct b'.
      * exists (repeat x00 8). rewrite Keep by auto. auto.
      * destruct CW as (r2 & o2 & b2 & Er2 & Eo2 & En2 & W).
        rewrite Er' in Er2. inv_Ok Er2.
        cbn [column] in En2. unfold convertToFullIfNeeded in En2.
        rewrite En' in En2. inv_Ok En2.
        apply vector_at_Ok in Eo2. rewrite Eo in Eo2.
        inversion Eo2; subst o2; clear Eo2.
        unfold value_written in W. cbn [type column] in W.
        unfold convertToFullIfNeeded in W.
        change (removeNullable (removeLowCardinality (type col)))
          with twn in W.
        rewrite Fx in W. fold a in W.
        destruct (isDecimal32 twn) eqn:D32.
        -- destruct W as (field & m & Ef & Ew & ->).
           cbn [set_memory memory].
           unfold FixedLengthDataWriter.write in Ew.
           destruct twn; try discriminate D32.
           destruct field; cbn in Ew; try discriminate Ew.
           ++ inv_Ok Ew. exists (repeat x00 8).
              repeat split; try assumption.
              exists FNull. split; [ exact Ef | ]. left. auto.
           ++ eexists. repeat split; try assumption.
              ** eapply (load_memcpy_same _ _ _ _ Ew).
              ** exists (FDecimal32 v0). split; [ exact Ef | ].
                 right. exists v0. auto.
        -- destruct W as (str & m & Es & Ew & ->).
           cbn [set_memory memory].
           assert (Ls8 : (length str <= 8)%nat).
           { unfold getDataAt in Es. bind_inv Es as cell Ecell.
             eapply native_bytes_fixed_length; eassumption. }
           exists (str ++ repeat x00 (8 - length str)).
           repeat split; try assumption.
           ++ rewrite (load_memcpy_prefix _ _ _ _ 8 _ Ew Q0 Ls8).
              rewrite skipn_repeat_eq. reflexivity.
           ++ intros _. exists str. auto.
    + split.
      * intros Q0. rewrite Keep by auto. exact Q0.
      * intros (r0 & b0 & slot0 & Er0 & En0 & L0 & Q1).
        exists r0, b0, slot0. rewrite Keep by auto. auto.
  - exists mem, r, b, slot. auto.
Qed.

(** X22. In the rows that [convertCHColumnToSparkRow] returns, the 8-byte
    slot of a column of fixed length holds the value of the cell: zeros
    for a null cell; for a Decimal32 the value sign-extended to 8 bytes;
    for every other type but Float32 the bytes of the value in its native
    width, followed by zeros.  No other write of the conversion disturbs
    the slot.  (Float32 is left out: the [Field] of a cell, by which a
    column is given here, does not tell the stored bytes of a signalling
    NaN.) *)
Theorem conversion_stores_fixed_values (block : Block) (masks : MaskVector)
    (info : SparkRowInfo) (i j : nat) (col : ColumnWithTypeAndName)
    (o : Z) :
  convertCHColumnToSparkRow block masks = Ok info ->
  nth_error block j = Some col ->
  nth_error (offsets info) i = Some o ->
  isFixedLengthDataType (removeLowCardinalityAndNullable (type col))
  = true ->
  exists mem row_idx is_null slot,
    buffer_address info = Some mem
    /\ row_index masks i = Ok row_idx
    /\ null_flag (column col) row_idx = Ok is_null
    /\ load mem (o + getFieldOffset info (Z.of_nat j)) 8 = Ok slot
    /\ if (is_null : bool) then slot = repeat x00 8
       else if isDecimal32 (removeLowCardinalityAndNullable (type col))
       then
         exists field,
           vector_at (column_cells (column col)) row_idx = Ok field
           /\ ((field = FNull /\ slot = repeat x00 8)
               \/ exists v,
                    field = FDecimal32 v
                    /\ slot = le_bytes 8 (to_int64 (signed_cast 32 v)))
       else
         isFloat32 (removeLowCardinalityAndNullable (type col)) = false ->
         exists str,
           getDataAt (removeLowCardinalityAndNullable (type col))
             (column_cells (column col)) row_idx = Ok str
           /\ (length str <= 8)%nat
           /\ slot = str ++ repeat x00 (8 - length str).
Proof.
  intros H Nth Eo Fx.
  exact (fixed_slot_of_cell block masks info i j col o H Nth Eo Fx).
Qed.

Lemma conversion_stores_fixed_values_witness :
  let col :=
    mkColumn (ColumnNullable [false; true] [FInt64 5; FInt64 0])
      (DataTypeNullable DataTypeInt32) in
  let block :=
    [col; mkColumn (ColumnFull [FString [x68; x69]; FString []])
            DataTypeString] in
  let info :=
    mkSparkRowInfo [DataTypeNullable DataTypeInt32; DataTypeString] 2 2 8 56
      [0; 32] [32; 24] [32; 24]
      (Some [x00; x00; x00; x00; x00; x00; x00; x00;
             x05; x00; x00; x00; x00; x00; x00; x00;
             x02; x00; x00; x00; x18; x00; x00; x00;
             x68; x69; x00; x00; x00; x00; x00; x00;
             x01; x00; x00; x00; x00; x00; x00; x00;
             x00; x00; x00; x00; x00; x00; x00; x00;
             x00; x00; x00; x00; x18; x00; x00; x00]) in
  exists mem row_idx is_null slot,
    buffer_address info = Some mem
    /\ row_index None 0 = Ok row_idx
    /\ null_flag (column col) row_idx = Ok is_null
    /\ load mem (0 + getFieldOffset info (Z.of_nat 0)) 8 = Ok slot
    /\ if (is_null : bool) then slot = repeat x00 8
       else if isDecimal32 (removeLowCardinalityAndNullable (type col))
       then
         exists field,
           vector_at (column_cells (column col)) row_idx = Ok field
           /\ ((field = FNull /\ slot = repeat x00 8)
               \/ exists v,
                    field = FDecimal32 v
                    /\ slot = le_bytes 8 (to_int64 (signed_cast 32 v)))
       else
         isFloat32 (removeLowCardinalityAndNullable (type col)) = false ->
         exists str,
           getDataAt (removeLowCardinalityAndNullable (type col))
             (column_cells (column col)) row_idx = Ok str
           /\ (length str <= 8)%nat
           /\ slot = str ++ repeat x00 (8 - length str).
Proof.
  intros col block info.
  apply (conversion_stores_fixed_values block None info 0 0 col 0);
    reflexivity.
Defined.

Import WhichDataType.
Import BackingDataLengthCalculator.

(** ** Strings and decimals in the rows *)

Lemma lor_bound (a b n : Z) :
  0 <= a < 2 ^ n -> 0 <= b < 2 ^ n -> 0 <= Z.lor a b < 2 ^ n.
Proof.
  intros Ha Hb. split; [ apply Z.lor_nonneg; lia | ].
  destruct (Z.eq_dec (Z.lor a b) 0) as [E|Ne]; [ lia | ].
  assert (Hn : 0 < n).
  { destruct (Z.lt_ge_cases 0 n) as [|Hn]; [ assumption | exfalso ].
    destruct (Z.eq_dec n 0) as [->|].
    - change (2 ^ 0) with 1 in *. assert (a = 0) by lia.
      assert (b = 0) by lia. subst. apply Ne. reflexivity.
    - rewrite Z.pow_neg_r in Ha by lia. lia. }
  assert (Hl : 0 <= Z.lor a b) by (apply Z.lor_nonneg; lia).
  apply Z.log2_lt_pow2; [ lia | ].
  rewrite Z.log2_lor by lia.
  apply Z.max_lub_lt.
  - destruct (Z.eq_dec a 0) as [->|]; [ exact Hn | ].
    apply Z.log2_lt_pow2; lia.
  - destruct (Z.eq_dec b 0) as [->|]; [ exact Hn | ].
    apply Z.log2_lt_pow2; lia.
Qed.

(** A descriptor of an offset below 2^31 and a size below 2^32 is read
    back from the 8 bytes it is stored in. *)
Lemma descriptor_read_back (c size : Z) :
  0 <= c < 2 ^ 31 -> 0 <= size < 2 ^ 32 ->
  to_int64 (le_value (le_bytes 8 (getOffsetAndSize c size)))
  = getOffsetAndSize c size.
Proof.
  intros Hc Hs. apply to_int64_le_value_le_bytes.
  rewrite getOffsetAndSize_small by assumption.
  pose proof (lor_bound (c * 2 ^ 32) size 63) as B.
  assert (0 <= c * 2 ^ 32 < 2 ^ 63).
  { change (2 ^ 63) with (2 ^ 31 * 2 ^ 32). nia. }
  assert (0 <= size < 2 ^ 63) by lia.
  specialize (B ltac:(assumption) ltac:(assumption)). lia.
Qed.

Lemma row_length_layout (block : Block) (masks : MaskVector)
    (info : SparkRowInfo) (i : nat) :
  convertCHColumnToSparkRow block masks = Ok info ->
  (i < num_rows info)%nat ->
  nth_error (lengths info) i
  = Some (calculatedFixeSizePerRow (num_cols info)
          + row_backing masks block i).
Proof.
  intros H Hi.
  destruct (convert_phases _ _ _ H)
    as (info1 & E1 & _ & _ & Hn & Hc & _ & Hl & _ & _ & _ & Hc1 & _).
  rewrite Hl, Hc, <- Hc1. apply (lengths_after_phase1 _ _ _ E1).
  rewrite <- Hn. exact Hi.
Qed.

Lemma variable_not_fixed (t : DataType) :
  isVariableLengthDataType t = true -> isFixedLengthDataType t = false.
Proof. destruct t; try discriminate; reflexivity. Qed.

(** The slot and the bytes of a string or a Decimal128 in the rows that
    the conversion returns. *)
Lemma raw_bytes_of_cell (block : Block) (masks : MaskVector)
    (info : SparkRowInfo) (i j : nat) (col : ColumnWithTypeAndName)
    (o : Z) :
  convertCHColumnToSparkRow block masks = Ok info ->
  nth_error block j = Some col ->
  nth_error (offsets info) i = Some o ->
  isVariableLengthDataType (removeLowCardinalityAndNullable (type col))
  = true ->
  isDataTypeSupportRawData (removeLowCardinalityAndNullable (type col))
  = true ->
  exists mem row_idx is_null slot,
    buffer_address info = Some mem
    /\ row_index masks i = Ok row_idx
    /\ null_flag (column col) row_idx = Ok is_null
    /\ load mem (o + getFieldOffset info (Z.of_nat j)) 8 = Ok slot
    /\ if (is_null : bool) then slot = repeat x00 8
       else
         exists str buf,
           getDataAt (removeLowCardinalityAndNullable (type col))
             (column_cells (column col)) row_idx = Ok str
           /\ (if isBigEndianInSparkRow
                    (removeLowCardinalityAndNullable (type col))
               then swapDecimalEndianBytes str = Ok buf
               else buf = str)
           /\ slot
              = le_bytes 8
                  (getOffsetAndSize
                     (calculatedFixeSizePerRow (num_cols info)
                      + row_backing masks (firstn j block) i)
                     (Z.of_nat (length buf)))
           /\ load mem
                (o + (calculatedFixeSizePerRow (num_cols info)
                      + row_backing masks (firstn j block) i))
                (length buf) = Ok buf
           /\ forall l,
                nth_error (lengths info) i = Some l -> l < 2 ^ 31 ->
                load mem (o + extractOffset (to_int64 (le_value slot)))
                  (Z.to_nat (extractSize (to_int64 (le_value slot))))
                = Ok buf.
Proof.
  intros H Nth Eo V R.
  pose proof (nth_error_Some_lt _ _ _ Nth) as Hj. fold (columns block) in Hj.
  pose proof (nth_error_Some_lt _ _ _ Eo) as Hi.
  destruct (convert_shape _ _ _ H) as (_ & Lo & _). rewrite Lo in Hi.
  destruct (cell_layout _ _ _ i j H Hi Hj)
    as (o_ & Eo_ & Po & Hfix & Hfo & Hjc & W1 & W2 & B0 & B1 & B2 & Ht
        & Bnext & Rnext).
  rewrite Eo in Eo_. inversion Eo_; subst o_; clear Eo_.
  pose proof (row_backing_nonneg masks block i) as RB.
  pose proof (row_length_layout _ _ _ i H Hi) as Hlen.
  destruct (convert_phases _ _ _ H)
    as (info1 & E1 & _ & _ & _ & _ & _ & _ & Ht1 & _).
  unfold SparkRowInfo_of_Block in E1.
  pose proof (SparkRowInfo_ctor_layout _ _ _ _ _ _ E1)
    as (_ & _ & _ & _ & Pt).
  rewrite <- Ht1 in Pt.
  pose proof (calculateBitSetWidthInBytes_nonneg (num_cols info)
                ltac:(lia)) as Pbw.
  set (twn := removeLowCardinalityAndNullable (type col)) in *.
  set (a := o + getFieldOffset info (Z.of_nat j)) in *.
  set (c := calculatedFixeSizePerRow (num_cols info)
            + row_backing masks (firstn j block) i) in *.
  set (hi := calculatedFixeSizePerRow (num_cols info)
             + row_backing masks (firstn (S j) block) i) in *.
  destruct (convert_cell_invariant block masks info i j
              (fun m => load m a 8 = Ok (repeat x00 8))
              (fun m =>
                 exists row_idx is_null slot,
                   row_index masks i = Ok row_idx
                   /\ null_flag (column col) row_idx = Ok is_null
                   /\ load m a 8 = Ok slot
                   /\ if (is_null : bool) then slot = repeat x00 8
                      else
                        exists str buf,
                          getDataAt twn (column_cells (column col)) row_idx
                          = Ok str
                          /\ (if isBigEndianInSparkRow twn
                              then swapDecimalEndianBytes str = Ok buf
                              else buf = str)
                          /\ slot
                             = le_bytes 8
                                 (getOffsetAndSize c
                                    (Z.of_nat (length buf)))
                          /\ c + Z.of_nat (length buf) <= hi
                          /\ load m (o + c) (length buf) = Ok buf)
              H Hi Hj)
    as (mem & Em & r & b & slot & Er & En & L & Q).
  - unfold alloc_zeroed. apply load_zeros; unfold a;
      change (Z.of_nat 8) with 8; lia.
  - intros j' i' col' s s' v Nth' Hi' Ev Ec Lm CW.
    destruct (cell_step_effect _ _ _ _ _ _ _ _ _ Nth' Ev Ec CW)
      as (r' & o' & b' & Er' & Eo' & En' & Ls & ES & Hnull & Hval).
    pose proof (nth_error_Some_lt _ _ _ Nth') as Hj'.
    fold (columns block) in Hj'.
    destruct (cell_layout _ _ _ i' j' H Hi' Hj')
      as (o_ & Eo_ & Po' & _ & Hfo' & Hjc' & W1' & W2' & B0' & B1' & B2'
          & Ht' & Bnext' & Rnext').
    rewrite Eo' in Eo_. inversion Eo_; subst o_; clear Eo_.
    assert (Rows : i <> i' ->
              o + calculatedFixeSizePerRow (num_cols info)
              + row_backing masks block i <= o'
              \/ o' + calculatedFixeSizePerRow (num_cols info)
                 + row_backing masks block i' <= o).
    { intros Ni. destruct (Nat.lt_ge_cases i i') as [Lt|Ge].
      - left. apply (Rnext i' o' Lt Eo').
      - right. apply (Rnext' i o ltac:(lia) Eo). }
    pose proof (row_backing_nonneg masks block i') as RB'.
    assert (Cols : i = i' -> j <> j' ->
              row_backing masks (firstn (S j) block) i
              <= row_backing masks (firstn j' block) i
              \/ row_backing masks (firstn (S j') block) i
                 <= row_backing masks (firstn j block) i).
    { intros <- Nj. destruct (Nat.lt_ge_cases j j') as [Lt|Ge].
      - left. apply Bnext. exact Lt.
      - right. apply Bnext'. lia. }
    assert (KeepSlot : ((j =? j')%nat && (i =? i')%nat)%bool = false
                       \/ b' = true ->
              load (memory s') a 8 = load (memory s) a 8).
    { intros C. destruct b'.
      - specialize (Hnull eq_refl).
        apply bitSet_same_outside in Hnull. destruct Hnull as [L K].
        apply load_unchanged; [ exact L | ].
        intros k Hk. apply K. unfold a in Hk.
        change (Z.of_nat 8) with 8 in Hk.
        destruct (Nat.eq_dec i i') as [<-|Ni].
        + rewrite Eo in Eo'. inversion Eo'; subst o'. lia.
        + specialize (Rows Ni). lia.
      - destruct C as [C|C]; [ | discriminate C ].
        apply load_unchanged; [ exact Ls | ].
        intros k Hk. unfold a in Hk. change (Z.of_nat 8) with 8 in Hk.
        destruct (Nat.eq_dec i i') as [<-|Ni].
        + rewrite Eo in Eo'. inversion Eo'; subst o'.
          rewrite Nat.eqb_refl, andb_true_r in C.
          apply Nat.eqb_neq in C.
          apply Hval; [ reflexivity | lia | lia ].
        + specialize (Rows Ni).
          apply Hval; [ reflexivity | lia | lia ]. }
    assert (KeepData : ((j =? j')%nat && (i =? i')%nat)%bool = false ->
              forall n : nat, c + Z.of_nat n <= hi ->
                load (memory s') (o + c) n = load (memory s) (o + c) n).
    { intros C n Hn. destruct b'.
      - specialize (Hnull eq_refl).
        apply bitSet_same_outside in Hnull. destruct Hnull as [L K].
        apply load_unchanged; [ exact L | ].
        intros k Hk. apply K. unfold c, hi in *.
        destruct (Nat.eq_dec i i') as [<-|Ni].
        + rewrite Eo in Eo'. inversion Eo'; subst o'. lia.
        + specialize (Rows Ni). lia.
      - apply load_unchanged; [ exact Ls | ].
        intros k Hk. unfold c, hi in *.
        destruct (Nat.eq_dec i i') as [<-|Ni].
        + rewrite Eo in Eo'. inversion Eo'; subst o'.
          rewrite Nat.eqb_refl, andb_true_r in C.
          apply Nat.eqb_neq in C. specialize (Cols eq_refl C).
          apply Hval; [ reflexivity | lia | lia ].
        + specialize (Rows Ni).
          apply Hval; [ reflexivity | lia | lia ]. }
    destruct ((j =? j')%nat && (i =? i')%nat)%bool eqn:Own.
    + apply andb_prop in Own. destruct Own as [Oj Oi].
      apply Nat.eqb_eq in Oj, Oi. subst j' i'.
      rewrite Nth in Nth'. inversion Nth'; subst col'.
      rewrite Eo in Eo'. inversion Eo'; subst o'.
      intros Q0. exists r', b'.
      destruct b'.
      * exists (repeat x00 8). rewrite KeepSlot by auto. auto.
      * destruct CW as (r2 & o2 & b2 & Er2 & Eo2 & En2 & W).
        rewrite Er' in Er2. inv_Ok Er2.
        cbn [column] in En2. unfold convertToFullIfNeeded in En2.
        rewrite En' in En2. inv_Ok En2.
        apply vector_at_Ok in Eo2. rewrite Eo in Eo2.
        inversion Eo2; subst o2; clear Eo2.
        rewrite (backing_size_cell masks col i r2 false Er' En') in Ev.
        fold twn in Ev. rewrite V, R in Ev.
        unfold value_written in W. cbn [type column] in W.
        unfold convertToFullIfNeeded in W.
        change (removeNullable (removeLowCardinality (type col)))
          with twn in W.
        rewrite (variable_not_fixed _ V), R in W. fold a in W.
        destruct W as (_ & s1 & d & m & (str & buf & Es & Eb & Ew) & Emc
                       & ->).
        cbn [set_memory memory].
        rewrite Es in Ev. cbn [bind] in Ev. inv_Ok Ev.
        assert (Lb : length buf = length str).
        { destruct (isBigEndianInSparkRow twn); [ | congruence ].
          apply swapDecimalEndianBytes_length in Eb. lia. }
        apply writeUnalignedBytes_inv in Ew.
        destruct Ew as (o2 & c2 & m1 & Eo2 & Ec2 & Em1 & M1 & _ & Ed).
        apply vector_at_Ok in Eo2, Ec2. rewrite Eo in Eo2.
        inversion Eo2; subst o2; clear Eo2.
        rewrite Ec in Ec2. inversion Ec2; subst c2; clear Ec2.
        fold c in Em1, Ed. rewrite Z.sub_0_r in Ed. rewrite M1 in Emc.
        pose proof (roundNumberOfBytesToNearestWord_bounds
                      (Z.of_nat (length str))) as Hround.
        exists (le_bytes 8 d).
        repeat split; try assumption.
        -- pose proof (load_memcpy_same _ _ _ _ Emc) as Lslot.
           rewrite length_le_bytes in Lslot. exact Lslot.
        -- exists str, buf. repeat split; try assumption.
           ++ rewrite Ed. reflexivity.
           ++ unfold hi, c. rewrite ES, Lb. lia.
           ++ rewrite (load_memcpy_disjoint _ _ _ _ _ _ Emc).
              ** apply (load_memcpy_same _ _ _ _ Em1).
              ** right. rewrite length_le_bytes. unfold a, c.
                 change (Z.of_nat 8) with 8. lia.
    + split.
      * intros Q0. rewrite KeepSlot by auto. exact Q0.
      * intros (r0 & b0 & slot0 & Er0 & En0 & L0 & Q1).
        exists r0, b0, slot0. rewrite KeepSlot by auto.
        repeat split; try assumption.
        destruct b0; [ exact Q1 | ].
        destruct Q1 as (str & buf & Es & Eb & Esl & Hhi & Ld).
        exists str, buf. rewrite (KeepData eq_refl _ Hhi). auto.
  - exists mem, r, b, slot. repeat split; try assumption.
    destruct b; [ exact Q | ].
    destruct Q as (str & buf & Es & Eb & Esl & Hhi & Ld).
    exists str, buf. repeat split; try assumption.
    intros l El Hl. rewrite Hlen in El. inversion El; subst l; clear El.
    assert (Hc : 0 <= c < 2 ^ 31) by (unfold c, hi in *; lia).
    assert (Hs : 0 <= Z.of_nat (length buf) < 2 ^ 32)
      by (unfold c, hi in *; lia).
    rewrite Esl, descriptor_read_back by assumption.
    rewrite extractOffset_getOffsetAndSize,
      extractSize_getOffsetAndSize by lia.
    rewrite Nat2Z.id. exact Ld.
Qed.

(** X23. In the rows that [convertCHColumnToSparkRow] returns, a string
    (or a Decimal128, byte-swapped) of a column is found in its row: the
    bytes stand after the fixed part and the backing data of the earlier
    columns, and the slot of the column holds their offset in the row and
    their number.  In a row shorter than 2^31 bytes the slot, read as a
    64-bit integer, leads back to the bytes.  The slot of a null cell is
    zero. *)
Theorem conversion_stores_strings (block : Block) (masks : MaskVector)
    (info : SparkRowInfo) (i j : nat) (col : ColumnWithTypeAndName)
    (o : Z) :
  convertCHColumnToSparkRow block masks = Ok info ->
  nth_error block j = Some col ->
  nth_error (offsets info) i = Some o ->
  isVariableLengthDataType (removeLowCardinalityAndNullable (type col))
  = true ->
  isDataTypeSupportRawData (removeLowCardinalityAndNullable (type col))
  = true ->
  exists mem row_idx is_null slot,
    buffer_address info = Some mem
    /\ row_index masks i = Ok row_idx
    /\ null_flag (column col) row_idx = Ok is_null
    /\ load mem (o + getFieldOffset info (Z.of_nat j)) 8 = Ok slot
    /\ if (is_null : bool) then slot = repeat x00 8
       else
         exists str buf,
           getDataAt (removeLowCardinalityAndNullable (type col))
             (column_cells (column col)) row_idx = Ok str
           /\ (if isBigEndianInSparkRow
                    (removeLowCardinalityAndNullable (type col))
               then swapDecimalEndianBytes str = Ok buf
               else buf = str)
           /\ slot
              = le_bytes 8
                  (getOffsetAndSize
                     (calculatedFixeSizePerRow (num_cols info)
                      + row_backing masks (firstn j block) i)
                     (Z.of_nat (length buf)))
           /\ load mem
                (o + (calculatedFixeSizePerRow (num_cols info)
                      + row_backing masks (firstn j block) i))
                (length buf) = Ok buf
           /\ forall l,
                nth_error (lengths info) i = Some l -> l < 2 ^ 31 ->
                load mem (o + extractOffset (to_int64 (le_value slot)))
                  (Z.to_nat (extractSize (to_int64 (le_value slot))))
                = Ok buf.
Proof.
  intros H Nth Eo V R.
  exact (raw_bytes_of_cell block masks info i j col o H Nth Eo V R).
Qed.

Lemma conversion_stores_strings_witness :
  let col :=
    mkColumn (ColumnFull [FString [x68; x69]; FString []]) DataTypeString in
  let block :=
    [mkColumn (ColumnNullable [false; true] [FInt64 5; FInt64 0])
       (DataTypeNullable DataTypeInt32); col] in
  let info :=
    mkSparkRowInfo [DataTypeNullable DataTypeInt32; DataTypeString] 2 2 8 56
      [0; 32] [32; 24] [32; 24]
      (Some [x00; x00; x00; x00; x00; x00; x00; x00;
             x05; x00; x00; x00; x00; x00; x00; x00;
             x02; x00; x00; x00; x18; x00; x00; x00;
             x68; x69; x00; x00; x00; x00; x00; x00;
             x01; x00; x00; x00; x00; x00; x00; x00;
             x00; x00; x00; x00; x00; x00; x00; x00;
             x00; x00; x00; x00; x18; x00; x00; x00]) in
  exists mem row_idx is_null slot,
    buffer_address info = Some mem
    /\ row_index None 0 = Ok row_idx
    /\ null_flag (column col) row_idx = Ok is_null
    /\ load mem (0 + getFieldOffset info (Z.of_nat 1)) 8 = Ok slot
    /\ if (is_null : bool) then slot = repeat x00 8
       else
         exists str buf,
           getDataAt (removeLowCardinalityAndNullable (type col))
             (column_cells (column col)) row_idx = Ok str
           /\ (if isBigEndianInSparkRow
                    (removeLowCardinalityAndNullable (type col))
               then swapDecimalEndianBytes str = Ok buf
               else buf = str)
           /\ slot
              = le_bytes 8
                  (getOffsetAndSize
                     (calculatedFixeSizePerRow (num_cols info)
                      + row_backing None (firstn 1 block) 0)
                     (Z.of_nat (length buf)))
           /\ load mem
                (0 + (calculatedFixeSizePerRow (num_cols info)
                      + row_backing None (firstn 1 block) 0))
                (length buf) = Ok buf
           /\ forall l,
                nth_error (lengths info) 0 = Some l -> l < 2 ^ 31 ->
                load mem (0 + extractOffset (to_int64 (le_value slot)))
                  (Z.to_nat (extractSize (to_int64 (le_value slot))))
                = Ok buf.
Proof.
  intros col block info.
  apply (conversion_stores_strings block None info 0 1 col 0);
    reflexivity.
Defined.

Import WhichDataType.
Import BackingDataLengthCalculator.

(** ** Arrays, maps and structs in the rows *)

(** The descriptor of an array, a map or a struct carries the position of
    the cursor before the write and the length that [calculate] returns. *)
Lemma write_composite_descriptor (t : DataType) (offsets : list Z)
    (r : nat) (f : Field) (p : Z) (st st' : RowBuffer) (d n c : Z) :
  isVariableLengthDataType t = true ->
  isDataTypeSupportRawData t = false ->
  VariableLengthDataWriter.write t offsets r f p st = Ok (st', d) ->
  calculate t f = Ok n ->
  vector_at (cursor st) r = Ok c ->
  isNull f = false ->
  d = getOffsetAndSize (c - p) n.
Proof.
  intros V R Hw Hc Ec N.
  pose proof (write_agrees_with_calculate offsets t _ _ _ _ _ _ _ Hw Hc)
    as [Cs _].
  assert (Ec' : vector_at (cursor st') r = Ok (c + n)).
  { rewrite Cs. apply vector_at_Ok, nth_error_cursor_add_eq, vector_at_Ok.
    exact Ec. }
  assert (Composite :
            forall start c',
              vector_at (cursor st) r = Ok start ->
              vector_at (cursor st') r = Ok c' ->
              d = getOffsetAndSize (start - p) (c' - start) ->
              d = getOffsetAndSize (c - p) n).
  { intros start c' Es Ec2 ->. rewrite Es in Ec. rewrite Ec2 in Ec'.
    inv_Ok Ec. inv_Ok Ec'. f_equal. lia. }
  destruct t; try discriminate V; try discriminate R.
  - rewrite write_Array in Hw by exact N. bind_inv Hw as a Ea.
    apply writeArray_descriptor in Hw.
    destruct Hw as (start & c' & Es & Ec2 & E).
    exact (Composite start c' Es Ec2 E).
  - rewrite write_Tuple in Hw by exact N. bind_inv Hw as a Ea.
    apply writeStruct_descriptor in Hw.
    destruct Hw as (start & c' & Es & Ec2 & E).
    exact (Composite start c' Es Ec2 E).
  - rewrite write_Map in Hw by exact N. bind_inv Hw as a Ea.
    apply writeMap_descriptor in Hw.
    destruct Hw as (start & c' & Es & Ec2 & E).
    exact (Composite start c' Es Ec2 E).
Qed.

(** The slot and the region of an array, a map or a struct in the rows
    that the conversion returns. *)
Lemma composite_value_of_cell (block : Block)
    (masks : MaskVector) (info : SparkRowInfo) (i j : nat)
    (col : ColumnWithTypeAndName) (o : Z) :
  convertCHColumnToSparkRow block masks = Ok info ->
  nth_error block j = Some col ->
  nth_error (offsets info) i = Some o ->
  isVariableLengthDataType (removeLowCardinalityAndNullable (type col))
  = true ->
  isDataTypeSupportRawData (removeLowCardinalityAndNullable (type col))
  = false ->
  exists mem row_idx is_null slot,
    buffer_address info = Some mem
    /\ row_index masks i = Ok row_idx
    /\ null_flag (column col) row_idx = Ok is_null
    /\ load mem (o + getFieldOffset info (Z.of_nat j)) 8 = Ok slot
    /\ if (is_null : bool) then slot = repeat x00 8
       else
         exists field v s s1 d,
           vector_at (column_cells (column col)) row_idx = Ok field
           /\ calculate (removeLowCardinalityAndNullable (type col)) field
              = Ok v
           /\ VariableLengthDataWriter.write
                (removeLowCardinalityAndNullable (type col)) (offsets info)
                i field 0 s = Ok (s1, d)
           /\ nth_error (cursor s) i
              = Some (calculatedFixeSizePerRow (num_cols info)
                      + row_backing masks (firstn j block) i)
           /\ load (memory s)
                (o + (calculatedFixeSizePerRow (num_cols info)
                      + row_backing masks (firstn j block) i))
                (Z.to_nat v) = Ok (repeat x00 (Z.to_nat v))
           /\ slot = le_bytes 8 d
           /\ (isNull field = false ->
               d = getOffsetAndSize
                     (calculatedFixeSizePerRow (num_cols info)
                      + row_backing masks (firstn j block) i) v)
           /\ load mem
                (o + (calculatedFixeSizePerRow (num_cols info)
                      + row_backing masks (firstn j block) i))
                (Z.to_nat v)
              = load (memory s1)
                  (o + (calculatedFixeSizePerRow (num_cols info)
                        + row_backing masks (firstn j block) i))
                  (Z.to_nat v).
Proof.
  intros H Nth Eo V R.
  pose proof (nth_error_Some_lt _ _ _ Nth) as Hj. fold (columns block) in Hj.
  pose proof (nth_error_Some_lt _ _ _ Eo) as Hi.
  destruct (convert_shape _ _ _ H) as (_ & Lo & _). rewrite Lo in Hi.
  destruct (cell_layout _ _ _ i j H Hi Hj)
    as (o_ & Eo_ & Po & Hfix & Hfo & Hjc & W1 & W2 & B0 & B1 & B2 & Ht
        & Bnext & Rnext).
  rewrite Eo in Eo_. inversion Eo_; subst o_; clear Eo_.
  pose proof (row_backing_nonneg masks block i) as RB.
  destruct (convert_phases _ _ _ H)
    as (info1 & E1 & _ & _ & _ & _ & _ & _ & Ht1 & _).
  unfold SparkRowInfo_of_Block in E1.
  pose proof (SparkRowInfo_ctor_layout _ _ _ _ _ _ E1)
    as (_ & _ & _ & _ & Pt).
  rewrite <- Ht1 in Pt.
  pose proof (calculateBitSetWidthInBytes_nonneg (num_cols info)
                ltac:(lia)) as Pbw.
  set (twn := removeLowCardinalityAndNullable (type col)) in *.
  set (a := o + getFieldOffset info (Z.of_nat j)) in *.
  set (c := calculatedFixeSizePerRow (num_cols info)
            + row_backing masks (firstn j block) i) in *.
  set (hi := calculatedFixeSizePerRow (num_cols info)
             + row_backing masks (firstn (S j) block) i) in *.
  destruct (convert_cell_invariant block masks info i j
              (fun m => load m a 8 = Ok (repeat x00 8)
                        /\ load m (o + c) (Z.to_nat (hi - c))
                           = Ok (repeat x00 (Z.to_nat (hi - c))))
              (fun m =>
                 exists row_idx is_null slot,
                   row_index masks i = Ok row_idx
                   /\ null_flag (column col) row_idx = Ok is_null
                   /\ load m a 8 = Ok slot
                   /\ if (is_null : bool) then slot = repeat x00 8
                      else
                        exists field v s s1 d,
                          vector_at (column_cells (column col)) row_idx
                          = Ok field
                          /\ calculate twn field = Ok v
                          /\ VariableLengthDataWriter.write twn
                               (offsets info) i field 0 s = Ok (s1, d)
                          /\ nth_error (cursor s) i = Some c
                          /\ load (memory s) (o + c) (Z.to_nat v)
                             = Ok (repeat x00 (Z.to_nat v))
                          /\ slot = le_bytes 8 d
                          /\ (isNull field = false ->
                              d = getOffsetAndSize c v)
                          /\ v = hi - c
                          /\ load m (o + c) (Z.to_nat v)
                             = load (memory s1) (o + c) (Z.to_nat v))
              H Hi Hj)
    as (mem & Em & r & b & slot & Er & En & L & Q).
  - unfold alloc_zeroed.
    split; apply load_zeros; unfold a, c, hi in *;
      change (Z.of_nat 8) with 8; lia.
  - intros j' i' col' s s' v Nth' Hi' Ev Ec Lm CW.
    destruct (cell_step_effect _ _ _ _ _ _ _ _ _ Nth' Ev Ec CW)
      as (r' & o' & b' & Er' & Eo' & En' & Ls & ES & Hnull & Hval).
    pose proof (nth_error_Some_lt _ _ _ Nth') as Hj'.
    fold (columns block) in Hj'.
    destruct (cell_layout _ _ _ i' j' H Hi' Hj')
      as (o_ & Eo_ & Po' & _ & Hfo' & Hjc' & W1' & W2' & B0' & B1' & B2'
          & Ht' & Bnext' & Rnext').
    rewrite Eo' in Eo_. inversion Eo_; subst o_; clear Eo_.
    assert (Rows : i <> i' ->
              o + calculatedFixeSizePerRow (num_cols info)
              + row_backing masks block i <= o'
              \/ o' + calculatedFixeSizePerRow (num_cols info)
                 + row_backing masks block i' <= o).
    { intros Ni. destruct (Nat.lt_ge_cases i i') as [Lt|Ge].
      - left. apply (Rnext i' o' Lt Eo').
      - right. apply (Rnext' i o ltac:(lia) Eo). }
    pose proof (row_backing_nonneg masks block i') as RB'.
    assert (Cols : i = i' -> j <> j' ->
              row_backing masks (firstn (S j) block) i
              <= row_backing masks (firstn j' block) i
              \/ row_backing masks (firstn (S j') block) i
                 <= row_backing masks (firstn j block) i).
    { intros <- Nj. destruct (Nat.lt_ge_cases j j') as [Lt|Ge].
      - left. apply Bnext. exact Lt.
      - right. apply Bnext'. lia. }
    assert (KeepSlot : ((j =? j')%nat && (i =? i')%nat)%bool = false
                       \/ b' = true ->
              load (memory s') a 8 = load (memory s) a 8).
    { intros C. destruct b'.
      - specialize (Hnull eq_refl).
        apply bitSet_same_outside in Hnull. destruct Hnull as [L K].
        apply load_unchanged; [ exact L | ].
        intros k Hk. apply K. unfold a in Hk.
        change (Z.of_nat 8) with 8 in Hk.
        destruct (Nat.eq_dec i i') as [<-|Ni].
        + rewrite Eo in Eo'. inversion Eo'; subst o'. lia.
        + specialize (Rows Ni). lia.
      - destruct C as [C|C]; [ | discriminate C ].
        apply load_unchanged; [ exact Ls | ].
        intros k Hk. unfold a in Hk. change (Z.of_nat 8) with 8 in Hk.
        destruct (Nat.eq_dec i i') as [<-|Ni].
        + rewrite Eo in Eo'. inversion Eo'; subst o'.
          rewrite Nat.eqb_refl, andb_true_r in C.
          apply Nat.eqb_neq in C.
          apply Hval; [ reflexivity | lia | lia ].
        + specialize (Rows Ni).
          apply Hval; [ reflexivity | lia | lia ]. }
    assert (KeepData : ((j =? j')%nat && (i =? i')%nat)%bool = false
                       \/ b' = true ->
              forall n : nat, c + Z.of_nat n <= hi ->
                load (memory s') (o + c) n = load (memory s) (o + c) n).
    { intros C n Hn. destruct b'.
      - specialize (Hnull eq_refl).
        apply bitSet_same_outside in Hnull. destruct Hnull as [L K].
        apply load_unchanged; [ exact L | ].
        intros k Hk. apply K. unfold c, hi in *.
        destruct (Nat.eq_dec i i') as [<-|Ni].
        + rewrite Eo in Eo'. inversion Eo'; subst o'. lia.
        + specialize (Rows Ni). lia.
      - destruct C as [C|C]; [ | discriminate C ].
        apply load_unchanged; [ exact Ls | ].
        intros k Hk. unfold c, hi in *.
        destruct (Nat.eq_dec i i') as [<-|Ni].
        + rewrite Eo in Eo'. inversion Eo'; subst o'.
          rewrite Nat.eqb_refl, andb_true_r in C.
          apply Nat.eqb_neq in C. specialize (Cols eq_refl C).
          apply Hval; [ reflexivity | lia | lia ].
        + specialize (Rows Ni).
          apply Hval; [ reflexivity | lia | lia ]. }
    destruct ((j =? j')%nat && (i =? i')%nat)%bool eqn:Own.
    + apply andb_prop in Own. destruct Own as [Oj Oi].
      apply Nat.eqb_eq in Oj, Oi. subst j' i'.
      rewrite Nth in Nth'. inversion Nth'; subst col'.
      rewrite Eo in Eo'. inversion Eo'; subst o'.
      intros [Q0 Z0]. exists r', b'.
      destruct b'.
      * exists (repeat x00 8). rewrite KeepSlot by auto. auto.
      * destruct CW as (r2 & o2 & b2 & Er2 & Eo2 & En2 & W).
        rewrite Er' in Er2. inv_Ok Er2.
        cbn [column] in En2. unfold convertToFullIfNeeded in En2.
        rewrite En' in En2. inv_Ok En2.
        apply vector_at_Ok in Eo2. rewrite Eo in Eo2.
        inversion Eo2; subst o2; clear Eo2.
        rewrite (backing_size_cell masks col i r2 false Er' En') in Ev.
        fold twn in Ev. rewrite V, R in Ev.
        unfold value_written in W. cbn [type column] in W.
        unfold convertToFullIfNeeded in W.
        change (removeNullable (removeLowCardinality (type col)))
          with twn in W.
        rewrite (variable_not_fixed _ V), R in W. fold a in W.
        destruct W as (_ & s1 & d & m & (field & Ef & Ew) & Emc & ->).
        cbn [set_memory memory].
        rewrite Ef in Ev. cbn [bind] in Ev.
        assert (Hv : v = hi - c) by (unfold hi, c; lia).
        exists (le_bytes 8 d).
        repeat split; try assumption.
        -- pose proof (load_memcpy_same _ _ _ _ Emc) as Lslot.
           rewrite length_le_bytes in Lslot. exact Lslot.
        -- exists field, v, s, s1, d. repeat split; try assumption.
           ++ rewrite Hv. exact Z0.
           ++ intros N. apply vector_at_Ok in Ec.
              rewrite <- (Z.sub_0_r c).
              eapply write_composite_descriptor; eassumption.
           ++ apply (load_memcpy_disjoint _ _ _ _ _ _ Emc).
              right. rewrite length_le_bytes. unfold a, c.
              change (Z.of_nat 8) with 8. lia.
    + split.
      * intros [Q0 Z0]. rewrite KeepSlot by auto.
        rewrite KeepData by (auto; lia). auto.
      * intros (r0 & b0 & slot0 & Er0 & En0 & L0 & Q1).
        exists r0, b0, slot0. rewrite KeepSlot by auto.
        repeat split; try assumption.
        destruct b0; [ exact Q1 | ].
        destruct Q1 as (field & v0 & s0 & s1 & d & Ef & Ev0 & Ew & Ec0 & Z0
                        & Esl & Hd & Hv & Ld).
        exists field, v0, s0, s1, d.
        rewrite KeepData by (auto; lia). repeat split; assumption.
  - exists mem, r, b, slot. repeat split; try assumption.
    destruct b; [ exact Q | ].
    destruct Q as (field & v0 & s0 & s1 & d & Ef & Ev0 & Ew & Ec0 & Z0
                   & Esl & Hd & Hv & Ld).
    exists field, v0, s0, s1, d. repeat split; assumption.
Qed.

(** X24. In the rows that [convertCHColumnToSparkRow] returns, the slot of
    an array, a map or a struct holds the descriptor of the value: its
    offset in the row, after the fixed part and the backing data of the
    earlier columns, and the length that [calculate] returns for it.  The
    value was written by [VariableLengthDataWriter::write] into bytes that
    were still zero, and no later write of the conversion has changed what
    it wrote.  The slot of a null cell is zero. *)
Theorem conversion_stores_composite_values (block : Block)
    (masks : MaskVector) (info : SparkRowInfo) (i j : nat)
    (col : ColumnWithTypeAndName) (o : Z) :
  convertCHColumnToSparkRow block masks = Ok info ->
  nth_error block j = Some col ->
  nth_error (offsets info) i = Some o ->
  isVariableLengthDataType (removeLowCardinalityAndNullable (type col))
  = true ->
  isDataTypeSupportRawData (removeLowCardinalityAndNullable (type col))
  = false ->
  exists mem row_idx is_null slot,
    buffer_address info = Some mem
    /\ row_index masks i = Ok row_idx
    /\ null_flag (column col) row_idx = Ok is_null
    /\ load mem (o + getFieldOffset info (Z.of_nat j)) 8 = Ok slot
    /\ if (is_null : bool) then slot = repeat x00 8
       else
         exists field v s s1 d,
           vector_at (column_cells (column col)) row_idx = Ok field
           /\ calculate (removeLowCardinalityAndNullable (type col)) field
              = Ok v
           /\ VariableLengthDataWriter.write
                (removeLowCardinalityAndNullable (type col)) (offsets info)
                i field 0 s = Ok (s1, d)
           /\ nth_error (cursor s) i
              = Some (calculatedFixeSizePerRow (num_cols info)
                      + row_backing masks (firstn j block) i)
           /\ load (memory s)
                (o + (calculatedFixeSizePerRow (num_cols info)
                      + row_backing masks (firstn j block) i))
                (Z.to_nat v) = Ok (repeat x00 (Z.to_nat v))
           /\ slot = le_bytes 8 d
           /\ (isNull field = false ->
               d = getOffsetAndSize
                     (calculatedFixeSizePerRow (num_cols info)
                      + row_backing masks (firstn j block) i) v)
           /\ load mem
                (o + (calculatedFixeSizePerRow (num_cols info)
                      + row_backing masks (firstn j block) i))
                (Z.to_nat v)
              = load (memory s1)
                  (o + (calculatedFixeSizePerRow (num_cols info)
                        + row_backing masks (firstn j block) i))
                  (Z.to_nat v).
Proof.
  intros H Nth Eo V R.
  exact (composite_value_of_cell block masks info i j col o H Nth Eo V R).
Qed.

Lemma conversion_stores_composite_values_witness :
  let col :=
    mkColumn (ColumnFull [FArray [FInt64 1; FNull]])
      (DataTypeArray (DataTypeNullable DataTypeInt32)) in
  let block := [col] in
  let info :=
    mkSparkRowInfo [DataTypeArray (DataTypeNullable DataTypeInt32)] 1 1 8 40
      [0] [40] [40]
      (Some [x00; x00; x00; x00; x00; x00; x00; x00;
             x18; x00; x00; x00; x10; x00; x00; x00;
             x02; x00; x00; x00; x00; x00; x00; x00;
             x02; x00; x00; x00; x00; x00; x00; x00;
             x01; x00; x00; x00; x00; x00; x00; x00]) in
  exists mem row_idx is_null slot,
    buffer_address info = Some mem
    /\ row_index None 0 = Ok row_idx
    /\ null_flag (column col) row_idx = Ok is_null
    /\ load mem (0 + getFieldOffset info (Z.of_nat 0)) 8 = Ok slot
    /\ if (is_null : bool) then slot = repeat x00 8
       else
         exists field v s s1 d,
           vector_at (column_cells (column col)) row_idx = Ok field
           /\ calculate (removeLowCardinalityAndNullable (type col)) field
              = Ok v
           /\ VariableLengthDataWriter.write
                (removeLowCardinalityAndNullable (type col)) (offsets info)
                0 field 0 s = Ok (s1, d)
           /\ nth_error (cursor s) 0
              = Some (calculatedFixeSizePerRow (num_cols info)
                      + row_backing None (firstn 0 block) 0)
           /\ load (memory s)
                (0 + (calculatedFixeSizePerRow (num_cols info)
                      + row_backing None (firstn 0 block) 0))
                (Z.to_nat v) = Ok (repeat x00 (Z.to_nat v))
           /\ slot = le_bytes 8 d
           /\ (isNull field = false ->
               d = getOffsetAndSize
                     (calculatedFixeSizePerRow (num_cols info)
                      + row_backing None (firstn 0 block) 0) v)
           /\ load mem
                (0 + (calculatedFixeSizePerRow (num_cols info)
                      + row_backing None (firstn 0 block) 0))
                (Z.to_nat v)
              = load (memory s1)
                  (0 + (calculatedFixeSizePerRow (num_cols info)
                        + row_backing None (firstn 0 block) 0))
                  (Z.to_nat v).
Proof.
  intros col block info.
  apply (conversion_stores_composite_values block None info 0 0 col 0);
    reflexivity.
Defined.

Import WhichDataType.
Import BackingDataLengthCalculator.

(** ** The layout of an array *)

Lemma load_inv (mem : list byte) (a : Z) (n : nat) (bs : list byte) :
  load mem a n = Ok bs ->
  0 <= a /\ a + Z.of_nat n <= Z.of_nat (length mem).
Proof.
  unfold load. intros H.
  destruct (Z.leb_spec 0 a); [ | discriminate ].
  destruct (Z.leb_spec (a + Z.of_nat n) (Z.of_nat (length mem)));
    [ lia | discriminate ].
Qed.

(** A part of a region of zeros is zeros. *)
Lemma load_sub_zeros (mem : list byte) (lo : Z) (N : nat) (a : Z) (n : nat) :
  load mem lo N = Ok (repeat x00 N) ->
  lo <= a -> a + Z.of_nat n <= lo + Z.of_nat N ->
  load mem a n = Ok (repeat x00 n).
Proof.
  intros H Ha Hn.
  replace N with (Z.to_nat (a - lo) + (n + (N - Z.to_nat (a - lo) - n)))%nat
    in H by lia.
  apply load_split in H. destruct H as [_ H].
  replace (lo + Z.of_nat (Z.to_nat (a - lo))) with a in H by lia.
  apply load_split in H. destruct H as [H _].
  rewrite skipn_repeat_eq, firstn_repeat_le in H by lia. exact H.
Qed.

Lemma isBitSet_zero_region (mem : list byte) (lo : Z) (N : nat)
    (bitmap index : Z) :
  load mem lo N = Ok (repeat x00 N) ->
  lo <= bitmap + Z.shiftr index 6 * 8 ->
  bitmap + Z.shiftr index 6 * 8 + 8 <= lo + Z.of_nat N ->
  isBitSet mem bitmap index = Ok false.
Proof.
  intros H Hlo Hhi. unfold isBitSet.
  rewrite (load_sub_zeros mem lo N _ 8 H Hlo)
    by (change (Z.of_nat 8) with 8; lia).
  cbn [bind]. rewrite le_value_zeros. reflexivity.
Qed.

(** On a field that is not null [FixedLengthDataWriter::write] copies
    bytes that depend on the type and the field alone, as many as an
    element of the type takes in an array. *)
Lemma FixedLengthDataWriter_write_bytes (t : DataType) (f : Field)
    (mem mem' : list byte) (a : Z) :
  FixedLengthDataWriter.write t f mem a = Ok mem' ->
  isNull f = false ->
  exists bs,
    Z.of_nat (length bs) = getArrayElementSize t
    /\ forall m b, FixedLengthDataWriter.write t f m b = memcpy m b bs.
Proof.
  intros H N.
  destruct t; destruct f; try discriminate N; try discriminate H;
    (eexists; split; [ | intros m b; reflexivity ]);
    rewrite length_le_bytes; reflexivity.
Qed.

Lemma load_same_outside (m1 m2 : list byte) (lo hi a : Z) (n : nat) :
  same_outside m1 m2 lo hi ->
  a + Z.of_nat n <= lo \/ hi <= a ->
  load m2 a n = load m1 a n.
Proof.
  intros [L K] H. apply load_unchanged; [ exact L | ].
  intros k Hk. apply K. lia.
Qed.

Lemma isBitSet_same_outside (m1 m2 : list byte) (lo hi bitmap index : Z) :
  same_outside m1 m2 lo hi ->
  bitmap + Z.shiftr index 6 * 8 + 8 <= lo
  \/ hi <= bitmap + Z.shiftr index 6 * 8 ->
  isBitSet m2 bitmap index = isBitSet m1 bitmap index.
Proof.
  intros [L K] H. apply isBitSet_unchanged; [ exact L | ].
  intros k Hk. apply K. lia.
Qed.

Section ArraySteps.

Variable bitmap : Z.
Variable W : nat -> Field -> list byte -> list byte -> Prop.

(** What every step of the loop keeps is kept by the loop. *)
Lemma array_steps_keeps (P : list byte -> Prop) :
  forall (array : Array) (i : nat) (m m' : list byte),
    array_steps bitmap W i array m m' ->
    (forall j m1 m2, (i <= j < i + length array)%nat ->
       bitSet m1 bitmap (Z.of_nat j) = Ok m2 -> P m1 -> P m2) ->
    (forall j e m1 m2, (i <= j < i + length array)%nat ->
       W j e m1 m2 -> P m1 -> P m2) ->
    P m -> P m'.
Proof.
  induction array as [|e array IH]; intros i m m' S Hb Hw Pm;
    cbn [array_steps] in S.
  - subst m'. exact Pm.
  - destruct S as (m1 & S1 & S).
    apply (IH (Datatypes.S i) m1 m' S).
    + intros j a b Hj. apply Hb. cbn [length]. lia.
    + intros j x a b Hj. apply Hw. cbn [length]. lia.
    + destruct (isNull e).
      * apply (Hb i m m1); [ cbn [length]; lia | exact S1 | exact Pm ].
      * apply (Hw i e m m1); [ cbn [length]; lia | exact S1 | exact Pm ].
Qed.

(** The loop, split at element [k]. *)
Lemma array_steps_nth :
  forall (array : Array) (i : nat) (m m' : list byte) (k : nat) (e : Field),
    array_steps bitmap W i array m m' ->
    nth_error array k = Some e ->
    exists m1 m2,
      array_steps bitmap W i (firstn k array) m m1
      /\ (if isNull e then bitSet m1 bitmap (Z.of_nat (i + k)) = Ok m2
          else W (i + k)%nat e m1 m2)
      /\ array_steps bitmap W (S (i + k)) (skipn (S k) array) m2 m'.
Proof.
  induction array as [|x array IH]; intros i m m' k e S E.
  - destruct k; discriminate E.
  - cbn [array_steps] in S. destruct S as (m1 & S1 & S).
    destruct k as [|k]; cbn [nth_error] in E.
    + inversion E; subst x. exists m, m1.
      rewrite Nat.add_0_r. cbn [firstn skipn array_steps]. auto.
    + destruct (IH (Datatypes.S i) m1 m' k e S E) as (a & b & Sa & Sk & Sb).
      exists a, b. replace (i + Datatypes.S k)%nat with (Datatypes.S i + k)%nat
        by lia.
      cbn [firstn skipn array_steps]. split; [ | auto ].
      exists m1. auto.
Qed.

End ArraySteps.

Lemma array_steps_weaken (bitmap : Z)
    (W W' : nat -> Field -> list byte -> list byte -> Prop) :
  (forall j e m1 m2, W j e m1 m2 -> W' j e m1 m2) ->
  forall (array : Array) (i : nat) (m m' : list byte),
    array_steps bitmap W i array m m' -> array_steps bitmap W' i array m m'.
Proof.
  intros Hw. induction array as [|e array IH]; intros i m m' S;
    cbn [array_steps] in *; [ exact S | ].
  destruct S as (m1 & S1 & S). exists m1. split; [ | apply IH; exact S ].
  destruct (isNull e); [ exact S1 | apply Hw; exact S1 ].
Qed.

(** The loop of [writeArray] over elements of a fixed-length type. *)
Lemma writeArray_fixed_loop_steps (fixed : DataType)
    (bitmap slots elem_size : Z) :
  forall (array : Array) (i : nat) (st st' : RowBuffer),
    for_each i array
      (fun i elem st =>
         if isNull elem then
           mem <- bitSet (memory st) bitmap (Z.of_nat i) ;;
           Ok (set_memory st mem)
         else
           mem <- FixedLengthDataWriter.write fixed elem (memory st)
                    (slots + Z.of_nat i * elem_size) ;;
           Ok (set_memory st mem)) st = Ok st' ->
    array_steps bitmap
      (fun j e m1 m2 =>
         FixedLengthDataWriter.write fixed e m1
           (slots + Z.of_nat j * elem_size) = Ok m2)
      i array (memory st) (memory st').
Proof.
  induction array as [|e array IH]; intros i st st' L;
    cbn [for_each array_steps] in *.
  - inv_Ok L. reflexivity.
  - bind_inv L as st1 S1. exists (memory st1).
    split; [ | apply IH; exact L ].
    destruct (isNull e); bind_inv S1 as mem Em; inv_Ok S1; exact Em.
Qed.

Section VariableLoop.

Variable offsets : list Z.

(** The loop of [writeArray] over elements of a variable-length type:
    an element is written at the cursor, inside the backing data of the
    array, and its descriptor is stored in the slot of the element. *)
Lemma writeArray_loop_steps (writer : VariableLengthDataWriter.Writer)
    (calculator : Field -> Result Z) (r : nat)
    (o start bitmap slots elem_size LO HI : Z) :
  agree writer calculator ->
  null_free calculator ->
  confined offsets writer calculator ->
  (forall f m, calculator f = Ok m -> 0 <= m) ->
  vector_at offsets r = Ok o ->
  forall (array : Array) (i : nat) (st st' : RowBuffer) (acc total cst : Z),
    for_each i array
      (fun i elem st =>
         if isNull elem then
           mem <- bitSet (memory st) bitmap (Z.of_nat i) ;;
           Ok (set_memory st mem)
         else
           ' (st, offset_and_size) <- writer r elem start st ;;
           mem <- memcpy (memory st) (slots + Z.of_nat i * elem_size)
                    (le_bytes 8 offset_and_size) ;;
           Ok (set_memory st mem)) st = Ok st' ->
    for_each i array (fun _ elem res => n <- calculator elem ;; Ok (res + n))
      acc = Ok total ->
    vector_at (cursor st) r = Ok cst ->
    LO <= o + cst -> o + cst + (total - acc) <= HI ->
    array_steps bitmap
      (fun j e m1 m2 =>
         exists s1 s2 d,
           writer r e start s1 = Ok (s2, d)
           /\ memory s1 = m1
           /\ same_outside m1 (memory s2) LO HI
           /\ memcpy (memory s2) (slots + Z.of_nat j * elem_size)
                (le_bytes 8 d) = Ok m2)
      i array (memory st) (memory st').
Proof.
  intros Ha Hnull Hc Hpos Eo.
  induction array as [|e array IH];
    intros i st st' acc total cst L C Ec Hlo Hhi;
    cbn [for_each array_steps] in *.
  - inv_Ok L. reflexivity.
  - bind_inv L as st1 S1. bind_inv C as acc1 Ce. bind_inv Ce as n1 Cn.
    inv_Ok Ce.
    pose proof (Hpos _ _ Cn) as Pn.
    pose proof (for_each_sum_nonneg (fun _ => calculator) _ _ _ _
                  (fun _ => Hpos) C) as Mono.
    exists (memory st1).
    destruct (isNull e) eqn:Ne.
    + bind_inv S1 as mem Em. inv_Ok S1. cbn [set_memory memory].
      split; [ exact Em | ].
      rewrite (Hnull e n1 Ne Cn) in *.
      apply (IH (S i) (set_memory st mem) st' (acc + 0) total cst);
        [ exact L | exact C | exact Ec | lia | lia ].
    + bind_inv S1 as sd Ew. destruct sd as [s1 d].
      bind_inv S1 as mem Em. inv_Ok S1. cbn [set_memory memory].
      pose proof (Hc _ _ _ _ _ _ _ _ _ Ew Cn Eo Ec) as F1.
      pose proof (Ha _ _ _ _ _ _ _ Ew Cn) as Adv.
      pose proof (advanced_cursor_at _ _ _ _ _ Adv Ec) as Ec1.
      split.
      * exists st, s1, d. repeat split; try assumption.
        -- destruct F1 as [F1 _]. exact F1.
        -- intros k Hk. destruct F1 as [_ F1]. apply F1. lia.
      * apply (IH (S i) (set_memory s1 mem) st' (acc + n1) total
                 (cst + n1));
          [ exact L | exact C | exact Ec1 | lia | lia ].
Qed.

(** [writeArray] stores the number of elements and runs the loop over
    the elements: a null element sets its bit; an element of fixed length
    is written to its slot; another element is written at the cursor, and
    its descriptor is stored in its slot. *)
Lemma writeArray_steps (nested_type : DataType)
    (writer : VariableLengthDataWriter.Writer)
    (calculator : Field -> Result Z) :
  agree writer calculator ->
  null_free calculator ->
  confined offsets writer calculator ->
  (forall f m, calculator f = Ok m -> 0 <= m) ->
  forall r array p st st' d n o c,
    VariableLengthDataWriter.writeArray nested_type writer offsets r array p
      st = Ok (st', d) ->
    calculateArray nested_type calculator array = Ok n ->
    vector_at offsets r = Ok o ->
    vector_at (cursor st) r = Ok c ->
    let num := Z.of_nat (length array) in
    let bm := calculateBitSetWidthInBytes num in
    let es := getArrayElementSize nested_type in
    let lv := roundNumberOfBytesToNearestWord (es * num) in
    exists mem0,
      memcpy (memory st) (o + c) (le_bytes 8 num) = Ok mem0
      /\ 8 + bm + lv <= n
      /\ array_steps (o + c + 8)
           (fun j e m1 m2 =>
              if isFixedLengthDataType (removeNullable nested_type) then
                FixedLengthDataWriter.write (removeNullable nested_type) e
                  m1 (o + c + 8 + bm + Z.of_nat j * es) = Ok m2
              else
                exists s1 s2 d,
                  writer r e c s1 = Ok (s2, d)
                  /\ memory s1 = m1
                  /\ same_outside m1 (memory s2) (o + c + 8 + bm + lv)
                       (o + c + n)
                  /\ memcpy (memory s2)
                       (o + c + 8 + bm + Z.of_nat j * es) (le_bytes 8 d)
                     = Ok m2)
           0 array mem0 (memory st').
Proof.
  intros Ha Hnull Hc Hpos r array p st st' d n o c W C Eo Ec num bm es lv.
  pose proof (calculateArray_nonneg _ _ _ _ Hpos C) as Hdr.
  fold num bm es lv in Hdr.
  unfold VariableLengthDataWriter.writeArray in W.
  rewrite Eo, Ec in W. cbn [bind] in W.
  bind_inv W as mem Em. bind_inv W as st1 A1.
  fold num in Em, W. exists mem. split; [ exact Em | ].
  split; [ exact Hdr | ].
  pose proof (advance_cursor_at _ _ _ _ c A1 Ec) as Ec1.
  apply advance_inv in A1. destruct A1 as [M1 _].
  cbn [set_memory memory] in M1. subst mem.
  destruct (Z.eqb_spec num 0) as [Z0|NZ].
  - inv_Ok W. destruct array; [ reflexivity | ].
    unfold num in Z0. cbn [length] in Z0. lia.
  - bind_inv W as st2 A2. bind_inv W as st3 A3. bind_inv W as st4 L.
    bind_inv W as c' Ec'. inv_Ok W.
    pose proof (advance_cursor_at _ _ _ _ _ A2 Ec1) as Ec2.
    pose proof (advance_cursor_at _ _ _ _ _ A3 Ec2) as Ec3.
    apply advance_inv in A2, A3. destruct A2 as [M2 _], A3 as [M3 _].
    assert (M : memory st3 = memory st1) by congruence.
    fold bm es in Ec2, Ec3, L. fold lv in Ec3, L.
    rewrite <- M.
    destruct (isFixedLengthDataType (removeNullable nested_type)) eqn:Fx.
    + bind_inv L as fixed Ef.
      unfold FixedLengthDataWriter.ctor in Ef. rewrite Fx in Ef.
      cbn [negb] in Ef. inv_Ok Ef.
      apply writeArray_fixed_loop_steps in L. exact L.
    + bind_inv L as tv Ev.
      unfold calculateArray in C. bind_inv C as tw Ect.
      fold num bm es in C. fold lv in C.
      eapply (writeArray_loop_steps writer calculator r o c (o + c + 8)
                (o + c + 8 + bm) es (o + c + 8 + bm + lv) (o + c + n));
        [ exact Ha | exact Hnull | exact Hc | exact Hpos | exact Eo
        | exact L | exact C | exact Ec3 | lia | lia ].
Qed.

(** The elements of variable length that the loop of [writeArray] writes:
    each is written at the cursor, inside the backing data of the array and
    after the elements before it; the bytes of its region were untouched
    until then and are not touched afterwards; and its descriptor stands in
    its slot. *)
Lemma writeArray_loop_elements (writer : VariableLengthDataWriter.Writer)
    (calculator : Field -> Result Z) (r : nat)
    (o start bitmap slots elem_size FE : Z) :
  agree writer calculator ->
  null_free calculator ->
  confined offsets writer calculator ->
  (forall f m, calculator f = Ok m -> 0 <= m) ->
  vector_at offsets r = Ok o ->
  8 <= elem_size ->
  forall (array : Array) (i : nat) (st st' : RowBuffer) (acc total cst : Z),
    for_each i array
      (fun i elem st =>
         if isNull elem then
           mem <- bitSet (memory st) bitmap (Z.of_nat i) ;;
           Ok (set_memory st mem)
         else
           ' (st, offset_and_size) <- writer r elem start st ;;
           mem <- memcpy (memory st) (slots + Z.of_nat i * elem_size)
                    (le_bytes 8 offset_and_size) ;;
           Ok (set_memory st mem)) st = Ok st' ->
    for_each i array (fun _ elem res => n <- calculator elem ;; Ok (res + n))
      acc = Ok total ->
    vector_at (cursor st) r = Ok cst ->
    (forall j, (i <= j < i + length array)%nat ->
       bitmap + Z.shiftr (Z.of_nat j) 6 * 8 + 8 <= slots
       /\ slots + Z.of_nat j * elem_size + 8 <= FE) ->
    FE <= o + cst ->
    forall k e,
      nth_error array k = Some e -> isNull e = false ->
      exists s1 s2 d ce ne,
        writer r e start s1 = Ok (s2, d)
        /\ vector_at (cursor s1) r = Ok ce
        /\ calculator e = Ok ne
        /\ cst <= ce /\ ce + ne <= cst + (total - acc)
        /\ load (memory s1) (o + ce) (Z.to_nat ne)
           = load (memory st) (o + ce) (Z.to_nat ne)
        /\ load (memory st') (o + ce) (Z.to_nat ne)
           = load (memory s2) (o + ce) (Z.to_nat ne)
        /\ load (memory st') (slots + Z.of_nat (i + k) * elem_size) 8
           = Ok (le_bytes 8 d).
Proof.
  intros Ha Hnull Hc Hpos Eo Hes.
  induction array as [|e0 array IH];
    intros i st st' acc total cst L C Ec G Hfe k e Ek Ne.
  - destruct k; discriminate Ek.
  - cbn [for_each] in L, C.
    bind_inv L as st1 S1. bind_inv C as acc1 Ce. bind_inv Ce as n1 Cn.
    inv_Ok Ce.
    pose proof (Hpos _ _ Cn) as Pn.
    pose proof (for_each_sum_nonneg (fun _ => calculator) _ _ _ _
                  (fun _ => Hpos) C) as Mono.
    destruct (G i ltac:(cbn [length]; lia)) as [G1 G2].
    assert (G' : forall j, (S i <= j < S i + length array)%nat ->
                   bitmap + Z.shiftr (Z.of_nat j) 6 * 8 + 8 <= slots
                   /\ slots + Z.of_nat j * elem_size + 8 <= FE).
    { intros j Hj. apply G. cbn [length]. lia. }
    assert (Pos : forall j : nat, 0 <= Z.of_nat j * elem_size)
      by (intros j; apply Z.mul_nonneg_nonneg; lia).
    pose proof (Pos i) as Pi.
    (* what the rest of the loop keeps *)
    assert (Rest : forall (s : RowBuffer) (c1 a1 : Z),
              for_each (S i) array
                (fun i elem st =>
                   if isNull elem then
                     mem <- bitSet (memory st) bitmap (Z.of_nat i) ;;
                     Ok (set_memory st mem)
                   else
                     ' (st, offset_and_size) <- writer r elem start st ;;
                     mem <- memcpy (memory st)
                              (slots + Z.of_nat i * elem_size)
                              (le_bytes 8 offset_and_size) ;;
                     Ok (set_memory st mem)) s = Ok st' ->
              for_each (S i) array
                (fun _ elem res => n <- calculator elem ;; Ok (res + n))
                a1 = Ok total ->
              vector_at (cursor s) r = Ok c1 ->
              FE <= o + c1 ->
              forall (a : Z) (n : nat),
                (FE <= a /\ a + Z.of_nat n <= o + c1)
                \/ (a = slots + Z.of_nat i * elem_size /\ n = 8%nat) ->
                load (memory st') a n = load (memory s) a n).
    { intros s c1 a1 Ls Cs Ecs Hfe1 a n Hr.
      pose proof (writeArray_loop_steps writer calculator r o start bitmap
                    slots elem_size (o + c1) (o + c1 + (total - a1))
                    Ha Hnull Hc Hpos Eo array (S i) s st' a1 total c1
                    Ls Cs Ecs ltac:(lia) ltac:(lia)) as Steps.
      apply (array_steps_keeps _ _
               (fun m => load m a n = load (memory s) a n)
               _ _ _ _ Steps); [ | | reflexivity ].
      - intros j m1 m2 Hj Hb Pm1. rewrite <- Pm1.
        apply bitSet_same_outside in Hb.
        apply (load_same_outside _ _ _ _ _ _ Hb).
        destruct (G' j Hj) as [Gj1 Gj2]. pose proof (Pos j).
        destruct Hr as [[Hr1 Hr2]|[-> ->]].
        + right. lia.
        + right. lia.
      - intros j x m1 m2 Hj (sa & sb & dx & _ & _ & Fa & Emc) Pm1.
        rewrite <- Pm1.
        apply memcpy_same_outside in Emc. rewrite length_le_bytes in Emc.
        change (Z.of_nat 8) with 8 in Emc.
        rewrite (load_same_outside _ _ _ _ _ _ Emc).
        + apply (load_same_outside _ _ _ _ _ _ Fa).
          destruct Hr as [[Hr1 Hr2]|[-> ->]].
          * left. lia.
          * left. change (Z.of_nat 8) with 8. lia.
        + destruct (G' j Hj) as [Gj1 Gj2].
          destruct Hr as [[Hr1 Hr2]|[-> ->]].
          * right. lia.
          * left. change (Z.of_nat 8) with 8.
            assert ((Z.of_nat i + 1) * elem_size <= Z.of_nat j * elem_size)
              by (apply Z.mul_le_mono_nonneg_r; lia).
            lia. }
    destruct k as [|k]; cbn [nth_error] in Ek.
    + inversion Ek; subst e0; clear Ek. rewrite Ne in S1.
      bind_inv S1 as sd Ew. destruct sd as [s1 d].
      bind_inv S1 as mem Em. inv_Ok S1.
      pose proof (Ha _ _ _ _ _ _ _ Ew Cn) as Adv.
      pose proof (advanced_cursor_at _ _ _ _ _ Adv Ec) as Ec1.
      exists st, s1, d, cst, n1.
      repeat split; try assumption; try lia.
      * rewrite (Rest (set_memory s1 mem) (cst + n1) (acc + n1) L C Ec1
                   ltac:(lia))
          by (left; lia).
        cbn [set_memory memory].
        apply (load_memcpy_disjoint _ _ _ _ _ _ Em).
        right. rewrite length_le_bytes. change (Z.of_nat 8) with 8. lia.
      * rewrite Nat.add_0_r.
        rewrite (Rest (set_memory s1 mem) (cst + n1) (acc + n1) L C Ec1
                   ltac:(lia))
          by (right; split; reflexivity).
        cbn [set_memory memory].
        pose proof (load_memcpy_same _ _ _ _ Em) as L0.
        rewrite length_le_bytes in L0. exact L0.
    + assert (Head : exists c1,
                vector_at (cursor st1) r = Ok c1
                /\ c1 = cst + n1
                /\ forall (a : Z) (n : nat),
                     o + c1 <= a ->
                     load (memory st1) a n = load (memory st) a n).
      { destruct (isNull e0) eqn:N0.
        - bind_inv S1 as mem Em. inv_Ok S1. cbn [set_memory memory cursor].
          rewrite (Hnull e0 n1 N0 Cn). exists cst.
          split; [ exact Ec | ]. split; [ lia | ].
          intros a n Har. apply bitSet_same_outside in Em.
          apply (load_same_outside _ _ _ _ _ _ Em). right. lia.
        - bind_inv S1 as sd Ew. destruct sd as [s1 d].
          bind_inv S1 as mem Em. inv_Ok S1.
          cbn [set_memory memory cursor].
          pose proof (Hc _ _ _ _ _ _ _ _ _ Ew Cn Eo Ec) as F1.
          pose proof (Ha _ _ _ _ _ _ _ Ew Cn) as Adv.
          pose proof (advanced_cursor_at _ _ _ _ _ Adv Ec) as Ec1.
          exists (cst + n1). split; [ exact Ec1 | ].
          split; [ reflexivity | ].
          intros a n Har.
          rewrite (load_memcpy_disjoint _ _ _ _ _ _ Em)
            by (right; rewrite length_le_bytes;
                change (Z.of_nat 8) with 8; lia).
          apply (load_same_outside _ _ _ _ _ _ F1). right. lia. }
      destruct Head as (c1 & Ec1 & -> & Hhead).
      destruct (IH (S i) st1 st' (acc + n1) total (cst + n1) L C Ec1 G'
                  ltac:(lia) k e Ek Ne)
        as (s1 & s2 & d & ce & ne & Ew & Ece & Cne & H1 & H2 & L1 & L2 & L3).
      exists s1, s2, d, ce, ne.
      replace (i + S k)%nat with (S i + k)%nat by lia.
      repeat split; try assumption; try lia.
      rewrite L1. apply Hhead. lia.
Qed.

(** The same for [writeArray]. *)
Lemma writeArray_elements (nested_type : DataType)
    (writer : VariableLengthDataWriter.Writer)
    (calculator : Field -> Result Z) :
  agree writer calculator ->
  null_free calculator ->
  confined offsets writer calculator ->
  (forall f m, calculator f = Ok m -> 0 <= m) ->
  forall r array p st st' d n o c,
    VariableLengthDataWriter.writeArray nested_type writer offsets r array p
      st = Ok (st', d) ->
    calculateArray nested_type calculator array = Ok n ->
    vector_at offsets r = Ok o ->
    vector_at (cursor st) r = Ok c ->
    isFixedLengthDataType (removeNullable nested_type) = false ->
    0 <= o + c ->
    forall k e,
      nth_error array k = Some e -> isNull e = false ->
      exists s1 s2 d_e ce ne,
        writer r e c s1 = Ok (s2, d_e)
        /\ vector_at (cursor s1) r = Ok ce
        /\ calculator e = Ok ne
        /\ c + 8 + calculateBitSetWidthInBytes (Z.of_nat (length array))
           + roundNumberOfBytesToNearestWord
               (getArrayElementSize nested_type * Z.of_nat (length array))
           <= ce
        /\ ce + ne <= c + n
        /\ load (memory s1) (o + ce) (Z.to_nat ne)
           = load (memory st) (o + ce) (Z.to_nat ne)
        /\ load (memory st') (o + ce) (Z.to_nat ne)
           = load (memory s2) (o + ce) (Z.to_nat ne)
        /\ load (memory st')
             (o + c + 8
              + calculateBitSetWidthInBytes (Z.of_nat (length array))
              + Z.of_nat k * getArrayElementSize nested_type) 8
           = Ok (le_bytes 8 d_e).
Proof.
  intros Ha Hnull Hc Hpos r array p st st' d n o c W C Eo Ec Fx Poc k e Ek Ne.
  pose proof (nth_error_Some_lt _ _ _ Ek) as Hk.
  set (num := Z.of_nat (length array)) in *.
  set (bm := calculateBitSetWidthInBytes num) in *.
  set (es := getArrayElementSize nested_type) in *.
  set (lv := roundNumberOfBytesToNearestWord (es * num)) in *.
  pose proof (getArrayElementSize_not_fixed _ Fx) as E8. fold es in E8.
  pose proof (roundNumberOfBytesToNearestWord_bounds (es * num)) as Pv.
  fold lv in Pv.
  pose proof (calculateBitSetWidthInBytes_nonneg num ltac:(unfold num; lia))
    as Pb.
  fold bm in Pb.
  unfold VariableLengthDataWriter.writeArray in W.
  rewrite Eo, Ec in W. cbn [bind] in W.
  bind_inv W as mem Em. bind_inv W as st1 A1.
  fold num in Em, W.
  pose proof (advance_cursor_at _ _ _ _ c A1 Ec) as Ec1.
  apply advance_inv in A1. destruct A1 as [M1 _].
  cbn [set_memory memory] in M1. subst mem.
  destruct (Z.eqb_spec num 0) as [Z0|NZ]; [ unfold num in Z0; lia | ].
  bind_inv W as st2 A2. bind_inv W as st3 A3. bind_inv W as st4 L.
  bind_inv W as c' Ec'. inv_Ok W.
  pose proof (advance_cursor_at _ _ _ _ _ A2 Ec1) as Ec2.
  pose proof (advance_cursor_at _ _ _ _ _ A3 Ec2) as Ec3.
  apply advance_inv in A2, A3. destruct A2 as [M2 _], A3 as [M3 _].
  assert (M : memory st3 = memory st1) by congruence.
  fold bm es in Ec2, Ec3, L. fold lv in Ec3, L.
  rewrite Fx in L. bind_inv L as tv Ev.
  unfold calculateArray in C. bind_inv C as tw Ect.
  fold num bm es in C. fold lv in C.
  destruct (writeArray_loop_elements writer calculator r o c (o + c + 8)
              (o + c + 8 + bm) es (o + c + 8 + bm + lv)
              Ha Hnull Hc Hpos Eo ltac:(lia) array 0%nat st3 st'
              (8 + bm + lv) n (c + 8 + bm + lv) L C Ec3)
    with (k := k) (e := e)
    as (s1 & s2 & d0 & ce & ne & Ew & Ece & Cne & H1 & H2 & L1 & L2 & L3);
    try assumption.
  - intros j Hj.
    pose proof (bit_word_in_bitmap (Z.of_nat j) num
                  ltac:(unfold num; lia)) as [Wj1 Wj2].
    fold bm in Wj2. unfold num in Pv. lia.
  - lia.
  - exists s1, s2, d0, ce, ne. cbn [Nat.add] in L3.
    repeat split; try assumption; try lia.
    rewrite L1, M.
    apply (load_memcpy_disjoint _ _ _ _ _ _ Em).
    right. rewrite length_le_bytes. change (Z.of_nat 8) with 8. lia.
Qed.

End VariableLoop.

(** X25. The layout of an array that [VariableLengthDataWriter::write]
    has written into bytes that were zero: the number of elements stands
    in the first 8 bytes; the bit of element [k] in the bitmap after them
    tells whether the element is null; an element of fixed length that is
    not null stands in slot [k] of the values, as
    [FixedLengthDataWriter::write] writes it; for another element that is
    not null the slot holds the descriptor that the writer of the elements
    has returned for it, relative to the start of the array. *)
Theorem write_array_layout (nested_type : DataType) (offsets : list Z)
    (r : nat) (array : Array) (p : Z) (st st' : RowBuffer) (d n o c : Z) :
  VariableLengthDataWriter.write (DataTypeArray nested_type) offsets r
    (FArray array) p st = Ok (st', d) ->
  calculate (DataTypeArray nested_type) (FArray array) = Ok n ->
  vector_at offsets r = Ok o ->
  vector_at (cursor st) r = Ok c ->
  load (memory st) (o + c) (Z.to_nat n) = Ok (repeat x00 (Z.to_nat n)) ->
  load (memory st') (o + c) 8 = Ok (le_bytes 8 (Z.of_nat (length array)))
  /\ forall k e,
       nth_error array k = Some e ->
       isBitSet (memory st') (o + c + 8) (Z.of_nat k) = Ok (isNull e)
       /\ (isNull e = false ->
           if isFixedLengthDataType (removeNullable nested_type) then
             exists bs,
               Z.of_nat (length bs) = getArrayElementSize nested_type
               /\ load (memory st')
                    (o + c + 8
                     + calculateBitSetWidthInBytes
                         (Z.of_nat (length array))
                     + Z.of_nat k * getArrayElementSize nested_type)
                    (length bs) = Ok bs
               /\ forall m a,
                    FixedLengthDataWriter.write (removeNullable nested_type)
                      e m a = memcpy m a bs
           else
             exists s1 s2 d_e ce ne,
               VariableLengthDataWriter.write (removeNullable nested_type)
                 offsets r e c s1 = Ok (s2, d_e)
               /\ vector_at (cursor s1) r = Ok ce
               /\ calculate (removeNullable nested_type) e = Ok ne
               /\ c + 8
                  + calculateBitSetWidthInBytes (Z.of_nat (length array))
                  + roundNumberOfBytesToNearestWord
                      (getArrayElementSize nested_type
                       * Z.of_nat (length array)) <= ce
               /\ ce + ne <= c + n
               /\ load (memory s1) (o + ce) (Z.to_nat ne)
                  = Ok (repeat x00 (Z.to_nat ne))
               /\ load (memory st') (o + ce) (Z.to_nat ne)
                  = load (memory s2) (o + ce) (Z.to_nat ne)
               /\ load (memory st')
                    (o + c + 8
                     + calculateBitSetWidthInBytes
                         (Z.of_nat (length array))
                     + Z.of_nat k * getArrayElementSize nested_type)
                    8 = Ok (le_bytes 8 d_e)).
Proof.
  intros W C Eo Ec Hz.
  rewrite write_Array_FArray in W. rewrite calculate_Array_FArray in C.
  destruct (writeArray_steps offsets nested_type _ _
              (write_agrees_with_calculate offsets _)
              (calculate_null_free _) (write_confined offsets _)
              (calculate_nonneg _) _ _ _ _ _ _ _ _ _ W C Eo Ec)
    as (mem0 & Em0 & Hdr & Steps).
  set (num := Z.of_nat (length array)) in *.
  set (bm := calculateBitSetWidthInBytes num) in *.
  set (es := getArrayElementSize nested_type) in *.
  set (lv := roundNumberOfBytesToNearestWord (es * num)) in *.
  pose proof (calculateBitSetWidthInBytes_nonneg num ltac:(unfold num; lia))
    as Pb.
  pose proof (roundNumberOfBytesToNearestWord_bounds (es * num)) as Pv.
  fold lv in Pv.
  pose proof (getArrayElementSize_range nested_type) as Hes. fold es in Hes.
  assert (Pn : 0 <= es * num) by (unfold num; nia).
  assert (En : Z.of_nat (Z.to_nat n) = n) by lia.
  assert (Slot : forall j : nat, (j < length array)%nat ->
            0 <= Z.of_nat j * es /\ Z.of_nat j * es + es <= lv).
  { intros j Hj. assert (Z.of_nat j + 1 <= num) by (unfold num; lia).
    assert ((Z.of_nat j + 1) * es <= num * es)
      by (apply Z.mul_le_mono_nonneg_r; lia).
    assert (0 <= Z.of_nat j * es) by (apply Z.mul_nonneg_nonneg; lia).
    lia. }
  assert (Word : forall j : nat, (j < length array)%nat ->
            0 <= Z.shiftr (Z.of_nat j) 6 * 8
            /\ Z.shiftr (Z.of_nat j) 6 * 8 + 8 <= bm).
  { intros j Hj. apply bit_word_in_bitmap. unfold num. lia. }
  set (Wgen := fun (j : nat) (e : Field) (m1 m2 : list byte) =>
                 if isFixedLengthDataType (removeNullable nested_type) then
                   FixedLengthDataWriter.write (removeNullable nested_type)
                     e m1 (o + c + 8 + bm + Z.of_nat j * es) = Ok m2
                 else
                   exists s1 s2 d,
                     VariableLengthDataWriter.write
                       (removeNullable nested_type) offsets r e c s1
                     = Ok (s2, d)
                     /\ memory s1 = m1
                     /\ same_outside m1 (memory s2) (o + c + 8 + bm + lv)
                          (o + c + n)
                     /\ memcpy (memory s2)
                          (o + c + 8 + bm + Z.of_nat j * es) (le_bytes 8 d)
                        = Ok m2) in *.
  (* a write of an element changes its slot and the backing data *)
  assert (Frame : forall j e m1 m2, (j < length array)%nat ->
            Wgen j e m1 m2 ->
            length m2 = length m1
            /\ forall k : nat,
                 Z.of_nat k < o + c + 8 + bm + Z.of_nat j * es
                 \/ o + c + 8 + bm + Z.of_nat j * es + es <= Z.of_nat k ->
                 Z.of_nat k < o + c + 8 + bm + lv
                 \/ o + c + n <= Z.of_nat k ->
                 nth_error m2 k = nth_error m1 k).
  { intros j e m1 m2 Hj Hw. unfold Wgen in Hw.
    destruct (isFixedLengthDataType (removeNullable nested_type)) eqn:Fx.
    - apply FixedLengthDataWriter_write_same_outside in Hw.
      destruct Hw as [[L K] _].
      rewrite (getArrayElementSize_fixed _ Fx) in K. fold es in K.
      split; [ exact L | ]. intros k K1 _. apply K. exact K1.
    - destruct Hw as (s1 & s2 & d0 & _ & _ & [L1 K1] & Emc).
      apply memcpy_same_outside in Emc. rewrite length_le_bytes in Emc.
      change (Z.of_nat 8) with 8 in Emc. destruct Emc as [L2 K2].
      pose proof (getArrayElementSize_not_fixed _ Fx) as E8.
      fold es in E8.
      split; [ congruence | ]. intros k Ka Kb.
      rewrite K2 by lia. apply K1. exact Kb. }
  assert (KeepLoad : forall (a : Z) (len : nat) (sub : Array) (i : nat)
                       (ma mb : list byte),
            array_steps (o + c + 8) Wgen i sub ma mb ->
            (i + length sub <= length array)%nat ->
            a + Z.of_nat len <= o + c + 8
            \/ (o + c + 8 + bm <= a
                /\ a + Z.of_nat len <= o + c + 8 + bm + lv
                /\ forall j : nat, (i <= j < i + length sub)%nat ->
                     a + Z.of_nat len
                     <= o + c + 8 + bm + Z.of_nat j * es
                     \/ o + c + 8 + bm + Z.of_nat j * es + es <= a) ->
            load mb a len = load ma a len).
  { intros a len sub i ma mb Ss Hsub Ha.
    apply (array_steps_keeps _ _ (fun m => load m a len = load ma a len)
             _ _ _ _ Ss); [ | | reflexivity ].
    - intros j m1 m2 Hj Hb Pm1. rewrite <- Pm1.
      apply bitSet_same_outside in Hb.
      apply (load_same_outside _ _ _ _ _ _ Hb).
      destruct (Word j ltac:(lia)). lia.
    - intros j e m1 m2 Hj Hw Pm1. rewrite <- Pm1.
      destruct (Frame j e m1 m2 ltac:(lia) Hw) as [L K].
      apply load_unchanged; [ exact L | ].
      intros k Hk. destruct (Slot j ltac:(lia)).
      destruct Ha as [Ha|(Ha1 & Ha2 & Ha3)].
      + apply K; lia.
      + specialize (Ha3 j Hj). apply K; lia. }
  assert (KeepBit : forall (b : nat) (sub : Array) (i : nat)
                      (ma mb : list byte),
            array_steps (o + c + 8) Wgen i sub ma mb ->
            (i + length sub <= length array)%nat ->
            (b < length array)%nat ->
            (b < i \/ i + length sub <= b)%nat ->
            isBitSet mb (o + c + 8) (Z.of_nat b)
            = isBitSet ma (o + c + 8) (Z.of_nat b)).
  { intros b sub i ma mb Ss Hsub Hb Hout.
    apply (array_steps_keeps _ _
             (fun m => isBitSet m (o + c + 8) (Z.of_nat b)
                       = isBitSet ma (o + c + 8) (Z.of_nat b))
             _ _ _ _ Ss); [ | | reflexivity ].
    - intros j m1 m2 Hj Hbit Pm1. rewrite <- Pm1.
      apply isBitSet_bitSet in Hbit. destruct Hbit as [_ K].
      apply K. lia.
    - intros j e m1 m2 Hj Hw Pm1. rewrite <- Pm1.
      destruct (Frame j e m1 m2 ltac:(lia) Hw) as [L K].
      apply isBitSet_unchanged; [ exact L | ].
      intros k Hk. destruct (Slot j ltac:(lia)).
      destruct (Word b Hb). apply K; lia. }
  split.
  - rewrite (KeepLoad (o + c) 8%nat array 0%nat mem0 (memory st') Steps)
      by (try (left; change (Z.of_nat 8) with 8); lia).
    pose proof (load_memcpy_same _ _ _ _ Em0) as L0.
    rewrite length_le_bytes in L0. exact L0.
  - intros k e Ek.
    pose proof (nth_error_Some_lt _ _ _ Ek) as Hk.
    destruct (Word k Hk) as [Wk1 Wk2]. destruct (Slot k Hk) as [Sk1 Sk2].
    destruct (array_steps_nth _ _ _ _ _ _ k e Steps Ek)
      as (m1 & m2 & Sa & Sk & Sb).
    cbn [Nat.add] in Sk, Sb.
    assert (La : (0 + length (firstn k array) <= length array)%nat)
      by (rewrite length_firstn; lia).
    assert (Lb : (S k + length (skipn (S k) array) <= length array)%nat)
      by (rewrite length_skipn; lia).
    assert (B1 : isBitSet m1 (o + c + 8) (Z.of_nat k) = Ok false).
    { rewrite (KeepBit k _ _ _ _ Sa La Hk)
        by (rewrite length_firstn; lia).
      apply memcpy_same_outside in Em0. rewrite length_le_bytes in Em0.
      change (Z.of_nat 8) with 8 in Em0.
      rewrite (isBitSet_same_outside _ _ _ _ _ _ Em0) by lia.
      apply (isBitSet_zero_region _ (o + c) (Z.to_nat n)); [ exact Hz | | ];
        lia. }
    split.
    + rewrite (KeepBit k _ _ _ _ Sb Lb Hk) by lia.
      destruct (isNull e) eqn:Ne.
      * apply isBitSet_bitSet in Sk. apply Sk.
      * destruct (Frame k e m1 m2 Hk Sk) as [L K].
        rewrite <- B1. apply isBitSet_unchanged; [ exact L | ].
        intros j Hj. apply K; lia.
    + intros Ne. rewrite Ne in Sk. unfold Wgen in Sk.
      destruct (isFixedLengthDataType (removeNullable nested_type)) eqn:Fx.
      * destruct (FixedLengthDataWriter_write_bytes _ _ _ _ _ Sk Ne)
          as (bs & Lbs & Hbs).
        rewrite (getArrayElementSize_fixed _ Fx) in Lbs. fold es in Lbs.
        exists bs. split; [ exact Lbs | ]. split; [ | exact Hbs ].
        rewrite Hbs in Sk.
        rewrite (KeepLoad _ _ _ _ _ _ Sb Lb).
        -- apply (load_memcpy_same _ _ _ _ Sk).
        -- right. split; [ lia | ]. split; [ lia | ].
           intros j Hj. left.
           assert ((Z.of_nat k + 1) * es <= Z.of_nat j * es)
             by (apply Z.mul_le_mono_nonneg_r; lia).
           lia.
      * clear Sk.
        destruct (load_inv _ _ _ _ Hz) as [Z1 _].
        destruct (writeArray_elements offsets nested_type _ _
                    (write_agrees_with_calculate offsets _)
                    (calculate_null_free _) (write_confined offsets _)
                    (calculate_nonneg _) _ _ _ _ _ _ _ _ _ W C Eo Ec Fx Z1
                    k e Ek Ne)
          as (s1 & s2 & d0 & ce & ne & Ew & Ece & Cne & H1 & H2 & L1 & L2
              & L3).
        pose proof (calculate_nonneg _ _ _ Cne) as Pne.
        exists s1, s2, d0, ce, ne.
        fold num bm es in H1, L3. fold lv in H1.
        repeat split; try assumption.
        rewrite L1.
        apply (load_sub_zeros _ (o + c) (Z.to_nat n)); [ exact Hz | | ];
          lia.
Qed.

Lemma write_array_layout_witness :
  let nested_type := DataTypeNullable DataTypeInt32 in
  let array := [FInt64 1; FNull] in
  let st' :=
    mkRowBuffer
      [x00; x00; x00; x00; x00; x00; x00; x00;
       x00; x00; x00; x00; x00; x00; x00; x00;
       x02; x00; x00; x00; x00; x00; x00; x00;
       x02; x00; x00; x00; x00; x00; x00; x00;
       x01; x00; x00; x00; x00; x00; x00; x00] [40] in
  load (memory st') (0 + 16) 8 = Ok (le_bytes 8 (Z.of_nat (length array)))
  /\ forall k e,
       nth_error array k = Some e ->
       isBitSet (memory st') (0 + 16 + 8) (Z.of_nat k) = Ok (isNull e)
       /\ (isNull e = false ->
           if isFixedLengthDataType (removeNullable nested_type) then
             exists bs,
               Z.of_nat (length bs) = getArrayElementSize nested_type
               /\ load (memory st')
                    (0 + 16 + 8
                     + calculateBitSetWidthInBytes
                         (Z.of_nat (length array))
                     + Z.of_nat k * getArrayElementSize nested_type)
                    (length bs) = Ok bs
               /\ forall m a,
                    FixedLengthDataWriter.write (removeNullable nested_type)
                      e m a = memcpy m a bs
           else
             exists s1 s2 d_e ce ne,
               VariableLengthDataWriter.write (removeNullable nested_type)
                 [0] 0 e 16 s1 = Ok (s2, d_e)
               /\ vector_at (cursor s1) 0 = Ok ce
               /\ calculate (removeNullable nested_type) e = Ok ne
               /\ 16 + 8
                  + calculateBitSetWidthInBytes (Z.of_nat (length array))
                  + roundNumberOfBytesToNearestWord
                      (getArrayElementSize nested_type
                       * Z.of_nat (length array)) <= ce
               /\ ce + ne <= 16 + 24
               /\ load (memory s1) (0 + ce) (Z.to_nat ne)
                  = Ok (repeat x00 (Z.to_nat ne))
               /\ load (memory st') (0 + ce) (Z.to_nat ne)
                  = load (memory s2) (0 + ce) (Z.to_nat ne)
               /\ load (memory st')
                    (0 + 16 + 8
                     + calculateBitSetWidthInBytes
                         (Z.of_nat (length array))
                     + Z.of_nat k * getArrayElementSize nested_type)
                    8 = Ok (le_bytes 8 d_e)).
Proof.
  intros nested_type array st'.
  apply (write_array_layout nested_type [0] 0 array 0
           (mkRowBuffer (repeat x00 40) [16]) st' 68719476760 24 0 16);
    reflexivity.
Defined.

Import WhichDataType.
Import BackingDataLengthCalculator.

(** ** The layout of a map *)

(** X26. The layout of a map that [VariableLengthDataWriter::write] has
    written into bytes that were zero: 8 bytes that hold the size of the
    key array, then the array of the keys, then the array of the values.
    Both arrays are written by the writer of arrays, each into bytes that
    were still zero; the write of the values and the store of the size
    leave the key array as it was written. *)
Theorem write_map_layout (key_type val_type : DataType) (offsets : list Z)
    (r : nat) (map : Map) (p : Z) (st st' : RowBuffer) (d n o c : Z) :
  VariableLengthDataWriter.write (DataTypeMap key_type val_type) offsets r
    (FMap map) p st = Ok (st', d) ->
  calculate (DataTypeMap key_type val_type) (FMap map) = Ok n ->
  vector_at offsets r = Ok o ->
  vector_at (cursor st) r = Ok c ->
  load (memory st) (o + c) (Z.to_nat n) = Ok (repeat x00 (Z.to_nat n)) ->
  exists keys vals nk nv st1 st2 kd st3 vd,
    splitMap map = Ok (keys, vals)
    /\ calculate (DataTypeArray key_type) (FArray keys) = Ok nk
    /\ calculate (DataTypeArray val_type) (FArray vals) = Ok nv
    /\ n = 8 + nk + nv
    /\ load (memory st') (o + c) 8 = Ok (le_bytes 8 (extractSize kd))
    /\ kd = getOffsetAndSize 0 nk
    /\ VariableLengthDataWriter.write (DataTypeArray key_type) offsets r
         (FArray keys) (c + 8) st1 = Ok (st2, kd)
    /\ vector_at (cursor st1) r = Ok (c + 8)
    /\ load (memory st1) (o + (c + 8)) (Z.to_nat nk)
       = Ok (repeat x00 (Z.to_nat nk))
    /\ load (memory st') (o + (c + 8)) (Z.to_nat nk)
       = load (memory st2) (o + (c + 8)) (Z.to_nat nk)
    /\ VariableLengthDataWriter.write (DataTypeArray val_type) offsets r
         (FArray vals) (c + 8 + extractSize kd) st3 = Ok (st', vd)
    /\ vector_at (cursor st3) r = Ok (c + 8 + nk)
    /\ load (memory st3) (o + (c + 8 + nk)) (Z.to_nat nv)
       = Ok (repeat x00 (Z.to_nat nv)).
Proof.
  intros W C Eo Ec Hz.
  rewrite write_Map in W by reflexivity.
  rewrite calculate_Map in C by reflexivity.
  cbn [safeGet_Map bind] in W, C.
  unfold VariableLengthDataWriter.writeMap in W. unfold calculateMap in C.
  rewrite Eo, Ec in W. cbn [bind] in W.
  bind_inv W as st1 A1.
  bind_inv W as kv Ekv. destruct kv as [ks vs].
  bind_inv W as sk Wk. destruct sk as [st2 dk].
  bind_inv W as mem Em. bind_inv W as sv Wv. destruct sv as [st4 dv].
  bind_inv W as c' Ec'. inv_Ok W.
  bind_inv C as kv' Ekv'. rewrite Ekv in Ekv'. inv_Ok Ekv'.
  bind_inv C as nk Ck. bind_inv C as nv Cv. inv_Ok C.
  rewrite <- write_Array_FArray in Wk, Wv.
  rewrite <- calculate_Array_FArray in Ck, Cv.
  pose proof (advance_cursor_at _ _ _ _ _ A1 Ec) as Ec1.
  apply advance_inv in A1. destruct A1 as [M1 _].
  pose proof (write_agrees_with_calculate offsets _ _ _ _ _ _ _ _ Wk Ck)
    as Ak.
  pose proof (advanced_cursor_at _ _ _ _ _ Ak Ec1) as Ec2.
  pose proof (write_confined offsets _ _ _ _ _ _ _ _ _ _ Wk Ck Eo Ec1)
    as Fk.
  pose proof (write_confined offsets _ _ _ _ _ _ _ _ _ _ Wv Cv Eo
                (Ec2 : vector_at (cursor (set_memory st2 mem)) r = _))
    as Fv.
  cbn [set_memory memory] in Fv.
  pose proof (calculate_nonneg _ _ _ Ck) as Pk.
  pose proof (calculate_nonneg _ _ _ Cv) as Pv.
  pose proof (write_composite_descriptor (DataTypeArray key_type) _ _
                (FArray ks) _ _ _ _ _ _ eq_refl eq_refl Wk Ck Ec1 eq_refl)
    as Ed.
  rewrite Z.sub_diag in Ed.
  destruct (load_inv _ _ _ _ Hz) as [Z1 Z2].
  pose proof (memcpy_same_outside _ _ _ _ Em) as Fm.
  rewrite length_le_bytes in Fm. change (Z.of_nat 8) with 8 in Fm.
  exists ks, vs, nk, nv, st1, st2, dk, (set_memory st2 mem), dv.
  repeat split; try assumption.
  - rewrite (load_same_outside _ _ _ _ _ _ Fv)
      by (left; change (Z.of_nat 8) with 8; lia).
    pose proof (load_memcpy_same _ _ _ _ Em) as L0.
    rewrite length_le_bytes in L0. exact L0.
  - rewrite M1.
    apply (load_sub_zeros _ (o + c) (Z.to_nat (8 + nk + nv)));
      [ exact Hz | | ]; lia.
  - rewrite (load_same_outside _ _ _ _ _ _ Fv) by (left; lia).
    apply (load_same_outside _ _ _ _ _ _ Fm). right. lia.
  - cbn [set_memory memory].
    rewrite (load_same_outside _ _ _ _ _ _ Fm) by (right; lia).
    rewrite (load_same_outside _ _ _ _ _ _ Fk) by (right; lia).
    rewrite M1.
    apply (load_sub_zeros _ (o + c) (Z.to_nat (8 + nk + nv)));
      [ exact Hz | | ]; lia.
Qed.

Lemma write_map_layout_witness :
  let map := [FTuple [FInt64 1; FString [x61]]] in
  let st' :=
    mkRowBuffer
      [x18; x00; x00; x00; x00; x00; x00; x00;
       x01; x00; x00; x00; x00; x00; x00; x00;
       x00; x00; x00; x00; x00; x00; x00; x00;
       x01; x00; x00; x00; x00; x00; x00; x00;
       x01; x00; x00; x00; x00; x00; x00; x00;
       x00; x00; x00; x00; x00; x00; x00; x00;
       x01; x00; x00; x00; x18; x00; x00; x00;
       x61; x00; x00; x00; x00; x00; x00; x00] [64] in
  exists keys vals nk nv st1 st2 kd st3 vd,
    splitMap map = Ok (keys, vals)
    /\ calculate (DataTypeArray DataTypeInt32) (FArray keys) = Ok nk
    /\ calculate (DataTypeArray DataTypeString) (FArray vals) = Ok nv
    /\ 64 = 8 + nk + nv
    /\ load (memory st') (0 + 0) 8 = Ok (le_bytes 8 (extractSize kd))
    /\ kd = getOffsetAndSize 0 nk
    /\ VariableLengthDataWriter.write (DataTypeArray DataTypeInt32) [0] 0
         (FArray keys) (0 + 8) st1 = Ok (st2, kd)
    /\ vector_at (cursor st1) 0 = Ok (0 + 8)
    /\ load (memory st1) (0 + (0 + 8)) (Z.to_nat nk)
       = Ok (repeat x00 (Z.to_nat nk))
    /\ load (memory st') (0 + (0 + 8)) (Z.to_nat nk)
       = load (memory st2) (0 + (0 + 8)) (Z.to_nat nk)
    /\ VariableLengthDataWriter.write (DataTypeArray DataTypeString) [0] 0
         (FArray vals) (0 + 8 + extractSize kd) st3 = Ok (st', vd)
    /\ vector_at (cursor st3) 0 = Ok (0 + 8 + nk)
    /\ load (memory st3) (0 + (0 + 8 + nk)) (Z.to_nat nv)
       = Ok (repeat x00 (Z.to_nat nv)).
Proof.
  intros map st'.
  apply (write_map_layout DataTypeInt32 DataTypeString [0] 0 map 0
           (mkRowBuffer (repeat x00 64) [0]) st' 64 64 0 0);
    reflexivity.
Defined.

Import WhichDataType.
Import BackingDataLengthCalculator.

(** ** The layout of a struct *)

Section StructLoop.

Variable offsets : list Z.
Variable wf : DataType -> VariableLengthDataWriter.Writer.
Variable cf : DataType -> Field -> Result Z.
Variable r : nat.
Variable tuple : Tuple.
Variable o bitmap start slots : Z.
Variable all_types : list DataType.

(** What the writers of the fields are known to do. *)
Local Abbreviation well_behaved ts :=
  (Forall (fun t =>
             agree (wf t) (cf t) /\ null_free (cf t)
             /\ confined offsets (wf t) (cf t)
             /\ (forall f m, cf t f = Ok m -> 0 <= m)
             /\ (isFixedLengthDataType (removeNullable t) = true ->
                 measures_nothing (cf t))) ts).

Local Abbreviation write_loop first ts st0 :=
  (for_each first (List.map (fun t => (t, wf t)) ts)
     (fun i '(field_type, writer) st =>
        field_value <- vector_at tuple i ;;
        if isNull field_value then
          mem <- bitSet (memory st) bitmap (Z.of_nat i) ;;
          Ok (set_memory st mem)
        else if isFixedLengthDataType (removeNullable field_type) then
          fixed <- FixedLengthDataWriter.ctor field_type ;;
          mem <- FixedLengthDataWriter.write fixed field_value (memory st)
                   (slots + Z.of_nat i * 8) ;;
          Ok (set_memory st mem)
        else
          _ <- VariableLengthDataWriter.ctor field_type ;;
          ' (st, offset_and_size) <- writer r field_value start st ;;
          mem <- memcpy (memory st) (slots + 8 * Z.of_nat i)
                   (le_bytes 8 offset_and_size) ;;
          Ok (set_memory st mem)) st0).

Local Abbreviation measure_loop first ts acc :=
  (for_each first (List.map (fun t => (t, cf t)) ts)
     (fun i '(field_type, calculator) res =>
        _ <- BackingDataLengthCalculator.ctor field_type ;;
        field_value <- vector_at tuple i ;;
        n <- calculator field_value ;;
        Ok (res + n)) acc).

(** The write of the field at index [j] that is not null: a value of fixed
    length goes to the slot of the field; another value is written at the
    cursor, between [LO] and [HI], and its descriptor goes to the slot. *)
Local Abbreviation field_step LO HI :=
  (fun (j : nat) (e : Field) (m1 m2 : list byte) =>
     exists t,
       nth_error all_types j = Some t
       /\ if isFixedLengthDataType (removeNullable t) then
            FixedLengthDataWriter.write (removeNullable t) e m1
              (slots + Z.of_nat j * 8) = Ok m2
          else
            exists s1 s2 d,
              wf t r e start s1 = Ok (s2, d)
              /\ memory s1 = m1
              /\ same_outside m1 (memory s2) LO HI
              /\ memcpy (memory s2) (slots + 8 * Z.of_nat j) (le_bytes 8 d)
                 = Ok m2).

Lemma writeStruct_loop_steps (LO HI : Z) :
  vector_at offsets r = Ok o ->
  forall (ts : list DataType),
    well_behaved ts ->
    forall (i : nat) (st st' : RowBuffer) (acc total cst : Z),
      write_loop i ts st = Ok st' ->
      measure_loop i ts acc = Ok total ->
      vector_at (cursor st) r = Ok cst ->
      (forall k t, nth_error ts k = Some t ->
         nth_error all_types (i + k) = Some t) ->
      LO <= o + cst -> o + cst + (total - acc) <= HI ->
      exists vs,
        length vs = length ts
        /\ (forall k e, nth_error vs k = Some e ->
              nth_error tuple (i + k) = Some e)
        /\ array_steps bitmap (field_step LO HI) i vs (memory st)
             (memory st').
Proof.
  intros Eo.
  induction 1 as [|t ts (Ha & Hnull & Hc & Hpos & Hfix) F IH];
    intros i st st' acc total cst L C Ec T Hlo Hhi;
    cbn [for_each List.map] in L, C.
  - inv_Ok L. exists []. split; [ reflexivity | ].
    split; [ intros [|k] e E; discriminate E | reflexivity ].
  - bind_inv L as st1 S1. bind_inv C as acc1 Ce.
    bind_inv Ce as tc Etc. bind_inv Ce as fv Ev. bind_inv Ce as n1 Cn.
    inv_Ok Ce.
    pose proof (Hpos _ _ Cn) as Pn.
    assert (Mono : acc + n1 <= total).
    { eapply (calculateTuple_loop_nonneg
                (List.map (fun t => (t, cf t)) ts)); [ | exact C ].
      apply Forall_map. eapply Forall_impl; [ | exact F ].
      cbn [snd]. intros t' (_ & _ & _ & P & _). exact P. }
    assert (T0 : nth_error all_types i = Some t).
    { rewrite <- (Nat.add_0_r i). apply T. reflexivity. }
    assert (T' : forall k t', nth_error ts k = Some t' ->
                   nth_error all_types (S i + k) = Some t').
    { intros k t' E. replace (S i + k)%nat with (i + S k)%nat by lia.
      apply T. exact E. }
    rewrite Ev in S1. cbn [bind] in S1.
    assert (Step : exists c1 a1,
               vector_at (cursor st1) r = Ok c1
               /\ write_loop (S i) ts st1 = Ok st'
               /\ measure_loop (S i) ts a1 = Ok total
               /\ LO <= o + c1 /\ o + c1 + (total - a1) <= HI
               /\ (if isNull fv
                   then bitSet (memory st) bitmap (Z.of_nat i)
                        = Ok (memory st1)
                   else field_step LO HI i fv (memory st) (memory st1))).
    { destruct (isNull fv) eqn:Ne.
      - bind_inv S1 as mem Em. inv_Ok S1.
        rewrite (Hnull fv n1 Ne Cn) in *.
        exists cst, (acc + 0). cbn [set_memory memory cursor].
        repeat split; try assumption; lia.
      - destruct (isFixedLengthDataType (removeNullable t)) eqn:Fx.
        + bind_inv S1 as fixed Ef. bind_inv S1 as mem Em. inv_Ok S1.
          rewrite (Hfix eq_refl fv n1 Cn) in *.
          unfold FixedLengthDataWriter.ctor in Ef. rewrite Fx in Ef.
          cbn [negb] in Ef. inv_Ok Ef.
          exists cst, (acc + 0). cbn [set_memory memory cursor].
          repeat split; try assumption; try lia.
          exists t. rewrite Fx. auto.
        + bind_inv S1 as tv Etv. bind_inv S1 as sd Ew.
          destruct sd as [s1 d].
          bind_inv S1 as mem Em. inv_Ok S1.
          pose proof (Hc _ _ _ _ _ _ _ _ _ Ew Cn Eo Ec) as F1.
          pose proof (Ha _ _ _ _ _ _ _ Ew Cn) as Adv.
          pose proof (advanced_cursor_at _ _ _ _ _ Adv Ec) as Ec1.
          exists (cst + n1), (acc + n1). cbn [set_memory memory cursor].
          repeat split; try assumption; try lia.
          exists t. rewrite Fx. split; [ exact T0 | ].
          exists st, s1, d. repeat split; try assumption.
          * destruct F1 as [F1 _]. exact F1.
          * intros k Hk. destruct F1 as [_ F1]. apply F1. lia. }
    destruct Step as (c1 & a1 & Ec1 & L1 & C1 & Hlo1 & Hhi1 & S0).
    destruct (IH (S i) st1 st' a1 total c1 L1 C1 Ec1 T' Hlo1 Hhi1)
      as (vs & Lvs & Hvs & Steps).
    exists (fv :: vs). cbn [length]. split; [ lia | ]. split.
    + intros [|k] e E; cbn [nth_error] in E.
      * inversion E; subst e. rewrite Nat.add_0_r.
        apply vector_at_Ok. exact Ev.
      * replace (i + S k)%nat with (S i + k)%nat by lia. apply Hvs.
        exact E.
    + cbn [array_steps]. exists (memory st1). split; [ exact S0 | ].
      exact Steps.
Qed.

(** The fields of variable length that the loop of [writeStruct] writes:
    each is written at the cursor, after the fields before it; the bytes of
    its region were untouched until then and are not touched afterwards;
    and its descriptor stands in the slot of the field. *)
Lemma writeStruct_loop_fields (FE : Z) :
  vector_at offsets r = Ok o ->
  forall (ts : list DataType),
    well_behaved ts ->
    forall (i : nat) (st st' : RowBuffer) (acc total cst : Z),
      write_loop i ts st = Ok st' ->
      measure_loop i ts acc = Ok total ->
      vector_at (cursor st) r = Ok cst ->
      (forall k t, nth_error ts k = Some t ->
         nth_error all_types (i + k) = Some t) ->
      (forall j, (i <= j < i + length ts)%nat ->
         bitmap + Z.shiftr (Z.of_nat j) 6 * 8 + 8 <= slots
         /\ slots + 8 * Z.of_nat j + 8 <= FE) ->
      FE <= o + cst ->
      forall k t e,
        nth_error ts k = Some t ->
        nth_error tuple (i + k) = Some e ->
        isNull e = false ->
        isFixedLengthDataType (removeNullable t) = false ->
        exists s1 s2 d ce ne,
          wf t r e start s1 = Ok (s2, d)
          /\ vector_at (cursor s1) r = Ok ce
          /\ cf t e = Ok ne
          /\ cst <= ce /\ ce + ne <= cst + (total - acc)
          /\ load (memory s1) (o + ce) (Z.to_nat ne)
             = load (memory st) (o + ce) (Z.to_nat ne)
          /\ load (memory st') (o + ce) (Z.to_nat ne)
             = load (memory s2) (o + ce) (Z.to_nat ne)
          /\ load (memory st') (slots + 8 * Z.of_nat (i + k)) 8
             = Ok (le_bytes 8 d).
Proof.
  intros Eo.
  induction 1 as [|t0 ts (Ha & Hnull & Hc & Hpos & Hfix) F IH];
    intros i st st' acc total cst L C Ec T G Hfe k t e Ek Et Ne Fx.
  - destruct k; discriminate Ek.
  - cbn [for_each List.map] in L, C.
    bind_inv L as st1 S1. bind_inv C as acc1 Ce.
    bind_inv Ce as tc Etc. bind_inv Ce as fv Ev. bind_inv Ce as n1 Cn.
    inv_Ok Ce.
    pose proof (Hpos _ _ Cn) as Pn.
    assert (Mono : acc + n1 <= total).
    { eapply (calculateTuple_loop_nonneg
                (List.map (fun t => (t, cf t)) ts)); [ | exact C ].
      apply Forall_map. eapply Forall_impl; [ | exact F ].
      cbn [snd]. intros t' (_ & _ & _ & P & _). exact P. }
    destruct (G i ltac:(cbn [length]; lia)) as [G1 G2].
    assert (G' : forall j, (S i <= j < S i + length ts)%nat ->
                   bitmap + Z.shiftr (Z.of_nat j) 6 * 8 + 8 <= slots
                   /\ slots + 8 * Z.of_nat j + 8 <= FE).
    { intros j Hj. apply G. cbn [length]. lia. }
    assert (T' : forall k t', nth_error ts k = Some t' ->
                   nth_error all_types (S i + k) = Some t').
    { intros k' t' E. replace (S i + k')%nat with (i + S k')%nat by lia.
      apply T. exact E. }
    rewrite Ev in S1. cbn [bind] in S1.
    (* what the rest of the loop keeps *)
    assert (Rest : forall (s : RowBuffer) (c1 a1 : Z),
              write_loop (S i) ts s = Ok st' ->
              measure_loop (S i) ts a1 = Ok total ->
              vector_at (cursor s) r = Ok c1 ->
              FE <= o + c1 ->
              forall (a : Z) (n : nat),
                (FE <= a /\ a + Z.of_nat n <= o + c1)
                \/ (a = slots + 8 * Z.of_nat i /\ n = 8%nat) ->
                load (memory st') a n = load (memory s) a n).
    { intros s c1 a1 Ls Cs Ecs Hfe1 a n Hr.
      destruct (writeStruct_loop_steps (o + c1) (o + c1 + (total - a1))
                  Eo ts F (S i) s st' a1 total c1 Ls Cs Ecs T'
                  ltac:(lia) ltac:(lia)) as (vs & Lvs & _ & Steps).
      apply (array_steps_keeps _ _
               (fun m => load m a n = load (memory s) a n)
               _ _ _ _ Steps); [ | | reflexivity ].
      - intros j m1 m2 Hj Hb Pm1. rewrite <- Pm1.
        apply bitSet_same_outside in Hb.
        apply (load_same_outside _ _ _ _ _ _ Hb).
        destruct (G' j ltac:(lia)) as [Gj1 Gj2].
        destruct Hr as [[Hr1 Hr2]|[-> ->]].
        + right. lia.
        + right. lia.
      - intros j x m1 m2 Hj (tj & _ & Hw) Pm1. rewrite <- Pm1.
        destruct (G' j ltac:(lia)) as [Gj1 Gj2].
        destruct (isFixedLengthDataType (removeNullable tj)).
        + apply FixedLengthDataWriter_write_same_outside in Hw.
          destruct Hw as [Fa _].
          pose proof (getArrayElementSize_range (removeNullable tj)).
          apply (load_same_outside _ _ _ _ _ _ Fa).
          destruct Hr as [[Hr1 Hr2]|[-> ->]].
          * right. lia.
          * left. change (Z.of_nat 8) with 8. lia.
        + destruct Hw as (sa & sb & dx & _ & _ & Fa & Emc).
          apply memcpy_same_outside in Emc. rewrite length_le_bytes in Emc.
          change (Z.of_nat 8) with 8 in Emc.
          rewrite (load_same_outside _ _ _ _ _ _ Emc).
          * apply (load_same_outside _ _ _ _ _ _ Fa).
            destruct Hr as [[Hr1 Hr2]|[-> ->]].
            -- left. lia.
            -- left. change (Z.of_nat 8) with 8. lia.
          * destruct Hr as [[Hr1 Hr2]|[-> ->]].
            -- right. lia.
            -- left. change (Z.of_nat 8) with 8. lia. }
    destruct k as [|k]; cbn [nth_error] in Ek.
    + inversion Ek; subst t0; clear Ek.
      rewrite Nat.add_0_r in Et. apply vector_at_Ok in Et.
      rewrite Et in Ev. inv_Ok Ev.
      rewrite Ne, Fx in S1.
      bind_inv S1 as tv Etv. bind_inv S1 as sd Ew. destruct sd as [s1 d].
      bind_inv S1 as mem Em. inv_Ok S1.
      pose proof (Ha _ _ _ _ _ _ _ Ew Cn) as Adv.
      pose proof (advanced_cursor_at _ _ _ _ _ Adv Ec) as Ec1.
      exists st, s1, d, cst, n1.
      repeat split; try assumption; try lia.
      * rewrite (Rest (set_memory s1 mem) (cst + n1) (acc + n1) L C Ec1
                   ltac:(lia))
          by (left; lia).
        cbn [set_memory memory].
        apply (load_memcpy_disjoint _ _ _ _ _ _ Em).
        right. rewrite length_le_bytes. change (Z.of_nat 8) with 8. lia.
      * rewrite Nat.add_0_r.
        rewrite (Rest (set_memory s1 mem) (cst + n1) (acc + n1) L C Ec1
                   ltac:(lia))
          by (right; split; reflexivity).
        cbn [set_memory memory].
        pose proof (load_memcpy_same _ _ _ _ Em) as L0.
        rewrite length_le_bytes in L0. exact L0.
    + assert (Head : exists c1,
                vector_at (cursor st1) r = Ok c1
                /\ c1 = cst + n1
                /\ forall (a : Z) (n : nat),
                     o + c1 <= a ->
                     load (memory st1) a n = load (memory st) a n).
      { destruct (isNull fv) eqn:N0.
        - bind_inv S1 as mem Em. inv_Ok S1. cbn [set_memory memory cursor].
          rewrite (Hnull fv n1 N0 Cn). exists cst.
          split; [ exact Ec | ]. split; [ lia | ].
          intros a n Har. apply bitSet_same_outside in Em.
          apply (load_same_outside _ _ _ _ _ _ Em). right. lia.
        - destruct (isFixedLengthDataType (removeNullable t0)) eqn:Fx0.
          + bind_inv S1 as fixed Ef. bind_inv S1 as mem Em. inv_Ok S1.
            cbn [set_memory memory cursor].
            rewrite (Hfix eq_refl fv n1 Cn). exists cst.
            split; [ exact Ec | ]. split; [ lia | ].
            intros a n Har.
            apply FixedLengthDataWriter_write_same_outside in Em.
            destruct Em as [Fa _].
            pose proof (getArrayElementSize_range fixed).
            apply (load_same_outside _ _ _ _ _ _ Fa). right. lia.
          + bind_inv S1 as tv Etv. bind_inv S1 as sd Ew.
            destruct sd as [s1 d].
            bind_inv S1 as mem Em. inv_Ok S1.
            cbn [set_memory memory cursor].
            pose proof (Hc _ _ _ _ _ _ _ _ _ Ew Cn Eo Ec) as F1.
            pose proof (Ha _ _ _ _ _ _ _ Ew Cn) as Adv.
            pose proof (advanced_cursor_at _ _ _ _ _ Adv Ec) as Ec1.
            exists (cst + n1). split; [ exact Ec1 | ].
            split; [ reflexivity | ].
            intros a n Har.
            rewrite (load_memcpy_disjoint _ _ _ _ _ _ Em)
              by (right; rewrite length_le_bytes;
                  change (Z.of_nat 8) with 8; lia).
            apply (load_same_outside _ _ _ _ _ _ F1). right. lia. }
      destruct Head as (c1 & Ec1 & -> & Hhead).
      replace (i + S k)%nat with (S i + k)%nat in Et |- * by lia.
      destruct (IH (S i) st1 st' (acc + n1) total (cst + n1) L C Ec1 T' G'
                  ltac:(lia) k t e Ek Et Ne Fx)
        as (s1 & s2 & d & ce & ne & Ew & Ece & Cne & H1 & H2 & L1 & L2 & L3).
      exists s1, s2, d, ce, ne.
      repeat split; try assumption; try lia.
      rewrite L1. apply Hhead. lia.
Qed.

End StructLoop.

(** X27. The layout of a struct that [VariableLengthDataWriter::write] has
    written into bytes that were zero: the tuple has a value for every
    field; the bit of field [k] in the bitmap at the start tells whether
    the value is null; a value of fixed length that is not null stands in
    the 8-byte slot [k] after the bitmap, as [FixedLengthDataWriter::write]
    writes it and followed by zeros; for another value that is not null the
    slot holds the descriptor that the writer of the field has returned for
    it, relative to the start of the struct, and the value stands after
    the slots, inside the struct. *)
Theorem write_struct_layout (ts : list DataType) (offsets : list Z)
    (r : nat) (tuple : Tuple) (p : Z) (st st' : RowBuffer) (d n o c : Z) :
  VariableLengthDataWriter.write (DataTypeTuple ts) offsets r
    (FTuple tuple) p st = Ok (st', d) ->
  calculate (DataTypeTuple ts) (FTuple tuple) = Ok n ->
  vector_at offsets r = Ok o ->
  vector_at (cursor st) r = Ok c ->
  load (memory st) (o + c) (Z.to_nat n) = Ok (repeat x00 (Z.to_nat n)) ->
  forall k t,
    nth_error ts k = Some t ->
    exists e,
      nth_error tuple k = Some e
      /\ isBitSet (memory st') (o + c) (Z.of_nat k) = Ok (isNull e)
      /\ (isNull e = false ->
          if isFixedLengthDataType (removeNullable t) then
            exists bs,
              (length bs <= 8)%nat
              /\ load (memory st')
                   (o + c + calculateBitSetWidthInBytes (Z.of_nat (length ts))
                    + 8 * Z.of_nat k) 8
                 = Ok (bs ++ repeat x00 (8 - length bs))
              /\ forall m a,
                   FixedLengthDataWriter.write (removeNullable t) e m a
                   = memcpy m a bs
          else
            exists s1 s2 d_e ce ne,
              VariableLengthDataWriter.write (removeNullable t) offsets r e
                c s1 = Ok (s2, d_e)
              /\ vector_at (cursor s1) r = Ok ce
              /\ calculate (removeNullable t) e = Ok ne
              /\ c + calculateBitSetWidthInBytes (Z.of_nat (length ts))
                 + 8 * Z.of_nat (length ts) <= ce
              /\ ce + ne <= c + n
              /\ load (memory s1) (o + ce) (Z.to_nat ne)
                 = Ok (repeat x00 (Z.to_nat ne))
              /\ load (memory st') (o + ce) (Z.to_nat ne)
                 = load (memory s2) (o + ce) (Z.to_nat ne)
              /\ load (memory st')
                   (o + c + calculateBitSetWidthInBytes (Z.of_nat (length ts))
                    + 8 * Z.of_nat k) 8
                 = Ok (le_bytes 8 d_e)).
Proof.
  intros W C Eo Ec Hz k t Ek.
  pose proof (nth_error_Some_lt _ _ _ Ek) as Hk.
  rewrite write_Tuple in W by reflexivity.
  rewrite calculate_Tuple in C by reflexivity.
  cbn [safeGet_Tuple bind] in W, C.
  set (wf := fun (t : DataType) (r : nat) (f : Field) (p : Z)
                 (s : RowBuffer) =>
               VariableLengthDataWriter.write (removeNullable t) offsets r
                 f p s) in *.
  set (cf := fun t : DataType => calculate (removeNullable t)) in *.
  assert (F : Forall (fun t =>
                agree (wf t) (cf t) /\ null_free (cf t)
                /\ confined offsets (wf t) (cf t)
                /\ (forall f m, cf t f = Ok m -> 0 <= m)
                /\ (isFixedLengthDataType (removeNullable t) = true ->
                    measures_nothing (cf t))) ts).
  { apply Forall_forall. intros t0 _. unfold wf, cf.
    split; [ apply write_agrees_with_calculate | ].
    split; [ apply calculate_null_free | ].
    split; [ apply write_confined | ].
    split; [ apply calculate_nonneg | apply calculate_measures_nothing ]. }
  unfold VariableLengthDataWriter.writeStruct in W.
  unfold calculateTuple in C. rewrite length_map in W, C.
  rewrite Eo, Ec in W. cbn [bind] in W.
  set (num := Z.of_nat (length ts)) in *.
  set (bm := calculateBitSetWidthInBytes num) in *.
  destruct (Z.eqb_spec num 0) as [Z0|NZ]; [ unfold num in Z0; lia | ].
  bind_inv W as st1 A1. bind_inv W as st2 A2. bind_inv W as st3 L.
  bind_inv W as c' Ec'. inv_Ok W.
  pose proof (advance_cursor_at _ _ _ _ _ A1 Ec) as Ec1.
  pose proof (advance_cursor_at _ _ _ _ _ A2 Ec1) as Ec2.
  apply advance_inv in A1, A2. destruct A1 as [M1 _], A2 as [M2 _].
  assert (M : memory st2 = memory st) by congruence.
  pose proof (calculateBitSetWidthInBytes_nonneg num ltac:(unfold num; lia))
    as Pb.
  fold bm in Pb.
  assert (Mono : bm + 8 * num <= n).
  { eapply (calculateTuple_loop_nonneg
              (List.map (fun t => (t, cf t)) ts)); [ | exact C ].
    apply Forall_map. eapply Forall_impl; [ | exact F ].
    cbn [snd]. intros t' (_ & _ & _ & P & _). exact P. }
  assert (En : Z.of_nat (Z.to_nat n) = n) by lia.
  assert (Word : forall j : nat, (j < length ts)%nat ->
            0 <= Z.shiftr (Z.of_nat j) 6 * 8
            /\ Z.shiftr (Z.of_nat j) 6 * 8 + 8 <= bm).
  { intros j Hj. apply bit_word_in_bitmap. unfold num. lia. }
  destruct (load_inv _ _ _ _ Hz) as [Z1 _].
  destruct (writeStruct_loop_steps offsets wf cf r tuple o (o + c) c
              (o + c + bm) ts (o + c + bm + 8 * num) (o + c + n)
              Eo ts F 0%nat st2 st' _ n _ L C Ec2
              ltac:(intros ? ? E; exact E) ltac:(lia) ltac:(lia))
    as (vs & Lvs & Hvs & Steps).
  match type of Steps with
  | array_steps _ ?Wf _ _ _ _ => set (Wgen := Wf) in *
  end.
  (* a write of a field changes its slot and the bytes after the slots *)
  assert (Frame : forall j e m1 m2,
            Wgen j e m1 m2 ->
            length m2 = length m1
            /\ forall x : nat,
                 Z.of_nat x < o + c + bm + 8 * Z.of_nat j
                 \/ o + c + bm + 8 * Z.of_nat j + 8 <= Z.of_nat x ->
                 Z.of_nat x < o + c + bm + 8 * num
                 \/ o + c + n <= Z.of_nat x ->
                 nth_error m2 x = nth_error m1 x).
  { intros j e m1 m2 (tj & _ & Hw).
    destruct (isFixedLengthDataType (removeNullable tj)).
    - apply FixedLengthDataWriter_write_same_outside in Hw.
      destruct Hw as [[Lm K] _].
      pose proof (getArrayElementSize_range (removeNullable tj)).
      split; [ exact Lm | ]. intros x K1 _. apply K. lia.
    - destruct Hw as (s1 & s2 & d0 & _ & _ & [L1 K1] & Emc).
      apply memcpy_same_outside in Emc. rewrite length_le_bytes in Emc.
      change (Z.of_nat 8) with 8 in Emc. destruct Emc as [L2 K2].
      split; [ congruence | ]. intros x Ka Kb.
      rewrite K2 by lia. apply K1. exact Kb. }
  assert (KeepLoad : forall (a : Z) (len : nat) (sub : list Field) (i : nat)
                       (ma mb : list byte),
            array_steps (o + c) Wgen i sub ma mb ->
            (i + length sub <= length ts)%nat ->
            o + c + bm <= a ->
            a + Z.of_nat len <= o + c + bm + 8 * num ->
            (forall j : nat, (i <= j < i + length sub)%nat ->
               a + Z.of_nat len <= o + c + bm + 8 * Z.of_nat j
               \/ o + c + bm + 8 * Z.of_nat j + 8 <= a) ->
            load mb a len = load ma a len).
  { intros a len sub i ma mb Ss Hsub Ha1 Ha2 Ha3.
    apply (array_steps_keeps _ _ (fun m => load m a len = load ma a len)
             _ _ _ _ Ss); [ | | reflexivity ].
    - intros j m1 m2 Hj Hb Pm1. rewrite <- Pm1.
      apply bitSet_same_outside in Hb.
      apply (load_same_outside _ _ _ _ _ _ Hb).
      destruct (Word j ltac:(lia)). right. lia.
    - intros j e m1 m2 Hj Hw Pm1. rewrite <- Pm1.
      destruct (Frame j e m1 m2 Hw) as [Lm K].
      apply load_unchanged; [ exact Lm | ].
      intros x Hx. specialize (Ha3 j Hj). apply K; lia. }
  assert (KeepBit : forall (b : nat) (sub : list Field) (i : nat)
                      (ma mb : list byte),
            array_steps (o + c) Wgen i sub ma mb ->
            (i + length sub <= length ts)%nat ->
            (b < length ts)%nat ->
            (b < i \/ i + length sub <= b)%nat ->
            isBitSet mb (o + c) (Z.of_nat b)
            = isBitSet ma (o + c) (Z.of_nat b)).
  { intros b sub i ma mb Ss Hsub Hb Hout.
    apply (array_steps_keeps _ _
             (fun m => isBitSet m (o + c) (Z.of_nat b)
                       = isBitSet ma (o + c) (Z.of_nat b))
             _ _ _ _ Ss); [ | | reflexivity ].
    - intros j m1 m2 Hj Hbit Pm1. rewrite <- Pm1.
      apply isBitSet_bitSet in Hbit. destruct Hbit as [_ K].
      apply K. lia.
    - intros j e m1 m2 Hj Hw Pm1. rewrite <- Pm1.
      destruct (Frame j e m1 m2 Hw) as [Lm K].
      apply isBitSet_unchanged; [ exact Lm | ].
      intros x Hx. destruct (Word b Hb). apply K; lia. }
  destruct (nth_error vs k) as [e|] eqn:Ev;
    [ | apply nth_error_None in Ev; lia ].
  pose proof (Hvs k e Ev) as Et. cbn [Nat.add] in Et.
  exists e. split; [ exact Et | ].
  destruct (Word k Hk) as [Wk1 Wk2].
  destruct (array_steps_nth _ _ _ _ _ _ k e Steps Ev)
    as (m1 & m2 & Sa & Sk & Sb).
  cbn [Nat.add] in Sk, Sb.
  assert (La : (0 + length (firstn k vs) <= length ts)%nat)
    by (rewrite length_firstn; lia).
  assert (Lb : (S k + length (skipn (S k) vs) <= length ts)%nat)
    by (rewrite length_skipn; lia).
  assert (B1 : isBitSet m1 (o + c) (Z.of_nat k) = Ok false).
  { rewrite (KeepBit k _ _ _ _ Sa La Hk)
      by (rewrite length_firstn; lia).
    rewrite M.
    apply (isBitSet_zero_region _ (o + c) (Z.to_nat n)); [ exact Hz | | ];
      lia. }
  split.
  - rewrite (KeepBit k _ _ _ _ Sb Lb Hk) by lia.
    destruct (isNull e) eqn:Ne.
    + apply isBitSet_bitSet in Sk. apply Sk.
    + destruct (Frame k e m1 m2 Sk) as [Lm K].
      rewrite <- B1. apply isBitSet_unchanged; [ exact Lm | ].
      intros j Hj. apply K; lia.
  - intros Ne. rewrite Ne in Sk. destruct Sk as (t' & Ek' & Sk).
    rewrite Ek in Ek'. inversion Ek'; subst t'; clear Ek'.
    destruct (isFixedLengthDataType (removeNullable t)) eqn:Fx.
    + destruct (FixedLengthDataWriter_write_bytes _ _ _ _ _ Sk Ne)
        as (bs & Lbs & Hbs).
      pose proof (getArrayElementSize_range (removeNullable t)) as Hes.
      exists bs. split; [ lia | ]. split; [ | exact Hbs ].
      rewrite Hbs in Sk.
      replace (o + c + bm + Z.of_nat k * 8)
        with (o + c + bm + 8 * Z.of_nat k) in Sk by lia.
      rewrite (KeepLoad _ _ _ _ _ _ Sb Lb)
        by (try (intros j Hj; left); change (Z.of_nat 8) with 8;
            unfold num; lia).
      rewrite <- (skipn_repeat_eq x00 (length bs) 8).
      apply (load_memcpy_prefix _ _ _ _ _ _ Sk); [ | lia ].
      rewrite (KeepLoad _ _ _ _ _ _ Sa La)
        by (try (intros j Hj; right; rewrite length_firstn in Hj);
            change (Z.of_nat 8) with 8; unfold num; lia).
      rewrite M.
      apply (load_sub_zeros _ (o + c) (Z.to_nat n)); [ exact Hz | | ];
        change (Z.of_nat 8) with 8; unfold num in *; lia.
    + clear Sk.
      destruct (writeStruct_loop_fields offsets wf cf r tuple o (o + c) c
                  (o + c + bm) ts (o + c + bm + 8 * num)
                  Eo ts F 0%nat st2 st' _ n _ L C Ec2
                  ltac:(intros ? ? E; exact E))
        with (k := k) (t := t) (e := e)
        as (s1 & s2 & d0 & ce & ne & Ew & Ece & Cne & H1 & H2 & L1 & L2 & L3);
        try assumption.
      * intros j Hj. destruct (Word j ltac:(lia)). unfold num. lia.
      * lia.
      * pose proof (calculate_nonneg _ _ _ Cne) as Pne.
        exists s1, s2, d0, ce, ne. cbn [Nat.add] in L3.
        repeat split; try assumption; try lia.
        rewrite L1, M.
        apply (load_sub_zeros _ (o + c) (Z.to_nat n)); [ exact Hz | | ];
          lia.
Qed.

Lemma write_struct_layout_witness :
  let ts := [DataTypeInt32; DataTypeNullable DataTypeInt32; DataTypeString] in
  let tuple := [FInt64 7; FNull; FString [x61]] in
  let st' :=
    mkRowBuffer
      [x00; x00; x00; x00; x00; x00; x00; x00;
       x00; x00; x00; x00; x00; x00; x00; x00;
       x02; x00; x00; x00; x00; x00; x00; x00;
       x07; x00; x00; x00; x00; x00; x00; x00;
       x00; x00; x00; x00; x00; x00; x00; x00;
       x01; x00; x00; x00; x20; x00; x00; x00;
       x61; x00; x00; x00; x00; x00; x00; x00] [56] in
  exists e,
    nth_error tuple 2 = Some e
    /\ isBitSet (memory st') (0 + 16) (Z.of_nat 2) = Ok (isNull e)
    /\ (isNull e = false ->
        if isFixedLengthDataType (removeNullable DataTypeString) then
          exists bs,
            (length bs <= 8)%nat
            /\ load (memory st')
                 (0 + 16 + calculateBitSetWidthInBytes (Z.of_nat (length ts))
                  + 8 * Z.of_nat 2) 8
               = Ok (bs ++ repeat x00 (8 - length bs))
            /\ forall m a,
                 FixedLengthDataWriter.write (removeNullable DataTypeString)
                   e m a
                 = memcpy m a bs
        else
          exists s1 s2 d_e ce ne,
            VariableLengthDataWriter.write (removeNullable DataTypeString)
              [0] 0 e 16 s1 = Ok (s2, d_e)
            /\ vector_at (cursor s1) 0 = Ok ce
            /\ calculate (removeNullable DataTypeString) e = Ok ne
            /\ 16 + calculateBitSetWidthInBytes (Z.of_nat (length ts))
               + 8 * Z.of_nat (length ts) <= ce
            /\ ce + ne <= 16 + 40
            /\ load (memory s1) (0 + ce) (Z.to_nat ne)
               = Ok (repeat x00 (Z.to_nat ne))
            /\ load (memory st') (0 + ce) (Z.to_nat ne)
               = load (memory s2) (0 + ce) (Z.to_nat ne)
            /\ load (memory st')
                 (0 + 16 + calculateBitSetWidthInBytes (Z.of_nat (length ts))
                  + 8 * Z.of_nat 2) 8
               = Ok (le_bytes 8 d_e)).
Proof.
  intros ts tuple st'.
  apply (write_struct_layout ts [0] 0 tuple 0
           (mkRowBuffer (repeat x00 56) [16]) st' 68719476776 40 0 16
           eq_refl eq_refl eq_refl eq_refl eq_refl 2%nat DataTypeString
           eq_refl).
Defined.

Import WhichDataType.
Import BackingDataLengthCalculator.

(** ** Conversion under a mask *)


